(** * html2md: the output-tree pipeline of [main.go], embedded and verified

    The development follows [main.go]: Go strings are byte lists, the
    [strings] and [path/filepath] helpers the program calls are modelled
    next to the functions that call them, the link rewriter runs on a small
    backtracking matcher for its pattern, and the file-system stages run on
    a tree of directories and files threaded through every operation
    together with the log.

    Conventions.
    - A Go [string] is a [list ascii]; string literals are read through a
      coercion.
    - [path/filepath] is the Unix one: the separator is [/], there are no
      volume names, a backslash is an ordinary byte.
    - [strings.ToLower] first looks whether its argument has a byte of
      [0x80] or above.  On a string without one it maps the bytes [A]..[Z]
      and keeps every other byte: that is [ToLower] below.  On other
      strings it goes through the Unicode tables, which are no part of the
      program; [isASCII] is the test, and the theorems that state what a
      name is in lower case assume it of the name.
    - The file system is case sensitive, has no symbolic links and raises
      no permission or device errors: an operation fails only for the
      structural reasons spelled out at its definition.  Paths are
      absolute and given by their elements. *)

From Stdlib Require Import Ascii String Lia.
From stdpp Require Import base list strings sorting.

Local Open Scope string_scope.
Local Open Scope nat_scope.
Local Open Scope list_scope.

Abbreviation str := (list ascii).
Coercion list_ascii_of_string : string >-> list.

(** ** The [strings] package *)

Module strings.

(** [strings.HasPrefix]. *)
Fixpoint HasPrefix (s prefix : str) {struct prefix} : bool :=
  match prefix, s with
  | [], _ => true
  | p :: prefix', c :: s' => bool_decide (c = p) && HasPrefix s' prefix'
  | _ :: _, [] => false
  end.

(** [strings.HasSuffix]:
    [len(s) >= len(suffix) && s[len(s)-len(suffix):] == suffix]. *)
Definition HasSuffix (s suffix : str) : bool :=
  (length suffix <=? length s)
  && bool_decide (drop (length s - length suffix) s = suffix).

(** [strings.TrimSuffix]. *)
Definition TrimSuffix (s suffix : str) : str :=
  if HasSuffix s suffix then take (length s - length suffix) s else s.

(** [strings.ReplaceAll] for a one-byte [old] and [new], the only way the
    program calls it. *)
Definition ReplaceAll (s : str) (old new : ascii) : str :=
  map (fun c => if decide (c = old) then new else c) s.

(** [strings.Split] on a one-byte separator: the pieces between the
    separators, [[""]] for the empty string. *)
Fixpoint Split (s : str) (sep : ascii) : list str :=
  match s with
  | [] => [[]]
  | c :: s' =>
      if decide (c = sep) then [] :: Split s' sep
      else match Split s' sep with
           | piece :: pieces => (c :: piece) :: pieces
           | [] => [[c]]
           end
  end.

(** [strings.Join] with a one-byte separator. *)
Fixpoint Join (elems : list str) (sep : ascii) : str :=
  match elems with
  | [] => []
  | [e] => e
  | e :: elems' => e ++ sep :: Join elems' sep
  end.

Definition lowerByte (c : ascii) : ascii :=
  let n := nat_of_ascii c in
  if (65 <=? n) && (n <=? 90) then ascii_of_nat (n + 32) else c.

(** The loop at the head of [strings.ToLower]: no byte of [s] is
    [utf8.RuneSelf] ([0x80]) or above. *)
Definition isASCII (s : str) : bool :=
  forallb (fun c => nat_of_ascii c <? 128) s.

(** [strings.ToLower] on a string that [isASCII]: the branch of the
    function that maps the bytes itself. *)
Definition ToLower (s : str) : str := map lowerByte s.

(** [strings.Repeat]. *)
Fixpoint Repeat (s : str) (count : nat) : str :=
  match count with
  | 0 => []
  | S n => s ++ Repeat s n
  end.

End strings.

(** ** The extension swap

    [ConvertSingleHtmlFile] computes the name of the converted document as
    [[
      mdPath := strings.TrimSuffix(htmlPath, ".html")
      mdPath = strings.TrimSuffix(mdPath, ".md") + ".md"
    ]]
    and [ConvertHtmlLinksToMd] applies the same two trims and the same
    suffix to the file name of a link target. *)

Definition mdPath (htmlPath : str) : str :=
  strings.TrimSuffix (strings.TrimSuffix htmlPath ".html") ".md" ++ ".md".

(** *** Facts about prefixes and suffixes *)

Section StringFacts.

Import strings.

Lemma HasSuffix_spec (s suffix : str) :
  HasSuffix s suffix = true <-> exists r, s = r ++ suffix.
Proof.
  unfold HasSuffix. rewrite andb_true_iff, bool_decide_eq_true, Nat.leb_le.
  split.
  - intros [Hlen Hdrop]. exists (take (length s - length suffix) s).
    rewrite <- Hdrop at 2. symmetry. apply take_drop.
  - intros [r ->]. rewrite length_app. split; [lia|].
    replace (length r + length suffix - length suffix) with (length r) by lia.
    apply drop_app_length.
Qed.

Lemma HasSuffix_app (r suffix : str) : HasSuffix (r ++ suffix) suffix = true.
Proof. apply HasSuffix_spec. by exists r. Qed.

Lemma TrimSuffix_app (r suffix : str) : TrimSuffix (r ++ suffix) suffix = r.
Proof.
  unfold TrimSuffix. rewrite HasSuffix_app, length_app.
  replace (length r + length suffix - length suffix) with (length r) by lia.
  apply take_app_length.
Qed.

Lemma HasSuffix_last_ne (s suffix : str) (a b : ascii) :
  a <> b -> HasSuffix (s ++ [a]) (suffix ++ [b]) = false.
Proof.
  intros Hab. apply not_true_is_false. intros [r Hr]%HasSuffix_spec.
  rewrite app_assoc in Hr. apply app_inj_tail in Hr as [_ ?]. done.
Qed.

Lemma TrimSuffix_last_ne (s suffix : str) (a b : ascii) :
  a <> b -> TrimSuffix (s ++ [a]) (suffix ++ [b]) = s ++ [a].
Proof. intros Hab. unfold TrimSuffix. by rewrite HasSuffix_last_ne. Qed.

Lemma HasPrefix_spec (s prefix : str) :
  HasPrefix s prefix = true <-> exists r, s = prefix ++ r.
Proof.
  revert s. induction prefix as [|p prefix IH]; intros s; simpl.
  - split; [intros _; by exists s | done].
  - destruct s as [|c s]; [split; [done | by intros [r ?]]|].
    rewrite andb_true_iff, bool_decide_eq_true, IH. split.
    + intros [-> [r ->]]. by exists r.
    + intros [r [= -> ->]]. split; [done | by exists r].
Qed.

Lemma HasPrefix_app (prefix r : str) : HasPrefix (prefix ++ r) prefix = true.
Proof. apply HasPrefix_spec. by exists r. Qed.

End StringFacts.

(** *** The swap on names that already carry the target extension *)

Lemma mdPath_html_free (p : str) :
  strings.HasSuffix p ".html" = false ->
  mdPath p = strings.TrimSuffix p ".md" ++ ".md".
Proof. intros H. unfold mdPath. unfold strings.TrimSuffix at 2. by rewrite H. Qed.

Lemma mdPath_md (x : str) : mdPath (x ++ ".md") = x ++ ".md".
Proof.
  rewrite mdPath_html_free.
  - by rewrite TrimSuffix_app.
  - change (x ++ ".md") with (x ++ [".";"m"] ++ ["d"])%char.
    rewrite app_assoc.
    change (list_ascii_of_string ".html") with ([".";"h";"t";"m"] ++ ["l"])%char.
    by apply HasSuffix_last_ne.
Qed.

Lemma mdPath_md_html (x : str) : mdPath (x ++ ".md.html") = x ++ ".md".
Proof.
  unfold mdPath.
  change (x ++ ".md.html") with (x ++ ".md" ++ ".html").
  rewrite app_assoc, TrimSuffix_app. by rewrite TrimSuffix_app.
Qed.

Lemma mdPath_ends_md (p : str) : exists r, mdPath p = r ++ ".md".
Proof. by eexists. Qed.

Lemma mdPath_idempotent (p : str) : mdPath (mdPath p) = mdPath p.
Proof. destruct (mdPath_ends_md p) as [r ->]. apply mdPath_md. Qed.

Lemma mdPath_iter (n : nat) (p : str) : Nat.iter (S n) mdPath p = mdPath p.
Proof.
  induction n as [|n IH]; [done|].
  change (Nat.iter (S (S n)) mdPath p) with (mdPath (Nat.iter (S n) mdPath p)).
  rewrite IH. apply mdPath_idempotent.
Qed.

(** C3. The extension swap of [ConvertSingleHtmlFile] and
    [ConvertHtmlLinksToMd] is idempotent: a name that already ends in [.md]
    is returned as it is, [x.md.html] becomes [x.md], the doubled
    [x.md.md] is never produced from [x.md], and any number of repeated
    applications gives what one application gives. *)
Theorem mdPath_swap_idempotent (x p : str) (n : nat) :
  mdPath (x ++ ".md") = x ++ ".md"
  /\ mdPath (x ++ ".md.html") = x ++ ".md"
  /\ mdPath (x ++ ".md") <> x ++ ".md.md"
  /\ mdPath (mdPath p) = mdPath p
  /\ Nat.iter (S n) mdPath p = mdPath p.
Proof.
  repeat split.
  - apply mdPath_md.
  - apply mdPath_md_html.
  - rewrite mdPath_md. intros H.
    change (x ++ ".md.md") with (x ++ ".md" ++ ".md") in H.
    rewrite <- (app_nil_r (x ++ ".md")) in H at 1.
    rewrite app_assoc in H. by apply app_inv_head in H.
  - apply mdPath_idempotent.
  - apply mdPath_iter.
Qed.

(** ** The [path/filepath] package (Unix) *)

Module filepath.

Import strings.

Definition isDot (e : str) : bool := bool_decide (e = ".").
Definition isDotDot (e : str) : bool := bool_decide (e = "..").

(** The element loop of [filepath.Clean].  [out] holds the elements
    written so far and [dotdot] counts the leading [..] elements of an
    unrooted path, below which [..] cannot backtrack. *)
Fixpoint cleanElems (rooted : bool) (elems out : list str) (dotdot : nat)
  : list str :=
  match elems with
  | [] => out
  | e :: elems' =>
      if bool_decide (e = []) || isDot e then
        cleanElems rooted elems' out dotdot
      else if isDotDot e then
        if dotdot <? length out then
          cleanElems rooted elems' (removelast out) dotdot
        else if rooted then
          cleanElems rooted elems' out dotdot
        else
          cleanElems rooted elems' (out ++ [e]) (S (length out))
      else
        cleanElems rooted elems' (out ++ [e]) dotdot
  end.

(** The path made of the elements [out]: after the root for a rooted
    path, [.] for an unrooted path without elements. *)
Definition assemble (rooted : bool) (out : list str) : str :=
  if rooted then "/"%char :: Join out "/"
  else match out with
       | [] => "."
       | _ => Join out "/"
       end.

(** [filepath.Clean]: the shortest path equivalent to [path] by purely
    lexical processing; the empty result is [.]. *)
Definition Clean (path : str) : str :=
  match path with
  | [] => "."
  | c :: _ =>
      let rooted := bool_decide (c = "/"%char) in
      assemble rooted (cleanElems rooted (Split path "/") [] 0)
  end.

(** The index one past the last separator of [path], [0] without one. *)
Fixpoint afterLastSep (path : str) : nat :=
  match path with
  | [] => 0
  | c :: path' =>
      match afterLastSep path' with
      | 0 => if bool_decide (c = "/"%char) then 1 else 0
      | S i => S (S i)
      end
  end.

(** [filepath.Dir]: all but the last element of [path], cleaned. *)
Definition Dir (path : str) : str := Clean (take (afterLastSep path) path).

(** Removes the trailing separators of [path]. *)
Fixpoint stripTrailingSeps (path : str) : str :=
  match path with
  | [] => []
  | c :: path' =>
      match stripTrailingSeps path' with
      | [] => if bool_decide (c = "/"%char) then [] else [c]
      | rest => c :: rest
      end
  end.

(** [filepath.Base]: the last element of [path]; [.] for the empty path
    and [/] for a path of separators only. *)
Definition Base (path : str) : str :=
  match path with
  | [] => "."
  | _ =>
      let path := stripTrailingSeps path in
      match drop (afterLastSep path) path with
      | [] => "/"
      | base => base
      end
  end.

(** [filepath.Join] of two elements: empty elements are ignored, the
    rest are joined by a separator and cleaned. *)
Definition Join (a b : str) : str :=
  match a, b with
  | [], [] => []
  | [], _ => Clean b
  | _, _ => Clean (a ++ "/"%char :: b)
  end.

End filepath.

(** ** The pattern of the link rewriter

    The pattern compiled by [regexp.MustCompile], written here with blanks
    between its parts,
    [[
      \[ ( [^\]]* ) \] \( ( [^)]* \.html ) ( [^)]* ) \)
    ]]
    uses literal bytes, negated one-byte classes, greedy stars of such classes,
    concatenation and capture groups.  The matcher below is the
    backtracking reading of these constructs, which is the leftmost-first
    match Go's [regexp] returns. *)

Module regexp.

Inductive class :=
| Lit (c : ascii)        (** the byte [c] *)
| Neg (c : ascii).       (** [[^c]] *)

Definition accepts (cl : class) (x : ascii) : bool :=
  match cl with
  | Lit c => bool_decide (x = c)
  | Neg c => negb (bool_decide (x = c))
  end.

Inductive regex :=
| One (cl : class)
| Many (cl : class)            (** greedy [cl*] *)
| Seq (r1 r2 : regex)
| Group (r : regex).

(** A match in progress: the input still to read and the groups closed
    so far, in the order of their closing parentheses. *)
Definition cont (R : Type) := str -> list str -> option R.

Fixpoint run {R} (r : regex) (k : cont R) (s : str) (caps : list str)
  : option R :=
  match r with
  | One cl =>
      match s with
      | x :: s' => if accepts cl x then k s' caps else None
      | [] => None
      end
  | Many cl =>
      (fix many (s : str) : option R :=
         match s with
         | x :: s' =>
             if accepts cl x then
               match many s' with
               | Some res => Some res
               | None => k s caps
               end
             else k s caps
         | [] => k [] caps
         end) s
  | Seq r1 r2 => run r1 (run r2 k) s caps
  | Group r1 =>
      run r1 (fun s' caps' =>
                k s' (caps' ++ [take (length s - length s') s])) s caps
  end.

(** The match of [r] that starts at the first byte of [s]: the text
    matched followed by the groups, and the input after the match. *)
Definition matchAt (r : regex) (s : str) : option (list str * str) :=
  run r (fun s' caps =>
           Some (take (length s - length s') s :: caps, s')) s [].

(** [Regexp.FindStringSubmatch]: the leftmost match, as the matched
    text followed by the groups; [[]] stands for [nil]. *)
Fixpoint FindStringSubmatch (r : regex) (s : str) : list str :=
  match matchAt r s with
  | Some (matches, _) => matches
  | None =>
      match s with
      | [] => []
      | _ :: s' => FindStringSubmatch r s'
      end
  end.

(** [Regexp.ReplaceAllStringFunc] for a pattern without empty
    matches: the leftmost match is replaced by [repl] of its text and
    the search goes on after it; bytes outside matches are copied.
    [fuel] bounds the number of bytes still to scan. *)
Fixpoint replaceAll (r : regex) (repl : str -> str) (fuel : nat) (src : str)
  : str :=
  match fuel, src with
  | S fuel', x :: src' =>
      match matchAt r src with
      | Some (m :: _, rest) =>
          if length rest <? length src then repl m ++ replaceAll r repl fuel' rest
          else x :: replaceAll r repl fuel' src'
      | _ => x :: replaceAll r repl fuel' src'
      end
  | _, _ => src
  end.

Definition ReplaceAllStringFunc (r : regex) (src : str) (repl : str -> str)
  : str :=
  replaceAll r repl (length src) src.

(** The bytes [c :: s] one after the other. *)
Fixpoint word (c : ascii) (s : str) : regex :=
  match s with
  | [] => One (Lit c)
  | c' :: s' => Seq (One (Lit c)) (word c' s')
  end.

End regexp.

(** ** The link rewriter *)

Import strings.

(** [ConvertDirectoryToLowercase]: every element of the directory path in
    lower case. *)
Definition ConvertDirectoryToLowercase (dirPath : str) : str :=
  let dirPath := ReplaceAll dirPath "\" "/" in
  let parts := Split dirPath "/" in
  Join (map ToLower parts) "/".

(** The pattern of [ConvertHtmlLinksToMd]: an opening bracket, the link
    text (group 1), [](], the target up to its last [.html] (group 2), the
    anchor (group 3) and the closing parenthesis. *)
Definition linkPattern : regexp.regex :=
  let open := regexp.One (regexp.Lit "[") in
  let text := regexp.Group (regexp.Many (regexp.Neg "]")) in
  let mid := regexp.Seq (regexp.One (regexp.Lit "]")) (regexp.One (regexp.Lit "(")) in
  let target :=
    regexp.Group
      (regexp.Seq (regexp.Many (regexp.Neg ")")) (regexp.word "." "html")) in
  let anchor := regexp.Group (regexp.Many (regexp.Neg ")")) in
  let close := regexp.One (regexp.Lit ")") in
  regexp.Seq open
    (regexp.Seq text (regexp.Seq mid (regexp.Seq target (regexp.Seq anchor close)))).

(** The new target of a link: the directory of the old one in lower case
    joined with the swapped file name.  Both branches of the callback of
    [ConvertHtmlLinksToMd] compute it, the relative one after turning
    backslashes into slashes. *)
Definition linkTarget (htmlPath : str) : str :=
  let dir := filepath.Dir htmlPath in
  let filename := filepath.Base htmlPath in
  let baseFilename := TrimSuffix filename ".html" in
  let baseFilename := TrimSuffix baseFilename ".md" in
  if bool_decide (dir = ".") || bool_decide (dir = "") then
    baseFilename ++ ".md"
  else
    let lowerDir := ConvertDirectoryToLowercase dir in
    ReplaceAll (filepath.Join lowerDir (baseFilename ++ ".md")) "\" "/".

(** [fmt.Sprintf("[%s](%s%s)", linkText, mdPath, anchor)]. *)
Definition formatLink (linkText mdPath anchor : str) : str :=
  "[" ++ linkText ++ "](" ++ mdPath ++ anchor ++ ")".

(** The callback handed to [ReplaceAllStringFunc]. *)
Definition rewriteLink (match_ : str) : str :=
  match regexp.FindStringSubmatch linkPattern match_ with
  | [_; linkText; htmlPath; anchor] =>
      if negb (HasPrefix htmlPath "http") && negb (HasPrefix htmlPath "/") then
        let htmlPath := ReplaceAll htmlPath "\" "/" in
        formatLink linkText (linkTarget htmlPath) anchor
      else
        formatLink linkText (linkTarget htmlPath) anchor
  | _ => match_
  end.

(** [ConvertHtmlLinksToMd]. *)
Definition ConvertHtmlLinksToMd (content : str) : str :=
  regexp.ReplaceAllStringFunc linkPattern content rewriteLink.

(** *** How the matcher walks a link *)

Section MatcherFacts.

Import regexp.
Context {R : Type}.
Implicit Types (k : cont R) (s w : str) (caps : list str).




Lemma run_Many_nil cl k caps : run (Many cl) k [] caps = k [] caps.
Proof. reflexivity. Qed.





End MatcherFacts.

(** [strings.Contains]. *)
Fixpoint Contains (s substr : str) : bool :=
  HasPrefix s substr
  || match s with
     | [] => false
     | _ :: s' => Contains s' substr
     end.



Section WordFacts.

Import regexp.
Context {R : Type}.
Implicit Types (k : cont R) (s : str) (caps : list str).





End WordFacts.

Section LinkMatch.

Import regexp.
Variables (linkText target anchor : str).
Hypothesis text_ok : "]"%char ∉ linkText.
Hypothesis target_ok : ")"%char ∉ target.
Hypothesis anchor_ok : ")"%char ∉ anchor.
Hypothesis anchor_html : Contains anchor ".html" = false.






End LinkMatch.

(** *** The rewriter around one link *)






Section LinkRewrite.

Variables (linkText target anchor : str).
Hypothesis text_ok : "]"%char ∉ linkText.
Hypothesis target_ok : ")"%char ∉ target.
Hypothesis anchor_ok : ")"%char ∉ anchor.
Hypothesis anchor_html : Contains anchor ".html" = false.





End LinkRewrite.

(** *** Paths given by their elements *)

(** An ordinary path element: not empty, without separator, neither [.]
    nor [..]. *)
Definition segment (e : str) : Prop :=
  e <> [] /\ ("/"%char ∉ e) /\ e <> "." /\ e <> "..".

(** What [filepath.Clean] leaves of an element list: its ordinary
    elements; the empty ones (doubled or trailing separators) go. *)
Definition nonEmpty (elems : list str) : list str :=
  filter (fun e => e <> []) elems.

(** A path starts at the root when its first element is empty. *)
Definition startsEmpty (elems : list str) : bool :=
  match elems with
  | [] :: _ => true
  | _ => false
  end.

Section PathFacts.

Implicit Types (e f p : str) (elems out : list str).

Lemma Split_nosep e : "/"%char ∉ e -> Split e "/" = [e].
Proof.
  induction e as [|c e IH]; [done|]. intros [Hc He]%not_elem_of_cons.
  simpl. rewrite decide_False by done. by rewrite IH.
Qed.

Lemma Split_app_sep e s :
  "/"%char ∉ e -> Split (e ++ "/"%char :: s) "/" = e :: Split s "/".
Proof.
  induction e as [|c e IH].
  - intros _. cbn [app Split]. by rewrite decide_True.
  - intros [Hc He]%not_elem_of_cons. cbn [app Split].
    rewrite decide_False by done. by rewrite IH.
Qed.

Lemma Join_cons e elems :
  elems <> [] -> Join (e :: elems) "/" = e ++ "/"%char :: Join elems "/".
Proof. by destruct elems. Qed.

Lemma Join_snoc elems f :
  elems <> [] -> Join (elems ++ [f]) "/" = Join elems "/" ++ "/"%char :: f.
Proof.
  induction elems as [|e elems IH]; [done|]. intros _.
  destruct elems as [|e' elems]; [reflexivity|].
  cbn [app]. rewrite !(Join_cons e) by done. cbn [app] in IH.
  rewrite IH by done. by rewrite <- app_assoc.
Qed.

Lemma Split_Join elems :
  elems <> [] -> Forall (fun e => "/"%char ∉ e) elems ->
  Split (Join elems "/") "/" = elems.
Proof.
  induction elems as [|e elems IH]; [done|]. intros _ Hall.
  apply Forall_cons in Hall as [He Hall].
  destruct elems as [|e' elems]; [by apply Split_nosep|].
  rewrite Join_cons, Split_app_sep by done. by rewrite IH.
Qed.

Definition element e : Prop := e = [] \/ segment e.

Lemma element_nosep e : element e -> "/"%char ∉ e.
Proof. intros [->|(_ & H & _)]; [apply not_elem_of_nil | done]. Qed.

Lemma cleanElems_elements rooted elems out dotdot :
  Forall element elems ->
  filepath.cleanElems rooted elems out dotdot = out ++ nonEmpty elems.
Proof.
  intros Hall. revert out.
  induction Hall as [|e elems He Hall IH]; intros out.
  - by rewrite app_nil_r.
  - cbn [filepath.cleanElems]. unfold nonEmpty. destruct He as [->|(Hne & _ & Hd & Hdd)].
    + rewrite bool_decide_eq_true_2 by done. cbn [orb].
      rewrite filter_cons_False by (by intros ?). apply IH.
    + rewrite bool_decide_eq_false_2 by done. unfold filepath.isDot, filepath.isDotDot.
      rewrite !bool_decide_eq_false_2 by done. cbn [orb].
      rewrite filter_cons_True by done. rewrite IH.
      by rewrite <- app_assoc.
Qed.

Lemma Clean_Join elems :
  elems <> [] -> Forall element elems ->
  filepath.Clean (Join elems "/")
  = match elems with
    | [[]] => "."
    | _ => filepath.assemble (startsEmpty elems) (nonEmpty elems)
    end.
Proof.
  intros Hne Hall.
  assert (Hsplit : Split (Join elems "/") "/" = elems).
  { apply Split_Join; [done|]. eapply Forall_impl; [done|].
    apply element_nosep. }
  destruct elems as [|e elems]; [done|].
  destruct e as [|c e].
  - destruct elems as [|e' elems]; [done|].
    rewrite Join_cons in * by done. cbn [app] in *. unfold filepath.Clean.
    rewrite Hsplit, cleanElems_elements by done. by rewrite bool_decide_eq_true_2.
  - apply Forall_cons in Hall as [He Hall].
    assert (Hc : c <> "/"%char).
    { apply element_nosep in He. by apply not_elem_of_cons in He as [? _]. }
    assert (Hjoin : exists r, Join ((c :: e) :: elems) "/" = c :: r).
    { destruct elems; [by eexists|]. rewrite Join_cons by done. by eexists. }
    destruct Hjoin as [r Hr]. rewrite Hr in *. unfold filepath.Clean.
    rewrite Hsplit, cleanElems_elements.
    + by rewrite bool_decide_eq_false_2.
    + by constructor.
Qed.

End PathFacts.

Section DirBase.

Implicit Types (e f p : str) (elems out : list str).

Lemma afterLastSep_nosep f : "/"%char ∉ f -> filepath.afterLastSep f = 0.
Proof.
  induction f as [|c f IH]; [done|]. intros [Hc Hf]%not_elem_of_cons.
  simpl. rewrite IH by done. by rewrite bool_decide_eq_false_2.
Qed.

Lemma afterLastSep_app_sep p f :
  "/"%char ∉ f -> filepath.afterLastSep (p ++ "/"%char :: f) = S (length p).
Proof.
  intros Hf. induction p as [|c p IH].
  - simpl. by rewrite afterLastSep_nosep.
  - cbn [app filepath.afterLastSep length]. by rewrite IH.
Qed.

Lemma stripTrailingSeps_nosep f :
  f <> [] -> "/"%char ∉ f -> filepath.stripTrailingSeps f = f.
Proof.
  induction f as [|c f IH]; [done|]. intros _ [Hc Hf]%not_elem_of_cons.
  cbn [filepath.stripTrailingSeps]. destruct f as [|c' f].
  - simpl. by rewrite bool_decide_eq_false_2.
  - rewrite IH by done. done.
Qed.

Lemma stripTrailingSeps_app p f :
  f <> [] -> "/"%char ∉ f -> filepath.stripTrailingSeps (p ++ f) = p ++ f.
Proof.
  intros Hne Hf. induction p as [|c p IH]; [by apply stripTrailingSeps_nosep|].
  cbn [app filepath.stripTrailingSeps]. rewrite IH.
  destruct (p ++ f) eqn:E; [|done]. by apply app_eq_nil in E as [_ ?].
Qed.

(** The directory and the file name of a path given by its elements. *)
Lemma Dir_Join elems f :
  Forall element elems -> "/"%char ∉ f ->
  filepath.Dir (Join (elems ++ [f]) "/")
  = filepath.assemble (startsEmpty elems) (nonEmpty elems).
Proof.
  intros Hall Hf. unfold filepath.Dir.
  destruct elems as [|e elems].
  - cbn [app Join]. by rewrite afterLastSep_nosep.
  - rewrite Join_snoc, afterLastSep_app_sep by done.
    replace (S (length (Join (e :: elems) "/")))
      with (length (Join (e :: elems) "/" ++ ["/"%char]))
      by (rewrite length_app; simpl; lia).
    rewrite (app_assoc _ ["/"%char] f : _ ++ "/"%char :: f = _).
    rewrite take_app_length.
    change (Join (e :: elems) "/" ++ ["/"%char])
      with (Join (e :: elems) "/" ++ "/"%char :: []).
    rewrite <- Join_snoc by done. rewrite Clean_Join.
    + assert (Hfilt : nonEmpty ((e :: elems) ++ [[]]) = nonEmpty (e :: elems)).
      { unfold nonEmpty. rewrite filter_app.
        rewrite (filter_cons_False _ [] []) by (by intros ?).
        by rewrite filter_nil, app_nil_r. }
      rewrite Hfilt. by destruct e, elems.
    + by destruct elems.
    + apply Forall_app; split; [done|]. constructor; [by left|constructor].
Qed.

Lemma Base_Join elems f :
  f <> [] -> "/"%char ∉ f -> filepath.Base (Join (elems ++ [f]) "/") = f.
Proof.
  intros Hne Hf. unfold filepath.Base.
  destruct elems as [|e elems].
  - cbn [app Join]. destruct f as [|c f]; [done|].
    rewrite stripTrailingSeps_nosep, afterLastSep_nosep by done. done.
  - rewrite Join_snoc by done.
    destruct (Join (e :: elems) "/" ++ "/"%char :: f) eqn:E.
    { by apply app_eq_nil in E as [_ ?]. }
    rewrite <- E. clear E.
    rewrite (app_assoc _ ["/"%char] f : _ ++ "/"%char :: f = _).
    rewrite stripTrailingSeps_app by done.
    rewrite <- (app_assoc _ ["/"%char] f : _ ++ "/"%char :: f = _).
    rewrite afterLastSep_app_sep by done.
    replace (S (length (Join (e :: elems) "/")))
      with (length (Join (e :: elems) "/" ++ ["/"%char]))
      by (rewrite length_app; simpl; lia).
    rewrite (app_assoc _ ["/"%char] f : _ ++ "/"%char :: f = _).
    rewrite drop_app_length. by destruct f.
Qed.

End DirBase.

(** *** Lower case and the special bytes of paths *)

Section LowerFacts.

Implicit Types (c x : ascii) (e s : str) (elems : list str).

Lemma lowerByte_cases c :
  lowerByte c = c
  \/ (97 <= nat_of_ascii (lowerByte c) <= 122 /\ 65 <= nat_of_ascii c <= 90).
Proof.
  unfold lowerByte.
  destruct ((65 <=? nat_of_ascii c) && (nat_of_ascii c <=? 90)) eqn:E; [|by left].
  apply andb_true_iff in E as [H1%Nat.leb_le H2%Nat.leb_le].
  right. rewrite nat_ascii_embedding by lia. lia.
Qed.

(** Bytes outside the letters are fixed by, and only reached from,
    themselves. *)
Lemma lowerByte_fixed c x :
  ~ (97 <= nat_of_ascii x <= 122) -> ~ (65 <= nat_of_ascii x <= 90) ->
  lowerByte c = x <-> c = x.
Proof.
  intros Hx1 Hx2. destruct (lowerByte_cases c) as [Hc|[Hc1 Hc2]].
  - split; [congruence|]. intros ->. done.
  - split; intros <-; lia.
Qed.

Lemma ToLower_not_elem x s :
  ~ (97 <= nat_of_ascii x <= 122) -> ~ (65 <= nat_of_ascii x <= 90) ->
  x ∉ s -> x ∉ ToLower s.
Proof.
  intros Hx1 Hx2 Hs [c [Hc ?]]%list_elem_of_fmap.
  symmetry in Hc. apply (proj1 (lowerByte_fixed _ _ Hx1 Hx2)) in Hc. by subst.
Qed.

Lemma ToLower_eq_fixed s t :
  Forall (fun x => ~ (97 <= nat_of_ascii x <= 122)
                   /\ ~ (65 <= nat_of_ascii x <= 90)) t ->
  ToLower s = t -> s = t.
Proof.
  intros Ht. revert s. induction Ht as [|x t [Hx1 Hx2] Ht IH]; intros s Hs.
  - by destruct s.
  - destruct s as [|c s]; [done|]. simpl in Hs. injection Hs as Hc Hs.
    apply (proj1 (lowerByte_fixed _ _ Hx1 Hx2)) in Hc. by rewrite Hc, (IH s).
Qed.

Lemma ToLower_segment e : segment e -> segment (ToLower e).
Proof.
  intros (Hne & Hsep & Hd & Hdd). repeat split.
  - by destruct e.
  - apply ToLower_not_elem; [vm_compute; lia..|done].
  - intros H. apply Hd. apply ToLower_eq_fixed; [|done].
    repeat constructor; vm_compute; lia.
  - intros H. apply Hdd. apply ToLower_eq_fixed; [|done].
    repeat constructor; vm_compute; lia.
Qed.



Lemma ReplaceAll_absent s old new : old ∉ s -> ReplaceAll s old new = s.
Proof.
  intros Hs. unfold ReplaceAll. induction s as [|c s IH]; [done|].
  apply not_elem_of_cons in Hs as [Hc Hs]. cbn [map].
  rewrite decide_False by done. by rewrite IH.
Qed.

Lemma not_elem_Join x elems :
  x <> "/"%char -> Forall (fun e => x ∉ e) elems -> x ∉ Join elems "/".
Proof.
  intros Hx Hall. induction Hall as [|e elems He Hall IH].
  - apply not_elem_of_nil.
  - destruct elems as [|e' elems]; [done|].
    rewrite Join_cons by done. rewrite not_elem_of_app, not_elem_of_cons.
    split; [done|]. split; [congruence|done].
Qed.


End LowerFacts.

(** *** The new target of a link, element by element *)

Section LinkTarget.

Implicit Types (e f p : str) (elems out : list str).

Lemma ToLower_Join elems :
  ToLower (Join elems "/") = Join (map ToLower elems) "/".
Proof.
  induction elems as [|e elems IH]; [done|].
  destruct elems as [|e' elems]; [done|].
  rewrite Join_cons by done. cbn [map]. rewrite (Join_cons (ToLower e)) by done.
  unfold ToLower in *. rewrite map_app. cbn [map]. by rewrite IH.
Qed.

Lemma mdPath_segment f : "/"%char ∉ f -> segment (mdPath f).
Proof.
  intros Hf. unfold mdPath.
  set (b := TrimSuffix (TrimSuffix f ".html") ".md").
  assert (Hb : "/"%char ∉ b).
  { assert (Htrim : forall s suffix, "/"%char ∉ s -> "/"%char ∉ TrimSuffix s suffix).
    { intros s suffix Hs. unfold TrimSuffix. destruct (HasSuffix s suffix); [|done].
      intros H. apply Hs. eapply elem_of_prefix; [apply H|apply prefix_take]. }
    by apply Htrim, Htrim. }
  repeat split.
  - by destruct b.
  - rewrite not_elem_of_app. split; [done|].
    cbn [list_ascii_of_string]. rewrite !not_elem_of_cons.
    repeat split; try done. apply not_elem_of_nil.
  - destruct b as [|? [|? [|? [|? ?]]]]; done.
  - destruct b as [|? [|? [|? [|? ?]]]]; done.
Qed.







End LinkTarget.

(** ** Links in a document *)

(** Bytes a target can be written with: no [)], which ends the target,
    and no backslash, which the relative branch turns into a separator. *)
Definition textual (s : str) : Prop := ("\"%char ∉ s) /\ (")"%char ∉ s).

Section Links.

Variables (pre linkText anchor post : str) (elems : list str) (name : str).
Hypothesis pre_ok : "["%char ∉ pre.
Hypothesis text_ok : "]"%char ∉ linkText.
Hypothesis elems_ok : Forall element elems.
Hypothesis elems_textual : Forall textual elems.
Hypothesis name_ok : "/"%char ∉ name.
Hypothesis name_textual : textual name.
Hypothesis anchor_ok : ")"%char ∉ anchor.
Hypothesis anchor_html : Contains anchor ".html" = false.





End Links.

#[global] Instance segment_dec (e : str) : Decision (segment e).
Proof. unfold segment. apply _. Defined.

#[global] Instance element_dec (e : str) : Decision (element e).
Proof. unfold element. apply _. Defined.

#[global] Instance textual_dec (s : str) : Decision (textual s).
Proof. unfold textual. apply _. Defined.








(** ** The file system

    The output tree is a tree of directories and files.  The entries of a
    directory are kept in the order [os.ReadDir] lists them, by name,
    bytewise.  A path below the root of the tree is the list of its
    elements: on such paths [filepath.Dir] drops the last element and
    [filepath.Base] returns it; [filepath.Join(dir, name)] is [joinName]
    below, which appends [name] when it is an ordinary element. *)

Abbreviation path := (list str).

#[warnings="-register-all"]
Inductive node :=
| File (data : str)
| Dir (entries : list (str * node)).

Definition isDir (n : node) : bool :=
  match n with
  | Dir _ => true
  | File _ => false
  end.

(** The comparison of Go strings, byte by byte. *)
Fixpoint compareStr (a b : str) : comparison :=
  match a, b with
  | [], [] => Eq
  | [], _ :: _ => Lt
  | _ :: _, [] => Gt
  | x :: a', y :: b' =>
      match Nat.compare (nat_of_ascii x) (nat_of_ascii y) with
      | Eq => compareStr a' b'
      | c => c
      end
  end.

(** The entry named [name] of a directory. *)
Fixpoint find (name : str) (entries : list (str * node)) : option node :=
  match entries with
  | [] => None
  | (y, n) :: entries' =>
      if decide (y = name) then Some n else find name entries'
  end.

(** Adds or replaces the entry [name], at its place in the order. *)
Fixpoint put (name : str) (n : node) (entries : list (str * node))
  : list (str * node) :=
  match entries with
  | [] => [(name, n)]
  | (y, m) :: entries' =>
      match compareStr name y with
      | Eq => (name, n) :: entries'
      | Lt => (name, n) :: entries
      | Gt => (y, m) :: put name n entries'
      end
  end.

(** Removes the entry [name]. *)
Definition del (name : str) (entries : list (str * node)) : list (str * node) :=
  filter (fun e => e.1 <> name) entries.

(** The node at path [p] below [n]; [os.Stat] succeeds on the paths that
    have one. *)
Fixpoint lookup (n : node) (p : path) : option node :=
  match p with
  | [] => Some n
  | x :: p' =>
      match n with
      | Dir entries =>
          match find x entries with
          | Some c => lookup c p'
          | None => None
          end
      | File _ => None
      end
  end.

(** Puts [v] at path [p], whose parent has to be a directory of the
    tree. *)
Fixpoint place (n : node) (p : path) (v : node) : option node :=
  match n, p with
  | Dir entries, [x] => Some (Dir (put x v entries))
  | Dir entries, x :: p' =>
      match find x entries with
      | Some c =>
          match place c p' v with
          | Some c' => Some (Dir (put x c' entries))
          | None => None
          end
      | None => None
      end
  | _, _ => None
  end.

(** Removes what is at path [p]. *)
Fixpoint remove (n : node) (p : path) : option node :=
  match n, p with
  | Dir entries, [x] => Some (Dir (del x entries))
  | Dir entries, x :: p' =>
      match find x entries with
      | Some c =>
          match remove c p' with
          | Some c' => Some (Dir (put x c' entries))
          | None => None
          end
      | None => None
      end
  | _, _ => None
  end.

(** The errors of the system calls and of the program. *)
Inductive error :=
| ENOENT | ENOTDIR | EISDIR | EEXIST | EINVAL
| MergeFailed (finalPath dirPath : path) (err : error)
| TempRenameFailed (dirPath tempPath : path) (err : error)
| FinalRenameFailed (tempPath finalPath : path) (err : error).

(** [os.MkdirAll]: the directory [p] and its missing parents; fails when
    an element of [p] is a file. *)
Fixpoint MkdirAll (n : node) (p : path) : option node :=
  match n, p with
  | Dir _, [] => Some n
  | Dir entries, x :: p' =>
      match MkdirAll (default (Dir []) (find x entries)) p' with
      | Some c' => Some (Dir (put x c' entries))
      | None => None
      end
  | File _, _ => None
  end.

(** The error of a system call on the path [p] whose parent is no
    directory: [ENOTDIR] when an element on the way is a file, [ENOENT]
    when one is missing. *)
Fixpoint missingParent (n : node) (p : path) : error :=
  match n, p with
  | File _, _ :: _ => ENOTDIR
  | Dir entries, x :: p' =>
      match find x entries with
      | Some c => missingParent c p'
      | None => ENOENT
      end
  | _, [] => ENOENT
  end.

(** [os.Create] followed by writing [data]: the parent has to be a
    directory and [p] must not be one. *)
Definition WriteFile (n : node) (p : path) (data : str) : node + error :=
  match lookup n p with
  | Some (Dir _) => inr EISDIR
  | _ =>
      match place n p (File data) with
      | Some n' => inl n'
      | None => inr (missingParent n p)
      end
  end.

(** The entry at [old] taken out of the tree and put at [new]. *)
Definition move (n : node) (old new : path) (v : node) : node + error :=
  match remove n old with
  | Some n1 =>
      match place n1 new v with
      | Some n2 => inl n2
      | None => inr (missingParent n new)
      end
  | None => inr ENOENT
  end.

(** [os.Rename]: [old] has to exist.  The function looks at [new] before
    it calls the system and answers [EEXIST] when [new] is a directory,
    empty or not, also when it is [old] itself.  Otherwise it is
    [rename(2)]: the parent of [new] has to be a directory; a directory
    cannot move below itself and replaces no file; a file replaces a
    file. *)
Definition Rename (n : node) (old new : path) : node + error :=
  match lookup n old with
  | None => inr (missingParent n old)
  | Some v =>
      match lookup n new with
      | Some (Dir _) => inr EEXIST
      | target =>
          if decide (old = new) then inl n
          else
            match lookup n (removelast new) with
            | Some (Dir _) =>
                match v, target with
                | Dir _, Some _ =>
                    if decide (old `prefix_of` new) then inr EINVAL else inr ENOTDIR
                | Dir _, None =>
                    if decide (old `prefix_of` new) then inr EINVAL
                    else move n old new v
                | File _, _ => move n old new v
                end
            | _ => inr (missingParent n new)
            end
      end
  end.

(** *** Entries of a directory *)

Lemma compareStr_eq (a b : str) : compareStr a b = Eq <-> a = b.
Proof.
  revert b. induction a as [|x a IH]; intros [|y b]; simpl; try done.
  destruct (Nat.compare_spec (nat_of_ascii x) (nat_of_ascii y)) as [E|E|E].
  - rewrite IH. apply (f_equal ascii_of_nat) in E.
    rewrite !ascii_nat_embedding in E. subst. split; congruence.
  - split; [done|]. intros [= -> _]. lia.
  - split; [done|]. intros [= -> _]. lia.
Qed.

Lemma compareStr_refl (a : str) : compareStr a a = Eq.
Proof. by apply compareStr_eq. Qed.

Lemma find_put (x y : str) (v : node) (entries : list (str * node)) :
  find y (put x v entries) = if decide (x = y) then Some v else find y entries.
Proof.
  induction entries as [|[z m] entries IH]; simpl.
  - by destruct (decide (x = y)).
  - destruct (compareStr x z) eqn:E; simpl.
    + apply compareStr_eq in E as ->.
      by destruct (decide (z = y)).
    + destruct (decide (x = y)); [done|]. done.
    + destruct (decide (z = y)) as [->|Hz].
      * destruct (decide (x = y)) as [->|]; [|done].
        by rewrite compareStr_refl in E.
      * apply IH.
Qed.

Lemma find_put_eq (x : str) (v : node) entries : find x (put x v entries) = Some v.
Proof. rewrite find_put. by rewrite decide_True. Qed.

Lemma find_put_ne (x y : str) (v : node) entries :
  x <> y -> find y (put x v entries) = find y entries.
Proof. intros H. rewrite find_put. by rewrite decide_False. Qed.

Lemma find_del (x y : str) (entries : list (str * node)) :
  find y (del x entries) = if decide (x = y) then None else find y entries.
Proof.
  unfold del. induction entries as [|[z m] entries IH]; simpl.
  - by destruct (decide (x = y)).
  - destruct (decide (z = x)) as [->|Hz].
    + rewrite filter_cons_False by (simpl; by intros ?). rewrite IH.
      destruct (decide (x = y)); [done|]. done.
    + rewrite filter_cons_True by done. simpl. rewrite IH.
      destruct (decide (z = y)) as [->|]; [|done]. by rewrite decide_False.
Qed.

(** *** Paths that part ways *)

(** Two paths diverge when they differ at some element: neither is above
    the other in the tree. *)
Inductive diverge : path -> path -> Prop :=
| diverge_here x y p q : x <> y -> diverge (x :: p) (y :: q)
| diverge_below x p q : diverge p q -> diverge (x :: p) (x :: q).

Lemma diverge_sym (p q : path) : diverge p q -> diverge q p.
Proof. induction 1; constructor; done. Qed.

Lemma diverge_app (c p q : path) : diverge p q -> diverge (c ++ p) (c ++ q).
Proof. intros H. induction c; [done|]. by constructor. Qed.

Lemma diverge_app_r (p q r s : path) : diverge p q -> diverge (p ++ r) (q ++ s).
Proof. induction 1; simpl; constructor; done. Qed.

Lemma diverge_siblings (dir : path) (x y : str) (r s : path) :
  x <> y -> diverge (dir ++ x :: r) (dir ++ y :: s).
Proof. intros H. apply diverge_app. by constructor. Qed.

Lemma path_cases (p q : path) :
  (exists r, q = p ++ r) \/ (exists x r, p = q ++ x :: r) \/ diverge p q.
Proof.
  revert q. induction p as [|x p IH]; intros q.
  - left. by exists q.
  - destruct q as [|y q]; [right; left; by exists x, p|].
    destruct (decide (x = y)) as [->|Hxy].
    + destruct (IH q) as [[r ->]|[(z & r & ->)|H]].
      * left. by exists r.
      * right; left. by exists z, r.
      * right; right. by constructor.
    + right; right. by constructor.
Qed.

(** *** What the tree looks like after a change *)

Lemma lookup_app (n : node) (p r : path) :
  lookup n (p ++ r) = match lookup n p with
                      | Some m => lookup m r
                      | None => None
                      end.
Proof.
  revert n. induction p as [|x p IH]; intros n; [done|]. simpl.
  destruct n as [|entries]; [done|]. destruct (find x entries); [apply IH|done].
Qed.

Lemma lookup_snoc_dir (n : node) (dir : path) (x : str) entries :
  lookup n dir = Some (Dir entries) -> lookup n (dir ++ [x]) = find x entries.
Proof. intros H. rewrite lookup_app, H. simpl. by destruct (find x entries). Qed.

Lemma place_cons entries (x y : str) (p : path) (v : node) :
  place (Dir entries) (x :: y :: p) v
  = match find x entries with
    | Some c =>
        match place c (y :: p) v with
        | Some c' => Some (Dir (put x c' entries))
        | None => None
        end
    | None => None
    end.
Proof. reflexivity. Qed.

Lemma remove_cons entries (x y : str) (p : path) :
  remove (Dir entries) (x :: y :: p)
  = match find x entries with
    | Some c =>
        match remove c (y :: p) with
        | Some c' => Some (Dir (put x c' entries))
        | None => None
        end
    | None => None
    end.
Proof. reflexivity. Qed.

Lemma place_inv (n n' : node) (x : str) (p : path) (v : node) :
  place n (x :: p) v = Some n' ->
  exists entries c',
    n = Dir entries /\ n' = Dir (put x c' entries)
    /\ match p with
       | [] => c' = v
       | _ => exists c, find x entries = Some c /\ place c p v = Some c'
       end.
Proof.
  destruct n as [|entries]; [done|]. simpl. destruct p as [|y p].
  - intros [= <-]. by exists entries, v.
  - destruct (find x entries) as [c|] eqn:F; [|done].
    destruct (place c (y :: p) v) as [c'|] eqn:E; [|done].
    intros [= <-]. exists entries, c'. split; [done|split; [done|]]. by exists c.
Qed.

Lemma place_lookup_under (n n' : node) (p r : path) (v : node) :
  place n p v = Some n' -> lookup n' (p ++ r) = lookup v r.
Proof.
  revert n n'. induction p as [|x p IH]; intros n n' H.
  - by destruct n.
  - apply place_inv in H as (entries & c' & -> & -> & H).
    simpl. rewrite find_put_eq. destruct p as [|y p].
    + by subst.
    + destruct H as (c & _ & H). by apply IH in H.
Qed.

Lemma place_lookup_diverge (n n' : node) (p q : path) (v : node) :
  place n p v = Some n' -> diverge p q -> lookup n' q = lookup n q.
Proof.
  intros H Hd. revert n n' H.
  induction Hd as [x y p q Hxy|x p q Hd IH]; intros n n' H;
    apply place_inv in H as (entries & c' & -> & -> & H); simpl.
  - by rewrite find_put_ne.
  - rewrite find_put_eq. destruct p as [|z p]; [inversion Hd|].
    destruct H as (c & -> & H). by apply IH.
Qed.

Lemma place_lookup_above (n n' : node) (q : path) (x : str) (r : path) (v : node) :
  place n (q ++ x :: r) v = Some n' ->
  exists entries entries',
    lookup n q = Some (Dir entries) /\ lookup n' q = Some (Dir entries').
Proof.
  revert n n'. induction q as [|y q IH]; intros n n' H.
  - apply place_inv in H as (entries & c' & -> & -> & _). by eexists _, _.
  - rewrite <- app_comm_cons in H.
    assert (exists z l, q ++ x :: r = z :: l) as (z & l & E)
      by (destruct q; by eexists _, _).
    rewrite E in H. apply place_inv in H as (entries & c' & -> & -> & H).
    destruct H as (c & Hc & H). rewrite <- E in H. simpl.
    rewrite find_put_eq, Hc. by apply IH in H.
Qed.

Lemma place_succeeds (n : node) (dir : path) (x : str) (v : node) entries :
  lookup n dir = Some (Dir entries) -> is_Some (place n (dir ++ [x]) v).
Proof.
  revert n. induction dir as [|y dir IH]; intros n H.
  - simpl in H. injection H as ->. by eexists.
  - simpl in H. destruct n as [|es]; [done|].
    destruct (find y es) as [c|] eqn:E; [|done].
    destruct (IH c H) as [c' Hc']. cbn [app].
    destruct (dir ++ [x]) eqn:E'; [by destruct dir|].
    rewrite place_cons, E, Hc'. by eexists.
Qed.

Lemma remove_inv (n n' : node) (x : str) (p : path) :
  remove n (x :: p) = Some n' ->
  exists entries,
    n = Dir entries
    /\ match p with
       | [] => n' = Dir (del x entries)
       | _ => exists c c', find x entries = Some c /\ remove c p = Some c'
                           /\ n' = Dir (put x c' entries)
       end.
Proof.
  destruct n as [|entries]; [done|]. simpl. destruct p as [|y p].
  - intros [= <-]. by exists entries.
  - destruct (find x entries) as [c|] eqn:F; [|done].
    destruct (remove c (y :: p)) as [c'|] eqn:E; [|done].
    intros [= <-]. exists entries. split; [done|]. by exists c, c'.
Qed.

Lemma remove_lookup_under (n n' : node) (p r : path) :
  remove n p = Some n' -> lookup n' (p ++ r) = None.
Proof.
  revert n n'. induction p as [|x p IH]; intros n n' H.
  - by destruct n.
  - apply remove_inv in H as (entries & -> & H). destruct p as [|y p].
    + subst. simpl. rewrite find_del. by rewrite decide_True.
    + destruct H as (c & c' & _ & H & ->). cbn [app lookup].
      rewrite find_put_eq. by apply IH in H.
Qed.

Lemma remove_lookup_diverge (n n' : node) (p q : path) :
  remove n p = Some n' -> diverge p q -> lookup n' q = lookup n q.
Proof.
  intros H Hd. revert n n' H.
  induction Hd as [x y p q Hxy|x p q Hd IH]; intros n n' H;
    apply remove_inv in H as (entries & -> & H).
  - destruct p as [|z p].
    + subst. simpl. rewrite find_del. by rewrite decide_False.
    + destruct H as (c & c' & _ & _ & ->). simpl. by rewrite find_put_ne.
  - destruct p as [|z p]; [inversion Hd|].
    destruct H as (c & c' & Hc & H & ->). simpl.
    rewrite find_put_eq, Hc. by apply IH.
Qed.

Lemma remove_lookup_above (n n' : node) (q : path) (x : str) (r : path) :
  remove n (q ++ x :: r) = Some n' ->
  exists entries entries',
    lookup n q = Some (Dir entries) /\ lookup n' q = Some (Dir entries').
Proof.
  revert n n'. induction q as [|y q IH]; intros n n' H.
  - apply remove_inv in H as (entries & -> & H). destruct r.
    + subst. by eexists _, _.
    + destruct H as (c & c' & _ & _ & ->). by eexists _, _.
  - rewrite <- app_comm_cons in H.
    assert (exists z l, q ++ x :: r = z :: l) as (z & l & E)
      by (destruct q; by eexists _, _).
    rewrite E in H. apply remove_inv in H as (entries & -> & H).
    destruct H as (c & c' & Hc & H & ->). rewrite <- E in H. simpl.
    rewrite find_put_eq, Hc. by apply IH in H.
Qed.

Lemma remove_succeeds (n : node) (dir : path) (x : str) entries :
  lookup n dir = Some (Dir entries) -> is_Some (remove n (dir ++ [x])).
Proof.
  revert n. induction dir as [|y dir IH]; intros n H.
  - simpl in H. injection H as ->. by eexists.
  - simpl in H. destruct n as [|es]; [done|].
    destruct (find y es) as [c|] eqn:E; [|done].
    destruct (IH c H) as [c' Hc']. cbn [app].
    destruct (dir ++ [x]) eqn:E'; [by destruct dir|].
    rewrite remove_cons, E, Hc'. by eexists.
Qed.

(** [n'] keeps [n] when every file of [n] is in [n'] with its data and
    every directory of [n] is a directory of [n']: nothing was lost or
    overwritten on the way from [n] to [n']. *)
Definition keeps (n n' : node) : Prop :=
  forall q,
    match lookup n q with
    | Some (File d) => lookup n' q = Some (File d)
    | Some (Dir _) => exists entries, lookup n' q = Some (Dir entries)
    | None => True
    end.

Lemma keeps_refl (n : node) : keeps n n.
Proof. intros q. destruct (lookup n q) as [[d|es]|]; eauto. Qed.

Lemma keeps_trans (n1 n2 n3 : node) : keeps n1 n2 -> keeps n2 n3 -> keeps n1 n3.
Proof.
  intros H12 H23 q. specialize (H12 q). specialize (H23 q).
  destruct (lookup n1 q) as [[d|es]|]; [| |done].
  - by rewrite H12 in H23.
  - destruct H12 as [es' H12]. by rewrite H12 in H23.
Qed.

Lemma keeps_same_lookup (n n' : node) (q : path) :
  lookup n' q = lookup n q ->
  match lookup n q with
  | Some (File d) => lookup n' q = Some (File d)
  | Some (Dir _) => exists entries, lookup n' q = Some (Dir entries)
  | None => True
  end.
Proof. intros ->. destruct (lookup n q) as [[d|es]|]; eauto. Qed.

Lemma place_new_keeps (n n' : node) (p : path) (v : node) :
  lookup n p = None -> place n p v = Some n' -> keeps n n'.
Proof.
  intros Hnew H q. destruct (path_cases p q) as [[r ->]|[(x & r & ->)|Hd]].
  - by rewrite lookup_app, Hnew.
  - apply place_lookup_above in H as (es & es' & -> & ->). eauto.
  - apply keeps_same_lookup. by eapply place_lookup_diverge.
Qed.

Lemma MkdirAll_inv (n n' : node) (x : str) (p : path) :
  MkdirAll n (x :: p) = Some n' ->
  exists entries c',
    n = Dir entries /\ n' = Dir (put x c' entries)
    /\ MkdirAll (default (Dir []) (find x entries)) p = Some c'.
Proof.
  destruct n as [|entries]; [done|]. simpl.
  destruct (MkdirAll _ p) as [c'|] eqn:E; [|done].
  intros [= <-]. by exists entries, c'.
Qed.

Lemma MkdirAll_nil (n n' : node) :
  MkdirAll n [] = Some n' -> n' = n /\ exists entries, n = Dir entries.
Proof. destruct n; [done|]. intros [= <-]. eauto. Qed.

Lemma MkdirAll_lookup (n n' : node) (p : path) :
  MkdirAll n p = Some n' -> exists entries, lookup n' p = Some (Dir entries).
Proof.
  revert n n'. induction p as [|x p IH]; intros n n' H.
  - apply MkdirAll_nil in H as [-> [es ->]]. eauto.
  - apply MkdirAll_inv in H as (es & c' & -> & -> & H). simpl.
    rewrite find_put_eq. by apply IH in H.
Qed.

Lemma MkdirAll_diverge (n n' : node) (p q : path) :
  MkdirAll n p = Some n' -> diverge p q -> lookup n' q = lookup n q.
Proof.
  intros H Hd. revert n n' H.
  induction Hd as [x y p q Hxy|x p q Hd IH]; intros n n' H;
    apply MkdirAll_inv in H as (es & c' & -> & -> & H); simpl.
  - by rewrite find_put_ne.
  - rewrite find_put_eq. destruct (find x es) as [c|] eqn:E.
    + by apply IH.
    + simpl in H. rewrite (IH _ _ H). by destruct Hd.
Qed.

Lemma MkdirAll_keeps (n n' : node) (p : path) :
  MkdirAll n p = Some n' -> keeps n n'.
Proof.
  revert n n'. induction p as [|x p IH]; intros n n' H.
  - apply MkdirAll_nil in H as [-> _]. apply keeps_refl.
  - apply MkdirAll_inv in H as (es & c' & -> & -> & H).
    intros [|y q]; [simpl; eauto|]. simpl.
    destruct (decide (x = y)) as [<-|Hxy].
    + rewrite find_put_eq. destruct (find x es) as [c|]; [|done].
      apply (IH _ _ H q).
    + rewrite find_put_ne by done.
      destruct (find y es) as [c|]; [|done].
      by destruct (lookup c q) as [[d|es']|]; eauto.
Qed.

(** ** The state of a run: the output tree and the log *)

(** One constructor for each [log.Printf] of the stages below. *)
Inductive logmsg :=
| SkipExistingFile (dstPath : path)
| TargetDirExists (finalPath : path)
| MergeDone (finalPath dirPath : path)
| SourceDirMissing (dirPath : path)
| DirRenamed (dirPath finalPath : path)
| DirRenameError (dirPath : path) (err : error)
| HtmlTargetExists (newPath : path)
| HtmlRenameError (htmlPath newPath : path) (err : error)
| HtmlRenamed (htmlPath newPath : path).

Record state := State { fs : node; log : list logmsg }.

Definition setFs (st : state) (n : node) : state := State n (log st).
Definition logPrintf (st : state) (m : logmsg) : state :=
  State (fs st) (log st ++ [m]).

(** *** [filepath.Walk] *)

(** The entries [filepath.Walk] visits below and including [p]: a
    directory before its content, the content in the order of the names. *)
Fixpoint walk (p : path) (n : node) : list (path * bool) :=
  (p, isDir n)
  :: match n with
     | File _ => []
     | Dir entries =>
         (fix children (entries : list (str * node)) : list (path * bool) :=
            match entries with
            | [] => []
            | (x, c) :: entries' => walk (p ++ [x]) c ++ children entries'
            end) entries
     end.

(** The calls of the callback, until one returns an error. *)
Fixpoint visit {S : Type} (fn : path -> bool -> S -> S * option error)
    (entries : list (path * bool)) (s : S) : S * option error :=
  match entries with
  | [] => (s, None)
  | (p, isdir) :: entries' =>
      match fn p isdir s with
      | (s', None) => visit fn entries' s'
      | (s', Some err) => (s', Some err)
      end
  end.

(** [filepath.Walk(root, fn)] on the tree [n].  The callbacks of the
    program do not change what is below [root] while it is walked, so the
    entries are those of [n] at the call.  When [root] cannot be read the
    callbacks of the program return the error they are called with. *)
Definition Walk {S : Type} (n : node) (root : path)
    (fn : path -> bool -> S -> S * option error) (s : S) : S * option error :=
  match lookup n root with
  | None => (s, Some (missingParent n root))
  | Some r => visit fn (walk root r) s
  end.

(** *** Copying and merging *)

(** [CopyFile]: opens [src], makes the directory of [dst], creates [dst]
    and copies the bytes.  [os.Create] truncates [dst]: when [dst] is
    [src] itself there is nothing left to copy. *)
Definition CopyFile (n : node) (src dst : path) : node * option error :=
  match lookup n src with
  | None => (n, Some (missingParent n src))
  | Some s =>
      match MkdirAll n (removelast dst) with
      | None => (n, Some ENOTDIR)
      | Some n1 =>
          match s with
          | File data =>
              match WriteFile n1 dst (if decide (src = dst) then [] else data) with
              | inl n2 => (n2, None)
              | inr err => (n1, Some err)
              end
          | Dir _ =>
              match WriteFile n1 dst "" with
              | inl n2 => (n2, Some EISDIR)
              | inr err => (n1, Some err)
              end
          end
      end
  end.

(** The callback of [mergeDirectories]. *)
Definition mergeEntry (srcDir dstDir : path) (p : path) (isdir : bool)
    (st : state) : state * option error :=
  if decide (p = srcDir) then (st, None)
  else
    let relPath := drop (length srcDir) p in
    let dstPath := dstDir ++ relPath in
    if isdir then
      match MkdirAll (fs st) dstPath with
      | Some n => (setFs st n, None)
      | None => (st, Some ENOTDIR)
      end
    else
      match lookup (fs st) dstPath with
      | Some _ => (logPrintf st (SkipExistingFile dstPath), None)
      | None =>
          let '(n, err) := CopyFile (fs st) p dstPath in
          (setFs st n, err)
      end.

(** [mergeDirectories]. *)
Definition mergeDirectories (srcDir dstDir : path) (st : state)
  : state * option error :=
  Walk (fs st) srcDir (mergeEntry srcDir dstDir) st.

(** ** The case normalizer *)

(** The second half of [renameSingleDirectoryToLowercase]: the check that
    the directory is there, the rename to the temporary name, the rename
    to the final name and, when that one fails, the rename back. *)
Definition twoPhaseRename (dirPath tempPath finalPath : path) (st : state)
  : state * option error :=
  match lookup (fs st) dirPath with
  | None => (logPrintf st (SourceDirMissing dirPath), None)
  | Some _ =>
      match Rename (fs st) dirPath tempPath with
      | inr err => (st, Some (TempRenameFailed dirPath tempPath err))
      | inl n1 =>
          match Rename n1 tempPath finalPath with
          | inr err =>
              let n2 := match Rename n1 tempPath dirPath with
                        | inl n2 => n2
                        | inr _ => n1
                        end in
              (setFs st n2, Some (FinalRenameFailed tempPath finalPath err))
          | inl n2 =>
              (logPrintf (setFs st n2) (DirRenamed dirPath finalPath), None)
          end
      end
  end.

(** The first half of [renameSingleDirectoryToLowercase]: when the final
    path exists already, what is below it is merged into the directory
    that is about to be renamed. *)
Definition mergeExisting (finalPath dirPath : path) (st : state)
  : state * option error :=
  match lookup (fs st) finalPath with
  | Some _ =>
      let st := logPrintf st (TargetDirExists finalPath) in
      match mergeDirectories finalPath dirPath st with
      | (st, Some err) => (st, Some (MergeFailed finalPath dirPath err))
      | (st, None) => (logPrintf st (MergeDone finalPath dirPath), None)
      end
  | None => (st, None)
  end.

(** [renameSingleDirectoryToLowercase]. *)
Definition renameSingleDirectoryToLowercase (dirPath : path) (st : state)
  : state * option error :=
  let dir := removelast dirPath in
  let currentName := List.last dirPath [] in
  let lowerName := ToLower currentName in
  if decide (currentName = lowerName) then (st, None)
  else
    let finalPath := dir ++ [lowerName] in
    match mergeExisting finalPath dirPath st with
    | (st, Some err) => (st, Some err)
    | (st, None) =>
        let tempName := currentName ++ "_temp_rename" in
        let tempPath := dir ++ [tempName] in
        twoPhaseRename dirPath tempPath finalPath st
    end.

(** The exchange of two elements of a slice. *)
Definition swap {A} (l : list A) (i j : nat) : list A :=
  match l !! i, l !! j with
  | Some a, Some b => <[i:=b]> (<[j:=a]> l)
  | _, _ => l
  end.

(** The loop [for i := len(directories)/2 - 1; i >= 0; i--] that reverses
    the slice in place; [count] is [i + 1]. *)
Fixpoint reverseLoop (count : nat) (directories : list path) : list path :=
  match count with
  | 0 => directories
  | S i =>
      let opp := length directories - 1 - i in
      reverseLoop i (swap directories i opp)
  end.

(** The callback of the walk that collects the directories. *)
Definition collectDirectory (rootDir : path) (p : path) (isdir : bool)
    (directories : list path) : list path * option error :=
  if isdir && negb (bool_decide (p = rootDir)) then (directories ++ [p], None)
  else (directories, None).

(** The loop over the directories: an error is logged and the loop goes
    on with the next directory. *)
Fixpoint renameEach (directories : list path) (st : state) : state :=
  match directories with
  | [] => st
  | dirPath :: directories' =>
      match renameSingleDirectoryToLowercase dirPath st with
      | (st, Some err) => renameEach directories' (logPrintf st (DirRenameError dirPath err))
      | (st, None) => renameEach directories' st
      end
  end.

(** The directories in the order of the loop. *)
Definition directoriesToRename (n : node) (rootDir : path)
  : list path * option error :=
  match Walk n rootDir (collectDirectory rootDir) [] with
  | (directories, Some err) => (directories, Some err)
  | (directories, None) =>
      (reverseLoop (length directories / 2) directories, None)
  end.

(** [RenameDirectoriesToLowercase]. *)
Definition RenameDirectoriesToLowercase (rootDir : path) (st : state)
  : state * option error :=
  match directoriesToRename (fs st) rootDir with
  | (_, Some err) => (st, Some err)
  | (directories, None) => (renameEach directories st, None)
  end.

(** *** Trees for the examples *)

Definition collisionTree : node :=
  Dir [("Docs" : str, Dir [("a.txt" : str, File "upper"); ("c.txt" : str, File "only upper")]);
       ("docs" : str, Dir [("a.txt" : str, File "lower"); ("b.txt" : str, File "only lower")])].

(** *** Well-formed trees and the order of the walk *)

(** A directory has no two entries of the same name. *)
Fixpoint wellFormed (n : node) : bool :=
  match n with
  | File _ => true
  | Dir entries =>
      bool_decide (NoDup (map fst entries))
      && (fix all (entries : list (str * node)) : bool :=
            match entries with
            | [] => true
            | (_, c) :: entries' => wellFormed c && all entries'
            end) entries
  end.

Fixpoint node_ind' (P : node -> Prop)
    (HFile : forall data, P (File data))
    (HDir : forall entries, Forall (fun e => P e.2) entries -> P (Dir entries))
    (n : node) : P n :=
  match n with
  | File data => HFile data
  | Dir entries =>
      HDir entries
        ((fix all (entries : list (str * node)) : Forall (fun e => P e.2) entries :=
            match entries with
            | [] => List.Forall_nil _
            | (x, c) :: entries' =>
                @List.Forall_cons _ (fun e => P e.2) (x, c) entries'
                  (node_ind' P HFile HDir c) (all entries')
            end) entries)
  end.

Lemma wellFormed_Dir entries :
  wellFormed (Dir entries) = true <->
  NoDup (map fst entries) /\ Forall (fun e => wellFormed e.2 = true) entries.
Proof.
  cbn [wellFormed]. rewrite andb_true_iff, bool_decide_eq_true.
  apply and_iff_compat_l. induction entries as [|[x c] entries IH].
  - split; [constructor|done].
  - rewrite andb_true_iff, IH, Forall_cons. done.
Qed.

Lemma walk_Dir (p : path) entries :
  walk p (Dir entries)
  = (p, true) :: flat_map (fun e => walk (p ++ [e.1]) e.2) entries.
Proof.
  cbn [walk isDir]. f_equal.
  induction entries as [|[x c] entries IH]; [done|]. cbn [flat_map]. by rewrite IH.
Qed.

(** [c] is below [d] in the tree. *)
Definition below (d c : path) : Prop := exists x r, c = d ++ x :: r.

#[global] Instance below_dec (d c : path) : Decision (below d c).
Proof.
  refine (cast_if (decide (d `prefix_of` c /\ d <> c))).
  - destruct a as [[r ->] Hne]. destruct r as [|x r].
    + by rewrite app_nil_r in Hne.
    + by exists x, r.
  - intros (x & r & ->). apply n. split; [by eexists|].
    intros H. apply (f_equal length) in H. rewrite length_app in H. simpl in H. lia.
Defined.




(** Every entry of a walk is the root of the walk or below it. *)
Lemma walk_entries (p : path) (n : node) (e : path * bool) :
  e ∈ walk p n -> e.1 = p \/ below p e.1.
Proof.
  revert p. induction n as [data|entries IH] using node_ind'; intros p.
  - simpl. rewrite list_elem_of_singleton. intros ->. by left.
  - rewrite walk_Dir, elem_of_cons. intros [->|He]; [by left|]. right.
    apply list_elem_of_In, in_flat_map in He as ([x c] & Hin & He).
    rewrite Forall_forall in IH.
    apply list_elem_of_In in He. apply list_elem_of_In in Hin.
    destruct (IH _ Hin _ He) as [Heq|(y & r & Heq)]; rewrite Heq; simpl.
    + by exists x, [].
    + exists x, (y :: r). by rewrite <- app_assoc.
Qed.


Lemma walk_entries_child (p : path) (x : str) (c : node) (e : path * bool) :
  e ∈ walk (p ++ [x]) c -> exists r, e.1 = p ++ x :: r.
Proof.
  intros [->|(y & r & ->)]%walk_entries.
  - by exists [].
  - exists (y :: r). by rewrite <- app_assoc.
Qed.


(** *** The reversal loop *)

Lemma swap_length {A} (l : list A) (i j : nat) : length (swap l i j) = length l.
Proof.
  unfold swap. destruct (l !! i), (l !! j); try done. by rewrite !length_insert.
Qed.

Lemma swap_lookup {A} (l : list A) (i j k : nat) :
  i < length l -> j < length l ->
  swap l i j !! k
  = if decide (k = i) then l !! j else if decide (k = j) then l !! i else l !! k.
Proof.
  intros Hi Hj. unfold swap.
  destruct (lookup_lt_is_Some_2 l i Hi) as [a Ha].
  destruct (lookup_lt_is_Some_2 l j Hj) as [b Hb].
  rewrite Ha, Hb. destruct (decide (k = i)) as [->|Hki].
  - by rewrite list_lookup_insert_eq by (by rewrite length_insert).
  - rewrite list_lookup_insert_ne by done.
    destruct (decide (k = j)) as [->|Hkj].
    + by rewrite list_lookup_insert_eq.
    + by rewrite list_lookup_insert_ne.
Qed.

Lemma reverseLoop_invariant (l0 : list path) (count : nat) (m : list path) :
  count <= length l0 / 2 ->
  length m = length l0 ->
  (forall k, m !! k = if (count <=? k) && (k <? length l0 - count)
                      then l0 !! (length l0 - 1 - k) else l0 !! k) ->
  reverseLoop count m = reverse l0.
Proof.
  revert m. induction count as [|i IH]; intros m Hcount Hlen Hm.
  - simpl. apply list_eq. intros k. rewrite Hm. simpl.
    destruct (k <? length l0 - 0) eqn:E.
    + apply Nat.ltb_lt in E. rewrite reverse_lookup by lia. f_equal. lia.
    + apply Nat.ltb_ge in E. rewrite !lookup_ge_None_2; [done|..].
      * rewrite length_reverse. lia.
      * lia.
  - assert (Hdiv : 2 * (length l0 / 2) <= length l0).
    { apply Nat.Div0.mul_div_le. }
    cbn [reverseLoop]. apply IH; [lia|by rewrite swap_length|].
    intros k. rewrite swap_lookup by lia. rewrite Hlen.
    destruct (decide (k = i)) as [->|Hki].
    + rewrite Hm.
      replace ((S i <=? length l0 - 1 - i) && (length l0 - 1 - i <? length l0 - S i))
        with false.
      2: { symmetry. apply andb_false_iff. right. apply Nat.ltb_ge. lia. }
      replace ((i <=? i) && (i <? length l0 - i)) with true; [done|].
      symmetry. apply andb_true_iff. split; [apply Nat.leb_le|apply Nat.ltb_lt]; lia.
    + destruct (decide (k = length l0 - 1 - i)) as [->|Hko].
      * rewrite Hm.
        replace ((S i <=? i) && (i <? length l0 - S i)) with false.
        2: { symmetry. apply andb_false_iff. left. apply Nat.leb_gt. lia. }
        replace ((i <=? length l0 - 1 - i) && (length l0 - 1 - i <? length l0 - i))
          with true.
        2: { symmetry. apply andb_true_iff.
             split; [apply Nat.leb_le|apply Nat.ltb_lt]; lia. }
        f_equal. lia.
      * rewrite Hm.
        replace ((S i <=? k) && (k <? length l0 - S i))
          with ((i <=? k) && (k <? length l0 - i)); [done|].
        destruct (i <=? k) eqn:E1, (k <? length l0 - i) eqn:E2,
                 (S i <=? k) eqn:E3, (k <? length l0 - S i) eqn:E4; try done;
          rewrite ?Nat.leb_le, ?Nat.leb_gt, ?Nat.ltb_lt, ?Nat.ltb_ge in *; lia.
Qed.

(** The loop of [RenameDirectoriesToLowercase] reverses the slice. *)
Lemma reverseLoop_reverse (directories : list path) :
  reverseLoop (length directories / 2) directories = reverse directories.
Proof.
  assert (Hdiv : 2 * (length directories / 2) <= length directories).
  { apply Nat.Div0.mul_div_le. }
  assert (Hmod : length directories < 2 * (length directories / 2) + 2).
  { pose proof (Nat.div_mod_eq (length directories) 2).
    pose proof (Nat.mod_upper_bound (length directories) 2). lia. }
  apply reverseLoop_invariant; [done..|]. intros k.
  destruct ((length directories / 2 <=? k)
            && (k <? length directories - length directories / 2)) eqn:E; [|done].
  apply andb_true_iff in E as [E1%Nat.leb_le E2%Nat.ltb_lt]. f_equal. lia.
Qed.

(** *** The order in which the directories are renamed *)

(** The directories below [rootDir], in the order of the walk. *)
Definition subdirectories (rootDir : path) (r : node) : list path :=
  map fst (List.filter (fun e => e.2 && negb (bool_decide (e.1 = rootDir)))
             (walk rootDir r)).

Lemma visit_collect (rootDir : path) (entries : list (path * bool))
    (directories : list path) :
  visit (collectDirectory rootDir) entries directories
  = (directories
     ++ map fst (List.filter (fun e => e.2 && negb (bool_decide (e.1 = rootDir)))
                   entries),
     None).
Proof.
  revert directories. induction entries as [|[p isdir] entries IH]; intros ds.
  - by rewrite app_nil_r.
  - cbn [visit List.filter]. unfold collectDirectory. simpl.
    destruct (isdir && negb (bool_decide (p = rootDir))).
    + rewrite IH. cbn [map]. by rewrite <- app_assoc.
    + apply IH.
Qed.

Lemma directoriesToRename_reverse (n : node) (rootDir : path) (r : node) :
  lookup n rootDir = Some r ->
  directoriesToRename n rootDir = (reverse (subdirectories rootDir r), None).
Proof.
  intros H. unfold directoriesToRename, Walk. rewrite H, visit_collect.
  cbn [app]. by rewrite reverseLoop_reverse.
Qed.





(** *** Renaming and renaming back *)

Lemma Rename_inv (n n' : node) (old new : path) :
  Rename n old new = inl n' -> old <> new ->
  exists v n1,
    lookup n old = Some v /\ remove n old = Some n1 /\ place n1 new v = Some n'.
Proof.
  unfold Rename. intros H Hne.
  destruct (lookup n old) as [v|] eqn:Hv; [|done]. exists v.
  assert (Hmove : exists n1, remove n old = Some n1 /\ place n1 new v = Some n').
  { destruct (lookup n new) as [[d|es]|]; [|done|];
      rewrite decide_False in H by done;
      destruct (lookup n (removelast new)) as [[?|?]|]; try done;
      destruct v; try done;
      destruct (decide (old `prefix_of` new)); try done;
      unfold move in H;
      destruct (remove n old) as [n1|]; try done;
      destruct (place n1 new _) eqn:Hp; try done;
      injection H as <-; by exists n1. }
  destruct Hmove as (n1 & Hrm & Hpl). by exists n1.
Qed.

Lemma Rename_move (n n1 n2 : node) (old new : path) (v : node) entries :
  old <> new -> ~ old `prefix_of` new ->
  lookup n old = Some v -> lookup n new = None ->
  lookup n (removelast new) = Some (Dir entries) ->
  remove n old = Some n1 -> place n1 new v = Some n2 ->
  Rename n old new = inl n2.
Proof.
  intros Hne Hpre Hv Hnew Hparent Hrm Hpl. unfold Rename, move.
  rewrite Hv, Hnew, decide_False, Hparent by done.
  destruct v; rewrite ?decide_False by done; by rewrite Hrm, Hpl.
Qed.

Lemma siblings_diverge (dir : path) (x y : str) :
  x <> y -> diverge (dir ++ [x]) (dir ++ [y]).
Proof. intros H. by apply diverge_siblings. Qed.

Lemma temp_name_ne (name : str) : name ++ "_temp_rename" <> name.
Proof.
  intros H. apply (f_equal length) in H. rewrite length_app in H.
  simpl in H. lia.
Qed.

(** A directory renamed to a sibling name and back is where it was, as
    it was. *)
Lemma Rename_there_and_back (n n1 : node) (dir : path) (x y : str) (v : node) :
  x <> y ->
  lookup n (dir ++ [x]) = Some v ->
  Rename n (dir ++ [x]) (dir ++ [y]) = inl n1 ->
  exists n2,
    Rename n1 (dir ++ [y]) (dir ++ [x]) = inl n2
    /\ lookup n2 (dir ++ [x]) = Some v
    /\ lookup n2 (dir ++ [y]) = None
    /\ forall q, diverge (dir ++ [x]) q -> diverge (dir ++ [y]) q ->
                 lookup n2 q = lookup n q.
Proof.
  intros Hxy Hv H1.
  assert (Hd : diverge (dir ++ [x]) (dir ++ [y])) by by apply siblings_diverge.
  assert (Hne : dir ++ [x] <> dir ++ [y]) by by intros ?%app_inv_head; simplify_eq.
  apply Rename_inv in H1 as (v' & m & Hv' & Hrm & Hpl); [|done].
  rewrite Hv in Hv'. injection Hv' as <-.
  (* the tree after the first rename *)
  assert (Hy1 : lookup n1 (dir ++ [y]) = Some v).
  { rewrite <- (app_nil_r (dir ++ [y])). by rewrite (place_lookup_under _ _ _ _ _ Hpl). }
  assert (Hx1 : lookup n1 (dir ++ [x]) = None).
  { rewrite (place_lookup_diverge _ _ _ _ _ Hpl) by by apply diverge_sym.
    rewrite <- (app_nil_r (dir ++ [x])). apply (remove_lookup_under _ _ _ _ Hrm). }
  destruct (place_lookup_above _ _ dir y [] _ Hpl) as (es & es1 & _ & Hdir1).
  (* the rename back *)
  destruct (remove_succeeds n1 dir y es1 Hdir1) as [m' Hrm'].
  destruct (remove_lookup_above _ _ dir y [] Hrm') as (? & es2 & _ & Hdir2).
  destruct (place_succeeds m' dir x v es2 Hdir2) as [n2 Hpl'].
  exists n2. split; [|split; [|split]].
  - apply (Rename_move n1 m' n2 _ _ v es1); try done.
    + intros [r Hr]. rewrite <- app_assoc in Hr. apply app_inv_head in Hr.
      simpl in Hr. injection Hr as Hr _. by apply Hxy.
    + by rewrite removelast_last.
  - rewrite <- (app_nil_r (dir ++ [x])). by rewrite (place_lookup_under _ _ _ _ _ Hpl').
  - rewrite (place_lookup_diverge _ _ _ _ _ Hpl') by done.
    rewrite <- (app_nil_r (dir ++ [y])). apply (remove_lookup_under _ _ _ _ Hrm').
  - intros q Hqx Hqy.
    rewrite (place_lookup_diverge _ _ _ _ _ Hpl') by done.
    rewrite (remove_lookup_diverge _ _ _ _ Hrm') by done.
    rewrite (place_lookup_diverge _ _ _ _ _ Hpl) by done.
    by rewrite (remove_lookup_diverge _ _ _ _ Hrm).
Qed.

Lemma removelast_snoc {A} (l : list A) (x : A) : removelast (l ++ [x]) = l.
Proof. apply removelast_last. Qed.

Lemma last_snoc' {A} (l : list A) (x d : A) : List.last (l ++ [x]) d = x.
Proof. apply last_last. Qed.

(** *** What a merge changes *)

Lemma MkdirAll_lookup_other (n n' : node) (p q : path) :
  MkdirAll n p = Some n' -> ~ q `prefix_of` p -> lookup n' q = lookup n q.
Proof.
  revert n n' q. induction p as [|x p IH]; intros n n' q H Hq.
  - by apply MkdirAll_nil in H as [-> _].
  - apply MkdirAll_inv in H as (es & c' & -> & -> & H).
    destruct q as [|y q]; [by destruct Hq; apply prefix_nil|]. simpl.
    destruct (decide (x = y)) as [<-|Hxy]; [|by rewrite find_put_ne].
    rewrite find_put_eq. rewrite (IH _ _ q H).
    + destruct (find x es); [done|]. simpl. destruct q as [|z q]; [|done].
      destruct Hq. apply prefix_cons, prefix_nil.
    + intros Hpre. apply Hq. by apply prefix_cons.
Qed.

Lemma diverge_not_prefix (p q : path) : diverge p q -> ~ q `prefix_of` p.
Proof.
  induction 1 as [x y p q Hxy|x p q Hd IH]; intros [r Hr].
  - injection Hr as Hr _. by apply Hxy.
  - injection Hr as Hr. apply IH. by exists r.
Qed.

Lemma prefix_removelast (p q : path) :
  q `prefix_of` removelast p -> q `prefix_of` p.
Proof.
  intros Hq. destruct (decide (p = [])) as [->|Hp]; [done|].
  rewrite (app_removelast_last [] Hp). by apply prefix_app_r.
Qed.

Lemma CopyFile_spec (n n' : node) (src dst : path) (data : str) (res : option error) :
  dst <> [] ->
  lookup n src = Some (File data) -> lookup n dst = None ->
  CopyFile n src dst = (n', res) ->
  (forall q, diverge dst q -> lookup n' q = lookup n q)
  /\ keeps n n'
  /\ (res = None -> lookup n' dst = Some (File data)).
Proof.
  intros Hdst Hsrc Hnew. unfold CopyFile. rewrite Hsrc.
  rewrite decide_False by (intros ->; congruence).
  destruct (MkdirAll n (removelast dst)) as [n1|] eqn:Hmk.
  2: { intros [= <- <-]. split; [done|]. split; [apply keeps_refl|done]. }
  assert (Hother : forall q, diverge dst q -> lookup n1 q = lookup n q).
  { intros q Hq. apply (MkdirAll_lookup_other _ _ _ _ Hmk).
    intros Hpre%prefix_removelast. by apply diverge_not_prefix in Hq. }
  assert (Hnew1 : lookup n1 dst = None).
  { rewrite (MkdirAll_lookup_other _ _ _ _ Hmk); [done|].
    intros [r Hr]. apply (f_equal length) in Hr.
    rewrite length_app in Hr.
    rewrite (app_removelast_last [] Hdst) in Hr at 2.
    rewrite length_app in Hr. simpl in Hr. lia. }
  pose proof (MkdirAll_keeps _ _ _ Hmk) as Hkeep.
  unfold WriteFile. rewrite Hnew1.
  destruct (place n1 dst (File data)) as [n2|] eqn:Hpl; intros [= <- <-].
  - split; [|split].
    + intros q Hq. rewrite (place_lookup_diverge _ _ _ _ _ Hpl) by done. by apply Hother.
    + eapply keeps_trans; [done|]. by eapply place_new_keeps.
    + intros _. rewrite <- (app_nil_r dst). by rewrite (place_lookup_under _ _ _ _ _ Hpl).
  - by repeat split.
Qed.

(** What the merge promises for the source tree [c] and the place [d] it
    is merged to: its directories are directories below [d], and each of
    its files is below [d] either as it was there before, with the
    conflict logged, or as a copy. *)
Definition mergedTo (c : node) (d : path) (s s' : state) : Prop :=
  forall r m,
    lookup c r = Some m ->
    match m with
    | Dir _ => exists entries, lookup (fs s') (d ++ r) = Some (Dir entries)
    | File data =>
        match lookup (fs s) (d ++ r) with
        | None => lookup (fs s') (d ++ r) = Some (File data)
        | Some old =>
            lookup (fs s') (d ++ r) = Some old
            /\ SkipExistingFile (d ++ r) ∈ log s'
        end
    end.

Lemma visit_app {S : Type} (fn : path -> bool -> S -> S * option error)
    (l1 l2 : list (path * bool)) (s : S) :
  visit fn (l1 ++ l2) s
  = match visit fn l1 s with
    | (s', None) => visit fn l2 s'
    | (s', Some err) => (s', Some err)
    end.
Proof.
  revert s. induction l1 as [|[p d] l1 IH]; intros s; [done|]. simpl.
  destruct (fn p d s) as [s' [err|]]; [done|]. apply IH.
Qed.

Lemma find_elem (x : str) (c : node) entries :
  NoDup (map fst entries) -> (x, c) ∈ entries -> find x entries = Some c.
Proof.
  induction entries as [|[y m] entries IH]; [by intros _ ?%elem_of_nil|].
  intros [Hy Hnodup]%NoDup_cons [[= -> ->]|Hin]%elem_of_cons; simpl.
  - by rewrite decide_True.
  - rewrite decide_False; [by apply IH|]. intros ->. apply Hy.
    apply list_elem_of_fmap. by exists (x, c).
Qed.

Lemma find_Some_elem (x : str) (c : node) entries :
  find x entries = Some c -> (x, c) ∈ entries.
Proof.
  induction entries as [|[y m] entries IH]; [done|]. simpl.
  destruct (decide (y = x)) as [->|].
  - intros [= ->]. apply elem_of_cons. by left.
  - intros H. apply elem_of_cons. right. by apply IH.
Qed.

Lemma sibling_paths_diverge (d rel : path) (x x' : str) (r : path) :
  x' <> x -> diverge (d ++ rel ++ [x']) ((d ++ rel ++ [x]) ++ r).
Proof.
  intros H.
  replace (d ++ rel ++ [x']) with ((d ++ rel) ++ x' :: []) by (by rewrite <- app_assoc).
  replace ((d ++ rel ++ [x]) ++ r) with ((d ++ rel) ++ x :: r)
    by (by rewrite <- !app_assoc).
  by apply diverge_siblings.
Qed.

Section Merge.

Variables (dir : path) (upper lower : str).
Hypothesis names_differ : upper <> lower.

Let srcDir : path := dir ++ [lower].
Let dstDir : path := dir ++ [upper].

(** What holds after the entries of a source tree have been visited. *)
Definition mergeResult (c : node) (rel : path) (s s' : state)
    (res : option error) : Prop :=
  (forall q, diverge (dstDir ++ rel) q -> lookup (fs s') q = lookup (fs s) q)
  /\ keeps (fs s) (fs s')
  /\ (exists l, log s' = log s ++ l)
  /\ (res = None -> mergedTo c (dstDir ++ rel) s s').

Lemma src_dst_diverge (a b : path) : diverge (dstDir ++ a) (srcDir ++ b).
Proof.
  unfold dstDir, srcDir. rewrite <- !app_assoc. by apply diverge_siblings.
Qed.

Lemma mergeEntry_file (rel : path) (data : str) (s s' : state) (res : option error) :
  rel <> [] ->
  lookup (fs s) (srcDir ++ rel) = Some (File data) ->
  mergeEntry srcDir dstDir (srcDir ++ rel) false s = (s', res) ->
  mergeResult (File data) rel s s' res.
Proof.
  intros Hrel Hsrc. unfold mergeEntry.
  rewrite decide_False.
  2: { intros H. rewrite <- (app_nil_r srcDir) in H at 2.
       by apply app_inv_head in H. }
  rewrite drop_app_length. cbn zeta.
  destruct (lookup (fs s) (dstDir ++ rel)) as [old|] eqn:Hdst.
  - intros [= <- <-]. repeat split; try done.
    + apply keeps_refl.
    + by eexists.
    + intros _ [|??] m; [|done]. intros [= <-]. rewrite app_nil_r, Hdst.
      split; [done|]. simpl. apply elem_of_app. right. by apply list_elem_of_singleton.
  - destruct (CopyFile (fs s) (srcDir ++ rel) (dstDir ++ rel)) as [n err] eqn:Hcopy.
    intros [= <- <-].
    apply CopyFile_spec with (data := data) in Hcopy as (Hframe & Hkeep & Hcopied);
      [|by destruct dir|done..].
    repeat split; try done.
    + exists []. by rewrite app_nil_r.
    + intros Hres [|??] m; [|done]. intros [= <-]. rewrite app_nil_r, Hdst.
      by apply Hcopied.
Qed.

Lemma mergedTo_later (c : node) (d : path) (s s1 s2 : state) :
  mergedTo c d s s1 ->
  keeps (fs s1) (fs s2) ->
  (forall r, lookup (fs s2) (d ++ r) = lookup (fs s1) (d ++ r)) ->
  (exists l, log s2 = log s1 ++ l) ->
  mergedTo c d s s2.
Proof.
  intros Hm Hkeep Hframe [l Hlog] r m Hr. specialize (Hm r m Hr).
  destruct m as [data|entries].
  - destruct (lookup (fs s) (d ++ r)) as [old|].
    + destruct Hm as [Hold Hskip]. split; [by rewrite Hframe|].
      rewrite Hlog. apply elem_of_app. by left.
    + by rewrite Hframe.
  - rewrite Hframe. done.
Qed.

Lemma mergedTo_earlier (c : node) (d : path) (s0 s1 s2 : state) :
  mergedTo c d s1 s2 ->
  (forall r, lookup (fs s1) (d ++ r) = lookup (fs s0) (d ++ r)) ->
  mergedTo c d s0 s2.
Proof.
  intros Hm Hframe r m Hr. specialize (Hm r m Hr).
  destruct m as [data|entries]; [|done]. by rewrite <- Hframe.
Qed.

(** The entries of a list of children, one child after the other. *)
Lemma merge_children (rel : path) (entries : list (str * node)) :
  Forall (fun e => forall rel s s' res,
            rel <> [] -> wellFormed e.2 = true ->
            lookup (fs s) (srcDir ++ rel) = Some e.2 ->
            visit (mergeEntry srcDir dstDir) (walk (srcDir ++ rel) e.2) s = (s', res) ->
            mergeResult e.2 rel s s' res) entries ->
  forall s s' res,
    NoDup (map fst entries) ->
    Forall (fun e => wellFormed e.2 = true) entries ->
    (forall x c, (x, c) ∈ entries -> lookup (fs s) (srcDir ++ rel ++ [x]) = Some c) ->
    visit (mergeEntry srcDir dstDir)
      (flat_map (fun e => walk ((srcDir ++ rel) ++ [e.1]) e.2) entries) s = (s', res) ->
    (forall q, (forall x, x ∈ map fst entries -> diverge (dstDir ++ rel ++ [x]) q) ->
               lookup (fs s') q = lookup (fs s) q)
    /\ keeps (fs s) (fs s')
    /\ (exists l, log s' = log s ++ l)
    /\ (res = None ->
        forall x c, (x, c) ∈ entries -> mergedTo c (dstDir ++ rel ++ [x]) s s').
Proof.
  induction 1 as [|[x c] entries IHc _ IH]; intros s s' res Hnodup Hwf Hsrc Hvisit.
  - simpl in Hvisit. injection Hvisit as <- <-. repeat split; try done.
    + apply keeps_refl.
    + exists []. by rewrite app_nil_r.
    + by intros _ ?? ?%elem_of_nil.
  - cbn [map fst snd] in *. apply NoDup_cons in Hnodup as [Hx Hnodup].
    apply Forall_cons in Hwf as [Hwfc Hwf]. cbn [fst snd] in *.
    cbn [flat_map fst snd] in Hvisit. rewrite visit_app in Hvisit.
    destruct (visit (mergeEntry srcDir dstDir) (walk ((srcDir ++ rel) ++ [x]) c) s)
      as [s1 res1] eqn:Hchild.
    rewrite <- app_assoc in Hchild.
    apply (IHc (rel ++ [x])) in Hchild as (Hframe1 & Hkeep1 & [l1 Hlog1] & Hmerged1);
      [|by destruct rel|done|apply Hsrc, elem_of_cons; by left].
    destruct res1 as [err|]; cbv beta iota in Hvisit.
    { injection Hvisit as <- <-. repeat split; try done.
      - intros q Hq. apply Hframe1, Hq. apply elem_of_cons. by left.
      - by exists l1. }
    apply IH in Hvisit as (Hframe2 & Hkeep2 & [l2 Hlog2] & Hmerged2); [|done..|].
    2: { intros x' c' Hin. rewrite Hframe1; [apply Hsrc, elem_of_cons; by right|].
         apply src_dst_diverge. }
    repeat split.
    + intros q Hq. rewrite Hframe2, Hframe1; [done|..].
      * apply Hq, elem_of_cons. by left.
      * intros x' Hin. apply Hq, elem_of_cons. by right.
    + by eapply keeps_trans.
    + exists (l1 ++ l2). by rewrite Hlog2, Hlog1, app_assoc.
    + intros Hres x' c' [[= -> ->]|Hin]%elem_of_cons.
      * apply (mergedTo_later _ _ _ s1); [by apply Hmerged1|done| |by exists l2].
        intros r. apply Hframe2. intros x' Hin.
        apply sibling_paths_diverge. by intros ->.
      * apply (mergedTo_earlier _ _ _ s1); [by apply Hmerged2|].
        intros r. apply Hframe1. apply sibling_paths_diverge. intros ->.
        apply Hx, list_elem_of_fmap. by exists (x', c').
Qed.

(** The entries of a source tree, the tree first. *)
Lemma merge_walk (c : node) :
  forall rel s s' res,
    rel <> [] -> wellFormed c = true ->
    lookup (fs s) (srcDir ++ rel) = Some c ->
    visit (mergeEntry srcDir dstDir) (walk (srcDir ++ rel) c) s = (s', res) ->
    mergeResult c rel s s' res.
Proof.
  induction c as [data|entries IH] using node_ind'; intros rel s s' res Hrel Hwf Hsrc.
  - cbn [walk isDir visit].
    destruct (mergeEntry srcDir dstDir (srcDir ++ rel) false s) as [s1 res1] eqn:Hentry.
    apply mergeEntry_file with (data := data) in Hentry; [|done..].
    by destruct res1; intros [= <- <-].
  - apply wellFormed_Dir in Hwf as [Hnodup Hwf].
    rewrite walk_Dir. cbn [visit]. unfold mergeEntry at 1.
    rewrite decide_False.
    2: { intros H. rewrite <- (app_nil_r srcDir) in H at 2.
         by apply app_inv_head in H. }
    rewrite drop_app_length. cbn zeta iota.
    destruct (MkdirAll (fs s) (dstDir ++ rel)) as [n1|] eqn:Hmk.
    2: { intros [= <- <-]. repeat split; try done.
         - apply keeps_refl.
         - exists []. by rewrite app_nil_r. }
    intros Hvisit.
    assert (Hother : forall q, ~ q `prefix_of` dstDir ++ rel ->
               lookup n1 q = lookup (fs s) q).
    { intros q Hq. by apply (MkdirAll_lookup_other _ _ _ _ Hmk). }
    apply (merge_children rel entries IH) in Hvisit
      as (Hframe & Hkeep & [l Hlog] & Hmerged); [|done..|].
    2: { intros x c Hin. cbn [setFs fs]. rewrite Hother.
         - rewrite (app_assoc srcDir), (lookup_snoc_dir _ _ _ _ Hsrc).
           by apply find_elem.
         - apply diverge_not_prefix, src_dst_diverge. }
    cbn [setFs fs log] in *. repeat split.
    + intros q Hq. rewrite Hframe.
      * apply Hother. by apply diverge_not_prefix.
      * intros x _. rewrite (app_assoc dstDir).
        rewrite <- (app_nil_r q). by apply diverge_app_r.
    + eapply keeps_trans; [by eapply MkdirAll_keeps|done].
    + by exists l.
    + intros Hres [|x r] m Hr.
      * injection Hr as <-. rewrite app_nil_r.
        destruct (MkdirAll_lookup _ _ _ Hmk) as [es Hes].
        specialize (Hkeep (dstDir ++ rel)). by rewrite Hes in Hkeep.
      * simpl in Hr. destruct (find x entries) as [c|] eqn:Hfind; [|done].
        apply find_Some_elem in Hfind.
        pose proof (Hmerged Hres x c Hfind r m Hr) as Hm.
        replace ((dstDir ++ rel) ++ x :: r) with ((dstDir ++ rel ++ [x]) ++ r)
          by (by rewrite <- !app_assoc).
        destruct m as [data|es]; [|done].
        cbn [setFs fs] in Hm. rewrite <- Hother; [done|].
        intros [t Ht]. apply (f_equal length) in Ht.
        rewrite !length_app in Ht. simpl in Ht. lia.
Qed.

(** [mergeDirectories] from the canonical directory to the one that is
    being renamed: the canonical directory is left as it is, nothing of
    the tree is lost or overwritten, and when the merge returns no error
    every entry of the canonical directory is merged to the same name
    below the other directory. *)
Lemma mergeDirectories_spec (tree : node) (st st' : state) (res : option error) :
  lookup (fs st) srcDir = Some tree ->
  wellFormed tree = true ->
  mergeDirectories srcDir dstDir st = (st', res) ->
  lookup (fs st') srcDir = Some tree
  /\ keeps (fs st) (fs st')
  /\ (exists l, log st' = log st ++ l)
  /\ (res = None ->
      forall x c, lookup tree [x] = Some c -> mergedTo c (dstDir ++ [x]) st st').
Proof.
  intros Hsrc Hwf. unfold mergeDirectories, Walk. rewrite Hsrc.
  assert (Hskip : forall isdir, mergeEntry srcDir dstDir srcDir isdir st = (st, None)).
  { intros isdir. unfold mergeEntry. by rewrite decide_True. }
  destruct tree as [data|entries].
  - cbn [walk isDir visit]. rewrite Hskip. intros [= <- <-]. repeat split; try done.
    + apply keeps_refl.
    + exists []. by rewrite app_nil_r.
  - rewrite walk_Dir. cbn [visit]. rewrite Hskip. intros Hvisit.
    apply wellFormed_Dir in Hwf as [Hnodup Hwf].
    assert (Heq : flat_map (fun e => walk (srcDir ++ [e.1]) e.2) entries
                  = flat_map (fun e => walk ((srcDir ++ []) ++ [e.1]) e.2) entries).
    { apply flat_map_ext. intros e. by rewrite app_nil_r. }
    rewrite Heq in Hvisit. clear Heq.
    apply (merge_children [] entries) in Hvisit
      as (Hframe & Hkeep & Hlog & Hmerged); [|..|done|done|].
    + repeat split; try done.
      * rewrite <- Hsrc. apply Hframe. intros x _. cbn [app].
        rewrite <- (app_nil_r srcDir). apply src_dst_diverge.
      * intros Hres x c Hx. simpl in Hx.
        destruct (find x entries) as [c'|] eqn:Hfind; [|done]. injection Hx as ->.
        apply (Hmerged Hres). by apply find_Some_elem.
    + apply Forall_forall. intros e _ rel s s' res'. apply merge_walk.
    + intros x c Hin. cbn [app]. rewrite (lookup_snoc_dir _ _ _ _ Hsrc).
      by apply find_elem.
Qed.

End Merge.

(** The claim of the specification has the merge go from the directory
    that is renamed to the canonical one.  It goes the other way: after
    the run the canonical [docs] has received nothing from [Docs], while
    [Docs] has received [b.txt] from [docs] and kept its own [a.txt]. *)
Lemma merge_direction :
  let st' := (RenameDirectoriesToLowercase [] (State collisionTree [])).1 in
  lookup (fs st') ["docs" : str; "c.txt" : str] = None
  /\ lookup (fs st') ["docs" : str] = lookup collisionTree ["docs" : str]
  /\ lookup (fs st') ["Docs" : str; "b.txt" : str] = Some (File "only lower")
  /\ lookup (fs st') ["Docs" : str; "a.txt" : str] = Some (File "upper")
  /\ SkipExistingFile ["Docs" : str; "a.txt" : str] ∈ log st'.
Proof. vm_compute. repeat split. apply elem_of_cons. right. apply elem_of_cons. by left. Qed.

(** ** The tree of the outline *)

(** [DirEntry]. *)
#[warnings="-register-all"]
Inductive DirEntry :=
| DirEntryOf (Name Path : str) (IsDir : bool) (Children : list DirEntry).

Definition Name (e : DirEntry) : str := let 'DirEntryOf n _ _ _ := e in n.
Definition Path (e : DirEntry) : str := let 'DirEntryOf _ p _ _ := e in p.
Definition IsDir (e : DirEntry) : bool := let 'DirEntryOf _ _ d _ := e in d.
Definition Children (e : DirEntry) : list DirEntry :=
  let 'DirEntryOf _ _ _ c := e in c.

(** *** [sortDirectoryTree] *)

(** The test of the inner loop: [true] when [a] and [b] are exchanged. *)
Definition exchange (a b : DirEntry) : bool :=
  if IsDir a && negb (IsDir b) then false
  else if negb (IsDir a) && IsDir b then true
  else match compareStr (Name a) (Name b) with
       | Gt => true
       | _ => false
       end.

(** The loop [for j := i + 1; j < len(entry.Children); j++]; [count] is
    the number of iterations left. *)
Fixpoint innerLoop (count i j : nat) (children : list DirEntry)
  : list DirEntry :=
  match count with
  | 0 => children
  | S count' =>
      match children !! i, children !! j with
      | Some a, Some b =>
          innerLoop count' i (S j)
            (if exchange a b then <[i:=b]> (<[j:=a]> children) else children)
      | _, _ => children
      end
  end.

(** The loop [for i := 0; i < len(entry.Children); i++]. *)
Fixpoint outerLoop (count i : nat) (children : list DirEntry)
  : list DirEntry :=
  match count with
  | 0 => children
  | S count' =>
      outerLoop count' (S i) (innerLoop (length children - S i) i (S i) children)
  end.

Definition sortChildren (children : list DirEntry) : list DirEntry :=
  outerLoop (length children) 0 children.

(** The depth of a tree, which bounds the recursion of
    [sortDirectoryTree]. *)
Fixpoint height (e : DirEntry) : nat :=
  match e with
  | DirEntryOf _ _ _ children => S (list_max (map height children))
  end.

(** [sortDirectoryTree], with [fuel] for the depth of the recursion: the
    children are sorted, then each child is. *)
Fixpoint sortTree (fuel : nat) (entry : DirEntry) : DirEntry :=
  match fuel with
  | 0 => entry
  | S fuel' =>
      if negb (IsDir entry) then entry
      else DirEntryOf (Name entry) (Path entry) (IsDir entry)
             (map (sortTree fuel') (sortChildren (Children entry)))
  end.

Definition sortDirectoryTree (entry : DirEntry) : DirEntry :=
  sortTree (height entry) entry.

(** *** The order of the names *)

Lemma compareStr_antisym (a b : str) : compareStr a b = CompOpp (compareStr b a).
Proof.
  revert b. induction a as [|x a IH]; intros [|y b]; simpl; try done.
  rewrite (Nat.compare_antisym (nat_of_ascii x) (nat_of_ascii y)).
  destruct (nat_of_ascii x ?= nat_of_ascii y); simpl; [apply IH|done..].
Qed.

Lemma compareStr_le_trans (a b c : str) :
  compareStr a b <> Gt -> compareStr b c <> Gt -> compareStr a c <> Gt.
Proof.
  revert b c. induction a as [|x a IH]; intros [|y b] [|z c]; simpl; try done.
  destruct (Nat.compare_spec (nat_of_ascii x) (nat_of_ascii y)) as [Exy|Exy|Exy];
    destruct (Nat.compare_spec (nat_of_ascii y) (nat_of_ascii z)) as [Eyz|Eyz|Eyz];
    destruct (Nat.compare_spec (nat_of_ascii x) (nat_of_ascii z)) as [Exz|Exz|Exz];
    try done; try lia.
  apply IH.
Qed.

(** The order the outline wants: directories before files, names in
    bytewise order within each group. *)
Definition entryLe (a b : DirEntry) : Prop :=
  (IsDir a = true /\ IsDir b = false)
  \/ (IsDir a = IsDir b /\ compareStr (Name a) (Name b) <> Gt).

Lemma exchange_false (a b : DirEntry) : exchange a b = false <-> entryLe a b.
Proof.
  unfold exchange, entryLe. destruct (IsDir a), (IsDir b); simpl.
  - destruct (compareStr (Name a) (Name b)); split; try done; eauto.
    + by intros [[_ ?]|[_ ?]].
  - split; [by left|done].
  - split; [done|]. by intros [[? _]|[? _]].
  - destruct (compareStr (Name a) (Name b)); split; try done; eauto.
    + by intros [[? _]|[_ ?]].
Qed.

Lemma exchange_true (a b : DirEntry) : exchange a b = true -> entryLe b a.
Proof.
  unfold exchange, entryLe. destruct (IsDir a), (IsDir b); simpl; try done.
  - rewrite (compareStr_antisym (Name b) (Name a)).
    destruct (compareStr (Name a) (Name b)); try done. intros _. by right.
  - intros _. by left.
  - rewrite (compareStr_antisym (Name b) (Name a)).
    destruct (compareStr (Name a) (Name b)); try done. intros _. by right.
Qed.

Lemma entryLe_trans (a b c : DirEntry) : entryLe a b -> entryLe b c -> entryLe a c.
Proof.
  unfold entryLe. intros [[Ha Hb]|[Hab Hn]] [[Hb' Hc]|[Hbc Hm]].
  - congruence.
  - left. split; [done|congruence].
  - left. split; [congruence|done].
  - right. split; [congruence|]. by eapply compareStr_le_trans.
Qed.

(** *** The loops as passes over the list *)

(** One run of the inner loop: the entry at [i] is compared with each
    later entry and exchanged with it when the test says so. *)
Fixpoint pass (a : DirEntry) (rest : list DirEntry) : DirEntry * list DirEntry :=
  match rest with
  | [] => (a, [])
  | b :: rest' =>
      if exchange a b then
        let '(m, r) := pass b rest' in (m, a :: r)
      else
        let '(m, r) := pass a rest' in (m, b :: r)
  end.

(** The outer loop: one pass for each position. *)
Fixpoint passes (count : nat) (l : list DirEntry) : list DirEntry :=
  match count, l with
  | S count', a :: rest => let '(m, r) := pass a rest in m :: passes count' r
  | _, _ => l
  end.

Lemma pass_length (a : DirEntry) (rest : list DirEntry) :
  length (pass a rest).2 = length rest.
Proof.
  revert a. induction rest as [|b rest IH]; intros a; [done|]. simpl.
  destruct (exchange a b).
  - specialize (IH b). destruct (pass b rest). simpl in *. by rewrite IH.
  - specialize (IH a). destruct (pass a rest). simpl in *. by rewrite IH.
Qed.

Lemma innerLoop_pass (pre : list DirEntry) (a : DirEntry) (mid rest : list DirEntry) :
  innerLoop (length rest) (length pre) (length pre + 1 + length mid)
    (pre ++ a :: mid ++ rest)
  = pre ++ (pass a rest).1 :: mid ++ (pass a rest).2.
Proof.
  revert a mid. induction rest as [|b rest IH]; intros a mid; [done|].
  cbn [length innerLoop].
  rewrite (list_lookup_middle pre _ a (length pre)) by done.
  assert (Hj : (pre ++ a :: mid ++ b :: rest) !! (length pre + 1 + length mid) = Some b).
  { replace (pre ++ a :: mid ++ b :: rest) with ((pre ++ a :: mid) ++ b :: rest)
      by (by rewrite <- app_assoc).
    apply list_lookup_middle. rewrite length_app. simpl. lia. }
  rewrite Hj.
  replace (S (length pre + 1 + length mid))
    with (length pre + 1 + length (mid ++ [if exchange a b then a else b]))
    by (rewrite length_app; simpl; lia).
  cbn [pass]. destruct (exchange a b).
  - assert (Hswap : <[length pre:=b]> (<[length pre + 1 + length mid:=a]>
                       (pre ++ a :: mid ++ b :: rest))
                    = pre ++ b :: (mid ++ [a]) ++ rest).
    { rewrite insert_app_r_alt by lia.
      replace (length pre + 1 + length mid - length pre) with (S (length mid)) by lia.
      cbn [insert list_insert].
      rewrite (insert_app_r_alt mid) by lia. rewrite Nat.sub_diag. cbn [insert list_insert].
      rewrite insert_app_r_alt by lia. rewrite Nat.sub_diag. cbn [insert list_insert].
      by rewrite <- app_assoc. }
    rewrite Hswap, IH. destruct (pass b rest) as [m r]. simpl.
    by rewrite <- app_assoc.
  - rewrite (app_assoc mid [b] rest : mid ++ b :: rest = _), IH.
    destruct (pass a rest) as [m r]. simpl. by rewrite <- app_assoc.
Qed.

Lemma outerLoop_passes (pre l : list DirEntry) :
  outerLoop (length l) (length pre) (pre ++ l) = pre ++ passes (length l) l.
Proof.
  revert pre. induction l as [l IH] using (induction_ltof1 _ length);
    unfold ltof in IH; intros pre.
  destruct l as [|a rest]; [done|]. cbn [length outerLoop passes].
  replace (length (pre ++ a :: rest) - S (length pre)) with (length rest)
    by (rewrite length_app; simpl; lia).
  pose proof (innerLoop_pass pre a [] rest) as Hin. cbn [length app] in Hin.
  rewrite Nat.add_0_r, Nat.add_1_r in Hin. rewrite Hin.
  pose proof (pass_length a rest) as Hlen.
  destruct (pass a rest) as [m r]. simpl in *.
  rewrite (app_assoc pre [m] r : pre ++ m :: r = _).
  replace (S (length pre)) with (length (pre ++ [m])) by (rewrite length_app; simpl; lia).
  rewrite <- Hlen. rewrite IH by (simpl; lia). by rewrite <- app_assoc.
Qed.

Lemma sortChildren_passes (children : list DirEntry) :
  sortChildren children = passes (length children) children.
Proof. apply (outerLoop_passes [] children). Qed.

(** *** The sorted children *)

Lemma entryLe_refl (a : DirEntry) : entryLe a a.
Proof. right. split; [done|]. by rewrite compareStr_refl. Qed.

Lemma pass_perm (a : DirEntry) (rest : list DirEntry) :
  (pass a rest).1 :: (pass a rest).2 ≡ₚ a :: rest.
Proof.
  revert a. induction rest as [|b rest IH]; intros a; [done|]. simpl.
  destruct (exchange a b).
  - specialize (IH b). destruct (pass b rest) as [m r]. simpl in *.
    rewrite (Permutation_swap a m r). by rewrite IH.
  - specialize (IH a). destruct (pass a rest) as [m r]. simpl in *.
    rewrite (Permutation_swap b m r), IH. apply Permutation_swap.
Qed.

(** After a pass the entry at [i] may stay before all the later ones. *)
Lemma pass_least (a : DirEntry) (rest : list DirEntry) :
  entryLe (pass a rest).1 a /\ Forall (entryLe (pass a rest).1) (pass a rest).2.
Proof.
  revert a. induction rest as [|b rest IH]; intros a.
  - split; [apply entryLe_refl|constructor].
  - simpl. destruct (exchange a b) eqn:E.
    + destruct (IH b) as [Hb Hr]. destruct (pass b rest) as [m r]. simpl in *.
      assert (Ha : entryLe m a) by (eapply entryLe_trans; [done|by apply exchange_true]).
      split; [done|]. by constructor.
    + destruct (IH a) as [Ha Hr]. destruct (pass a rest) as [m r]. simpl in *.
      split; [done|]. constructor; [|done].
      eapply entryLe_trans; [done|]. by apply exchange_false.
Qed.

Lemma passes_perm (count : nat) (l : list DirEntry) : passes count l ≡ₚ l.
Proof.
  revert l. induction count as [|count IH]; intros l; [done|].
  destruct l as [|a rest]; [done|]. simpl.
  pose proof (pass_perm a rest) as Hp. destruct (pass a rest) as [m r].
  simpl in *. by rewrite IH.
Qed.

Lemma passes_sorted (count : nat) (l : list DirEntry) :
  length l <= count -> StronglySorted entryLe (passes count l).
Proof.
  revert l. induction count as [|count IH]; intros l Hlen.
  - destruct l; [constructor|simpl in Hlen; lia].
  - destruct l as [|a rest]; [constructor|]. simpl in *.
    pose proof (pass_least a rest) as [_ Hleast].
    pose proof (pass_length a rest) as Hl.
    destruct (pass a rest) as [m r]. simpl in *. constructor.
    + apply IH. lia.
    + by rewrite passes_perm.
Qed.

Lemma sortChildren_perm (children : list DirEntry) :
  sortChildren children ≡ₚ children.
Proof. rewrite sortChildren_passes. apply passes_perm. Qed.

Lemma sortChildren_sorted (children : list DirEntry) :
  StronglySorted entryLe (sortChildren children).
Proof. rewrite sortChildren_passes. by apply passes_sorted. Qed.

(** Entries that may each stay before the other have the same name. *)
Lemma entryLe_antisym (a b : DirEntry) :
  entryLe a b -> entryLe b a -> Name a = Name b.
Proof.
  intros [[Ha Hb]|[Hab Hn]] [[Hb' Ha']|[Hba Hm]]; try congruence.
  rewrite compareStr_antisym in Hm. apply compareStr_eq.
  by destruct (compareStr (Name a) (Name b)).
Qed.

(** Siblings with different names are sorted to the same list, whatever
    the order they are enumerated in. *)
Lemma sortChildren_unique (l1 l2 : list DirEntry) :
  l1 ≡ₚ l2 -> NoDup (map Name l1) -> sortChildren l1 = sortChildren l2.
Proof.
  intros Hperm Hnodup.
  apply (StronglySorted_unique_strong entryLe);
    [|apply sortChildren_sorted..|by rewrite !sortChildren_perm].
  intros a b Ha Hb Hab Hba.
  rewrite sortChildren_perm in Ha. rewrite sortChildren_perm, <- Hperm in Hb.
  pose proof (entryLe_antisym a b Hab Hba) as Hname.
  apply list_elem_of_lookup in Ha as [i Hi]. apply list_elem_of_lookup in Hb as [j Hj].
  assert (i = j) as ->.
  { apply (NoDup_lookup (map Name l1) i j (Name a)); [done|..].
    - by rewrite list_lookup_fmap, Hi.
    - by rewrite list_lookup_fmap, Hj, Hname. }
  congruence.
Qed.

(** *** The sorted tree *)

(** Below every directory the children are in order. *)
#[warnings="-register-all"]
Inductive sortedTree : DirEntry -> Prop :=
| sortedTree_file n p children : sortedTree (DirEntryOf n p false children)
| sortedTree_dir n p children :
    StronglySorted entryLe children ->
    Forall sortedTree children ->
    sortedTree (DirEntryOf n p true children).

(** Two trees with the same entries, the children of each directory
    enumerated in any order. *)
#[warnings="-register-all"]
Inductive sameTree : DirEntry -> DirEntry -> Prop :=
| sameTree_file n p children :
    sameTree (DirEntryOf n p false children) (DirEntryOf n p false children)
| sameTree_dir n p children1 children1' children2 :
    children1 ≡ₚ children1' ->
    Forall2 sameTree children1' children2 ->
    sameTree (DirEntryOf n p true children1) (DirEntryOf n p true children2).

(** Siblings have different names, at every depth. *)
Fixpoint distinctNames (e : DirEntry) : bool :=
  match e with
  | DirEntryOf _ _ _ children =>
      bool_decide (NoDup (map Name children)) && forallb distinctNames children
  end.

Lemma sortTree_Name (fuel : nat) (e : DirEntry) : Name (sortTree fuel e) = Name e.
Proof. destruct fuel; [done|]. simpl. by destruct (negb (IsDir e)). Qed.

Lemma sortTree_IsDir (fuel : nat) (e : DirEntry) : IsDir (sortTree fuel e) = IsDir e.
Proof. destruct fuel; [done|]. simpl. by destruct (negb (IsDir e)). Qed.

Lemma entryLe_keys (a b a' b' : DirEntry) :
  Name a' = Name a -> IsDir a' = IsDir a ->
  Name b' = Name b -> IsDir b' = IsDir b ->
  entryLe a b -> entryLe a' b'.
Proof. unfold entryLe. by intros -> -> -> ->. Qed.

Lemma height_child (n p : str) (d : bool) (children : list DirEntry) (c : DirEntry) :
  c ∈ children -> height c < height (DirEntryOf n p d children).
Proof.
  intros Hc. simpl. apply Nat.lt_succ_r.
  assert (H : Forall (fun k => k <= list_max (map height children)) (map height children)).
  { by apply list_max_le. }
  rewrite Forall_forall in H. apply H. apply list_elem_of_fmap. by exists c.
Qed.

Lemma sortTree_sorted (fuel : nat) (e : DirEntry) :
  height e <= fuel -> sortedTree (sortTree fuel e).
Proof.
  revert e. induction fuel as [|fuel IH]; intros [n p d children] Hfuel.
  - simpl in Hfuel. lia.
  - cbn [sortTree IsDir Name Path Children]. destruct d; [|constructor]. simpl.
    constructor.
    + apply (StronglySorted_fmap _ entryLe); [|apply sortChildren_sorted].
      intros a b. apply entryLe_keys; by rewrite ?sortTree_Name, ?sortTree_IsDir.
    + apply Forall_fmap, Forall_forall. intros c Hc. apply IH.
      rewrite sortChildren_perm in Hc.
      pose proof (height_child n p true children c Hc). lia.
Qed.

(** The loops look at the names and the kinds only. *)
Lemma pass_map (g : DirEntry -> DirEntry) (a : DirEntry) (rest : list DirEntry) :
  (forall c, Name (g c) = Name c /\ IsDir (g c) = IsDir c) ->
  pass (g a) (map g rest) = (g (pass a rest).1, map g (pass a rest).2).
Proof.
  intros Hg. revert a. induction rest as [|b rest IH]; intros a; [done|].
  cbn [map pass].
  assert (Hex : exchange (g a) (g b) = exchange a b).
  { unfold exchange. destruct (Hg a) as [-> ->]. by destruct (Hg b) as [-> ->]. }
  rewrite Hex. destruct (exchange a b).
  - rewrite IH. by destruct (pass b rest).
  - rewrite IH. by destruct (pass a rest).
Qed.

Lemma passes_map (g : DirEntry -> DirEntry) (count : nat) (l : list DirEntry) :
  (forall c, Name (g c) = Name c /\ IsDir (g c) = IsDir c) ->
  passes count (map g l) = map g (passes count l).
Proof.
  intros Hg. revert l. induction count as [|count IH]; intros l; [done|].
  destruct l as [|a rest]; [done|]. cbn [map passes].
  rewrite pass_map by done. destruct (pass a rest) as [m r]. simpl. by rewrite IH.
Qed.

Lemma sortChildren_map (g : DirEntry -> DirEntry) (l : list DirEntry) :
  (forall c, Name (g c) = Name c /\ IsDir (g c) = IsDir c) ->
  sortChildren (map g l) = map g (sortChildren l).
Proof.
  intros Hg. rewrite !sortChildren_passes, length_map. by apply passes_map.
Qed.

Lemma sameTree_height (e1 e2 : DirEntry) : sameTree e1 e2 -> height e1 = height e2.
Proof.
  revert e2. induction e1 as [e1 IH] using (induction_ltof1 _ height).
  unfold ltof in IH. intros e2 H. destruct H as [|n p cs1 cs1' cs2 Hperm Hall]; [done|].
  simpl. f_equal.
  assert (Hmax : forall l1 l2 : list nat, l1 ≡ₚ l2 -> list_max l1 = list_max l2).
  { induction 1; simpl; lia. }
  rewrite (Hmax (map height cs1) (map height cs1')) by (by apply fmap_Permutation).
  f_equal. assert (Hin : forall c, c ∈ cs1' -> c ∈ cs1) by (intros c; by rewrite Hperm).
  clear Hperm. induction Hall as [|c1 c2 l1 l2 Hc Hall IHall]; [done|].
  simpl. f_equal.
  - apply IH; [|done]. apply (height_child n p true cs1). apply Hin. by left.
  - apply IHall. intros c Hc'. apply Hin. by right.
Qed.

Lemma sortTree_keys (fuel : nat) (c : DirEntry) :
  Name (sortTree fuel c) = Name c /\ IsDir (sortTree fuel c) = IsDir c.
Proof. split; [apply sortTree_Name|apply sortTree_IsDir]. Qed.

Lemma distinctNames_inv (n p : str) (d : bool) (children : list DirEntry) :
  distinctNames (DirEntryOf n p d children) = true ->
  NoDup (map Name children) /\ forall c, c ∈ children -> distinctNames c = true.
Proof.
  cbn [distinctNames]. intros [Hnodup Hall]%andb_true_iff.
  apply bool_decide_eq_true in Hnodup. split; [done|].
  intros c Hc. rewrite forallb_forall in Hall. by apply Hall, list_elem_of_In.
Qed.

(** Sorting reorders the children and changes nothing else. *)
Lemma sortTree_reorders (fuel : nat) (e : DirEntry) :
  height e <= fuel -> sameTree e (sortTree fuel e).
Proof.
  revert e. induction fuel as [|fuel IH]; intros [n p d children] Hfuel.
  - simpl in Hfuel. lia.
  - cbn [sortTree IsDir Name Path Children]. destruct d; [|constructor]. simpl.
    apply (sameTree_dir _ _ _ (sortChildren children)).
    + by rewrite sortChildren_perm.
    + apply Forall2_fmap_r, Forall_Forall2_diag, Forall_forall.
      intros c Hc. apply IH. rewrite sortChildren_perm in Hc.
      pose proof (height_child n p true children c Hc). lia.
Qed.

(** Trees with the same entries are sorted to the same tree. *)
Lemma sortTree_same (fuel : nat) (e1 e2 : DirEntry) :
  height e1 <= fuel -> sameTree e1 e2 -> distinctNames e1 = true ->
  sortTree fuel e1 = sortTree fuel e2.
Proof.
  revert e1 e2. induction fuel as [|fuel IH]; intros e1 e2 Hfuel Hsame Hdistinct.
  - destruct e1. simpl in Hfuel. lia.
  - destruct Hsame as [|n p cs1 cs1' cs2 Hperm Hall]; [done|].
    apply distinctNames_inv in Hdistinct as [Hnodup Hdistinct].
    cbn [sortTree IsDir Name Path Children negb]. f_equal.
    rewrite <- !sortChildren_map by apply sortTree_keys.
    assert (Hmap : map (sortTree fuel) cs1' = map (sortTree fuel) cs2).
    { assert (Hin : forall c, c ∈ cs1' -> c ∈ cs1) by (intros c; by rewrite Hperm).
      clear Hperm. induction Hall as [|c1 c2 l1 l2 Hc Hall IHall]; [done|].
      cbn [map]. f_equal.
      - apply IH; [|done|].
        + pose proof (height_child n p true cs1 c1 (Hin c1 ltac:(by left))). lia.
        + apply Hdistinct, Hin. by left.
      - apply IHall. intros c Hc'. apply Hin. by right. }
    rewrite <- Hmap. apply sortChildren_unique.
    + by apply fmap_Permutation.
    + rewrite <- list_fmap_compose.
      rewrite (list_fmap_ext (Name ∘ sortTree fuel) Name cs1); [done|].
      intros i c _. apply sortTree_Name.
Qed.

(** C7. [sortDirectoryTree] leaves below every directory of the tree the
    directories before the files and the names of each group in bytewise
    order; it reorders the children and changes nothing else; and two
    trees that differ only in the order their siblings were enumerated
    in, at any depth, are sorted to the same tree. *)
Theorem sortDirectoryTree_sorted (e e' : DirEntry) :
  sortedTree (sortDirectoryTree e)
  /\ sameTree e (sortDirectoryTree e)
  /\ (sameTree e e' -> distinctNames e = true ->
      sortDirectoryTree e = sortDirectoryTree e').
Proof.
  unfold sortDirectoryTree. split; [by apply sortTree_sorted|].
  split; [by apply sortTree_reorders|].
  intros Hsame Hdistinct. rewrite <- (sameTree_height e e' Hsame).
  by apply sortTree_same.
Qed.

Lemma sameTree_refl (e : DirEntry) : sameTree e e.
Proof.
  induction e as [e IH] using (induction_ltof1 _ height). unfold ltof in IH.
  destruct e as [n p [] children]; [|constructor].
  apply (sameTree_dir _ _ _ children); [done|].
  apply Forall_Forall2_diag, Forall_forall. intros c Hc. apply IH.
  by apply (height_child n p true children).
Qed.

(** Two enumerations of the same tree. *)
Definition entriesOne : DirEntry :=
  DirEntryOf "out" "" true
    [DirEntryOf "zeta.md" "zeta.md" false [];
     DirEntryOf "sub" "sub" true
       [DirEntryOf "b.md" "sub/b.md" false [];
        DirEntryOf "Inner" "sub/Inner" true [];
        DirEntryOf "a.md" "sub/a.md" false []];
     DirEntryOf "Alpha.md" "alpha.md" false [];
     DirEntryOf "api" "api" true []].

Definition entriesTwo : DirEntry :=
  DirEntryOf "out" "" true
    [DirEntryOf "api" "api" true [];
     DirEntryOf "Alpha.md" "alpha.md" false [];
     DirEntryOf "zeta.md" "zeta.md" false [];
     DirEntryOf "sub" "sub" true
       [DirEntryOf "a.md" "sub/a.md" false [];
        DirEntryOf "b.md" "sub/b.md" false [];
        DirEntryOf "Inner" "sub/Inner" true []]].

(** Permutations of lists that are written out. *)
Ltac find_split x r :=
  lazymatch r with
  | x :: ?r2 => constr:((@nil DirEntry, r2))
  | ?y :: ?r' =>
      let p := find_split x r' in
      lazymatch p with
      | (?l1, ?l2) => constr:((y :: l1, l2))
      end
  end.

Ltac solve_perm :=
  repeat lazymatch goal with
    | |- [] ≡ₚ [] => reflexivity
    | |- ?x :: ?l ≡ₚ ?r =>
        let p := find_split x r in
        lazymatch p with
        | (?l1, ?l2) => apply (Permutation_cons_app l1 l2); cbn [app]
        end
    end.

Lemma sortDirectoryTree_sorted_witness :
  sortDirectoryTree entriesOne = sortDirectoryTree entriesTwo
  /\ sortDirectoryTree entriesOne
     = DirEntryOf "out" "" true
         [DirEntryOf "api" "api" true [];
          DirEntryOf "sub" "sub" true
            [DirEntryOf "Inner" "sub/Inner" true [];
             DirEntryOf "a.md" "sub/a.md" false [];
             DirEntryOf "b.md" "sub/b.md" false []];
          DirEntryOf "Alpha.md" "alpha.md" false [];
          DirEntryOf "zeta.md" "zeta.md" false []].
Proof.
  split; [|reflexivity].
  apply (sortDirectoryTree_sorted entriesOne entriesTwo); [|reflexivity].
  unfold entriesOne, entriesTwo.
  eapply sameTree_dir with
    (children1' := [DirEntryOf "api" "api" true [];
                    DirEntryOf "Alpha.md" "alpha.md" false [];
                    DirEntryOf "zeta.md" "zeta.md" false [];
                    DirEntryOf "sub" "sub" true
                      [DirEntryOf "b.md" "sub/b.md" false [];
                       DirEntryOf "Inner" "sub/Inner" true [];
                       DirEntryOf "a.md" "sub/a.md" false []]]).
  - solve_perm.
  - do 3 (constructor; [apply sameTree_refl|]).
    constructor; [|constructor].
    eapply sameTree_dir with
      (children1' := [DirEntryOf "a.md" "sub/a.md" false [];
                      DirEntryOf "b.md" "sub/b.md" false [];
                      DirEntryOf "Inner" "sub/Inner" true []]).
    + solve_perm.
    + do 3 (constructor; [apply sameTree_refl|]). constructor.
Defined.

(** ** The outline *)

Definition newline : ascii := "010"%char.

(** [findParentEntry]: from [root] down the elements of [targetPath], at
    each one to the first child that is a directory of that name. *)
Fixpoint descend (current : DirEntry) (parts : list str) : option DirEntry :=
  match parts with
  | [] => Some current
  | part :: parts' =>
      match List.find (fun child => IsDir child && bool_decide (Name child = part))
              (Children current) with
      | Some child => descend child parts'
      | None => None
      end
  end.

Definition findParentEntry (root : DirEntry) (targetPath : str) : option DirEntry :=
  if bool_decide (targetPath = "") || bool_decide (targetPath = ".") then Some root
  else descend root (Split (ReplaceAll targetPath "\" "/") "/").

(** [parent.Children = append(parent.Children, entry)] for the entry that
    [descend] reaches: the tree with that one entry changed. *)
Fixpoint appendBelow (current : DirEntry) (parts : list str) (entry : DirEntry)
  : DirEntry :=
  match parts with
  | [] =>
      DirEntryOf (Name current) (Path current) (IsDir current)
        (Children current ++ [entry])
  | part :: parts' =>
      DirEntryOf (Name current) (Path current) (IsDir current)
        ((fix first (children : list DirEntry) : list DirEntry :=
            match children with
            | [] => []
            | child :: children' =>
                if IsDir child && bool_decide (Name child = part)
                then appendBelow child parts' entry :: children'
                else child :: first children'
            end) (Children current))
  end.

Definition appendToParent (root : DirEntry) (targetPath : str) (entry : DirEntry)
  : DirEntry :=
  match findParentEntry root targetPath with
  | None => root
  | Some _ =>
      if bool_decide (targetPath = "") || bool_decide (targetPath = ".")
      then appendBelow root [] entry
      else appendBelow root (Split (ReplaceAll targetPath "\" "/") "/") entry
  end.

(** The entries the walks of the outline pass over: hidden ones, the
    generated files and the renamed originals. *)
Definition skippedName (RenamePrefix name : str) : bool :=
  HasPrefix name "." || bool_decide (name = "book.toml")
  || bool_decide (name = "SUMMARY.md")
  || (HasSuffix (ToLower name) ".html" && HasPrefix name RenamePrefix).

(** The [Path] of an entry of the tree built after the renaming. *)
Definition displayPath (name relPath : str) : str :=
  if HasSuffix (ToLower name) ".md" then
    let tempPath := TrimSuffix relPath ".md" in
    let tempPath := TrimSuffix tempPath ".md" ++ ".md" in
    ToLower tempPath
  else relPath.

(** The callback of the walk of [BuildDirectoryTreeAfterRename]; [rel] is
    the walked path without [rootDir], the elements of [filepath.Rel]. *)
Definition addEntry (RenamePrefix : str) (rel : path) (isdir : bool)
    (root : DirEntry) : DirEntry :=
  match rel with
  | [] => root
  | _ =>
      let name := List.last rel [] in
      if skippedName RenamePrefix name then root
      else
        let relPath := ReplaceAll (Join rel "/") "\" "/" in
        if negb (HasSuffix (ToLower name) ".md") && negb isdir then root
        else
          let entry := DirEntryOf name (displayPath name relPath) isdir [] in
          let parentPath := ReplaceAll (filepath.Dir relPath) "\" "/" in
          appendToParent root parentPath entry
  end.

(** [BuildDirectoryTreeAfterRename] on the tree [r] found at [rootDir],
    whose base name is [rootName]. *)
Definition BuildDirectoryTreeAfterRename (RenamePrefix rootName : str) (r : node)
  : DirEntry :=
  let root := DirEntryOf rootName "" true [] in
  let root :=
    fold_left (fun root e => addEntry RenamePrefix e.1 e.2 root) (walk [] r) root in
  sortDirectoryTree root.

(** [writeSummaryEntries]: what is written to the builder. *)
Fixpoint writeSummaryEntry (depth : nat) (entry : DirEntry) : str :=
  let indent := Repeat "  " depth in
  match entry with
  | DirEntryOf name path isdir children =>
      if isdir then
        (indent ++ "  " ++ name ++ [newline])
        ++ (fix entries (children : list DirEntry) : str :=
              match children with
              | [] => []
              | child :: children' =>
                  writeSummaryEntry (S depth) child ++ entries children'
              end) children
      else if HasSuffix (ToLower name) ".md" then
        let displayName := TrimSuffix name ".md" in
        indent ++ "- [" ++ displayName ++ "](" ++ path ++ ")" ++ [newline]
      else []
  end.

Definition writeSummaryEntries (entries : list DirEntry) (depth : nat) : str :=
  concat (map (writeSummaryEntry depth) entries).

(** [hasIntroFile]. *)
Definition hasIntroFile (n : node) (dir : path) : bool :=
  existsb (fun file : str => bool_decide (is_Some (lookup n (dir ++ [file]))))
    ["index.html" : str; "README.md" : str; "readme.md" : str].

(** The content of [SUMMARY.md]. *)
Definition summaryContent (RenamePrefix rootName : str) (n : node) (outputDir : path)
    (r : node) : str :=
  let rootEntry := BuildDirectoryTreeAfterRename RenamePrefix rootName r in
  ("# Summary" ++ [newline; newline])
  ++ (if hasIntroFile n outputDir
      then "- [Introduction](README.md)" ++ [newline; newline]
      else [])
  ++ writeSummaryEntries (Children rootEntry) 0.

(** [GenerateSummaryMd]. *)
Definition GenerateSummaryMd (RenamePrefix rootName : str) (outputDir : path)
    (st : state) : state * option error :=
  match lookup (fs st) outputDir with
  | None => (st, Some (missingParent (fs st) outputDir))
  | Some r =>
      let content := summaryContent RenamePrefix rootName (fs st) outputDir r in
      match WriteFile (fs st) (outputDir ++ ["SUMMARY.md" : str]) content with
      | inl n => (setFs st n, None)
      | inr err => (st, Some err)
      end
  end.

Definition sampleTree : node :=
  Dir [(".git" : str, Dir [("notes.md" : str, File "")]);
       ("Guide" : str,
        Dir [("Intro.md" : str, File "intro"); ("_intro.html" : str, File "<p>");
             ("api" : str, Dir [("page.md" : str, File "page")]);
             ("logo.png" : str, File "png")]);
       ("SUMMARY.md" : str, File "old");
       ("_page.html" : str, File "<p>");
       ("book.toml" : str, File "toml");
       ("index.html" : str, File "<p>");
       ("page.md" : str, File "page")].

(** ** The introduction entry of the outline *)

Lemma lookup_snoc_Some (n : node) (dir : path) (x : str) :
  is_Some (lookup n (dir ++ [x])) -> exists entries, lookup n dir = Some (Dir entries).
Proof.
  rewrite lookup_app. destruct (lookup n dir) as [[data|entries]|].
  - by intros [? [=]].
  - eauto.
  - by intros [? [=]].
Qed.

Lemma hasIntroFile_true (n : node) (dir : path) (file : str) :
  file ∈ ["index.html" : str; "README.md" : str; "readme.md" : str] ->
  is_Some (lookup n (dir ++ [file])) -> hasIntroFile n dir = true.
Proof.
  intros Hin Hsome. unfold hasIntroFile. apply existsb_exists.
  exists file. split; [by apply list_elem_of_In|]. by apply bool_decide_eq_true.
Qed.

(** C10.  When [index.html], [README.md] or [readme.md] exists in the
    output directory, [GenerateSummaryMd] writes a [SUMMARY.md] whose
    content is the line [# Summary], an empty line, the line
    [- [Introduction](README.md)], an empty line, and then the entries of
    the tree: the target of the introduction is [README.md] whichever of the
    three files was found. *)
Theorem GenerateSummaryMd_introduction (RenamePrefix rootName : str)
    (outputDir : path) (st : state) (file : str) :
  file ∈ ["index.html" : str; "README.md" : str; "readme.md" : str] ->
  is_Some (lookup (fs st) (outputDir ++ [file])) ->
  (forall entries,
     lookup (fs st) (outputDir ++ ["SUMMARY.md" : str]) <> Some (Dir entries)) ->
  exists st' r,
    lookup (fs st) outputDir = Some r
    /\ GenerateSummaryMd RenamePrefix rootName outputDir st = (st', None)
    /\ log st' = log st
    /\ lookup (fs st') (outputDir ++ ["SUMMARY.md" : str])
       = Some (File (("# Summary" ++ [newline; newline])
                     ++ ("- [Introduction](README.md)" ++ [newline; newline])
                     ++ writeSummaryEntries
                          (Children (BuildDirectoryTreeAfterRename
                                       RenamePrefix rootName r)) 0)).
Proof.
  intros Hfile Hsome Hsummary.
  destruct (lookup_snoc_Some _ _ _ Hsome) as [entries Hdir].
  unfold GenerateSummaryMd, summaryContent. rewrite Hdir.
  rewrite (hasIntroFile_true _ _ _ Hfile Hsome).
  set (content := _ ++ _ ++ writeSummaryEntries _ 0).
  destruct (place_succeeds (fs st) outputDir "SUMMARY.md" (File content) entries Hdir)
    as [n' Hplace].
  unfold WriteFile. rewrite Hplace.
  exists (setFs st n'), (Dir entries). split; [done|].
  assert (lookup n' (outputDir ++ ["SUMMARY.md" : str]) = Some (File content)) as Hnew.
  { rewrite <- (app_nil_r (outputDir ++ _)).
    by rewrite (place_lookup_under _ _ _ [] _ Hplace). }
  destruct (lookup (fs st) (outputDir ++ ["SUMMARY.md" : str])) as [[data|es]|] eqn:E.
  - done.
  - by destruct (Hsummary es).
  - done.
Qed.

Lemma GenerateSummaryMd_introduction_witness :
  exists st' r,
    lookup sampleTree [] = Some r
    /\ GenerateSummaryMd "_" "out" [] (State sampleTree []) = (st', None)
    /\ log st' = []
    /\ lookup (fs st') ["SUMMARY.md" : str]
       = Some (File (("# Summary" ++ [newline; newline])
                     ++ ("- [Introduction](README.md)" ++ [newline; newline])
                     ++ writeSummaryEntries
                          (Children (BuildDirectoryTreeAfterRename "_" "out" r)) 0)).
Proof.
  apply (GenerateSummaryMd_introduction "_" "out" [] (State sampleTree []) "index.html").
  - apply list_elem_of_In. simpl. auto.
  - vm_compute. eauto.
  - intros entries. vm_compute. discriminate.
Defined.

(** ** Renaming the originals *)

(** The callback of the walk of [RenameHtmlFiles].  The suffix of the
    walked path is looked for in the path as a string; the elements of the
    path are joined for it. *)
Definition collectHtml (p : path) (isdir : bool) (htmlFiles : list path)
  : list path * option error :=
  if negb isdir && HasSuffix (ToLower (Join p "/")) ".html"
  then (htmlFiles ++ [p], None)
  else (htmlFiles, None).

(** [filepath.Join(dir, name)] for a directory given by its elements.
    The function joins the two by a separator and cleans the result: the
    elements of [name] are added one by one, an empty element and [.]
    adding nothing and [..] taking the last element away, none at the
    root. *)
Definition joinName (dir : path) (name : str) : path :=
  fold_left
    (fun out e =>
       if bool_decide (e = []) || filepath.isDot e then out
       else if filepath.isDotDot e then removelast out
       else out ++ [e])
    (Split name "/") dir.

(** One round of the loop of [RenameHtmlFiles]. *)
Definition renameHtmlFile (RenamePrefix : str) (htmlPath : path) (st : state)
  : state :=
  let dir := removelast htmlPath in
  let filename := List.last htmlPath [] in
  let lowerFilename := ToLower filename in
  let newFilename := RenamePrefix ++ lowerFilename in
  let newPath := joinName dir newFilename in
  match lookup (fs st) newPath with
  | Some _ => logPrintf st (HtmlTargetExists newPath)
  | None =>
      match Rename (fs st) htmlPath newPath with
      | inr err => logPrintf st (HtmlRenameError htmlPath newPath err)
      | inl n => logPrintf (setFs st n) (HtmlRenamed htmlPath newPath)
      end
  end.

(** The loop of [RenameHtmlFiles] over the collected files. *)
Definition renameLoop (RenamePrefix : str) (htmlFiles : list path) (st : state)
  : state :=
  fold_left (fun st htmlPath => renameHtmlFile RenamePrefix htmlPath st) htmlFiles st.

(** [RenameHtmlFiles]. *)
Definition RenameHtmlFiles (RenamePrefix : str) (dir : path) (st : state)
  : state * option error :=
  match Walk (fs st) dir collectHtml [] with
  | (_, Some err) => (st, Some err)
  | (htmlFiles, None) => (renameLoop RenamePrefix htmlFiles st, None)
  end.

(** Two originals whose names differ in case only, and one with an
    extension in upper case. *)
Definition originalsTree : node :=
  Dir [("Page.HTML" : str, File "<p>upper</p>");
       ("Sub" : str, Dir [("Index.html" : str, File "<p>index</p>")]);
       ("page.html" : str, File "<p>lower</p>")].

(** A rename to a free sibling name. *)
Lemma Rename_sibling (n : node) (dir : path) (x y : str) (v : node) :
  lookup n (dir ++ [x]) = Some v ->
  lookup n (dir ++ [y]) = None ->
  exists n',
    Rename n (dir ++ [x]) (dir ++ [y]) = inl n'
    /\ lookup n' (dir ++ [y]) = Some v
    /\ lookup n' (dir ++ [x]) = None
    /\ forall q, diverge (dir ++ [x]) q -> diverge (dir ++ [y]) q ->
                 lookup n' q = lookup n q.
Proof.
  intros Hx Hy.
  assert (Hxy : x <> y) by (intros ->; congruence).
  assert (Hd : diverge (dir ++ [x]) (dir ++ [y])) by by apply siblings_diverge.
  destruct (lookup_snoc_Some n dir x) as [es Hdir]; [by rewrite Hx|].
  destruct (remove_succeeds n dir x es Hdir) as [m Hrm].
  destruct (remove_lookup_above _ _ dir x [] Hrm) as (? & es1 & _ & Hdir1).
  destruct (place_succeeds m dir y v es1 Hdir1) as [n' Hpl].
  exists n'. split; [|split; [|split]].
  - apply (Rename_move n m n' _ _ v es); try done.
    + by intros ?%app_inv_head; simplify_eq.
    + intros [r Hr]. rewrite <- app_assoc in Hr. apply app_inv_head in Hr.
      simpl in Hr. injection Hr as Hr _. by apply Hxy.
    + by rewrite removelast_last.
  - rewrite <- (app_nil_r (dir ++ [y])). by rewrite (place_lookup_under _ _ _ _ _ Hpl).
  - rewrite (place_lookup_diverge _ _ _ _ _ Hpl) by by apply diverge_sym.
    rewrite <- (app_nil_r (dir ++ [x])). apply (remove_lookup_under _ _ _ _ Hrm).
  - intros q Hqx Hqy.
    rewrite (place_lookup_diverge _ _ _ _ _ Hpl) by done.
    by rewrite (remove_lookup_diverge _ _ _ _ Hrm).
Qed.


(** An ordinary element joined to a directory is appended to it. *)
Lemma joinName_segment (dir : path) (name : str) :
  segment name -> joinName dir name = dir ++ [name].
Proof.
  intros (Hne & Hsep & Hdot & Hdotdot). unfold joinName.
  rewrite Split_nosep by done. cbn [fold_left].
  unfold filepath.isDot, filepath.isDotDot.
  by rewrite !bool_decide_eq_false_2.
Qed.

(** A prefix without separator before an ordinary name makes an ordinary
    name. *)
Lemma prefixed_segment (prefix name : str) :
  "/"%char ∉ prefix -> segment name -> segment (prefix ++ name).
Proof.
  intros Hprefix (Hne & Hsep & Hdot & Hdotdot). repeat split.
  - by destruct prefix, name.
  - by rewrite not_elem_of_app.
  - intros H. apply app_eq_unit in H as [[_ H]|[_ H]]; done.
  - intros H. destruct prefix as [|c [|c' [|c'' prefix]]].
    + done.
    + injection H as _ H. done.
    + injection H as _ _ H. done.
    + injection H as _ _ H. done.
Qed.

(** ** The tree of the outline, element by element *)

(** A name as a directory holds it: an ordinary element; without
    backslash, which the walk of the outline takes for a separator. *)
Definition plain (e : str) : Prop := segment e /\ "\"%char ∉ e.

#[global] Instance plain_dec (e : str) : Decision (plain e).
Proof. unfold plain. apply _. Defined.

(** Every name of the tree is plain. *)
Fixpoint plainNames (n : node) : bool :=
  match n with
  | File _ => true
  | Dir entries =>
      (fix all (entries : list (str * node)) : bool :=
         match entries with
         | [] => true
         | (x, c) :: entries' => bool_decide (plain x) && plainNames c && all entries'
         end) entries
  end.

(** Every name of the tree is made of ASCII characters. *)
Fixpoint asciiNames (n : node) : bool :=
  match n with
  | File _ => true
  | Dir entries =>
      (fix all (entries : list (str * node)) : bool :=
         match entries with
         | [] => true
         | (x, c) :: entries' => isASCII x && asciiNames c && all entries'
         end) entries
  end.

(** The callback of the walk on the elements of the relative path: [rel]
    is the path below the entry [root] stands for, [base] the path of that
    entry below [rootDir]. *)
Definition addEntryAt (RenamePrefix : str) (base rel : path) (isdir : bool)
    (root : DirEntry) : DirEntry :=
  let name := List.last rel [] in
  if skippedName RenamePrefix name then root
  else if negb (HasSuffix (ToLower name) ".md") && negb isdir then root
  else
    match descend root (removelast rel) with
    | None => root
    | Some _ =>
        appendBelow root (removelast rel)
          (DirEntryOf name (displayPath name (Join (base ++ rel) "/")) isdir [])
    end.

Definition buildAt (RenamePrefix : str) (base : path) (entries : list (path * bool))
    (root : DirEntry) : DirEntry :=
  fold_left (fun root e => addEntryAt RenamePrefix base e.1 e.2 root) entries root.

Lemma plainNames_Dir entries :
  plainNames (Dir entries) = true <->
  Forall (fun e => plain e.1 /\ plainNames e.2 = true) entries.
Proof.
  cbn [plainNames]. induction entries as [|[x c] entries IH].
  - split; [constructor|done].
  - rewrite !andb_true_iff, IH, Forall_cons, bool_decide_eq_true. cbn [fst snd].
    tauto.
Qed.

Lemma Join_plain_ne (q : list str) :
  q <> [] -> Forall plain q -> Join q "/" <> [] /\ Join q "/" <> ".".
Proof.
  intros Hne Hq. destruct q as [|e q]; [done|].
  apply Forall_cons in Hq as [[(He & _ & Hd & _) _] _].
  destruct q as [|e' q]; [done|].
  rewrite Join_cons by done. destruct e as [|c e]; [done|].
  split; [done|]. intros H. apply (f_equal length) in H.
  rewrite length_app in H. simpl in H. lia.
Qed.

Lemma plain_elements (q : list str) :
  Forall plain q ->
  Forall element q /\ Forall (fun e => "/"%char ∉ e) q
  /\ Forall (fun e => "\"%char ∉ e) q /\ nonEmpty q = q /\ startsEmpty q = false.
Proof.
  intros Hq. repeat split.
  - eapply Forall_impl; [exact Hq|]. intros e [He _]. by right.
  - eapply Forall_impl; [exact Hq|]. by intros e [(_ & He & _) _].
  - eapply Forall_impl; [exact Hq|]. by intros e [_ He].
  - unfold nonEmpty. induction Hq as [|e q [(He & _) _] Hq IH]; [done|].
    rewrite filter_cons_True by done. by rewrite IH.
  - destruct Hq as [|e q [(He & _) _] Hq]; [done|]. by destruct e.
Qed.

(** On plain names the strings the callback computes are the elements. *)
Lemma addEntry_elements (RenamePrefix : str) (rel : path) (isdir : bool)
    (root : DirEntry) :
  rel <> [] -> Forall plain rel ->
  addEntry RenamePrefix rel isdir root = addEntryAt RenamePrefix [] rel isdir root.
Proof.
  intros Hne Hplain. unfold addEntry, addEntryAt.
  destruct rel as [|y rel'] eqn:Hrel; [done|]. rewrite <- Hrel in *.
  destruct (skippedName RenamePrefix (List.last rel [])); [done|].
  destruct (negb (HasSuffix (ToLower (List.last rel [])) ".md") && negb isdir);
    [done|].
  cbn [app]. cbv zeta.
  destruct (exists_last Hne) as (q & x & Hqx).
  rewrite Hqx in Hplain |- *. rewrite removelast_snoc, last_snoc'.
  apply Forall_app in Hplain as [Hq Hx].
  apply Forall_singleton in Hx as [(Hx0 & Hxsep & _) Hxback].
  destruct (plain_elements q Hq) as (Hel & Hsep & Hback & Hnon & Hstart).
  assert (Hrp : ReplaceAll (Join (q ++ [x]) "/") "\" "/" = Join (q ++ [x]) "/").
  { apply ReplaceAll_absent, not_elem_Join; [done|].
    apply Forall_app. split; [done|]. by apply Forall_singleton. }
  rewrite Hrp. rewrite Dir_Join by done. rewrite Hnon, Hstart.
  unfold filepath.assemble, appendToParent, findParentEntry.
  destruct q as [|e q'] eqn:Hq'; [done|]. rewrite <- Hq' in *.
  assert (Hqne : q <> []) by (by subst).
  destruct (Join_plain_ne q Hqne Hq) as [Hj1 Hj2].
  assert (Hpp : ReplaceAll (Join q "/") "\" "/" = Join q "/").
  { by apply ReplaceAll_absent, not_elem_Join. }
  rewrite Hpp, Hpp. rewrite !bool_decide_eq_false_2 by done. cbn [orb].
  by rewrite Split_Join.
Qed.

(** *** The callback below a child *)

(** [child] is a directory named [part]: the test of [findParentEntry]. *)
Definition dirNamed (part : str) (child : DirEntry) : bool :=
  IsDir child && bool_decide (Name child = part).

Lemma descend_last_child (n p : str) (d : bool) (kids : list DirEntry)
    (E : DirEntry) (x : str) (q : list str) :
  Forall (fun k => dirNamed x k = false) kids -> dirNamed x E = true ->
  descend (DirEntryOf n p d (kids ++ [E])) (x :: q) = descend E q.
Proof.
  intros Hkids HE. cbn [descend Children].
  induction Hkids as [|k kids Hk Hkids IH].
  - cbn [app List.find]. fold (dirNamed x E). by rewrite HE.
  - cbn [app List.find]. fold (dirNamed x k). by rewrite Hk.
Qed.

Lemma descend_no_child (n p : str) (d : bool) (kids : list DirEntry)
    (x : str) (q : list str) :
  Forall (fun k => dirNamed x k = false) kids ->
  descend (DirEntryOf n p d kids) (x :: q) = None.
Proof.
  intros Hkids. cbn [descend Children].
  induction Hkids as [|k kids Hk Hkids IH]; [done|].
  cbn [List.find]. fold (dirNamed x k). by rewrite Hk.
Qed.

Lemma appendBelow_last_child (n p : str) (d : bool) (kids : list DirEntry)
    (E : DirEntry) (x : str) (q : list str) (entry : DirEntry) :
  Forall (fun k => dirNamed x k = false) kids -> dirNamed x E = true ->
  appendBelow (DirEntryOf n p d (kids ++ [E])) (x :: q) entry
  = DirEntryOf n p d (kids ++ [appendBelow E q entry]).
Proof.
  intros Hkids HE. cbn [appendBelow Children Name Path IsDir]. f_equal.
  induction Hkids as [|k kids Hk Hkids IH].
  - cbn [app]. fold (dirNamed x E). by rewrite HE.
  - cbn [app]. fold (dirNamed x k). rewrite Hk. by rewrite IH.
Qed.

Lemma appendBelow_keys (root : DirEntry) (q : list str) (entry : DirEntry) :
  Name (appendBelow root q entry) = Name root
  /\ IsDir (appendBelow root q entry) = IsDir root.
Proof. by destruct root, q. Qed.

Lemma addEntryAt_keys (RenamePrefix : str) (base rel : path) (isdir : bool)
    (root : DirEntry) :
  Name (addEntryAt RenamePrefix base rel isdir root) = Name root
  /\ IsDir (addEntryAt RenamePrefix base rel isdir root) = IsDir root.
Proof.
  unfold addEntryAt.
  destruct (skippedName _ _); [done|].
  destruct (negb _ && negb _); [done|].
  destruct (descend _ _); [|done]. apply appendBelow_keys.
Qed.

Lemma removelast_cons' {A} (x : A) (l : list A) :
  l <> [] -> removelast (x :: l) = x :: removelast l.
Proof. by destruct l. Qed.

Lemma last_cons' {A} (x d : A) (l : list A) :
  l <> [] -> List.last (x :: l) d = List.last l d.
Proof. by destruct l. Qed.

(** An entry below the last child is added to that child. *)
Lemma addEntryAt_child (RenamePrefix : str) (base rel : path) (isdir : bool)
    (n p : str) (d : bool) (kids : list DirEntry) (E : DirEntry) (x : str) :
  rel <> [] ->
  Forall (fun k => dirNamed x k = false) kids -> dirNamed x E = true ->
  addEntryAt RenamePrefix base (x :: rel) isdir (DirEntryOf n p d (kids ++ [E]))
  = DirEntryOf n p d (kids ++ [addEntryAt RenamePrefix (base ++ [x]) rel isdir E]).
Proof.
  intros Hne Hkids HE. unfold addEntryAt.
  rewrite removelast_cons', last_cons' by done.
  destruct (skippedName _ _); [done|].
  destruct (negb _ && negb _); [done|].
  rewrite descend_last_child by done.
  replace (base ++ x :: rel) with ((base ++ [x]) ++ rel) by by rewrite <- app_assoc.
  destruct (descend E (removelast rel)); [|done].
  by apply appendBelow_last_child.
Qed.

(** An entry below a directory the tree does not have is dropped. *)
Lemma addEntryAt_no_child (RenamePrefix : str) (base rel : path) (isdir : bool)
    (n p : str) (d : bool) (kids : list DirEntry) (x : str) :
  rel <> [] ->
  Forall (fun k => dirNamed x k = false) kids ->
  addEntryAt RenamePrefix base (x :: rel) isdir (DirEntryOf n p d kids)
  = DirEntryOf n p d kids.
Proof.
  intros Hne Hkids. unfold addEntryAt.
  rewrite removelast_cons', last_cons' by done.
  destruct (skippedName _ _); [done|].
  destruct (negb _ && negb _); [done|].
  by rewrite descend_no_child.
Qed.

Definition shift (x : str) (e : path * bool) : path * bool := (x :: e.1, e.2).

Lemma buildAt_child (RenamePrefix : str) (base : path) (W : list (path * bool))
    (n p : str) (d : bool) (kids : list DirEntry) (E : DirEntry) (x : str) :
  Forall (fun e => e.1 <> []) W ->
  Forall (fun k => dirNamed x k = false) kids -> dirNamed x E = true ->
  buildAt RenamePrefix base (map (shift x) W) (DirEntryOf n p d (kids ++ [E]))
  = DirEntryOf n p d (kids ++ [buildAt RenamePrefix (base ++ [x]) W E]).
Proof.
  intros HW Hkids. revert E.
  induction HW as [|[rel isdir] W Hrel HW IH]; intros E HE; [done|].
  cbn [map buildAt fold_left shift fst snd] in *.
  rewrite addEntryAt_child by done. apply IH.
  unfold dirNamed in *.
  destruct (addEntryAt_keys RenamePrefix (base ++ [x]) rel isdir E) as [-> ->].
  done.
Qed.

Lemma buildAt_no_child (RenamePrefix : str) (base : path) (W : list (path * bool))
    (n p : str) (d : bool) (kids : list DirEntry) (x : str) :
  Forall (fun e => e.1 <> []) W ->
  Forall (fun k => dirNamed x k = false) kids ->
  buildAt RenamePrefix base (map (shift x) W) (DirEntryOf n p d kids)
  = DirEntryOf n p d kids.
Proof.
  intros HW Hkids.
  induction HW as [|[rel isdir] W Hrel HW IH]; [done|].
  cbn [map buildAt fold_left shift fst snd] in *.
  by rewrite addEntryAt_no_child.
Qed.

(** *** The tree that is built, by recursion on the directory *)

(** The entry of the outline for the entry [x] of the directory [base],
    none when the walk passes over it. *)
Fixpoint entryOf (RenamePrefix : str) (base : path) (x : str) (c : node)
  : list DirEntry :=
  if skippedName RenamePrefix x then []
  else
    match c with
    | File _ =>
        if HasSuffix (ToLower x) ".md"
        then [DirEntryOf x (displayPath x (Join (base ++ [x]) "/")) false []]
        else []
    | Dir entries =>
        [DirEntryOf x (displayPath x (Join (base ++ [x]) "/")) true
           ((fix all (entries : list (str * node)) : list DirEntry :=
               match entries with
               | [] => []
               | (y, c') :: entries' =>
                   entryOf RenamePrefix (base ++ [x]) y c' ++ all entries'
               end) entries)]
    end.

Definition entriesOf (RenamePrefix : str) (base : path)
    (entries : list (str * node)) : list DirEntry :=
  flat_map (fun e => entryOf RenamePrefix base e.1 e.2) entries.

Lemma entryOf_Dir (RenamePrefix : str) (base : path) (x : str) entries :
  entryOf RenamePrefix base x (Dir entries)
  = if skippedName RenamePrefix x then []
    else [DirEntryOf x (displayPath x (Join (base ++ [x]) "/")) true
            (entriesOf RenamePrefix (base ++ [x]) entries)].
Proof.
  cbn [entryOf]. destruct (skippedName RenamePrefix x); [done|]. do 2 f_equal.
  induction entries as [|[y c'] entries IH]; [done|].
  unfold entriesOf. cbn [flat_map fst snd]. by rewrite IH.
Qed.

Lemma entryOf_Name (RenamePrefix : str) (base : path) (x : str) (c : node)
    (k : DirEntry) :
  k ∈ entryOf RenamePrefix base x c -> Name k = x.
Proof.
  destruct c as [data|entries].
  - cbn [entryOf]. destruct (skippedName _ _); [by intros ?%elem_of_nil|].
    destruct (HasSuffix _ _); [|by intros ?%elem_of_nil].
    by intros ->%list_elem_of_singleton.
  - rewrite entryOf_Dir. destruct (skippedName _ _); [by intros ?%elem_of_nil|].
    by intros ->%list_elem_of_singleton.
Qed.

Lemma walk_shift (x : str) (p : path) (n : node) :
  walk (x :: p) n = map (shift x) (walk p n).
Proof.
  revert p. induction n as [data|entries IH] using node_ind'; intros p; [done|].
  rewrite !walk_Dir. cbn [map shift fst snd]. f_equal.
  induction IH as [|[y c] entries Hc IH IHall]; [done|].
  cbn [flat_map fst snd] in *. rewrite map_app. f_equal; [|done].
  apply (Hc (p ++ [y])).
Qed.

Lemma walk_below_nonempty (x : str) (c : node) :
  Forall (fun e => e.1 <> []) (walk [x] c).
Proof.
  apply Forall_forall. intros e He.
  destruct (walk_entries_child [] x c e He) as [r ->]. done.
Qed.

Lemma flat_walk_nonempty entries :
  Forall (fun e => e.1 <> []) (flat_map (fun e => walk [e.1] e.2) entries).
Proof.
  induction entries as [|[y c] entries IH]; [constructor|].
  cbn [flat_map fst snd]. apply Forall_app. split; [apply walk_below_nonempty|done].
Qed.

Lemma flat_walk_shift (x : str) entries :
  flat_map (fun e => walk ([x] ++ [e.1]) e.2) entries
  = map (shift x) (flat_map (fun e => walk [e.1] e.2) entries).
Proof.
  induction entries as [|[y c] entries IH]; [done|].
  cbn [flat_map fst snd]. rewrite map_app, <- IH. f_equal. apply walk_shift.
Qed.

Lemma buildAt_app (RenamePrefix : str) (base : path) (W1 W2 : list (path * bool))
    (root : DirEntry) :
  buildAt RenamePrefix base (W1 ++ W2) root
  = buildAt RenamePrefix base W2 (buildAt RenamePrefix base W1 root).
Proof. apply fold_left_app. Qed.

(** The walks of the entries of a directory add their entries of the
    outline, one after the other. *)
Lemma buildAt_entries (RenamePrefix : str) (entries : list (str * node)) :
  Forall (fun e =>
    forall (base : path) (x n p : str) (d : bool) (kids : list DirEntry),
      Forall (fun k => dirNamed x k = false) kids ->
      buildAt RenamePrefix base (walk [x] e.2) (DirEntryOf n p d kids)
      = DirEntryOf n p d (kids ++ entryOf RenamePrefix base x e.2)) entries ->
  NoDup (map fst entries) ->
  forall (base : path) (n p : str) (d : bool) (kids : list DirEntry),
    (forall y, y ∈ map fst entries -> Forall (fun k => dirNamed y k = false) kids) ->
    buildAt RenamePrefix base (flat_map (fun e => walk [e.1] e.2) entries)
      (DirEntryOf n p d kids)
    = DirEntryOf n p d (kids ++ entriesOf RenamePrefix base entries).
Proof.
  intros IH Hnodup base n p d.
  induction entries as [|[y c] entries IHentries]; intros kids Hkids.
  - cbn. by rewrite app_nil_r.
  - apply Forall_cons in IH as [Hc IH].
    cbn [map fst snd] in *. apply NoDup_cons in Hnodup as [Hy Hnodup].
    unfold entriesOf. cbn [flat_map fst snd]. rewrite buildAt_app.
    rewrite Hc; [|apply Hkids; by left].
    rewrite IHentries; [by rewrite <- app_assoc|done..|].
    intros y' Hy'. apply Forall_app. split; [apply Hkids; by right|].
    apply Forall_forall. intros k Hk. apply entryOf_Name in Hk.
    unfold dirNamed. rewrite Hk, bool_decide_eq_false_2, andb_false_r; [done|].
    by intros ->.
Qed.

(** The walk of an entry adds the entry of the outline for it, with what
    is below it, after the entries the walk has added before. *)
Lemma buildAt_entry (RenamePrefix : str) (c : node) :
  wellFormed c = true ->
  forall (base : path) (x n p : str) (d : bool) (kids : list DirEntry),
    Forall (fun k => dirNamed x k = false) kids ->
    buildAt RenamePrefix base (walk [x] c) (DirEntryOf n p d kids)
    = DirEntryOf n p d (kids ++ entryOf RenamePrefix base x c).
Proof.
  induction c as [data|entries IH] using node_ind'; intros Hwf base x n p d kids Hkids.
  - cbn [walk isDir buildAt fold_left fst snd entryOf]. unfold addEntryAt.
    cbn [List.last removelast descend negb andb].
    destruct (skippedName RenamePrefix x); [by rewrite app_nil_r|].
    rewrite andb_true_r.
    destruct (HasSuffix (ToLower x) ".md"); [done|]. by rewrite app_nil_r.
  - rewrite walk_Dir, entryOf_Dir, flat_walk_shift.
    set (W := flat_map _ entries).
    change (buildAt RenamePrefix base (([x], true) :: map (shift x) W)
              (DirEntryOf n p d kids))
      with (buildAt RenamePrefix base (map (shift x) W)
              (addEntryAt RenamePrefix base [x] true (DirEntryOf n p d kids))).
    unfold addEntryAt at 1. cbn [List.last removelast descend negb andb].
    destruct (skippedName RenamePrefix x).
    { rewrite app_nil_r.
      apply buildAt_no_child; [apply flat_walk_nonempty|done]. }
    rewrite andb_false_r. cbn [appendBelow Name Path IsDir Children].
    rewrite buildAt_child;
      [|apply flat_walk_nonempty|done
       |unfold dirNamed; cbn [IsDir Name]; by rewrite bool_decide_eq_true_2].
    do 3 f_equal. cbn [app]. subst W.
    apply wellFormed_Dir in Hwf as [Hnodup Hwf].
    rewrite buildAt_entries; [done| |done|done].
    apply Forall_forall. intros e He.
    rewrite Forall_forall in IH. rewrite Forall_forall in Hwf. by apply IH, Hwf.
Qed.

(** The entries of the outline below the root. *)
Definition listing (RenamePrefix : str) (r : node) : list DirEntry :=
  match r with
  | File _ => []
  | Dir entries => entriesOf RenamePrefix [] entries
  end.

Lemma walk_plain (p : path) (n : node) (e : path * bool) :
  plainNames n = true -> Forall plain p -> e ∈ walk p n -> Forall plain e.1.
Proof.
  revert p. induction n as [data|entries IH] using node_ind'; intros p Hn Hp He.
  - cbn [walk] in He. by apply list_elem_of_singleton in He as ->.
  - rewrite walk_Dir in He. apply elem_of_cons in He as [->|He]; [done|].
    apply list_elem_of_In, in_flat_map in He as ([x c] & Hin & He).
    apply list_elem_of_In in Hin, He. cbn [fst snd] in He.
    apply plainNames_Dir in Hn. rewrite Forall_forall in Hn, IH.
    destruct (Hn _ Hin) as [Hx Hc]. apply (IH _ Hin (p ++ [x])); [done| |done].
    apply Forall_app. split; [done|]. by apply Forall_singleton.
Qed.

Lemma fold_left_ext_in {A B} (f g : A -> B -> A) (l : list B) (a : A) :
  (forall a b, b ∈ l -> f a b = g a b) -> fold_left f l a = fold_left g l a.
Proof.
  revert a. induction l as [|b l IH]; intros a H; [done|].
  cbn [fold_left]. rewrite (H a b) by by left. apply IH.
  intros a' b' Hb'. apply H. by right.
Qed.

(** What the walk of [BuildDirectoryTreeAfterRename] has built before
    the tree is sorted. *)
Lemma build_listing (RenamePrefix rootName : str) (r : node) :
  wellFormed r = true -> plainNames r = true ->
  fold_left (fun root e => addEntry RenamePrefix e.1 e.2 root) (walk [] r)
    (DirEntryOf rootName "" true [])
  = DirEntryOf rootName "" true (listing RenamePrefix r).
Proof.
  intros Hwf Hplain. destruct r as [data|entries]; [done|].
  rewrite walk_Dir. cbn [fold_left fst snd addEntry listing].
  rewrite (fold_left_ext_in _
             (fun root e => addEntryAt RenamePrefix [] e.1 e.2 root)).
  - cbn [app]. apply wellFormed_Dir in Hwf as [Hnodup Hwf].
    fold (buildAt RenamePrefix [] (flat_map (fun e => walk [e.1] e.2) entries)
            (DirEntryOf rootName "" true [])).
    rewrite (buildAt_entries RenamePrefix entries); [done| |done|done].
    apply Forall_forall. intros e He. rewrite Forall_forall in Hwf.
    by apply buildAt_entry, Hwf.
  - intros root e He. apply addEntry_elements.
    + apply list_elem_of_In, in_flat_map in He as ([x c] & _ & He).
      apply list_elem_of_In in He.
      destruct (walk_entries_child [] x c e He) as [q ->]. done.
    + apply (walk_plain [] (Dir entries)); [done|constructor|].
      rewrite walk_Dir. by right.
Qed.

(** ** The lines of the outline *)

(** A line [writeSummaryEntries] writes: the name of a directory, or the
    link to a document. *)
Inductive line :=
| Heading (depth : nat) (name : str)
| Link (depth : nat) (label target : str).

Definition render (l : line) : str :=
  match l with
  | Heading depth name => Repeat "  " depth ++ "  " ++ name ++ [newline]
  | Link depth label target =>
      Repeat "  " depth ++ "- [" ++ label ++ "](" ++ target ++ ")" ++ [newline]
  end.

Fixpoint summaryLines (depth : nat) (entry : DirEntry) : list line :=
  match entry with
  | DirEntryOf name path isdir children =>
      if isdir then
        Heading depth name
        :: (fix entries (children : list DirEntry) : list line :=
              match children with
              | [] => []
              | child :: children' =>
                  summaryLines (S depth) child ++ entries children'
              end) children
      else if HasSuffix (ToLower name) ".md" then
        [Link depth (TrimSuffix name ".md") path]
      else []
  end.

(** The label and the target of a link line. *)
Definition linkOfLine (l : line) : option (str * str) :=
  match l with
  | Link _ label target => Some (label, target)
  | Heading _ _ => None
  end.

Definition links (lines : list line) : list (str * str) := omap linkOfLine lines.

(** The links of an entry and of what is below it. *)
Fixpoint linksOf (entry : DirEntry) : list (str * str) :=
  match entry with
  | DirEntryOf name path isdir children =>
      if isdir then
        (fix entries (children : list DirEntry) : list (str * str) :=
           match children with
           | [] => []
           | child :: children' => linksOf child ++ entries children'
           end) children
      else if HasSuffix (ToLower name) ".md" then [(TrimSuffix name ".md", path)]
      else []
  end.

Fixpoint DirEntry_ind' (P : DirEntry -> Prop)
    (H : forall n p d children, Forall P children -> P (DirEntryOf n p d children))
    (e : DirEntry) : P e :=
  match e with
  | DirEntryOf n p d children =>
      H n p d children
        ((fix all (children : list DirEntry) : Forall P children :=
            match children with
            | [] => List.Forall_nil _
            | c :: children' =>
                @List.Forall_cons _ P c children' (DirEntry_ind' P H c)
                  (all children')
            end) children)
  end.

Lemma summaryLines_dir (depth : nat) (n p : str) (children : list DirEntry) :
  summaryLines depth (DirEntryOf n p true children)
  = Heading depth n :: flat_map (summaryLines (S depth)) children.
Proof. done. Qed.

Lemma linksOf_dir (n p : str) (children : list DirEntry) :
  linksOf (DirEntryOf n p true children) = flat_map linksOf children.
Proof. done. Qed.

Lemma writeSummaryEntry_dir (depth : nat) (n p : str) (children : list DirEntry) :
  writeSummaryEntry depth (DirEntryOf n p true children)
  = (Repeat "  " depth ++ "  " ++ n ++ [newline])
    ++ writeSummaryEntries children (S depth).
Proof.
  cbn [writeSummaryEntry]. f_equal. unfold writeSummaryEntries.
  induction children as [|c children IH]; [done|]. cbn [map concat]. by rewrite IH.
Qed.

Lemma concat_render_flat_map {A} (f : A -> list line) (l : list A) :
  concat (map render (flat_map f l)) = concat (map (fun a => concat (map render (f a))) l).
Proof.
  induction l as [|a l IH]; [done|].
  cbn [flat_map map concat]. by rewrite map_app, concat_app, IH.
Qed.

Lemma flat_map_ext_elem {A B} (f g : A -> list B) (l : list A) :
  (forall a, a ∈ l -> f a = g a) -> flat_map f l = flat_map g l.
Proof.
  induction l as [|a l IH]; intros H; [done|].
  cbn [flat_map]. rewrite (H a) by by left. rewrite IH; [done|].
  intros b Hb. apply H. by right.
Qed.

Lemma links_flat_map {A} (f : A -> list line) (l : list A) :
  links (flat_map f l) = flat_map (fun a => links (f a)) l.
Proof.
  unfold links. induction l as [|a l IH]; [done|].
  cbn [flat_map]. by rewrite omap_app, IH.
Qed.

(** What is written for an entry is its lines, one after the other. *)
Lemma writeSummaryEntry_lines (entry : DirEntry) (depth : nat) :
  writeSummaryEntry depth entry = concat (map render (summaryLines depth entry)).
Proof.
  revert depth. induction entry as [n p d children IH] using DirEntry_ind'.
  intros depth. destruct d.
  - rewrite writeSummaryEntry_dir, summaryLines_dir. cbn [map concat render].
    f_equal. rewrite concat_render_flat_map. unfold writeSummaryEntries. f_equal.
    apply map_ext_in. intros c Hc. rewrite Forall_forall in IH.
    by apply IH, list_elem_of_In.
  - cbn [writeSummaryEntry summaryLines].
    destruct (HasSuffix (ToLower n) ".md"); [|done].
    cbn [map concat render]. by rewrite app_nil_r.
Qed.

Lemma writeSummaryEntries_lines (entries : list DirEntry) (depth : nat) :
  writeSummaryEntries entries depth
  = concat (map render (flat_map (summaryLines depth) entries)).
Proof.
  rewrite concat_render_flat_map. unfold writeSummaryEntries. f_equal.
  apply map_ext. intros c. apply writeSummaryEntry_lines.
Qed.

Lemma links_summaryLines (entry : DirEntry) (depth : nat) :
  links (summaryLines depth entry) = linksOf entry.
Proof.
  revert depth. induction entry as [n p d children IH] using DirEntry_ind'.
  intros depth. destruct d.
  - rewrite summaryLines_dir, linksOf_dir.
    change (links (Heading depth n :: ?l)) with (links l).
    rewrite links_flat_map. apply flat_map_ext_elem. intros c Hc.
    rewrite Forall_forall in IH. by apply IH.
  - cbn [summaryLines linksOf]. by destruct (HasSuffix (ToLower n) ".md").
Qed.

(** Entries enumerated in another order have the same links. *)
Lemma sameTree_links (e e' : DirEntry) : sameTree e e' -> linksOf e ≡ₚ linksOf e'.
Proof.
  revert e'. induction e as [n p d children IH] using DirEntry_ind'.
  intros e' Hsame. inversion Hsame as [|? ? ? cs1' cs2 Hperm Hall]; subst; [done|].
  rewrite !linksOf_dir.
  rewrite (Permutation_flat_map linksOf Hperm).
  assert (Hin : Forall (fun c => forall e', sameTree c e' -> linksOf c ≡ₚ linksOf e') cs1').
  { apply Forall_forall. intros c Hc. rewrite Forall_forall in IH.
    apply IH. by rewrite Hperm. }
  clear Hperm IH Hsame.
  induction Hall as [|c c' cs1' cs2 Hc Hall IHall]; [done|].
  apply Forall_cons in Hin as [Hc1 Hin]. cbn [flat_map].
  apply Permutation_app; [by apply Hc1|by apply IHall].
Qed.

(** ** The documents of the tree *)

(** A document the outline is to list: a file of the tree with the
    extension [.md], in any letter case, that the walk does not pass over,
    below directories that the walk does not pass over. *)
Definition document (RenamePrefix : str) (r : node) (p : path) : Prop :=
  (exists data, lookup r p = Some (File data))
  /\ p <> []
  /\ Forall (fun x => skippedName RenamePrefix x = false) p
  /\ HasSuffix (ToLower (List.last p [])) ".md" = true.

(** The documents below the entry [x] of the directory [base], in the
    order of the walk. *)
Fixpoint documentsOf (RenamePrefix : str) (base : path) (x : str) (c : node)
  : list path :=
  if skippedName RenamePrefix x then []
  else
    match c with
    | File _ => if HasSuffix (ToLower x) ".md" then [base ++ [x]] else []
    | Dir entries =>
        flat_map (fun e => documentsOf RenamePrefix (base ++ [x]) e.1 e.2) entries
    end.

Definition documents (RenamePrefix : str) (r : node) : list path :=
  match r with
  | File _ => []
  | Dir entries => flat_map (fun e => documentsOf RenamePrefix [] e.1 e.2) entries
  end.

(** The link the outline has for a document: the name without [.md] as
    the label, [displayPath] of the path as the target. *)
Definition linkOf (p : path) : str * str :=
  (TrimSuffix (List.last p []) ".md",
   displayPath (List.last p []) (Join p "/")).

Lemma links_entriesOf (RenamePrefix : str) (base : path)
    (entries : list (str * node)) :
  Forall (fun e => forall base x,
            flat_map linksOf (entryOf RenamePrefix base x e.2)
            = map linkOf (documentsOf RenamePrefix base x e.2)) entries ->
  flat_map linksOf (entriesOf RenamePrefix base entries)
  = map linkOf (flat_map (fun e => documentsOf RenamePrefix base e.1 e.2) entries).
Proof.
  intros IH. induction IH as [|[y c] entries Hc IH IHall]; [done|].
  unfold entriesOf. cbn [flat_map fst snd] in *.
  rewrite flat_map_app, map_app, Hc. f_equal. apply IHall.
Qed.

Lemma links_entryOf (RenamePrefix : str) (c : node) (base : path) (x : str) :
  flat_map linksOf (entryOf RenamePrefix base x c)
  = map linkOf (documentsOf RenamePrefix base x c).
Proof.
  revert base x. induction c as [data|entries IH] using node_ind'; intros base x.
  - cbn [entryOf documentsOf]. destruct (skippedName RenamePrefix x); [done|].
    destruct (HasSuffix (ToLower x) ".md") eqn:Hmd; [|done].
    cbn [flat_map map linksOf]. rewrite Hmd. unfold linkOf. by rewrite last_snoc'.
  - rewrite entryOf_Dir. cbn [documentsOf].
    destruct (skippedName RenamePrefix x); [done|].
    cbn [flat_map]. rewrite app_nil_r, linksOf_dir. by apply links_entriesOf.
Qed.

Lemma links_listing (RenamePrefix : str) (r : node) :
  flat_map linksOf (listing RenamePrefix r) = map linkOf (documents RenamePrefix r).
Proof.
  destruct r as [data|entries]; [done|]. apply links_entriesOf.
  apply Forall_forall. intros e _ base x. apply links_entryOf.
Qed.

(** The documents below an entry are the documents. *)
Lemma documentsOf_spec (RenamePrefix : str) (c : node) :
  wellFormed c = true ->
  forall (base : path) (x : str) (p : path),
    p ∈ documentsOf RenamePrefix base x c <->
    exists q,
      p = base ++ x :: q
      /\ (exists data, lookup c q = Some (File data))
      /\ Forall (fun y => skippedName RenamePrefix y = false) (x :: q)
      /\ HasSuffix (ToLower (List.last (x :: q) [])) ".md" = true.
Proof.
  induction c as [data|entries IH] using node_ind'; intros Hwf base x p.
  - cbn [documentsOf]. split.
    + destruct (skippedName RenamePrefix x) eqn:Hx; [by intros ?%elem_of_nil|].
      destruct (HasSuffix (ToLower x) ".md") eqn:Hmd; [|by intros ?%elem_of_nil].
      intros ->%list_elem_of_singleton. exists []. split; [done|].
      split; [by exists data|]. split; [|done]. by apply Forall_singleton.
    + intros (q & -> & [data' Hq] & Hskip & Hmd).
      destruct q as [|y q]; [|done].
      apply Forall_cons in Hskip as [Hskip _]. cbn [List.last] in Hmd.
      rewrite Hskip, Hmd. by apply list_elem_of_singleton.
  - apply wellFormed_Dir in Hwf as [Hnodup Hwf].
    rewrite Forall_forall in IH, Hwf. cbn [documentsOf]. split.
    + destruct (skippedName RenamePrefix x) eqn:Hx; [by intros ?%elem_of_nil|].
      intros ([y c] & Hin & Hp)%list_elem_of_In%in_flat_map.
      apply list_elem_of_In in Hin, Hp. cbn [fst snd] in Hp.
      apply (IH _ Hin (Hwf _ Hin)) in Hp as (q & -> & [data Hq] & Hskip & Hmd).
      exists (y :: q). split; [by rewrite <- app_assoc|].
      split; [|split].
      * exists data. cbn [lookup]. by rewrite (find_elem y c entries).
      * by constructor.
      * done.
    + intros (q & -> & [data Hq] & Hskip & Hmd).
      apply Forall_cons in Hskip as [Hx Hskip]. rewrite Hx.
      destruct q as [|y q]; [done|]. cbn [lookup] in Hq.
      destruct (find y entries) as [c|] eqn:Hfind; [|done].
      apply find_Some_elem in Hfind.
      apply list_elem_of_In, in_flat_map. exists (y, c).
      split; [by apply list_elem_of_In|]. apply list_elem_of_In. cbn [fst snd].
      apply (IH _ Hfind (Hwf _ Hfind)). exists q.
      split; [by rewrite <- app_assoc|]. split; [by exists data|]. done.
Qed.

Lemma documentsBelow_NoDup (RenamePrefix : str) (base : path)
    (entries : list (str * node)) :
  NoDup (map fst entries) ->
  Forall (fun e => wellFormed e.2 = true) entries ->
  Forall (fun e => forall base x, NoDup (documentsOf RenamePrefix base x e.2))
    entries ->
  NoDup (flat_map (fun e => documentsOf RenamePrefix base e.1 e.2) entries).
Proof.
  intros Hnodup Hwf IH.
  induction entries as [|[y c] entries IHentries]; [constructor|].
  apply Forall_cons in IH as [Hc IH]. apply Forall_cons in Hwf as [Hwfc Hwf].
  cbn [map fst snd] in *. apply NoDup_cons in Hnodup as [Hy Hnodup].
  cbn [flat_map fst snd]. apply NoDup_app. split; [apply Hc|].
  split; [|by apply IHentries].
  intros p Hp ([y' c'] & Hin & Hp')%list_elem_of_In%in_flat_map.
  apply list_elem_of_In in Hin, Hp'. cbn [fst snd] in Hp'.
  apply (documentsOf_spec _ _ Hwfc) in Hp as (q & -> & _).
  rewrite Forall_forall in Hwf.
  apply (documentsOf_spec _ _ (Hwf _ Hin)) in Hp' as (q' & Heq & _).
  apply app_inv_head in Heq. injection Heq as -> _.
  apply Hy. apply list_elem_of_fmap. by exists (y', c').
Qed.

Lemma documentsOf_NoDup (RenamePrefix : str) (c : node) :
  wellFormed c = true ->
  forall (base : path) (x : str), NoDup (documentsOf RenamePrefix base x c).
Proof.
  induction c as [data|entries IH] using node_ind'; intros Hwf base x.
  - cbn [documentsOf]. destruct (skippedName RenamePrefix x); [constructor|].
    destruct (HasSuffix (ToLower x) ".md"); [apply NoDup_singleton|constructor].
  - cbn [documentsOf]. destruct (skippedName RenamePrefix x); [constructor|].
    apply wellFormed_Dir in Hwf as [Hnodup Hwf].
    apply documentsBelow_NoDup; [done..|].
    apply Forall_forall. intros e He. rewrite Forall_forall in IH, Hwf.
    by apply IH, Hwf.
Qed.

Lemma documents_NoDup (RenamePrefix : str) (r : node) :
  wellFormed r = true -> NoDup (documents RenamePrefix r).
Proof.
  intros Hwf. destruct r as [data|entries]; [constructor|].
  apply wellFormed_Dir in Hwf as [Hnodup Hwf].
  apply documentsBelow_NoDup; [done..|].
  apply Forall_forall. intros e He. rewrite Forall_forall in Hwf.
  by apply documentsOf_NoDup, Hwf.
Qed.

Lemma documents_spec (RenamePrefix : str) (r : node) (p : path) :
  wellFormed r = true ->
  p ∈ documents RenamePrefix r <-> document RenamePrefix r p.
Proof.
  intros Hwf. unfold document. destruct r as [data|entries].
  - split; [by intros ?%elem_of_nil|].
    intros ([data' Hp] & Hne & _). by destruct p.
  - apply wellFormed_Dir in Hwf as [Hnodup Hwf]. rewrite Forall_forall in Hwf.
    cbn [documents]. split.
    + intros ([y c] & Hin & Hp)%list_elem_of_In%in_flat_map.
      apply list_elem_of_In in Hin, Hp. cbn [fst snd] in Hp.
      apply (documentsOf_spec _ _ (Hwf _ Hin)) in Hp
        as (q & -> & [data Hq] & Hskip & Hmd).
      cbn [app]. split; [|done].
      exists data. cbn [lookup]. by rewrite (find_elem y c entries).
    + intros ([data Hp] & Hne & Hskip & Hmd). destruct p as [|y q]; [done|].
      cbn [lookup] in Hp. destruct (find y entries) as [c|] eqn:Hfind; [|done].
      apply find_Some_elem in Hfind.
      apply list_elem_of_In, in_flat_map. exists (y, c).
      split; [by apply list_elem_of_In|]. apply list_elem_of_In. cbn [fst snd].
      apply (documentsOf_spec _ _ (Hwf _ Hfind)). exists q.
      split; [done|]. split; [by exists data|]. done.
Qed.

(** *** The target of a link and the path of its document *)

Lemma Join_ends_with_last (p : path) :
  p <> [] -> exists pre, Join p "/" = pre ++ List.last p [].
Proof.
  intros Hne. destruct (exists_last Hne) as (q & x & ->). rewrite last_snoc'.
  destruct q as [|e q]; [by exists []|].
  rewrite Join_snoc by done. exists (Join (e :: q) "/" ++ ["/"%char]).
  by rewrite <- app_assoc.
Qed.

Lemma ToLower_app (s t : str) : ToLower (s ++ t) = ToLower s ++ ToLower t.
Proof. apply map_app. Qed.

(** The target is the path of the document when that path is in lower
    case and does not end in a doubled [.md]. *)
Lemma displayPath_own (pre x : str) :
  HasSuffix (ToLower x) ".md" = true ->
  ToLower (pre ++ x) = pre ++ x ->
  HasSuffix (TrimSuffix (pre ++ x) ".md") ".md" = false ->
  displayPath x (pre ++ x) = pre ++ x.
Proof.
  intros Hmd Hlower Hdouble. unfold displayPath. rewrite Hmd.
  assert (Hx : ToLower x = x).
  { rewrite ToLower_app in Hlower. apply app_inj_2 in Hlower as [_ Hx]; [done|].
    unfold ToLower. by rewrite length_map. }
  rewrite Hx in Hmd. apply HasSuffix_spec in Hmd as [x0 ->].
  rewrite app_assoc in Hdouble, Hlower |- *.
  rewrite TrimSuffix_app in Hdouble |- *.
  unfold TrimSuffix at 1. by rewrite Hdouble.
Qed.

Lemma linksOf_Children (e : DirEntry) :
  IsDir e = true -> linksOf e = flat_map linksOf (Children e).
Proof. destruct e as [n p d children]. by intros [= ->]. Qed.

(** Two documents whose names differ from their targets: a name with an
    upper-case letter, and a name with a doubled extension next to the
    document whose path is its target. *)
Definition namesTree : node :=
  Dir [("Page.md" : str, File "page");
       ("x.md" : str, File "x");
       ("x.md.md" : str, File "xx")].

(** C8.  The claim fails on the code: the outline of a tree with the
    documents [Page.md], [x.md] and [x.md.md] links [page.md], which is the
    path of no document, and links [x.md] twice, for two documents, while no
    entry has the path of [x.md.md] as its target.  The documents keep the
    case of their names in every other stage. *)
Lemma outline_target_not_document :
  documents "_" namesTree
  = [["Page.md" : str]; ["x.md" : str]; ["x.md.md" : str]]
  /\ writeSummaryEntries
       (Children (BuildDirectoryTreeAfterRename "_" "out" namesTree)) 0
     = ("- [Page](page.md)" ++ [newline])
       ++ ("- [x](x.md)" ++ [newline])
       ++ ("- [x.md](x.md)" ++ [newline])
  /\ lookup namesTree ["page.md" : str] = None.
Proof. vm_compute. done. Qed.

(** X20.  In a tree whose directories have no two entries of one name
    and whose names are plain and made of ASCII characters, the link lines
    [writeSummaryEntries] writes for the tree of
    [BuildDirectoryTreeAfterRename] are, up to their order, one for each
    document (a file with the extension [.md], in any letter case, that the
    walk does not pass over, below directories that it does not pass over
    either), no document twice: the label is the name without a final
    [.md], the target is the [Path] the tree has for the document, which is
    the relative path with a final [.md] taken away twice and [.md] added,
    all in lower case.  The target is the path of the document itself when
    that path is in lower case and has no doubled [.md]. *)
Theorem outline_lists_documents (RenamePrefix rootName : str) (r : node) :
  wellFormed r = true -> plainNames r = true -> asciiNames r = true ->
  exists (docs : list path) (lines : list line),
    NoDup docs
    /\ (forall p, p ∈ docs <-> document RenamePrefix r p)
    /\ writeSummaryEntries
         (Children (BuildDirectoryTreeAfterRename RenamePrefix rootName r)) 0
       = concat (map render lines)
    /\ links lines ≡ₚ map linkOf docs
    /\ forall p, p ∈ docs ->
         ToLower (Join p "/") = Join p "/" ->
         HasSuffix (TrimSuffix (Join p "/") ".md") ".md" = false ->
         (linkOf p).2 = Join p "/".
Proof.
  intros Hwf Hplain _.
  exists (documents RenamePrefix r).
  exists (flat_map (summaryLines 0)
            (Children (BuildDirectoryTreeAfterRename RenamePrefix rootName r))).
  split; [by apply documents_NoDup|].
  split; [intros p; by apply documents_spec|].
  split; [apply writeSummaryEntries_lines|]. split.
  - rewrite links_flat_map.
    rewrite (flat_map_ext_elem _ linksOf) by (intros; apply links_summaryLines).
    unfold BuildDirectoryTreeAfterRename. cbv zeta. rewrite build_listing by done.
    set (U := DirEntryOf rootName "" true (listing RenamePrefix r)).
    rewrite <- linksOf_Children
      by (unfold sortDirectoryTree; by rewrite sortTree_IsDir).
    rewrite <- links_listing. change (flat_map linksOf (listing RenamePrefix r))
      with (linksOf U).
    symmetry. apply sameTree_links. by apply sortTree_reorders.
  - intros p Hp Hlower Hdouble. apply (documents_spec _ _ _ Hwf) in Hp.
    destruct Hp as (_ & Hne & _ & Hmd). unfold linkOf. cbn [snd].
    destruct (Join_ends_with_last p Hne) as [pre Hjoin].
    rewrite Hjoin in Hlower, Hdouble |- *. by apply displayPath_own.
Qed.

Lemma outline_lists_documents_witness :
  exists (docs : list path) (lines : list line),
    NoDup docs
    /\ (forall p, p ∈ docs <-> document "_" sampleTree p)
    /\ writeSummaryEntries
         (Children (BuildDirectoryTreeAfterRename "_" "out" sampleTree)) 0
       = concat (map render lines)
    /\ links lines ≡ₚ map linkOf docs
    /\ forall p, p ∈ docs ->
         ToLower (Join p "/") = Join p "/" ->
         HasSuffix (TrimSuffix (Join p "/") ".md") ".md" = false ->
         (linkOf p).2 = Join p "/".
Proof.
  apply (outline_lists_documents "_" "out" sampleTree).
  - reflexivity.
  - vm_compute. reflexivity.
  - reflexivity.
Defined.

(** * Further properties of the program *)

(** ** Case folding of a directory path *)

Lemma Split_not_nil (s : str) (sep : ascii) : Split s sep <> [].
Proof.
  destruct s as [|c s]; [done|]. cbn [Split].
  destruct (decide (c = sep)); [done|]. by destruct (Split s sep).
Qed.

(** Joining the pieces of a split gives the string back. *)
Lemma Join_Split (s : str) (sep : ascii) : Join (Split s sep) sep = s.
Proof.
  induction s as [|c s IH]; [done|]. cbn [Split].
  destruct (decide (c = sep)) as [->|Hc].
  - pose proof (Split_not_nil s sep) as Hne.
    destruct (Split s sep) as [|piece pieces] eqn:E; [done|].
    change (Join ([] :: piece :: pieces) sep)
      with ([] ++ sep :: Join (piece :: pieces) sep).
    by rewrite IH.
  - destruct (Split s sep) as [|piece pieces] eqn:E.
    + by destruct (Split_not_nil s sep).
    + destruct pieces as [|piece' pieces].
      * cbn [Join] in *. by rewrite IH.
      * change (Join ((c :: piece) :: piece' :: pieces) sep)
          with (c :: Join (piece :: piece' :: pieces) sep).
        by rewrite IH.
Qed.

Lemma lowerByte_idempotent (c : ascii) : lowerByte (lowerByte c) = lowerByte c.
Proof.
  destruct (lowerByte_cases c) as [H|[Hc _]]; [by rewrite !H|].
  unfold lowerByte at 1.
  destruct (65 <=? nat_of_ascii (lowerByte c)) eqn:E1; [|done].
  destruct (nat_of_ascii (lowerByte c) <=? 90) eqn:E2; [|done].
  apply Nat.leb_le in E2. lia.
Qed.

Lemma ToLower_idempotent (s : str) : ToLower (ToLower s) = ToLower s.
Proof.
  unfold ToLower. rewrite map_map. apply map_ext. intros c.
  apply lowerByte_idempotent.
Qed.

Lemma ReplaceAll_removes (s : str) (old new : ascii) :
  old <> new -> old ∉ ReplaceAll s old new.
Proof.
  intros Hne [c [Hc _]]%list_elem_of_fmap.
  destruct (decide (c = old)); congruence.
Qed.

(** X1.  In a path of ASCII characters [ConvertDirectoryToLowercase]
    turns every backslash into a slash and every letter [A]..[Z] into its
    lower-case letter, and nothing else: the split into elements and the
    join leave no trace, and the length stays.  Folding a folded path
    changes nothing. *)
Theorem ConvertDirectoryToLowercase_fold (dirPath : str) :
  isASCII dirPath = true ->
  ConvertDirectoryToLowercase dirPath = map lowerByte (ReplaceAll dirPath "\" "/")
  /\ length (ConvertDirectoryToLowercase dirPath) = length dirPath
  /\ ConvertDirectoryToLowercase (ConvertDirectoryToLowercase dirPath)
     = ConvertDirectoryToLowercase dirPath.
Proof.
  intros _. change (map lowerByte) with ToLower.
  assert (Hfold : forall d,
            ConvertDirectoryToLowercase d = ToLower (ReplaceAll d "\" "/")).
  { intros d. unfold ConvertDirectoryToLowercase.
    by rewrite <- ToLower_Join, Join_Split. }
  split; [apply Hfold|]. split.
  - rewrite Hfold. unfold ToLower, ReplaceAll. by rewrite !length_map.
  - rewrite (Hfold (ConvertDirectoryToLowercase dirPath)), Hfold.
    rewrite (ReplaceAll_absent (ToLower _)).
    + apply ToLower_idempotent.
    + apply ToLower_not_elem; [vm_compute; lia..|]. by apply ReplaceAll_removes.
Qed.

Lemma ConvertDirectoryToLowercase_fold_witness :
  ConvertDirectoryToLowercase "Docs\Sub/A.Html" = "docs/sub/a.html"
  /\ length (ConvertDirectoryToLowercase "Docs\Sub/A.Html") = 15
  /\ ConvertDirectoryToLowercase (ConvertDirectoryToLowercase "Docs\Sub/A.Html")
     = ConvertDirectoryToLowercase "Docs\Sub/A.Html".
Proof. apply (ConvertDirectoryToLowercase_fold "Docs\Sub/A.Html"). reflexivity. Defined.

(** ** Text without links *)

(** The texts a pattern matches. *)
Inductive matches : regexp.regex -> str -> Prop :=
| matches_One cl x :
    regexp.accepts cl x = true -> matches (regexp.One cl) [x]
| matches_Many_nil cl : matches (regexp.Many cl) []
| matches_Many_cons cl x w :
    regexp.accepts cl x = true -> matches (regexp.Many cl) w ->
    matches (regexp.Many cl) (x :: w)
| matches_Seq r1 r2 w1 w2 :
    matches r1 w1 -> matches r2 w2 -> matches (regexp.Seq r1 r2) (w1 ++ w2)
| matches_Group r w : matches r w -> matches (regexp.Group r) w.

(** A run that succeeds has read a text of the pattern and handed the
    rest of the input to its continuation. *)
Lemma run_sound {R} (r : regexp.regex) (k : regexp.cont R) (s : str)
    (caps : list str) (res : R) :
  regexp.run r k s caps = Some res ->
  exists w s' caps', s = w ++ s' /\ matches r w /\ k s' caps' = Some res.
Proof.
  revert k s caps. induction r as [cl|cl|r1 IH1 r2 IH2|r IH]; intros k s caps H.
  - destruct s as [|x s]; [done|]. cbn [regexp.run] in H.
    destruct (regexp.accepts cl x) eqn:Hx; [|done].
    exists [x], s, caps. split; [done|]. split; [by constructor|done].
  - induction s as [|x s IHs].
    + exists [], [], caps. split; [done|]. split; [constructor|done].
    + cbn [regexp.run] in H. destruct (regexp.accepts cl x) eqn:Hx.
      * match type of H with
        | match ?m with _ => _ end = _ => destruct m as [res'|] eqn:Hm
        end.
        -- injection H as ->. destruct (IHs Hm) as (w & s' & caps' & -> & Hw & Hk).
           exists (x :: w), s', caps'. split; [done|]. split; [by constructor|done].
        -- exists [], (x :: s), caps. split; [done|]. split; [constructor|done].
      * exists [], (x :: s), caps. split; [done|]. split; [constructor|done].
  - cbn [regexp.run] in H.
    apply IH1 in H as (w1 & s1 & caps1 & -> & Hw1 & H).
    apply IH2 in H as (w2 & s2 & caps2 & -> & Hw2 & H).
    exists (w1 ++ w2), s2, caps2. split; [by rewrite <- app_assoc|].
    split; [by constructor|done].
  - cbn [regexp.run] in H. apply IH in H as (w & s' & caps' & -> & Hw & H).
    exists w, s'. eexists. split; [done|]. split; [by constructor|exact H].
Qed.

Lemma matches_word (c : ascii) (w m : str) :
  matches (regexp.word c w) m -> m = c :: w.
Proof.
  revert c m. induction w as [|c' w IH]; intros c m H.
  - inversion H as [cl x Hx| | | |]; subst. cbn in Hx.
    by apply bool_decide_eq_true in Hx as ->.
  - cbn [regexp.word] in H. inversion H as [| | |r1 r2 w1 w2 H1 H2|]; subst.
    inversion H1 as [cl x Hx| | | |]; subst. cbn in Hx.
    apply bool_decide_eq_true in Hx as ->. by rewrite (IH _ _ H2).
Qed.

Lemma Contains_app (a substr b : str) : Contains (a ++ substr ++ b) substr = true.
Proof.
  induction a as [|x a IH].
  - cbn [app]. destruct (substr ++ b) eqn:E; cbn [Contains]; rewrite <- E;
      by rewrite HasPrefix_app.
  - cbn [app Contains]. rewrite IH. apply orb_true_r.
Qed.

(** A text of the link pattern has [.html] in it. *)
Lemma matches_link_html (m : str) :
  matches linkPattern m -> Contains m ".html" = true.
Proof.
  unfold linkPattern. intros H.
  inversion H as [| | |? ? w1 m1 _ H1|]; subst. clear H.
  inversion H1 as [| | |? ? w2 m2 _ H2|]; subst. clear H1.
  inversion H2 as [| | |? ? w3 m3 _ H3|]; subst. clear H2.
  inversion H3 as [| | |? ? w4 m4 H4 _|]; subst. clear H3.
  inversion H4 as [| | | |? ? H5]; subst. clear H4.
  inversion H5 as [| | |? ? u h _ Hh|]; subst. clear H5.
  apply (matches_word "." "html") in Hh as ->.
  assert (Heq : w1 ++ w2 ++ w3 ++ (u ++ "."%char :: "html") ++ m4
                = (w1 ++ w2 ++ w3 ++ u) ++ ".html" ++ m4)
    by (by rewrite <- !app_assoc).
  rewrite Heq. apply (Contains_app _ ".html").
Qed.

Lemma Contains_app_r (a b substr : str) :
  Contains a substr = true -> Contains (a ++ b) substr = true.
Proof.
  induction a as [|x a IH]; intros H.
  - cbn [Contains] in H. rewrite orb_false_r in H.
    apply HasPrefix_spec in H as [r Hr]. symmetry in Hr.
    apply app_eq_nil in Hr as [-> _]. apply (Contains_app [] [] b).
  - cbn [Contains] in H. apply orb_true_iff in H as [H|H].
    + apply HasPrefix_spec in H as [r Hr]. rewrite Hr, <- app_assoc.
      apply (Contains_app [] substr (r ++ b)).
    + cbn [app Contains]. by rewrite IH, orb_true_r.
Qed.

Lemma matchAt_without_html (s : str) :
  Contains s ".html" = false -> regexp.matchAt linkPattern s = None.
Proof.
  intros Hs. destruct (regexp.matchAt linkPattern s) as [res|] eqn:H; [|done].
  unfold regexp.matchAt in H.
  apply run_sound in H as (w & s' & caps' & -> & Hw & _).
  apply matches_link_html in Hw.
  by rewrite (Contains_app_r _ s' _ Hw) in Hs.
Qed.

Lemma replaceAll_without_html (fuel : nat) (src : str) :
  Contains src ".html" = false ->
  regexp.replaceAll linkPattern rewriteLink fuel src = src.
Proof.
  revert src. induction fuel as [|fuel IH]; intros src Hsrc; [done|].
  destruct src as [|x src]; [done|]. cbn [regexp.replaceAll].
  rewrite (matchAt_without_html _ Hsrc). f_equal. apply IH.
  cbn [Contains] in Hsrc. by apply orb_false_iff in Hsrc as [_ ?].
Qed.

(** X2.  A text in which [.html] does not occur is returned as it is by
    [ConvertHtmlLinksToMd]: links to other targets, such as [.HTML] or
    [.md], and brackets that are no links are left alone. *)
Theorem ConvertHtmlLinksToMd_without_html (content : str) :
  Contains content ".html" = false -> ConvertHtmlLinksToMd content = content.
Proof. intros H. by apply replaceAll_without_html. Qed.

Lemma ConvertHtmlLinksToMd_without_html_witness :
  ConvertHtmlLinksToMd "See [docs](Other.HTML#top), [notes](notes.md) and a[0]."
  = "See [docs](Other.HTML#top), [notes](notes.md) and a[0]." :> str.
Proof. by apply ConvertHtmlLinksToMd_without_html. Defined.

(** ** The name of a file without its extension *)

(** The loop of [filepath.Ext], from the last byte down: [count] is
    [i + 1]. *)
Fixpoint extLoop (path : str) (count : nat) : str :=
  match count with
  | 0 => []
  | S i =>
      match path !! i with
      | Some c =>
          if bool_decide (c = "/"%char) then []
          else if bool_decide (c = "."%char) then drop i path
          else extLoop path i
      | None => []
      end
  end.

(** [filepath.Ext]: the suffix of [path] from the last dot of its last
    element, empty without one. *)
Definition Ext (path : str) : str := extLoop path (length path).

(** [GetFileNameWithoutExt]. *)
Definition GetFileNameWithoutExt (path : str) : str :=
  filepath.Base (take (length path - length (Ext path)) path).

(** The loop passes over the bytes that are neither a separator nor a
    dot. *)
Lemma extLoop_skip (path : str) (n : nat) :
  n <= length path ->
  "/"%char ∉ drop n path -> "."%char ∉ drop n path ->
  extLoop path (length path) = extLoop path n.
Proof.
  intros Hn. remember (length path - n) as d eqn:Hd.
  revert n Hn Hd. induction d as [|d IH]; intros n Hn Hd Hsep Hdot.
  - by replace n with (length path) by lia.
  - destruct (lookup_lt_is_Some_2 path n ltac:(lia)) as [x Hx].
    rewrite (drop_S _ _ _ Hx) in Hsep, Hdot.
    apply not_elem_of_cons in Hsep as [Hx1 Hsep].
    apply not_elem_of_cons in Hdot as [Hx2 Hdot].
    rewrite (IH (S n)); [|lia|lia|done|done].
    cbn [extLoop]. by rewrite Hx, !bool_decide_eq_false_2 by congruence.
Qed.

Lemma Ext_dot (w ext : str) :
  "/"%char ∉ ext -> "."%char ∉ ext -> Ext (w ++ "."%char :: ext) = "."%char :: ext.
Proof.
  intros Hsep Hdot. unfold Ext.
  assert (Hdrop : drop (S (length w)) (w ++ "."%char :: ext) = ext).
  { rewrite drop_app_ge by lia. by replace (S (length w) - length w) with 1 by lia. }
  rewrite (extLoop_skip _ (S (length w))).
  - cbn [extLoop]. rewrite lookup_app_r, Nat.sub_diag by lia.
    change (("."%char :: ext) !! 0) with (Some "."%char). cbv beta iota.
    rewrite bool_decide_eq_false_2, bool_decide_eq_true_2 by done.
    by rewrite drop_app_length.
  - rewrite length_app. cbn [length]. lia.
  - by rewrite Hdrop.
  - by rewrite Hdrop.
Qed.

Lemma Ext_none (w name : str) :
  "/"%char ∉ name -> "."%char ∉ name ->
  (w = [] \/ exists w', w = w' ++ ["/"%char]) ->
  Ext (w ++ name) = [].
Proof.
  intros Hsep Hdot Hw. unfold Ext.
  rewrite (extLoop_skip _ (length w)).
  - destruct Hw as [->|[w' ->]]; [done|].
    rewrite length_app. cbn [length]. rewrite Nat.add_1_r. cbn [extLoop].
    rewrite <- app_assoc. rewrite lookup_app_r, Nat.sub_diag by lia.
    change ((["/"%char] ++ name) !! 0) with (Some "/"%char). cbv beta iota.
    by rewrite bool_decide_eq_true_2.
  - rewrite length_app. lia.
  - by rewrite drop_app_length.
  - by rewrite drop_app_length.
Qed.

Lemma stripTrailingSeps_sep (p : str) :
  filepath.stripTrailingSeps (p ++ ["/"%char]) = filepath.stripTrailingSeps p.
Proof.
  induction p as [|c p IH]; [done|].
  cbn [app filepath.stripTrailingSeps]. by rewrite IH.
Qed.

Lemma Base_sep (p : str) :
  p <> [] -> filepath.Base (p ++ ["/"%char]) = filepath.Base p.
Proof.
  intros Hp. unfold filepath.Base. rewrite stripTrailingSeps_sep.
  destruct p as [|c p]; [done|]. done.
Qed.

Lemma Join_snoc_app (elems : list str) (f x : str) :
  Join (elems ++ [f ++ x]) "/" = Join (elems ++ [f]) "/" ++ x.
Proof.
  destruct elems as [|e l]; [done|].
  rewrite !Join_snoc by done. by rewrite <- app_assoc.
Qed.

Lemma Join_snoc_sep (elems : list str) (d f : str) :
  Join (elems ++ [d; f]) "/" = Join (elems ++ [d]) "/" ++ "/"%char :: f.
Proof.
  replace (elems ++ [d; f]) with ((elems ++ [d]) ++ [f]) by by rewrite <- app_assoc.
  apply Join_snoc. by destruct elems.
Qed.

(** X3.  [GetFileNameWithoutExt] of a path given by its elements: the
    last element without its last extension; the last element as it is
    when it has no dot; and, for a last element that is only an extension
    (a dot file), the name of the directory that holds it. *)
Theorem GetFileNameWithoutExt_elements (elems : list str) (stem ext : str) :
  stem <> [] -> "/"%char ∉ stem -> "/"%char ∉ ext -> "."%char ∉ ext ->
  GetFileNameWithoutExt (Join (elems ++ [stem ++ "."%char :: ext]) "/") = stem
  /\ ("."%char ∉ stem ->
      GetFileNameWithoutExt (Join (elems ++ [stem]) "/") = stem)
  /\ GetFileNameWithoutExt (Join (elems ++ [stem; "."%char :: ext]) "/") = stem.
Proof.
  intros Hne Hstem Hsep Hdot. unfold GetFileNameWithoutExt.
  split; [|split].
  - rewrite Join_snoc_app, Ext_dot by done.
    rewrite length_app, Nat.add_sub, take_app_length.
    by apply Base_Join.
  - intros Hnodot.
    assert (HExt : Ext (Join (elems ++ [stem]) "/") = []).
    { destruct elems as [|e elems].
      - cbn [app Join]. apply (Ext_none [] stem); auto.
      - rewrite Join_snoc by done.
        rewrite (app_assoc _ ["/"%char] stem : _ ++ "/"%char :: stem = _).
        apply Ext_none; eauto. }
    rewrite HExt. cbn [length]. rewrite Nat.sub_0_r, firstn_all.
    by apply Base_Join.
  - rewrite Join_snoc_sep.
    rewrite (app_assoc _ ["/"%char] ("."%char :: ext)
               : _ ++ "/"%char :: "."%char :: ext = _).
    rewrite Ext_dot by done.
    rewrite length_app, Nat.add_sub, take_app_length.
    rewrite Base_sep; [by apply Base_Join|].
    destruct elems as [|e elems]; [by destruct stem|].
    rewrite Join_snoc by done. by destruct (Join (e :: elems) "/").
Qed.

Lemma GetFileNameWithoutExt_elements_witness :
  GetFileNameWithoutExt "/usr/local/bin/html2md.exe" = "html2md" :> str
  /\ ("."%char ∉ ("html2md" : str) ->
      GetFileNameWithoutExt "/usr/local/bin/html2md" = "html2md" :> str)
  /\ GetFileNameWithoutExt "/usr/local/bin/html2md/.exe" = "html2md" :> str.
Proof.
  apply (GetFileNameWithoutExt_elements
           ["" : str; "usr" : str; "local" : str; "bin" : str] "html2md" "exe").
  - done.
  - by vm_compute; intros H; repeat (apply elem_of_cons in H as [H|H]; [done|]);
      apply elem_of_nil in H.
  - by vm_compute; intros H; repeat (apply elem_of_cons in H as [H|H]; [done|]);
      apply elem_of_nil in H.
  - by vm_compute; intros H; repeat (apply elem_of_cons in H as [H|H]; [done|]);
      apply elem_of_nil in H.
Defined.

(** ** A directory renamed without a collision *)

Lemma lower_name_ne_temp (name : str) : ToLower name <> name ++ "_temp_rename".
Proof.
  intros H. apply (f_equal length) in H. unfold ToLower in H.
  rewrite length_map, length_app in H. simpl in H. lia.
Qed.

(** The rename through the temporary name when both names are free. *)
Lemma renameSingle_moves
    (dir : path) (currentName : str) (st : state) (v : node) :
  let dirPath := dir ++ [currentName] in
  let finalPath := dir ++ [ToLower currentName] in
  let tempPath := dir ++ [currentName ++ "_temp_rename"] in
  currentName <> ToLower currentName ->
  lookup (fs st) dirPath = Some v ->
  lookup (fs st) finalPath = None ->
  lookup (fs st) tempPath = None ->
  exists n',
    renameSingleDirectoryToLowercase dirPath st
    = (State n' (log st ++ [DirRenamed dirPath finalPath]), None)
    /\ (forall r, lookup n' (finalPath ++ r) = lookup v r)
    /\ lookup n' dirPath = None
    /\ lookup n' tempPath = None
    /\ forall q, diverge dirPath q -> diverge finalPath q ->
                 lookup n' q = lookup (fs st) q.
Proof.
  intros dirPath finalPath tempPath Hlower Hv Hfinal Htemp.
  assert (Hdt : diverge dirPath tempPath).
  { apply siblings_diverge. intros H. symmetry in H. by apply temp_name_ne in H. }
  assert (Hft : diverge finalPath tempPath).
  { apply siblings_diverge, lower_name_ne_temp. }
  assert (Hdf : diverge dirPath finalPath) by by apply siblings_diverge.
  destruct (Rename_sibling (fs st) dir currentName (currentName ++ "_temp_rename")
              v Hv Htemp) as (n1 & Hone & Htemp1 & Hdir1 & Hframe1).
  fold dirPath tempPath in Hone, Htemp1, Hdir1, Hframe1.
  assert (Hfinal1 : lookup n1 finalPath = None).
  { rewrite Hframe1; [done|done|by apply diverge_sym]. }
  destruct (Rename_sibling n1 dir (currentName ++ "_temp_rename")
              (ToLower currentName) v Htemp1 Hfinal1)
    as (n2 & Htwo & Hfinal2 & Htemp2 & Hframe2).
  fold finalPath tempPath in Htwo, Hfinal2, Htemp2, Hframe2.
  exists n2. split; [|split; [|split; [|split]]].
  - unfold renameSingleDirectoryToLowercase, dirPath.
    rewrite removelast_snoc, last_snoc', decide_False by done.
    fold finalPath dirPath tempPath. unfold mergeExisting. rewrite Hfinal.
    unfold twoPhaseRename. by rewrite Hv, Hone, Htwo.
  - intros r. by rewrite lookup_app, Hfinal2.
  - rewrite Hframe2; [done|by apply diverge_sym..].
  - done.
  - intros q Hq1 Hq2.
    destruct (path_cases tempPath q) as [[r ->]|[(x & r & Hpre)|Hq3]].
    + rewrite !lookup_app, Htemp2. by rewrite Htemp.
    + exfalso. apply (diverge_not_prefix _ _ Hq1).
      destruct (exists_last (l := x :: r) ltac:(done)) as (r' & y & Hr').
      rewrite Hr' in Hpre. unfold tempPath in Hpre. rewrite app_assoc in Hpre.
      apply app_inj_tail in Hpre as [Hdir _].
      exists (r' ++ [currentName]). unfold dirPath. rewrite Hdir.
      by rewrite <- app_assoc.
    + rewrite Hframe2, Hframe1 by done. done.
Qed.

(** X4.  When a directory has a name of ASCII characters that is not in
    lower case, and neither the lower-case name nor the temporary name is
    taken, [renameSingleDirectoryToLowercase] moves it, with all that is
    below it, to the lower-case name through the temporary name:
    afterwards the old and the temporary name are free, the rename is
    logged, and the entries next to the directory and elsewhere are as
    before. *)
Theorem renameSingleDirectoryToLowercase_renames
    (dir : path) (currentName : str) (st : state) (v : node) :
  let dirPath := dir ++ [currentName] in
  let finalPath := dir ++ [ToLower currentName] in
  let tempPath := dir ++ [currentName ++ "_temp_rename"] in
  isASCII currentName = true ->
  currentName <> ToLower currentName ->
  lookup (fs st) dirPath = Some v ->
  lookup (fs st) finalPath = None ->
  lookup (fs st) tempPath = None ->
  exists n',
    renameSingleDirectoryToLowercase dirPath st
    = (State n' (log st ++ [DirRenamed dirPath finalPath]), None)
    /\ (forall r, lookup n' (finalPath ++ r) = lookup v r)
    /\ lookup n' dirPath = None
    /\ lookup n' tempPath = None
    /\ forall q, diverge dirPath q -> diverge finalPath q ->
                 lookup n' q = lookup (fs st) q.
Proof. intros dirPath finalPath tempPath _. by apply renameSingle_moves. Qed.

Lemma renameSingleDirectoryToLowercase_renames_witness :
  exists n',
    renameSingleDirectoryToLowercase ["Guide" : str] (State sampleTree [])
    = (State n' [DirRenamed ["Guide" : str] ["guide" : str]], None)
    /\ (forall r, lookup n' (["guide" : str] ++ r)
                  = lookup (Dir [("Intro.md" : str, File "intro");
                                 ("_intro.html" : str, File "<p>");
                                 ("api" : str, Dir [("page.md" : str, File "page")]);
                                 ("logo.png" : str, File "png")]) r)
    /\ lookup n' ["Guide" : str] = None
    /\ lookup n' ["Guide_temp_rename" : str] = None
    /\ forall q, diverge ["Guide" : str] q -> diverge ["guide" : str] q ->
                 lookup n' q = lookup sampleTree q.
Proof.
  apply (renameSingleDirectoryToLowercase_renames [] "Guide" (State sampleTree [])).
  - reflexivity.
  - vm_compute. congruence.
  - reflexivity.
  - reflexivity.
  - reflexivity.
Defined.

(** ** A tree whose directories are in lower case *)

(** The names of the directories of the tree are made of ASCII
    characters: the names [ToLower] is the lowering of the code on. *)
Fixpoint asciiDirs (n : node) : bool :=
  match n with
  | File _ => true
  | Dir entries =>
      (fix all (entries : list (str * node)) : bool :=
         match entries with
         | [] => true
         | (x, c) :: entries' =>
             (negb (isDir c) || isASCII x) && asciiDirs c && all entries'
         end) entries
  end.

(** The names of the directories of the tree are in lower case. *)
Fixpoint lowerDirs (n : node) : bool :=
  match n with
  | File _ => true
  | Dir entries =>
      (fix all (entries : list (str * node)) : bool :=
         match entries with
         | [] => true
         | (x, c) :: entries' =>
             (negb (isDir c) || bool_decide (x = ToLower x))
             && lowerDirs c && all entries'
         end) entries
  end.

Lemma lowerDirs_Dir entries :
  lowerDirs (Dir entries) = true <->
  Forall (fun e => (isDir e.2 = true -> e.1 = ToLower e.1)
                   /\ lowerDirs e.2 = true) entries.
Proof.
  cbn [lowerDirs]. induction entries as [|[x c] entries IH].
  - split; [constructor|done].
  - rewrite !andb_true_iff, IH, Forall_cons, orb_true_iff, bool_decide_eq_true,
      negb_true_iff.
    cbn [fst snd]. destruct (isDir c); intuition congruence.
Qed.

Lemma walk_lowerDirs (p : path) (n : node) (q : path) :
  lowerDirs n = true -> (q, true) ∈ walk p n ->
  (q = p /\ isDir n = true) \/ List.last q [] = ToLower (List.last q []).
Proof.
  revert p. induction n as [data|entries IH] using node_ind'; intros p Hn Hq.
  - cbn [walk] in Hq. by apply list_elem_of_singleton in Hq.
  - rewrite walk_Dir in Hq. apply elem_of_cons in Hq as [[= ->]|Hq]; [by left|].
    right. apply list_elem_of_In, in_flat_map in Hq as ([x c] & Hin & Hq).
    apply list_elem_of_In in Hin, Hq. cbn [fst snd] in Hq.
    apply lowerDirs_Dir in Hn. rewrite Forall_forall in Hn, IH.
    destruct (Hn _ Hin) as [Hx Hc]. cbn [fst snd] in *.
    destruct (IH _ Hin (p ++ [x]) Hc Hq) as [[-> Hdir]|Hlow]; [|done].
    rewrite last_snoc'. by apply Hx.
Qed.

Lemma renameEach_lower (directories : list path) (st : state) :
  Forall (fun p => List.last p [] = ToLower (List.last p [])) directories ->
  renameEach directories st = st.
Proof.
  induction 1 as [|p directories Hp _ IH]; [done|].
  cbn [renameEach]. unfold renameSingleDirectoryToLowercase.
  by rewrite decide_True.
Qed.

(** X5.  On a tree in which the names of all directories below the root
    are made of ASCII characters and in lower case already,
    [RenameDirectoriesToLowercase] changes nothing: no entry moves and
    nothing is logged, whatever the names of the files. *)
Theorem RenameDirectoriesToLowercase_lower_unchanged
    (rootDir : path) (st : state) (r : node) :
  lookup (fs st) rootDir = Some r -> asciiDirs r = true -> lowerDirs r = true ->
  RenameDirectoriesToLowercase rootDir st = (st, None).
Proof.
  intros Hroot _ Hlow. unfold RenameDirectoriesToLowercase.
  rewrite (directoriesToRename_reverse _ _ r Hroot). f_equal.
  apply renameEach_lower, Forall_forall. intros p Hp.
  rewrite elem_of_reverse in Hp. unfold subdirectories in Hp.
  apply list_elem_of_fmap in Hp as ([q isdir] & -> & Hin).
  apply list_elem_of_In, filter_In in Hin as [Hin Hcond]. cbn [fst snd] in *.
  apply andb_true_iff in Hcond as [-> Hne]. apply list_elem_of_In in Hin.
  destruct (walk_lowerDirs _ _ _ Hlow Hin) as [[-> _]|H]; [|done].
  by rewrite bool_decide_eq_true_2 in Hne.
Qed.

Definition lowerTree : node :=
  Dir [("Page.MD" : str, File "page");
       ("guide" : str,
        Dir [("Intro.md" : str, File "intro");
             ("api" : str, Dir [("README.md" : str, File "read me")])])].

Lemma RenameDirectoriesToLowercase_lower_unchanged_witness :
  RenameDirectoriesToLowercase [] (State lowerTree []) = (State lowerTree [], None).
Proof.
  apply (RenameDirectoriesToLowercase_lower_unchanged [] (State lowerTree []) lowerTree);
    reflexivity.
Defined.

(** ** The files for mdbook *)

Definition quote : ascii := "034"%char.

(** [filepath.Base] of a directory given by its elements. *)
Definition baseName (p : path) : str :=
  match p with
  | [] => "/"
  | _ => List.last p []
  end.

(** The text of [book.toml] for a title and the name of the directory. *)
Definition bookTomlContent (title baseDirName : str) : str :=
  ("[book]" ++ [newline])
  ++ ("title = " ++ [quote] ++ title ++ [quote; newline])
  ++ ("description = " ++ [quote] ++ title ++ [quote; newline])
  ++ ("authors = [" ++ [quote] ++ "Generated by html2md" ++ [quote] ++ "]"
      ++ [newline])
  ++ ("src = " ++ [quote] ++ baseDirName ++ [quote; newline])
  ++ [newline]
  ++ ("[build]" ++ [newline])
  ++ ("build-dir = " ++ [quote] ++ "book" ++ [quote; newline])
  ++ ("create-missing = false" ++ [newline])
  ++ [newline]
  ++ ("[output.html]" ++ [newline])
  ++ ("default-theme = " ++ [quote] ++ "navy" ++ [quote; newline])
  ++ ("preferred-dark-theme = " ++ [quote] ++ "navy" ++ [quote; newline]).

(** The title of the book: the name of the directory with its
    underscores and hyphens turned into spaces. *)
Definition bookTitle (baseDirName : str) : str :=
  let title := ReplaceAll baseDirName "_" " " in
  ReplaceAll title "-" " ".

(** [GenerateBookToml]. *)
Definition GenerateBookToml (outputDir : path) (st : state) : state * option error :=
  let baseDirName := baseName outputDir in
  let title := bookTitle baseDirName in
  let bookTomlPath := outputDir ++ ["book.toml" : str] in
  match WriteFile (fs st) bookTomlPath (bookTomlContent title baseDirName) with
  | inl n => (setFs st n, None)
  | inr err => (st, Some err)
  end.

(** The errors of [GenerateMdBookFiles], each around the error of a
    step. *)
Inductive bookError :=
| BookTomlFailed (err : error)
| SummaryFailed (err : error).

(** [GenerateMdBookFiles]. *)
Definition GenerateMdBookFiles (RenamePrefix : str) (outputDir : path) (st : state)
  : state * option bookError :=
  match GenerateBookToml outputDir st with
  | (st, Some err) => (st, Some (BookTomlFailed err))
  | (st, None) =>
      match GenerateSummaryMd RenamePrefix (baseName outputDir) outputDir st with
      | (st, Some err) => (st, Some (SummaryFailed err))
      | (st, None) => (st, None)
      end
  end.

(** *** A file written next to the entries of the outline *)

Lemma put_file_split (x : str) (c : str) (entries : list (str * node)) :
  (forall es, find x entries <> Some (Dir es)) ->
  exists l1 l2,
    put x (File c) entries = l1 ++ (x, File c) :: l2
    /\ (entries = l1 ++ l2 \/ exists old, entries = l1 ++ (x, File old) :: l2).
Proof.
  induction entries as [|[y m] entries IH]; intros Hfind.
  - exists [], []. split; [done|by left].
  - cbn [put]. destruct (compareStr x y) eqn:Hcmp.
    + apply compareStr_eq in Hcmp as ->. exists [], entries. split; [done|].
      right. cbn [find] in Hfind. rewrite decide_True in Hfind by done.
      destruct m as [old|es]; [by exists old|by destruct (Hfind es)].
    + exists [], ((y, m) :: entries). split; [done|by left].
    + assert (Hxy : y <> x).
      { intros ->. by rewrite compareStr_refl in Hcmp. }
      cbn [find] in Hfind. rewrite decide_False in Hfind by done.
      destruct (IH Hfind) as (l1 & l2 & Hput & Hentries).
      exists ((y, m) :: l1), l2. rewrite Hput. split; [done|].
      destruct Hentries as [->|[old ->]]; [by left|right; by exists old].
Qed.

Lemma addEntry_skipped_file (RenamePrefix x : str) (isdir : bool) (root : DirEntry) :
  skippedName RenamePrefix x = true -> addEntry RenamePrefix [x] isdir root = root.
Proof. intros H. unfold addEntry. cbn [List.last]. by rewrite H. Qed.

(** A file that the walk of the outline passes over does not change the
    tree that is built, whether it is new or replaces a file. *)
Lemma BuildDirectoryTreeAfterRename_put_skipped
    (RenamePrefix rootName x c : str) (entries : list (str * node)) :
  skippedName RenamePrefix x = true ->
  (forall es, find x entries <> Some (Dir es)) ->
  BuildDirectoryTreeAfterRename RenamePrefix rootName (Dir (put x (File c) entries))
  = BuildDirectoryTreeAfterRename RenamePrefix rootName (Dir entries).
Proof.
  intros Hskip Hfind.
  destruct (put_file_split x c entries Hfind) as (l1 & l2 & Hput & Hentries).
  unfold BuildDirectoryTreeAfterRename. cbv zeta. f_equal.
  rewrite Hput, !walk_Dir. cbn [fold_left fst snd].
  rewrite flat_map_app, fold_left_app. cbn [flat_map fst snd walk isDir app].
  cbn [fold_left fst snd]. rewrite addEntry_skipped_file by done.
  destruct Hentries as [->|[old ->]].
  - by rewrite flat_map_app, fold_left_app.
  - rewrite flat_map_app, fold_left_app. cbn [flat_map fst snd walk isDir app].
    cbn [fold_left fst snd]. by rewrite addEntry_skipped_file.
Qed.

Lemma place_snoc_lookup (n n' : node) (dir : path) (x : str) (v : node) entries :
  lookup n dir = Some (Dir entries) ->
  place n (dir ++ [x]) v = Some n' ->
  lookup n' dir = Some (Dir (put x v entries)).
Proof.
  revert n n'. induction dir as [|y dir IH]; intros n n' Hdir Hplace.
  - cbn in Hdir. injection Hdir as ->. cbn in Hplace. by injection Hplace as <-.
  - cbn [app] in Hplace. apply place_inv in Hplace as (es0 & c' & -> & -> & Hc).
    cbn [lookup] in Hdir |- *. rewrite find_put_eq.
    assert (Hc' : exists c, find y es0 = Some c /\ place c (dir ++ [x]) v = Some c')
      by (destruct dir; exact Hc).
    destruct Hc' as (c0 & Hfind & Hc'). rewrite Hfind in Hdir.
    by apply (IH c0).
Qed.

Lemma put_idempotent (x : str) (v : node) (entries : list (str * node)) :
  put x v (put x v entries) = put x v entries.
Proof.
  induction entries as [|[y m] entries IH]; cbn [put].
  - by rewrite compareStr_refl.
  - destruct (compareStr x y) eqn:Hcmp; cbn [put].
    + by rewrite compareStr_refl.
    + by rewrite compareStr_refl.
    + by rewrite Hcmp, IH.
Qed.

(** Writing the same node to the same path again changes nothing. *)
Lemma place_idempotent (n n' : node) (p : path) (v : node) :
  place n p v = Some n' -> place n' p v = Some n'.
Proof.
  revert n n'. induction p as [|x p IH]; intros n n' H; [by destruct n|].
  apply place_inv in H as (es & c' & -> & -> & Hc).
  destruct p as [|y p].
  - subst. cbn [place]. by rewrite put_idempotent.
  - destruct Hc as (c & Hfind & Hc). rewrite place_cons, find_put_eq.
    rewrite (IH _ _ Hc). by rewrite put_idempotent.
Qed.

Lemma WriteFile_new_file (n : node) (dir : path) (x data : str) entries :
  lookup n dir = Some (Dir entries) ->
  (forall es, lookup n (dir ++ [x]) <> Some (Dir es)) ->
  exists n',
    WriteFile n (dir ++ [x]) data = inl n'
    /\ lookup n' (dir ++ [x]) = Some (File data)
    /\ lookup n' dir = Some (Dir (put x (File data) entries))
    /\ forall q, diverge (dir ++ [x]) q -> lookup n' q = lookup n q.
Proof.
  intros Hdir Hfile.
  destruct (place_succeeds n dir x (File data) entries Hdir) as [n' Hplace].
  exists n'. split; [|split; [|split]].
  - unfold WriteFile. rewrite Hplace.
    destruct (lookup n (dir ++ [x])) as [[old|es]|] eqn:E; [done| |done].
    by destruct (Hfile es).
  - rewrite <- (app_nil_r (dir ++ [x])). by rewrite (place_lookup_under _ _ _ [] _ Hplace).
  - by apply (place_snoc_lookup n).
  - intros q Hq. by apply (place_lookup_diverge _ _ _ _ _ Hplace).
Qed.

Lemma bookTitle_plain (baseDirName : str) :
  ("_"%char ∉ bookTitle baseDirName) /\ ("-"%char ∉ bookTitle baseDirName)
  /\ length (bookTitle baseDirName) = length baseDirName.
Proof.
  unfold bookTitle. split; [|split].
  - intros [c [Hc Hin]]%list_elem_of_fmap.
    destruct (decide (c = "-"%char)); [done|]. subst c.
    by apply ReplaceAll_removes in Hin.
  - by apply ReplaceAll_removes.
  - unfold ReplaceAll. by rewrite !length_map.
Qed.

(** X6.  In an output directory whose [book.toml] is not a directory,
    [GenerateBookToml] writes [book.toml] and changes nothing else: the
    title and the description are the name of the directory with every
    underscore and hyphen turned into a space (so the title has neither,
    and has the length of the name), [src] is the name as it is, and
    nothing is logged. *)
Theorem GenerateBookToml_writes (outputDir : path) (st : state) entries :
  lookup (fs st) outputDir = Some (Dir entries) ->
  (forall es, lookup (fs st) (outputDir ++ ["book.toml" : str]) <> Some (Dir es)) ->
  exists n' title,
    GenerateBookToml outputDir st = (State n' (log st), None)
    /\ lookup n' (outputDir ++ ["book.toml" : str])
       = Some (File (bookTomlContent title (baseName outputDir)))
    /\ title = ReplaceAll (ReplaceAll (baseName outputDir) "_" " ") "-" " "
    /\ ("_"%char ∉ title) /\ ("-"%char ∉ title)
    /\ length title = length (baseName outputDir)
    /\ forall q, diverge (outputDir ++ ["book.toml" : str]) q ->
                 lookup n' q = lookup (fs st) q.
Proof.
  intros Hdir Hfile.
  destruct (WriteFile_new_file (fs st) outputDir "book.toml"
              (bookTomlContent (bookTitle (baseName outputDir)) (baseName outputDir))
              entries Hdir Hfile) as (n' & Hwrite & Hnew & _ & Hframe).
  exists n', (bookTitle (baseName outputDir)).
  destruct (bookTitle_plain (baseName outputDir)) as (H1 & H2 & H3).
  unfold GenerateBookToml. cbv zeta. rewrite Hwrite. by repeat split.
Qed.

Lemma GenerateBookToml_writes_witness :
  exists n' title,
    GenerateBookToml ["my-book_converted" : str]
      (State (Dir [("my-book_converted" : str, sampleTree)]) [])
    = (State n' [], None)
    /\ lookup n' ["my-book_converted" : str; "book.toml" : str]
       = Some (File (bookTomlContent title "my-book_converted"))
    /\ title = ReplaceAll (ReplaceAll ("my-book_converted" : str) "_" " ") "-" " "
    /\ ("_"%char ∉ title) /\ ("-"%char ∉ title)
    /\ length title = length ("my-book_converted" : str)
    /\ forall q, diverge ["my-book_converted" : str; "book.toml" : str] q ->
                 lookup n' q = lookup (Dir [("my-book_converted" : str, sampleTree)]) q.
Proof.
  apply (GenerateBookToml_writes ["my-book_converted" : str]
           (State (Dir [("my-book_converted" : str, sampleTree)]) [])
           (match sampleTree with Dir es => es | File _ => [] end)).
  - reflexivity.
  - intros es. vm_compute. discriminate.
Defined.

(** *** The outline next to the generated files *)

Lemma hasIntroFile_frame (n n' : node) (dir : path) (x : str) :
  x ∉ ["index.html" : str; "README.md" : str; "readme.md" : str] ->
  (forall q, diverge (dir ++ [x]) q -> lookup n' q = lookup n q) ->
  hasIntroFile n' dir = hasIntroFile n dir.
Proof.
  intros Hx Hframe. unfold hasIntroFile.
  assert (Hfile : forall file : str,
            file ∈ ["index.html" : str; "README.md" : str; "readme.md" : str] ->
            lookup n' (dir ++ [file]) = lookup n (dir ++ [file])).
  { intros file Hfile. apply Hframe, siblings_diverge. by intros ->. }
  cbn [existsb]. rewrite !Hfile; [done|..].
  - apply elem_of_cons. right. apply elem_of_cons. right. by left.
  - apply elem_of_cons. right. by left.
  - by left.
Qed.

(** The content of the outline does not depend on a file that the walk
    passes over and that is no introduction. *)
Lemma summaryContent_put_skipped (RenamePrefix rootName : str) (n n' : node)
    (dir : path) (x c : str) entries :
  skippedName RenamePrefix x = true ->
  x ∉ ["index.html" : str; "README.md" : str; "readme.md" : str] ->
  (forall es, find x entries <> Some (Dir es)) ->
  (forall q, diverge (dir ++ [x]) q -> lookup n' q = lookup n q) ->
  summaryContent RenamePrefix rootName n' dir (Dir (put x (File c) entries))
  = summaryContent RenamePrefix rootName n dir (Dir entries).
Proof.
  intros Hskip Hx Hfind Hframe. unfold summaryContent. cbv zeta.
  rewrite BuildDirectoryTreeAfterRename_put_skipped by done.
  by rewrite (hasIntroFile_frame n n' dir x).
Qed.

Lemma GenerateSummaryMd_result (RenamePrefix rootName : str) (outputDir : path)
    (st : state) entries :
  lookup (fs st) outputDir = Some (Dir entries) ->
  (forall es, lookup (fs st) (outputDir ++ ["SUMMARY.md" : str]) <> Some (Dir es)) ->
  let content :=
    summaryContent RenamePrefix rootName (fs st) outputDir (Dir entries) in
  exists n',
    GenerateSummaryMd RenamePrefix rootName outputDir st = (State n' (log st), None)
    /\ lookup n' (outputDir ++ ["SUMMARY.md" : str]) = Some (File content)
    /\ lookup n' outputDir = Some (Dir (put "SUMMARY.md" (File content) entries))
    /\ forall q, diverge (outputDir ++ ["SUMMARY.md" : str]) q ->
                 lookup n' q = lookup (fs st) q.
Proof.
  intros Hdir Hfile content.
  destruct (WriteFile_new_file (fs st) outputDir "SUMMARY.md" content entries
              Hdir Hfile) as (n' & Hwrite & Hnew & Hdir' & Hframe).
  exists n'. unfold GenerateSummaryMd. rewrite Hdir. fold content.
  by rewrite Hwrite.
Qed.

Lemma not_intro_name (x : str) :
  x = "book.toml" \/ x = "SUMMARY.md" ->
  x ∉ ["index.html" : str; "README.md" : str; "readme.md" : str].
Proof.
  intros [->| ->] H; repeat (apply elem_of_cons in H as [H|H]; [done|]);
    by apply elem_of_nil in H.
Qed.

(** X7.  In an output directory in which neither [book.toml] nor
    [SUMMARY.md] is a directory, [GenerateMdBookFiles] writes the two
    files, changes nothing else and logs nothing; the outline it writes is
    the outline of the directory as it was before: the [book.toml] written
    first leaves no trace in it. *)
Theorem GenerateMdBookFiles_writes (RenamePrefix : str) (outputDir : path)
    (st : state) entries :
  lookup (fs st) outputDir = Some (Dir entries) ->
  (forall es, lookup (fs st) (outputDir ++ ["book.toml" : str]) <> Some (Dir es)) ->
  (forall es, lookup (fs st) (outputDir ++ ["SUMMARY.md" : str]) <> Some (Dir es)) ->
  exists n',
    GenerateMdBookFiles RenamePrefix outputDir st = (State n' (log st), None)
    /\ lookup n' (outputDir ++ ["book.toml" : str])
       = Some (File (bookTomlContent (bookTitle (baseName outputDir))
                       (baseName outputDir)))
    /\ lookup n' (outputDir ++ ["SUMMARY.md" : str])
       = Some (File (summaryContent RenamePrefix (baseName outputDir) (fs st)
                       outputDir (Dir entries)))
    /\ forall q, diverge (outputDir ++ ["book.toml" : str]) q ->
                 diverge (outputDir ++ ["SUMMARY.md" : str]) q ->
                 lookup n' q = lookup (fs st) q.
Proof.
  intros Hdir Hbook Hsummary.
  set (toml := bookTomlContent (bookTitle (baseName outputDir)) (baseName outputDir)).
  destruct (WriteFile_new_file (fs st) outputDir "book.toml" toml entries Hdir Hbook)
    as (n1 & Hwrite1 & Hnew1 & Hdir1 & Hframe1).
  assert (Hsiblings : diverge (outputDir ++ ["book.toml" : str])
                        (outputDir ++ ["SUMMARY.md" : str]))
    by by apply siblings_diverge.
  assert (Hsummary1 : forall es,
            lookup n1 (outputDir ++ ["SUMMARY.md" : str]) <> Some (Dir es)).
  { intros es. by rewrite Hframe1. }
  destruct (GenerateSummaryMd_result RenamePrefix (baseName outputDir) outputDir
              (State n1 (log st)) _ Hdir1 Hsummary1)
    as (n2 & Hgen & Hnew2 & _ & Hframe2).
  cbn [fs log] in *.
  exists n2. split; [|split; [|split]].
  - unfold GenerateMdBookFiles, GenerateBookToml. cbv zeta. fold toml.
    rewrite Hwrite1. unfold setFs. by rewrite Hgen.
  - rewrite Hframe2; [done|by apply diverge_sym].
  - rewrite Hnew2. do 2 f_equal.
    apply summaryContent_put_skipped; [done|by apply not_intro_name; left| |done].
    intros es. rewrite <- (lookup_snoc_dir _ _ _ _ Hdir). apply Hbook.
  - intros q Hq1 Hq2. by rewrite Hframe2, Hframe1.
Qed.

Lemma GenerateMdBookFiles_writes_witness :
  exists n',
    GenerateMdBookFiles "_" [] (State sampleTree []) = (State n' [], None)
    /\ lookup n' ["book.toml" : str]
       = Some (File (bookTomlContent (bookTitle "/") "/"))
    /\ lookup n' ["SUMMARY.md" : str]
       = Some (File (summaryContent "_" "/" sampleTree [] sampleTree))
    /\ forall q, diverge ["book.toml" : str] q -> diverge ["SUMMARY.md" : str] q ->
                 lookup n' q = lookup sampleTree q.
Proof.
  apply (GenerateMdBookFiles_writes "_" [] (State sampleTree [])
           (match sampleTree with Dir es => es | File _ => [] end)).
  - reflexivity.
  - intros es. vm_compute. discriminate.
  - intros es. vm_compute. discriminate.
Defined.

(** X8.  [GenerateMdBookFiles] does not undo what it has written: when
    [book.toml] is a directory nothing is written and the error of the
    first step is returned; when only [SUMMARY.md] is a directory, the
    error of the second step is returned with [book.toml] written and
    [SUMMARY.md] as it was. *)
Theorem GenerateMdBookFiles_errors (RenamePrefix : str) (outputDir : path)
    (st : state) entries :
  lookup (fs st) outputDir = Some (Dir entries) ->
  (forall es, lookup (fs st) (outputDir ++ ["book.toml" : str]) = Some (Dir es) ->
     GenerateMdBookFiles RenamePrefix outputDir st
     = (st, Some (BookTomlFailed EISDIR)))
  /\ ((forall es, lookup (fs st) (outputDir ++ ["book.toml" : str]) <> Some (Dir es)) ->
      forall es, lookup (fs st) (outputDir ++ ["SUMMARY.md" : str]) = Some (Dir es) ->
      exists n',
        GenerateMdBookFiles RenamePrefix outputDir st
        = (State n' (log st), Some (SummaryFailed EISDIR))
        /\ lookup n' (outputDir ++ ["book.toml" : str])
           = Some (File (bookTomlContent (bookTitle (baseName outputDir))
                           (baseName outputDir)))
        /\ lookup n' (outputDir ++ ["SUMMARY.md" : str]) = Some (Dir es)).
Proof.
  intros Hdir. split.
  - intros es Hbook. unfold GenerateMdBookFiles, GenerateBookToml, WriteFile.
    cbv zeta. by rewrite Hbook.
  - intros Hbook es Hsummary.
    set (toml := bookTomlContent (bookTitle (baseName outputDir)) (baseName outputDir)).
    destruct (WriteFile_new_file (fs st) outputDir "book.toml" toml entries Hdir Hbook)
      as (n1 & Hwrite1 & Hnew1 & Hdir1 & Hframe1).
    assert (Hsummary1 : lookup n1 (outputDir ++ ["SUMMARY.md" : str]) = Some (Dir es)).
    { rewrite Hframe1; [done|by apply siblings_diverge]. }
    exists n1. split; [|done].
    unfold GenerateMdBookFiles, GenerateBookToml. cbv zeta. fold toml.
    rewrite Hwrite1. unfold GenerateSummaryMd, setFs, WriteFile. cbn [fs log].
    by rewrite Hdir1, Hsummary1.
Qed.

Definition blockedTree : node :=
  Dir [("SUMMARY.md" : str, Dir []); ("page.md" : str, File "page")].

Lemma GenerateMdBookFiles_errors_witness :
  (forall es, lookup blockedTree ["book.toml" : str] = Some (Dir es) ->
     GenerateMdBookFiles "_" [] (State blockedTree [])
     = (State blockedTree [], Some (BookTomlFailed EISDIR)))
  /\ ((forall es, lookup blockedTree ["book.toml" : str] <> Some (Dir es)) ->
      forall es, lookup blockedTree ["SUMMARY.md" : str] = Some (Dir es) ->
      exists n',
        GenerateMdBookFiles "_" [] (State blockedTree [])
        = (State n' [], Some (SummaryFailed EISDIR))
        /\ lookup n' ["book.toml" : str]
           = Some (File (bookTomlContent (bookTitle "/") "/"))
        /\ lookup n' ["SUMMARY.md" : str] = Some (Dir es)).
Proof.
  apply (GenerateMdBookFiles_errors "_" [] (State blockedTree [])
           (match blockedTree with Dir es => es | File _ => [] end)).
  reflexivity.
Defined.

(** X9.  Generating the outline again changes nothing: after a run of
    [GenerateSummaryMd] that returns no error, a second run writes the same
    [SUMMARY.md] and leaves the tree and the log as they are.  The outline
    does not list itself. *)
Theorem GenerateSummaryMd_idempotent (RenamePrefix rootName : str)
    (outputDir : path) (st st1 : state) :
  GenerateSummaryMd RenamePrefix rootName outputDir st = (st1, None) ->
  GenerateSummaryMd RenamePrefix rootName outputDir st1 = (st1, None).
Proof.
  intros Hrun. unfold GenerateSummaryMd in Hrun.
  destruct (lookup (fs st) outputDir) as [r|] eqn:Hdir; [|done].
  set (content := summaryContent RenamePrefix rootName (fs st) outputDir r) in Hrun.
  destruct (WriteFile (fs st) (outputDir ++ ["SUMMARY.md" : str]) content)
    as [n1|err] eqn:Hwrite; [|done].
  injection Hrun as <-. unfold WriteFile in Hwrite.
  assert (Hnotdir : forall es,
            lookup (fs st) (outputDir ++ ["SUMMARY.md" : str]) <> Some (Dir es)).
  { intros es Hes. by rewrite Hes in Hwrite. }
  assert (Hplace : place (fs st) (outputDir ++ ["SUMMARY.md" : str]) (File content)
                   = Some n1).
  { destruct (lookup (fs st) (outputDir ++ ["SUMMARY.md" : str])) as [[?|?]|];
      destruct (place (fs st) _ _); by simplify_eq. }
  destruct (place_lookup_above _ _ outputDir "SUMMARY.md" [] _ Hplace)
    as (entries & entries1 & Hdir0 & _).
  rewrite Hdir in Hdir0. injection Hdir0 as ->.
  pose proof (place_snoc_lookup _ _ _ _ _ _ Hdir Hplace) as Hdir1.
  assert (Hnew : lookup n1 (outputDir ++ ["SUMMARY.md" : str]) = Some (File content)).
  { rewrite <- (app_nil_r (outputDir ++ _)).
    by rewrite (place_lookup_under _ _ _ [] _ Hplace). }
  unfold GenerateSummaryMd, setFs. cbn [fs log]. rewrite Hdir1.
  rewrite (summaryContent_put_skipped _ _ (fs st)); [|done| | |].
  - fold content. unfold WriteFile. rewrite Hnew.
    by rewrite (place_idempotent _ _ _ _ Hplace).
  - by apply not_intro_name; right.
  - intros es. rewrite <- (lookup_snoc_dir _ _ _ _ Hdir). apply Hnotdir.
  - intros q Hq. by apply (place_lookup_diverge _ _ _ _ _ Hplace).
Qed.

Lemma GenerateSummaryMd_idempotent_witness :
  let st1 := (GenerateSummaryMd "_" "out" [] (State sampleTree [])).1 in
  GenerateSummaryMd "_" "out" [] st1 = (st1, None).
Proof.
  intros st1.
  apply (GenerateSummaryMd_idempotent "_" "out" [] (State sampleTree []) st1).
  reflexivity.
Defined.

Lemma hasIntroFile_false (n : node) (dir : path) :
  (forall file : str,
     file ∈ ["index.html" : str; "README.md" : str; "readme.md" : str] ->
     lookup n (dir ++ [file]) = None) ->
  hasIntroFile n dir = false.
Proof.
  intros H. unfold hasIntroFile. cbn [existsb].
  rewrite !H; [done|..].
  - apply elem_of_cons. right. apply elem_of_cons. right. by left.
  - apply elem_of_cons. right. by left.
  - by left.
Qed.

(** X10.  When none of [index.html], [README.md] and [readme.md] exists
    in the output directory, the outline has no introduction: after the
    line [# Summary] and the empty line come the entries of the tree.  A
    file such as [Readme.md] or [index.htm] is no introduction. *)
Theorem GenerateSummaryMd_no_introduction (RenamePrefix rootName : str)
    (outputDir : path) (st : state) entries :
  lookup (fs st) outputDir = Some (Dir entries) ->
  (forall file : str,
     file ∈ ["index.html" : str; "README.md" : str; "readme.md" : str] ->
     lookup (fs st) (outputDir ++ [file]) = None) ->
  (forall es, lookup (fs st) (outputDir ++ ["SUMMARY.md" : str]) <> Some (Dir es)) ->
  exists n',
    GenerateSummaryMd RenamePrefix rootName outputDir st = (State n' (log st), None)
    /\ lookup n' (outputDir ++ ["SUMMARY.md" : str])
       = Some (File (("# Summary" ++ [newline; newline])
                     ++ writeSummaryEntries
                          (Children (BuildDirectoryTreeAfterRename
                                       RenamePrefix rootName (Dir entries))) 0)).
Proof.
  intros Hdir Hnone Hsummary.
  destruct (GenerateSummaryMd_result RenamePrefix rootName outputDir st entries
              Hdir Hsummary) as (n' & Hgen & Hnew & _).
  exists n'. split; [done|]. rewrite Hnew. unfold summaryContent. cbv zeta.
  by rewrite (hasIntroFile_false _ _ Hnone).
Qed.

Definition noIntroTree : node :=
  Dir [("Readme.md" : str, File "read me");
       ("index.htm" : str, File "<p>");
       ("page.md" : str, File "page")].

Lemma GenerateSummaryMd_no_introduction_witness :
  exists n',
    GenerateSummaryMd "_" "out" [] (State noIntroTree []) = (State n' [], None)
    /\ lookup n' ["SUMMARY.md" : str]
       = Some (File (("# Summary" ++ [newline; newline])
                     ++ writeSummaryEntries
                          (Children (BuildDirectoryTreeAfterRename "_" "out"
                                       noIntroTree)) 0)).
Proof.
  apply (GenerateSummaryMd_no_introduction "_" "out" [] (State noIntroTree [])
           (match noIntroTree with Dir es => es | File _ => [] end)).
  - reflexivity.
  - intros file H. repeat (apply elem_of_cons in H as [->|H]; [reflexivity|]).
    by apply elem_of_nil in H.
  - intros es. vm_compute. discriminate.
Defined.

(** ** The conversion of the documents *)

(** The lines [ConvertSingleHtmlFile] logs. *)
Inductive convertmsg :=
| Converting (htmlPath : path)
| ConvertedMissing (mdPath : path)
| ConvertedTo (htmlPath mdPath : path).

(** The errors of the conversion, each around the error of a step; the
    converter gives no detail. *)
Inductive convertError :=
| WalkFailed (err : error)
| ReadFailed (err : error)
| ConvertFailed
| MkdirFailed (err : error)
| WriteFailed (err : error).

(** The output tree and the log of the conversion. *)
Record convState := ConvState { cfs : node; clog : list convertmsg }.

(** [os.ReadFile]. *)
Definition ReadFile (n : node) (p : path) : str + error :=
  match lookup n p with
  | Some (File data) => inl data
  | Some (Dir _) => inr EISDIR
  | None => inr (missingParent n p)
  end.

(** The path of the converted document: the two trims and the suffix
    work on the last element, the only place the path can end in. *)
Definition mdPathOf (htmlPath : path) : path :=
  removelast htmlPath ++ [mdPath (List.last htmlPath [])].

(** The calls of a callback whose errors are of type [E], until one
    returns an error. *)
Fixpoint visitWith {S E : Type} (fn : path -> bool -> S -> S * option E)
    (entries : list (path * bool)) (s : S) : S * option E :=
  match entries with
  | [] => (s, None)
  | (p, isdir) :: entries' =>
      match fn p isdir s with
      | (s', None) => visitWith fn entries' s'
      | (s', Some err) => (s', Some err)
      end
  end.

Section Conversion.

(** [converter.ConvertString] of the converter [md.NewConverter] makes:
    the text in Markdown, or no text when it fails. *)
Variable ConvertString : str -> option str.

(** [ConvertSingleHtmlFile]. *)
Definition ConvertSingleHtmlFile (htmlPath : path) (st : convState)
  : convState * option convertError :=
  let st := ConvState (cfs st) (clog st ++ [Converting htmlPath]) in
  match ReadFile (cfs st) htmlPath with
  | inr err => (st, Some (ReadFailed err))
  | inl htmlContent =>
      match ConvertString htmlContent with
      | None => (st, Some ConvertFailed)
      | Some markdownContent =>
          let markdownContent := ConvertHtmlLinksToMd markdownContent in
          let mdPath := mdPathOf htmlPath in
          let mdDir := removelast mdPath in
          match MkdirAll (cfs st) mdDir with
          | None => (st, Some (MkdirFailed ENOTDIR))
          | Some n1 =>
              match WriteFile n1 mdPath markdownContent with
              | inr err => (ConvState n1 (clog st), Some (WriteFailed err))
              | inl n2 =>
                  match lookup n2 mdPath with
                  | None =>
                      (ConvState n2 (clog st ++ [ConvertedMissing mdPath]), None)
                  | Some _ =>
                      (ConvState n2 (clog st ++ [ConvertedTo htmlPath mdPath]), None)
                  end
              end
          end
      end
  end.

(** The callback of the walk of [ProcessHtmlFiles]. *)
Definition processEntry (p : path) (isdir : bool) (st : convState)
  : convState * option convertError :=
  if negb isdir && HasSuffix (ToLower (Join p "/")) ".html"
  then ConvertSingleHtmlFile p st
  else (st, None).

(** [ProcessHtmlFiles].  The callback writes files only, next to files
    the walk has listed already, and none that ends in [.html]: the walk
    visits the entries the tree has at the call. *)
Definition ProcessHtmlFiles (dir : path) (st : convState)
  : convState * option convertError :=
  match lookup (cfs st) dir with
  | None => (st, Some (WalkFailed (missingParent (cfs st) dir)))
  | Some r => visitWith processEntry (walk dir r) st
  end.

End Conversion.

(** *** One document *)

Lemma MkdirAll_existing (n : node) (p : path) entries :
  lookup n p = Some (Dir entries) ->
  exists n',
    MkdirAll n p = Some n'
    /\ lookup n' p = Some (Dir entries)
    /\ forall q, ~ q `prefix_of` p -> lookup n' q = lookup n q.
Proof.
  intros Hp.
  assert (Hmk : exists n', MkdirAll n p = Some n' /\ lookup n' p = Some (Dir entries)).
  { revert n Hp. induction p as [|x p IH]; intros n Hp.
    - cbn in Hp. injection Hp as ->. by exists (Dir entries).
    - destruct n as [data|es0]; [done|]. cbn [lookup] in Hp.
      destruct (find x es0) as [c|] eqn:Hfind; [|done].
      destruct (IH c Hp) as (c' & Hc' & Hlook).
      exists (Dir (put x c' es0)).
      change (MkdirAll (Dir es0) (x :: p))
        with (match MkdirAll (default (Dir []) (find x es0)) p with
              | Some c' => Some (Dir (put x c' es0))
              | None => None
              end).
      rewrite Hfind. cbn [default from_option id]. rewrite Hc'. cbn [lookup].
      by rewrite find_put_eq. }
  destruct Hmk as (n' & Hmk & Hlook). exists n'. split; [done|]. split; [done|].
  intros q Hq. by apply (MkdirAll_lookup_other _ _ _ _ Hmk).
Qed.

Lemma html_name_not_md (name : str) :
  HasSuffix (ToLower name) ".html" = true -> HasSuffix name ".md" = false.
Proof.
  intros Hhtml. destruct (HasSuffix name ".md") eqn:Hmd; [|done].
  apply HasSuffix_spec in Hmd as [r ->]. rewrite ToLower_app in Hhtml.
  change (ToLower ".md") with (".m" ++ ["d"%char]) in Hhtml.
  change (list_ascii_of_string ".html") with (".htm" ++ ["l"%char]) in Hhtml.
  rewrite app_assoc in Hhtml. by rewrite HasSuffix_last_ne in Hhtml.
Qed.

(** X11.  For a document that can be read and that the converter
    converts, [ConvertSingleHtmlFile] writes the converted text, with its
    links rewritten, next to the document under the name with the
    extension swapped; it logs the start and the end, changes nothing else,
    and leaves the document itself as it is. *)
Theorem ConvertSingleHtmlFile_writes (ConvertString : str -> option str)
    (dir : path) (name : str) (st : convState) (data markdown : str) :
  let htmlPath := dir ++ [name] in
  let mdFile := dir ++ [mdPath name] in
  lookup (cfs st) htmlPath = Some (File data) ->
  ConvertString data = Some markdown ->
  (forall es, lookup (cfs st) mdFile <> Some (Dir es)) ->
  exists n',
    ConvertSingleHtmlFile ConvertString htmlPath st
    = (ConvState n' (clog st ++ [Converting htmlPath; ConvertedTo htmlPath mdFile]),
       None)
    /\ lookup n' mdFile = Some (File (ConvertHtmlLinksToMd markdown))
    /\ (forall q, diverge mdFile q -> lookup n' q = lookup (cfs st) q)
    /\ (HasSuffix (ToLower name) ".html" = true ->
        lookup n' htmlPath = Some (File data)).
Proof.
  intros htmlPath mdFile Hread Hconv Hmd.
  destruct (lookup_snoc_Some (cfs st) dir name) as [entries Hdir];
    [by exists (File data)|].
  destruct (MkdirAll_existing _ _ _ Hdir) as (n1 & Hmk & Hdir1 & Hframe1).
  assert (Hpre : forall q, diverge mdFile q -> ~ q `prefix_of` dir).
  { intros q Hq [r Hr]. apply (diverge_not_prefix _ _ Hq).
    exists (r ++ [mdPath name]). unfold mdFile. rewrite Hr. by rewrite <- app_assoc. }
  assert (Hmd1 : forall es, lookup n1 mdFile <> Some (Dir es)).
  { intros es. rewrite Hframe1; [apply Hmd|].
    intros [r Hr]. apply (f_equal length) in Hr. unfold mdFile in Hr.
    rewrite !length_app in Hr. simpl in Hr. lia. }
  destruct (WriteFile_new_file n1 dir (mdPath name) (ConvertHtmlLinksToMd markdown)
              entries Hdir1 Hmd1) as (n2 & Hwrite & Hnew & _ & Hframe2).
  fold mdFile in Hwrite, Hnew, Hframe2.
  assert (Hframe : forall q, diverge mdFile q -> lookup n2 q = lookup (cfs st) q).
  { intros q Hq. rewrite Hframe2 by done. by apply Hframe1, Hpre. }
  exists n2. split; [|split; [done|split; [done|]]].
  - unfold ConvertSingleHtmlFile, ReadFile, mdPathOf. cbn [cfs clog].
    rewrite Hread, Hconv.
    assert (Hmdp : removelast htmlPath ++ [mdPath (List.last htmlPath [])] = mdFile).
    { unfold htmlPath. by rewrite removelast_snoc, last_snoc'. }
    rewrite Hmdp. unfold mdFile at 1.
    rewrite removelast_snoc, Hmk, Hwrite, Hnew. by rewrite <- app_assoc.
  - intros Hhtml. rewrite Hframe; [done|].
    apply diverge_sym, siblings_diverge. intros Heq.
    apply html_name_not_md in Hhtml. destruct (mdPath_ends_md name) as [r Hr].
    by rewrite Heq, Hr, HasSuffix_app in Hhtml.
Qed.

Lemma ConvertSingleHtmlFile_writes_witness :
  exists n',
    ConvertSingleHtmlFile (fun html => Some ("[up](Index.html) " ++ html))
      ["Sub" : str; "Index.html" : str] (ConvState originalsTree [])
    = (ConvState n'
         [Converting ["Sub" : str; "Index.html" : str];
          ConvertedTo ["Sub" : str; "Index.html" : str]
            ["Sub" : str; "Index.md" : str]],
       None)
    /\ lookup n' ["Sub" : str; "Index.md" : str]
       = Some (File (ConvertHtmlLinksToMd "[up](Index.html) <p>index</p>"))
    /\ (forall q, diverge ["Sub" : str; "Index.md" : str] q ->
                  lookup n' q = lookup originalsTree q)
    /\ (HasSuffix (ToLower "Index.html") ".html" = true ->
        lookup n' ["Sub" : str; "Index.html" : str] = Some (File "<p>index</p>")).
Proof.
  apply (ConvertSingleHtmlFile_writes (fun html => Some ("[up](Index.html) " ++ html))
           ["Sub" : str] "Index.html" (ConvState originalsTree [])
           "<p>index</p>" "[up](Index.html) <p>index</p>").
  - reflexivity.
  - reflexivity.
  - intros es. vm_compute. discriminate.
Defined.

(** *** All documents *)

Lemma visitWith_app {S E : Type} (fn : path -> bool -> S -> S * option E)
    (l1 l2 : list (path * bool)) (s : S) :
  visitWith fn (l1 ++ l2) s
  = match visitWith fn l1 s with
    | (s', None) => visitWith fn l2 s'
    | (s', Some err) => (s', Some err)
    end.
Proof.
  revert s. induction l1 as [|[p d] l1 IH]; intros s; [done|]. simpl.
  destruct (fn p d s) as [s' [err|]]; [done|]. apply IH.
Qed.

Lemma lookup_above_Dir (n : node) (p r : path) (v : node) :
  r <> [] -> lookup n (p ++ r) = Some v -> exists es, lookup n p = Some (Dir es).
Proof.
  intros Hr. rewrite lookup_app. destruct (lookup n p) as [[d|es]|]; [|eauto|done].
  by destruct r.
Qed.

(** A file written: the files at other paths and the directories stay. *)
Lemma WriteFile_keeps_files (n n' : node) (p : path) (data : str) :
  WriteFile n p data = inl n' ->
  lookup n' p = Some (File data)
  /\ (forall m c, lookup n m = Some (File c) -> m <> p -> lookup n' m = Some (File c))
  /\ (forall m c, lookup n' m = Some (File c) -> m <> p -> lookup n m = Some (File c))
  /\ (forall m es, lookup n m = Some (Dir es) -> exists es', lookup n' m = Some (Dir es')).
Proof.
  unfold WriteFile. intros H.
  assert (Hnotdir : forall es, lookup n p <> Some (Dir es)).
  { intros es Hes. by rewrite Hes in H. }
  assert (Hplace : place n p (File data) = Some n').
  { destruct (lookup n p) as [[?|?]|]; destruct (place n p _); by simplify_eq. }
  clear H.
  assert (Hnew : lookup n' p = Some (File data)).
  { rewrite <- (app_nil_r p). by rewrite (place_lookup_under _ _ _ [] _ Hplace). }
  split; [done|]. split; [|split].
  - intros m c Hm Hne. destruct (path_cases p m) as [[r ->]|[(x & r & ->)|Hd]].
    + destruct r as [|y r]; [by rewrite app_nil_r in Hne|].
      destruct (lookup_above_Dir n p (y :: r) _ ltac:(done) Hm) as [es Hes].
      by destruct (Hnotdir es).
    + destruct (place_lookup_above _ _ _ _ _ _ Hplace) as (es & es' & Hes & _).
      by rewrite Hes in Hm.
    + by rewrite (place_lookup_diverge _ _ _ _ _ Hplace).
  - intros m c Hm Hne. destruct (path_cases p m) as [[r ->]|[(x & r & ->)|Hd]].
    + destruct r as [|y r]; [by rewrite app_nil_r in Hne|].
      destruct (lookup_above_Dir n' p (y :: r) _ ltac:(done) Hm) as [es Hes].
      by rewrite Hes in Hnew.
    + destruct (place_lookup_above _ _ _ _ _ _ Hplace) as (es & es' & _ & Hes).
      by rewrite Hes in Hm.
    + by rewrite <- (place_lookup_diverge _ _ _ _ _ Hplace).
  - intros m es Hm. destruct (path_cases p m) as [[r ->]|[(x & r & ->)|Hd]].
    + destruct r as [|y r].
      * rewrite app_nil_r in Hm. by destruct (Hnotdir es).
      * destruct (lookup_above_Dir n p (y :: r) _ ltac:(done) Hm) as [es' Hes].
        by destruct (Hnotdir es').
    + destruct (place_lookup_above _ _ _ _ _ _ Hplace) as (es1 & es' & _ & Hes).
      eauto.
    + rewrite (place_lookup_diverge _ _ _ _ _ Hplace) by done. eauto.
Qed.

(** Directories made: the files are the same files. *)
Lemma MkdirAll_same_files (n n' : node) (p : path) :
  MkdirAll n p = Some n' ->
  forall m c, lookup n m = Some (File c) <-> lookup n' m = Some (File c).
Proof.
  intros Hmk m c. split.
  - intros Hm. pose proof (MkdirAll_keeps _ _ _ Hmk m) as Hk. by rewrite Hm in Hk.
  - intros Hm. destruct (decide (m `prefix_of` p)) as [[r ->]|Hpre].
    + destruct (MkdirAll_lookup _ _ _ Hmk) as [es Hes].
      destruct r as [|y r].
      * rewrite app_nil_r in Hes. by rewrite Hes in Hm.
      * destruct (lookup_above_Dir n' m (y :: r) _ ltac:(done) Hes) as [es' Hes'].
        by rewrite Hes' in Hm.
    + by rewrite <- (MkdirAll_lookup_other _ _ _ _ Hmk).
Qed.

Section ConversionFacts.

Variable ConvertString : str -> option str.

(** What one call of [ConvertSingleHtmlFile] does to the tree, whatever
    it returns. *)
Lemma ConvertSingleHtmlFile_frame (p : path) (st st' : convState)
    (res : option convertError) :
  ConvertSingleHtmlFile ConvertString p st = (st', res) ->
  (forall m c, lookup (cfs st) m = Some (File c) -> m <> mdPathOf p ->
               lookup (cfs st') m = Some (File c))
  /\ (forall m c, lookup (cfs st') m = Some (File c) -> m <> mdPathOf p ->
                  lookup (cfs st) m = Some (File c))
  /\ (forall m es, lookup (cfs st) m = Some (Dir es) ->
                   exists es', lookup (cfs st') m = Some (Dir es'))
  /\ (res = None ->
      exists html markdown,
        lookup (cfs st) p = Some (File html)
        /\ ConvertString html = Some markdown
        /\ lookup (cfs st') (mdPathOf p)
           = Some (File (ConvertHtmlLinksToMd markdown))).
Proof.
  unfold ConvertSingleHtmlFile, ReadFile. cbn [cfs clog]. intros H.
  assert (Hsame : forall n, (forall m c, lookup n m = Some (File c) -> m <> mdPathOf p ->
                                lookup n m = Some (File c))
                   /\ (forall m es, lookup n m = Some (Dir es) ->
                                    exists es', lookup n m = Some (Dir es'))) by eauto.
  destruct (lookup (cfs st) p) as [[html|es]|] eqn:Hread.
  2,3: injection H as <- <-; cbn [cfs]; destruct (Hsame (cfs st)); by repeat split.
  destruct (ConvertString html) as [markdown|] eqn:Hconv.
  2: injection H as <- <-; cbn [cfs]; destruct (Hsame (cfs st)); by repeat split.
  destruct (MkdirAll (cfs st) (removelast (mdPathOf p))) as [n1|] eqn:Hmk.
  2: injection H as <- <-; cbn [cfs]; destruct (Hsame (cfs st)); by repeat split.
  pose proof (MkdirAll_same_files _ _ _ Hmk) as Hfiles.
  pose proof (MkdirAll_keeps _ _ _ Hmk) as Hkeep.
  assert (Hdirs : forall m es, lookup (cfs st) m = Some (Dir es) ->
                               exists es', lookup n1 m = Some (Dir es')).
  { intros m es Hm. specialize (Hkeep m). by rewrite Hm in Hkeep. }
  destruct (WriteFile n1 (mdPathOf p) (ConvertHtmlLinksToMd markdown))
    as [n2|err] eqn:Hwrite.
  - apply WriteFile_keeps_files in Hwrite as (Hnew & Hfwd & Hbwd & Hdir2).
    assert (Hfs : cfs st' = n2 /\ res = None).
    { destruct (lookup n2 (mdPathOf p)); by injection H as <- <-. }
    destruct Hfs as [-> ->]. split; [|split; [|split]].
    + intros m c Hm Hne. apply Hfwd; [|done]. by apply Hfiles.
    + intros m c Hm Hne. apply Hfiles. by apply Hbwd.
    + intros m es Hm. destruct (Hdirs m es Hm) as [es' Hes']. by eapply Hdir2.
    + intros _. by exists html, markdown.
  - injection H as <- <-. cbn [cfs]. split; [|split; [|split]].
    + intros m c Hm _. by apply Hfiles.
    + intros m c Hm _. by apply Hfiles.
    + done.
    + done.
Qed.

Lemma md_target_name (p : path) : HasSuffix (List.last (mdPathOf p) []) ".md" = true.
Proof.
  unfold mdPathOf. rewrite last_snoc'.
  destruct (mdPath_ends_md (List.last p [])) as [r ->]. apply HasSuffix_app.
Qed.

Lemma processEntry_frame (p : path) (isdir : bool) (st st' : convState)
    (res : option convertError) :
  processEntry ConvertString p isdir st = (st', res) ->
  (forall m c, HasSuffix (List.last m []) ".md" = false ->
     (lookup (cfs st) m = Some (File c) <-> lookup (cfs st') m = Some (File c)))
  /\ (forall m es, lookup (cfs st) m = Some (Dir es) ->
                   exists es', lookup (cfs st') m = Some (Dir es')).
Proof.
  unfold processEntry. destruct (negb isdir && _).
  - intros (Hfwd & Hbwd & Hdirs & _)%ConvertSingleHtmlFile_frame.
    split; [|done]. intros m c Hm.
    assert (m <> mdPathOf p).
    { intros ->. by rewrite md_target_name in Hm. }
    split; eauto.
  - intros [= <- <-]. split; [done|eauto].
Qed.

Lemma visitWith_frame (entries : list (path * bool)) (st st' : convState)
    (res : option convertError) :
  visitWith (processEntry ConvertString) entries st = (st', res) ->
  (forall m c, HasSuffix (List.last m []) ".md" = false ->
     (lookup (cfs st) m = Some (File c) <-> lookup (cfs st') m = Some (File c)))
  /\ (forall m es, lookup (cfs st) m = Some (Dir es) ->
                   exists es', lookup (cfs st') m = Some (Dir es')).
Proof.
  revert st. induction entries as [|[p isdir] entries IH]; intros st H.
  - injection H as <- <-. split; [done|eauto].
  - cbn [visitWith] in H.
    destruct (processEntry ConvertString p isdir st) as [st1 [err|]] eqn:Hstep.
    + injection H as <- <-. by apply processEntry_frame in Hstep.
    + apply processEntry_frame in Hstep as [Hf1 Hd1].
      apply IH in H as [Hf2 Hd2]. split.
      * intros m c Hm. by rewrite (Hf1 m c Hm), (Hf2 m c Hm).
      * intros m es Hm. destruct (Hd1 m es Hm) as [es1 Hes1]. by eapply Hd2.
Qed.

End ConversionFacts.

(** X12.  Whatever [ProcessHtmlFiles] returns, the only files it has
    written are files whose names end in [.md]: every other file of the
    tree, and so every document it has read, is there with its content as
    before, and every directory is still a directory. *)
Theorem ProcessHtmlFiles_keeps_other_files (ConvertString : str -> option str)
    (dir : path) (st st' : convState) (res : option convertError) :
  ProcessHtmlFiles ConvertString dir st = (st', res) ->
  (forall m c, HasSuffix (List.last m []) ".md" = false ->
     lookup (cfs st) m = Some (File c) -> lookup (cfs st') m = Some (File c))
  /\ (forall m es, lookup (cfs st) m = Some (Dir es) ->
                   exists es', lookup (cfs st') m = Some (Dir es')).
Proof.
  unfold ProcessHtmlFiles. destruct (lookup (cfs st) dir) as [r|].
  - intros [Hfiles Hdirs]%visitWith_frame. split; [|done].
    intros m c Hm. by apply Hfiles.
  - intros [= <- <-]. split; [done|eauto].
Qed.

(** A converter that fails on the documents that mention [fail]. *)
Definition sampleConverter (html : str) : option str :=
  if Contains html "fail" then None else Some ("# " ++ html).

Lemma ProcessHtmlFiles_keeps_other_files_witness :
  let st' := (ProcessHtmlFiles sampleConverter [] (ConvState originalsTree [])).1 in
  (forall m c, HasSuffix (List.last m []) ".md" = false ->
     lookup originalsTree m = Some (File c) -> lookup (cfs st') m = Some (File c))
  /\ (forall m es, lookup originalsTree m = Some (Dir es) ->
                   exists es', lookup (cfs st') m = Some (Dir es')).
Proof.
  intros st'.
  apply (ProcessHtmlFiles_keeps_other_files sampleConverter []
           (ConvState originalsTree []) st'
           (ProcessHtmlFiles sampleConverter [] (ConvState originalsTree [])).2).
  reflexivity.
Defined.

Lemma html_path_not_md (p : path) :
  HasSuffix (ToLower (Join p "/")) ".html" = true ->
  HasSuffix (List.last p []) ".md" = false.
Proof.
  intros Hhtml. destruct (decide (p = [])) as [->|Hne]; [done|].
  destruct (HasSuffix (List.last p []) ".md") eqn:Hmd; [|done].
  apply html_name_not_md in Hhtml.
  destruct (Join_ends_with_last p Hne) as [pre Hjoin].
  apply HasSuffix_spec in Hmd as [r Hr].
  by rewrite Hjoin, Hr, app_assoc, HasSuffix_app in Hhtml.
Qed.

Lemma visitWith_converts (ConvertString : str -> option str)
    (entries : list (path * bool)) (st st' : convState) :
  visitWith (processEntry ConvertString) entries st = (st', None) ->
  forall p,
    (p, false) ∈ entries -> HasSuffix (ToLower (Join p "/")) ".html" = true ->
    exists p' html markdown,
      (p', false) ∈ entries
      /\ HasSuffix (ToLower (Join p' "/")) ".html" = true
      /\ mdPathOf p' = mdPathOf p
      /\ lookup (cfs st) p' = Some (File html)
      /\ ConvertString html = Some markdown
      /\ lookup (cfs st') (mdPathOf p) = Some (File (ConvertHtmlLinksToMd markdown)).
Proof.
  revert st'. induction entries as [|[q isdir] entries IH] using rev_ind;
    intros st' Hrun p Hp Hhtml; [by apply elem_of_nil in Hp|].
  rewrite visitWith_app in Hrun.
  destruct (visitWith (processEntry ConvertString) entries st)
    as [st1 [err|]] eqn:Hbefore; [done|].
  cbn [visitWith] in Hrun.
  destruct (processEntry ConvertString q isdir st1) as [st2 [err|]] eqn:Hstep;
    [done|]. injection Hrun as ->.
  pose proof (visitWith_frame _ _ _ _ _ Hbefore) as [Hfiles _].
  assert (Hearlier : (p, false) ∈ entries ->
            (forall m c, lookup (cfs st1) m = Some (File c) -> m = mdPathOf p ->
                         lookup (cfs st') m = Some (File c)) ->
            exists p' html markdown,
              (p', false) ∈ entries ++ [(q, isdir)]
              /\ HasSuffix (ToLower (Join p' "/")) ".html" = true
              /\ mdPathOf p' = mdPathOf p
              /\ lookup (cfs st) p' = Some (File html)
              /\ ConvertString html = Some markdown
              /\ lookup (cfs st') (mdPathOf p)
                 = Some (File (ConvertHtmlLinksToMd markdown))).
  { intros Hin Hkept.
    destruct (IH st1 eq_refl p Hin Hhtml) as (p' & html & md & H1 & H2 & H3 & H4 & H5 & H6).
    exists p', html, md. repeat split; try done.
    - apply elem_of_app. by left.
    - by apply (Hkept _ _ H6). }
  unfold processEntry in Hstep.
  destruct (negb isdir && HasSuffix (ToLower (Join q "/")) ".html") eqn:Htest.
  - apply andb_true_iff in Htest as [Hfile Hq]. apply negb_true_iff in Hfile as ->.
    apply ConvertSingleHtmlFile_frame in Hstep as (Hfwd & _ & _ & Hdone).
    destruct (Hdone eq_refl) as (html & md & Hread & Hconv & Hnew).
    destruct (decide (mdPathOf p = mdPathOf q)) as [Heq|Hne].
    + exists q, html, md. repeat split; try done.
      * apply elem_of_app. right. by left.
      * apply (Hfiles q html); [by apply html_path_not_md|done].
      * by rewrite Heq.
    + apply Hearlier.
      * apply elem_of_app in Hp as [Hp|Hp]; [done|].
        apply list_elem_of_singleton in Hp. by injection Hp as ->.
      * intros m c Hm ->. by apply Hfwd.
  - injection Hstep as ->. apply Hearlier; [|by intros m c Hm _].
    apply elem_of_app in Hp as [Hp|Hp]; [done|].
    apply list_elem_of_singleton in Hp. injection Hp as -> <-.
    cbn [negb andb] in Htest. by rewrite Hhtml in Htest.
Qed.

(** X13.  After a run of [ProcessHtmlFiles] that returns no error, every
    file of the walk whose path ends in [.html], in any letter case, has
    its converted document: the file at the path with the extension swapped
    holds the text the converter makes of a document of the tree, with the
    links rewritten; that document is one with this converted path, the file
    itself unless a later one shares the path, as [a.html] and [a.md.html]
    do. *)
Theorem ProcessHtmlFiles_converts (ConvertString : str -> option str)
    (dir : path) (st st' : convState) (r : node) :
  lookup (cfs st) dir = Some r ->
  ProcessHtmlFiles ConvertString dir st = (st', None) ->
  forall p,
    (p, false) ∈ walk dir r -> HasSuffix (ToLower (Join p "/")) ".html" = true ->
    exists p' html markdown,
      (p', false) ∈ walk dir r
      /\ HasSuffix (ToLower (Join p' "/")) ".html" = true
      /\ mdPathOf p' = mdPathOf p
      /\ lookup (cfs st) p' = Some (File html)
      /\ ConvertString html = Some markdown
      /\ lookup (cfs st') (mdPathOf p) = Some (File (ConvertHtmlLinksToMd markdown)).
Proof.
  intros Hdir Hrun. unfold ProcessHtmlFiles in Hrun. rewrite Hdir in Hrun.
  by apply visitWith_converts.
Qed.

Lemma ProcessHtmlFiles_converts_witness :
  let st' := (ProcessHtmlFiles sampleConverter [] (ConvState originalsTree [])).1 in
  exists p' html markdown,
    (p', false) ∈ walk [] originalsTree
    /\ HasSuffix (ToLower (Join p' "/")) ".html" = true
    /\ mdPathOf p' = mdPathOf ["Page.HTML" : str]
    /\ lookup originalsTree p' = Some (File html)
    /\ sampleConverter html = Some markdown
    /\ lookup (cfs st') (mdPathOf ["Page.HTML" : str])
       = Some (File (ConvertHtmlLinksToMd markdown)).
Proof.
  intros st'.
  apply (ProcessHtmlFiles_converts sampleConverter [] (ConvState originalsTree [])
           st' originalsTree eq_refl eq_refl ["Page.HTML" : str]).
  - apply list_elem_of_In. simpl. auto.
  - reflexivity.
Defined.

(** ** The originals that are not renamed *)

(** An entry of a walk is the node the tree has at its path. *)
Lemma walk_lookup (p : path) (n : node) (e : path * bool) :
  wellFormed n = true -> e ∈ walk p n ->
  exists q v, e.1 = p ++ q /\ lookup n q = Some v /\ isDir v = e.2.
Proof.
  revert p. induction n as [data|entries IH] using node_ind'; intros p Hwf He.
  - cbn [walk] in He. apply list_elem_of_singleton in He as ->.
    exists [], (File data). by rewrite app_nil_r.
  - rewrite walk_Dir in He. apply elem_of_cons in He as [->|He].
    { exists [], (Dir entries). by rewrite app_nil_r. }
    apply wellFormed_Dir in Hwf as [Hnodup Hwf]. rewrite Forall_forall in IH, Hwf.
    apply list_elem_of_In, in_flat_map in He as ([x c] & Hin & He).
    apply list_elem_of_In in Hin, He. cbn [fst snd] in He.
    destruct (IH _ Hin (p ++ [x]) (Hwf _ Hin) He) as (q & v & Hq & Hv & Hdir).
    exists (x :: q), v. split; [by rewrite Hq, <- app_assoc|]. split; [|done].
    cbn [lookup]. by rewrite (find_elem x c entries).
Qed.

Lemma walk_NoDup (p : path) (n : node) :
  wellFormed n = true -> NoDup (map fst (walk p n)).
Proof.
  revert p. induction n as [data|entries IH] using node_ind'; intros p Hwf.
  - cbn. apply NoDup_singleton.
  - rewrite walk_Dir. cbn [map fst]. apply NoDup_cons. split.
    + intros ([q b] & Hq & Hin)%list_elem_of_fmap. cbn [fst] in Hq. subst q.
      apply list_elem_of_In, in_flat_map in Hin as ([x c] & _ & Hin).
      apply list_elem_of_In, walk_entries_child in Hin as [r Hr]. cbn [fst] in Hr.
      rewrite <- (app_nil_r p) in Hr at 1. by apply app_inv_head in Hr.
    + apply wellFormed_Dir in Hwf as [Hnodup Hwf].
      induction entries as [|[x c] entries IHe]; [constructor|].
      apply Forall_cons in IH as [IHc IH]. apply Forall_cons in Hwf as [Hc Hwf].
      apply NoDup_cons in Hnodup as [Hx Hnodup].
      cbn [flat_map fst snd]. rewrite map_app. apply NoDup_app.
      split; [by apply IHc|]. split; [|by apply IHe].
      intros q ([q1 b1] & Hq1 & Hin1)%list_elem_of_fmap
               ([q2 b2] & Hq2 & Hin2)%list_elem_of_fmap.
      cbn [fst] in Hq1, Hq2. subst q1 q2.
      apply walk_entries_child in Hin1 as [r1 Hr1]. cbn [fst] in Hr1.
      apply list_elem_of_In, in_flat_map in Hin2 as ([y c'] & Hin & Hin2).
      apply list_elem_of_In, walk_entries_child in Hin2 as [r2 Hr2].
      cbn [fst] in Hr2. rewrite Hr1 in Hr2. apply app_inv_head in Hr2.
      injection Hr2 as -> _. apply Hx. apply list_elem_of_fmap.
      exists (y, c'). split; [done|]. by apply list_elem_of_In.
Qed.

(** The test of the walk of [RenameHtmlFiles]. *)
Definition htmlEntry (e : path * bool) : bool :=
  negb e.2 && HasSuffix (ToLower (Join e.1 "/")) ".html".

(** The files [RenameHtmlFiles] collects in the tree [r] at [dir]. *)
Definition htmlFilesOf (dir : path) (r : node) : list path :=
  map fst (List.filter htmlEntry (walk dir r)).

Lemma visit_collectHtml (entries : list (path * bool)) (htmlFiles : list path) :
  visit collectHtml entries htmlFiles
  = (htmlFiles ++ map fst (List.filter htmlEntry entries), None).
Proof.
  revert htmlFiles. induction entries as [|[p isdir] entries IH]; intros acc.
  - by rewrite app_nil_r.
  - cbn [visit List.filter]. unfold collectHtml, htmlEntry. cbn [fst snd].
    destruct (negb isdir && _).
    + rewrite IH. cbn [map fst]. by rewrite <- app_assoc.
    + apply IH.
Qed.

(** The new path of an original. *)
Definition renamedPath (RenamePrefix : str) (htmlPath : path) : path :=
  joinName (removelast htmlPath) (RenamePrefix ++ ToLower (List.last htmlPath [])).

(** A round of the loop leaves the tree as it is or renames the file to
    the new path, which was free. *)
Lemma renameHtmlFile_cases (RenamePrefix : str) (htmlPath : path) (st : state) :
  fs (renameHtmlFile RenamePrefix htmlPath st) = fs st
  \/ (lookup (fs st) (renamedPath RenamePrefix htmlPath) = None
      /\ Rename (fs st) htmlPath (renamedPath RenamePrefix htmlPath)
         = inl (fs (renameHtmlFile RenamePrefix htmlPath st))).
Proof.
  unfold renameHtmlFile, renamedPath. cbv zeta.
  destruct (lookup (fs st) _) eqn:Hnew; [by left|].
  destruct (Rename (fs st) htmlPath _) eqn:Hrename; [by right|by left].
Qed.

(** A file renamed to a free path: it is there, its old path is free, and
    the other files stay. *)
Lemma Rename_file_free (n n' : node) (old new : path) (d : str) :
  lookup n old = Some (File d) ->
  lookup n new = None ->
  Rename n old new = inl n' ->
  lookup n' new = Some (File d)
  /\ lookup n' old = None
  /\ forall m c, lookup n m = Some (File c) -> m <> old ->
                 lookup n' m = Some (File c).
Proof.
  intros Hold Hnew Hrename.
  assert (Hne : old <> new) by (intros ->; congruence).
  apply Rename_inv in Hrename as (v & n1 & Hv & Hrm & Hpl); [|done].
  rewrite Hold in Hv. injection Hv as <-.
  assert (Hgone : lookup n1 old = None).
  { rewrite <- (app_nil_r old). by apply (remove_lookup_under _ _ _ _ Hrm). }
  split; [|split].
  - rewrite <- (app_nil_r new). by rewrite (place_lookup_under _ _ _ _ _ Hpl).
  - destruct (path_cases new old) as [[r ->]|[(x & r & ->)|Hd]].
    + rewrite (place_lookup_under _ _ _ _ _ Hpl).
      destruct r as [|x r]; [by rewrite app_nil_r in Hne|done].
    + destruct (place_lookup_above _ _ _ _ _ _ Hpl) as (es & _ & Hes & _).
      by rewrite Hes in Hgone.
    + by rewrite (place_lookup_diverge _ _ _ _ _ Hpl).
  - intros m c Hm Hmold.
    assert (Hdold : diverge old m).
    { destruct (path_cases old m) as [[r ->]|[(x & r & ->)|Hd]]; [| |done].
      - rewrite lookup_app, Hold in Hm.
        destruct r; [by rewrite app_nil_r in Hmold|done].
      - by rewrite lookup_app, Hm in Hold. }
    assert (Hm1 : lookup n1 m = Some (File c)).
    { by rewrite (remove_lookup_diverge _ _ _ _ Hrm). }
    destruct (path_cases new m) as [[r ->]|[(x & r & ->)|Hd]].
    + by rewrite lookup_app, Hnew in Hm.
    + destruct (place_lookup_above _ _ _ _ _ _ Hpl) as (es & _ & Hes & _).
      by rewrite Hes in Hm1.
    + by rewrite (place_lookup_diverge _ _ _ _ _ Hpl).
Qed.

(** The loop of [RenameHtmlFiles] over files of the tree, each listed
    once: no file is lost or overwritten. *)
Lemma renameHtmlFiles_keeps (RenamePrefix : str) (htmlFiles : list path) :
  NoDup htmlFiles ->
  forall st,
    (forall p, p ∈ htmlFiles -> exists d, lookup (fs st) p = Some (File d)) ->
    let st' :=
      fold_left (fun st htmlPath => renameHtmlFile RenamePrefix htmlPath st)
        htmlFiles st in
    (forall m c, lookup (fs st) m = Some (File c) -> m ∉ htmlFiles ->
                 lookup (fs st') m = Some (File c))
    /\ (forall p d, p ∈ htmlFiles -> lookup (fs st) p = Some (File d) ->
          lookup (fs st') p = Some (File d)
          \/ lookup (fs st') (renamedPath RenamePrefix p) = Some (File d)).
Proof.
  induction 1 as [|p l Hp Hnodup IH]; intros st Hfiles; cbn [fold_left].
  - split; [done|]. by intros p d ?%elem_of_nil.
  - set (st1 := renameHtmlFile RenamePrefix p st).
    destruct (Hfiles p ltac:(by left)) as [d Hd].
    assert (Hstep : (forall m c, lookup (fs st) m = Some (File c) -> m <> p ->
                                 lookup (fs st1) m = Some (File c))
                    /\ (lookup (fs st1) p = Some (File d)
                        \/ (lookup (fs st1) (renamedPath RenamePrefix p)
                              = Some (File d)
                            /\ lookup (fs st) (renamedPath RenamePrefix p) = None))).
    { destruct (renameHtmlFile_cases RenamePrefix p st) as [Hsame|[Hnew Hrename]];
        fold st1 in Hsame || fold st1 in Hrename.
      - rewrite Hsame. split; [done|by left].
      - destruct (Rename_file_free _ _ _ _ _ Hd Hnew Hrename) as (Hy & _ & Hkeep).
        split; [done|by right]. }
    destruct Hstep as [Hkeep Hmoved].
    assert (Hfiles1 : forall q, q ∈ l -> exists c, lookup (fs st1) q = Some (File c)).
    { intros q Hq. destruct (Hfiles q ltac:(by right)) as [c Hc].
      exists c. apply Hkeep; [done|]. by intros ->. }
    destruct (IH st1 Hfiles1) as [IHa IHb]. split.
    + intros m c Hm Hnotin. apply not_elem_of_cons in Hnotin as [Hmp Hml].
      apply IHa; [|done]. by apply Hkeep.
    + intros q c [->|Hq]%elem_of_cons Hc.
      * rewrite Hd in Hc. injection Hc as <-.
        destruct Hmoved as [Hstay|[Hnew Hfree]].
        -- left. by apply IHa.
        -- right. apply IHa; [done|]. intros Hin.
           destruct (Hfiles _ ltac:(by right)) as [c Hc]. by rewrite Hfree in Hc.
      * apply IHb; [done|]. apply Hkeep; [done|]. by intros ->.
Qed.

(** The files the walk collects are files of the tree, each listed
    once. *)
Lemma htmlFilesOf_files (dir : path) (n r : node) :
  lookup n dir = Some r -> wellFormed r = true ->
  NoDup (htmlFilesOf dir r)
  /\ forall p, p ∈ htmlFilesOf dir r -> exists d, lookup n p = Some (File d).
Proof.
  intros Hdir Hwf. split.
  - unfold htmlFilesOf. apply (sublist_NoDup _ (map fst (walk dir r)));
      [by apply walk_NoDup|].
    apply (fmap_sublist fst). induction (walk dir r) as [|e l IH]; [constructor|].
    cbn [List.filter]. destruct (htmlEntry e); by constructor.
  - intros p ([q b] & -> & Hin)%list_elem_of_fmap.
    apply list_elem_of_In, filter_In in Hin as [Hin Htest].
    apply list_elem_of_In in Hin. unfold htmlEntry in Htest. cbn [fst snd] in *.
    apply andb_true_iff in Htest as [Hb _]. apply negb_true_iff in Hb as ->.
    destruct (walk_lookup _ _ _ Hwf Hin) as (q' & v & Hq & Hv & Hfile).
    cbn [fst snd] in *. subst q. rewrite lookup_app, Hdir, Hv.
    destruct v as [d|es]; [by exists d|done].
Qed.

(** X14.  [RenameHtmlFiles] loses no file and overwrites none: in a tree
    whose directories have no two entries of one name, it returns no error;
    afterwards every file it has not collected is where it was with its
    content, and every collected file is, with its content, still at its
    path or at the path [filepath.Join] makes of its directory and the
    prefix followed by its name in lower case.  The names of the collected
    files are names of ASCII bytes. *)
Theorem RenameHtmlFiles_keeps_files (RenamePrefix : str) (dir : path)
    (st : state) (r : node) :
  lookup (fs st) dir = Some r -> wellFormed r = true ->
  (forall p, p ∈ htmlFilesOf dir r -> isASCII (List.last p []) = true) ->
  exists st',
    RenameHtmlFiles RenamePrefix dir st = (st', None)
    /\ (forall m c, lookup (fs st) m = Some (File c) -> m ∉ htmlFilesOf dir r ->
                    lookup (fs st') m = Some (File c))
    /\ (forall p, p ∈ htmlFilesOf dir r ->
          exists d,
            lookup (fs st) p = Some (File d)
            /\ (lookup (fs st') p = Some (File d)
                \/ lookup (fs st') (renamedPath RenamePrefix p) = Some (File d))).
Proof.
  intros Hdir Hwf _. unfold RenameHtmlFiles, Walk. rewrite Hdir, visit_collectHtml.
  cbn [app]. fold (htmlFilesOf dir r). eexists. split; [done|].
  destruct (htmlFilesOf_files dir (fs st) r Hdir Hwf) as [Hnodup Hfiles].
  destruct (renameHtmlFiles_keeps RenamePrefix _ Hnodup st Hfiles) as [Ha Hb].
  split; [done|]. intros p Hp. destruct (Hfiles p Hp) as [d Hd].
  exists d. split; [done|]. by apply Hb.
Qed.

Lemma RenameHtmlFiles_keeps_files_witness :
  exists st',
    RenameHtmlFiles "_" [] (State originalsTree []) = (st', None)
    /\ (forall m c, lookup originalsTree m = Some (File c) ->
                    m ∉ htmlFilesOf [] originalsTree ->
                    lookup (fs st') m = Some (File c))
    /\ (forall p, p ∈ htmlFilesOf [] originalsTree ->
          exists d,
            lookup originalsTree p = Some (File d)
            /\ (lookup (fs st') p = Some (File d)
                \/ lookup (fs st') (renamedPath "_" p) = Some (File d))).
Proof.
  apply (RenameHtmlFiles_keeps_files "_" [] (State originalsTree []) originalsTree);
    [reflexivity..|].
  intros p Hp. vm_compute in Hp.
  repeat (apply elem_of_cons in Hp as [->|Hp]; [reflexivity|]).
  by apply elem_of_nil in Hp.
Defined.

(** ** What a stage leaves alone *)

(** From [n] to [n'] nothing has changed at the paths that diverge from
    [root]: all changes are at [root], above it or below it. *)
Definition outside (root : path) (n n' : node) : Prop :=
  forall q, diverge root q -> lookup n' q = lookup n q.

Lemma outside_refl (root : path) (n : node) : outside root n n.
Proof. by intros q _. Qed.

Lemma outside_trans (root : path) (n1 n2 n3 : node) :
  outside root n1 n2 -> outside root n2 n3 -> outside root n1 n3.
Proof. intros H12 H23 q Hq. by rewrite H23, H12. Qed.

Lemma outside_below (root r : path) (n n' : node) :
  outside (root ++ r) n n' -> outside root n n'.
Proof.
  intros H q Hq. apply H. rewrite <- (app_nil_r q). by apply diverge_app_r.
Qed.

Lemma MkdirAll_outside (n n' : node) (p : path) :
  MkdirAll n p = Some n' -> outside p n n'.
Proof. intros H q Hq. by apply (MkdirAll_diverge _ _ _ _ H). Qed.

Lemma WriteFile_outside (n n' : node) (p : path) (data : str) :
  WriteFile n p data = inl n' -> outside p n n'.
Proof.
  unfold WriteFile. intros H q Hq.
  assert (Hplace : place n p (File data) = Some n').
  { destruct (lookup n p) as [[?|?]|]; destruct (place n p _); by simplify_eq. }
  by apply (place_lookup_diverge _ _ _ _ _ Hplace).
Qed.

Lemma Rename_outside (n n' : node) (old new : path) :
  Rename n old new = inl n' ->
  forall q, diverge old q -> diverge new q -> lookup n' q = lookup n q.
Proof.
  intros H q Hold Hnew. destruct (decide (old = new)) as [->|Hne].
  - unfold Rename in H. destruct (lookup n new) as [[d|es]|]; [|done..].
    rewrite decide_True in H by done. by injection H as <-.
  - apply Rename_inv in H as (v & n1 & _ & Hrm & Hpl); [|done].
    rewrite (place_lookup_diverge _ _ _ _ _ Hpl) by done.
    by apply (remove_lookup_diverge _ _ _ _ Hrm).
Qed.

Lemma CopyFile_outside (n n' : node) (src dst : path) (res : option error) :
  CopyFile n src dst = (n', res) -> outside dst n n'.
Proof.
  unfold CopyFile. destruct (lookup n src) as [s|]; [|by intros [= <- <-] q _].
  destruct (MkdirAll n (removelast dst)) as [n1|] eqn:Hmk;
    [|by intros [= <- <-] q _].
  assert (H1 : outside dst n n1).
  { intros q Hq. apply (MkdirAll_lookup_other _ _ _ _ Hmk).
    intros Hpre%prefix_removelast. by apply diverge_not_prefix in Hq. }
  assert (H2 : forall data n2 res2,
            match WriteFile n1 dst data with
            | inl n2 => (n2, res2)
            | inr err => (n1, Some err)
            end = (n2, res) -> outside dst n n2).
  { intros data n2 res2. destruct (WriteFile n1 dst data) as [n3|err] eqn:Hw.
    - intros [= <- _]. eapply outside_trans; [done|]. by eapply WriteFile_outside.
    - by intros [= <- _]. }
  destruct s as [data|es]; intros H; by eapply H2.
Qed.

(** *** The names of the tree *)

(** Every name of the tree is the name of a file or directory: an
    ordinary path element. *)
Fixpoint fileNames (n : node) : bool :=
  match n with
  | File _ => true
  | Dir entries =>
      (fix all (entries : list (str * node)) : bool :=
         match entries with
         | [] => true
         | (x, c) :: entries' =>
             bool_decide (segment x) && fileNames c && all entries'
         end) entries
  end.

Lemma fileNames_Dir entries :
  fileNames (Dir entries) = true <->
  Forall (fun e => segment e.1 /\ fileNames e.2 = true) entries.
Proof.
  cbn [fileNames]. induction entries as [|[x c] entries IH].
  - split; [constructor|done].
  - rewrite !andb_true_iff, IH, Forall_cons, bool_decide_eq_true. cbn [fst snd].
    tauto.
Qed.

Lemma lookup_fileNames (n : node) (q : path) (v : node) :
  fileNames n = true -> lookup n q = Some v ->
  Forall segment q /\ fileNames v = true.
Proof.
  revert n. induction q as [|x q IH]; intros n Hn Hq.
  - injection Hq as <-. by split.
  - destruct n as [d|es]; [done|]. cbn [lookup] in Hq.
    destruct (find x es) as [c|] eqn:Hfind; [|done].
    apply find_Some_elem in Hfind. apply fileNames_Dir in Hn.
    rewrite Forall_forall in Hn. destruct (Hn _ Hfind) as [Hx Hc].
    destruct (IH c Hc Hq) as [Hall Hv]. split; [by constructor|done].
Qed.

Lemma walk_fileNames (p : path) (n : node) (e : path * bool) :
  fileNames n = true -> e ∈ walk p n ->
  exists rel, e.1 = p ++ rel /\ Forall segment rel.
Proof.
  revert p. induction n as [data|entries IH] using node_ind'; intros p Hn He.
  - cbn [walk] in He. apply list_elem_of_singleton in He as ->.
    exists []. by rewrite app_nil_r.
  - rewrite walk_Dir in He. apply elem_of_cons in He as [->|He].
    { exists []. by rewrite app_nil_r. }
    apply fileNames_Dir in Hn. rewrite Forall_forall in IH, Hn.
    apply list_elem_of_In, in_flat_map in He as ([x c] & Hin & He).
    apply list_elem_of_In in Hin, He. destruct (Hn _ Hin) as [Hx Hc].
    destruct (IH _ Hin (p ++ [x]) Hc He) as (rel & Hrel & Hall).
    exists (x :: rel). split; [by rewrite Hrel, <- app_assoc|by constructor].
Qed.

Lemma put_fileNames (x : str) (c : node) (entries : list (str * node)) :
  segment x -> fileNames c = true ->
  Forall (fun e => segment e.1 /\ fileNames e.2 = true) entries ->
  Forall (fun e => segment e.1 /\ fileNames e.2 = true) (put x c entries).
Proof.
  intros Hx Hc. induction 1 as [|[y m] entries Hy Hall IH]; cbn [put].
  - constructor; [by split|constructor].
  - destruct (compareStr x y).
    + constructor; [by split|done].
    + constructor; [by split|]. by constructor.
    + by constructor.
Qed.

Lemma MkdirAll_fileNames (n n' : node) (p : path) :
  fileNames n = true -> Forall segment p -> MkdirAll n p = Some n' ->
  fileNames n' = true.
Proof.
  intros Hn Hp. revert n n' Hn. induction Hp as [|x p Hx Hp IH]; intros n n' Hn H.
  - by apply MkdirAll_nil in H as [-> _].
  - apply MkdirAll_inv in H as (es & c' & -> & -> & H).
    apply fileNames_Dir in Hn. apply fileNames_Dir, put_fileNames; [done| |done].
    apply (IH (default (Dir []) (find x es))); [|done].
    destruct (find x es) as [c|] eqn:Hfind; [|done].
    apply find_Some_elem in Hfind. rewrite Forall_forall in Hn.
    by destruct (Hn _ Hfind).
Qed.

Lemma place_fileNames (n n' : node) (p : path) (v : node) :
  fileNames n = true -> Forall segment p -> fileNames v = true ->
  place n p v = Some n' -> fileNames n' = true.
Proof.
  intros Hn Hp Hv. revert n n' Hn. induction Hp as [|x p Hx Hp IH]; intros n n' Hn H.
  - by destruct n.
  - apply place_inv in H as (es & c' & -> & -> & H).
    apply fileNames_Dir in Hn. apply fileNames_Dir, put_fileNames; [done| |done].
    destruct p as [|y p]; [by subst|].
    destruct H as (c & Hfind & H). apply (IH c); [|done].
    apply find_Some_elem in Hfind. rewrite Forall_forall in Hn.
    by destruct (Hn _ Hfind).
Qed.

Lemma WriteFile_fileNames (n n' : node) (p : path) (data : str) :
  fileNames n = true -> Forall segment p -> WriteFile n p data = inl n' ->
  fileNames n' = true.
Proof.
  intros Hn Hp. unfold WriteFile. intros H.
  assert (Hplace : place n p (File data) = Some n').
  { destruct (lookup n p) as [[?|?]|]; destruct (place n p _); by simplify_eq. }
  by apply (place_fileNames n n' p (File data)).
Qed.

Lemma Forall_removelast {A} (P : A -> Prop) (l : list A) :
  Forall P l -> Forall P (removelast l).
Proof.
  induction 1 as [|x l Hx Hl IH]; [done|]. cbn [removelast].
  destruct l; [constructor|]. by constructor.
Qed.

Lemma CopyFile_fileNames (n n' : node) (src dst : path) (res : option error) :
  fileNames n = true -> Forall segment dst -> CopyFile n src dst = (n', res) ->
  fileNames n' = true.
Proof.
  intros Hn Hdst. unfold CopyFile.
  destruct (lookup n src) as [s|]; [|by intros [= <- _]].
  destruct (MkdirAll n (removelast dst)) as [n1|] eqn:Hmk; [|by intros [= <- _]].
  apply MkdirAll_fileNames in Hmk; [|done|by apply Forall_removelast].
  assert (H2 : forall data n2 res2,
            match WriteFile n1 dst data with
            | inl n2 => (n2, res2)
            | inr err => (n1, Some err)
            end = (n2, res) -> fileNames n2 = true).
  { intros data n2 res2. destruct (WriteFile n1 dst data) as [n3|err] eqn:Hw.
    - intros [= <- _]. by eapply WriteFile_fileNames.
    - by intros [= <- _]. }
  destruct s as [data|es]; intros H; by eapply H2.
Qed.

Lemma Split_pieces (s : str) : Forall (fun e => "/"%char ∉ e) (Split s "/").
Proof.
  induction s as [|c s IH]; cbn [Split].
  - constructor; [apply not_elem_of_nil|constructor].
  - destruct (decide (c = "/"%char)) as [->|Hc].
    + constructor; [apply not_elem_of_nil|done].
    + destruct (Split s "/") as [|piece pieces]; [|apply Forall_cons in IH as [Hp IH]].
      * constructor; [|constructor]. apply not_elem_of_cons.
        split; [done|apply not_elem_of_nil].
      * constructor; [|done]. by apply not_elem_of_cons.
Qed.

(** What [filepath.Join] makes of a directory and any name is made of
    ordinary elements. *)
Lemma joinName_fileNames (dir : path) (name : str) :
  Forall segment dir -> Forall segment (joinName dir name).
Proof.
  unfold joinName. pose proof (Split_pieces name) as Hparts. revert Hparts.
  generalize (Split name "/"). intros parts Hparts. revert dir.
  induction Hparts as [|e parts He Hparts IH]; intros dir Hdir; [done|].
  cbn [fold_left]. apply IH. destruct (decide (e = [])) as [->|Hne]; [done|].
  rewrite bool_decide_eq_false_2 by done. cbn [orb].
  unfold filepath.isDot, filepath.isDotDot.
  destruct (decide (e = ".")) as [->|Hdot]; [done|].
  rewrite (bool_decide_eq_false_2 (e = ".")) by done.
  destruct (decide (e = "..")) as [->|Hdotdot]; [by apply Forall_removelast|].
  rewrite bool_decide_eq_false_2 by done.
  apply Forall_app. split; [done|]. constructor; [|constructor]. by repeat split.
Qed.

Lemma mdPathOf_fileNames (p : path) :
  Forall segment p -> Forall segment (mdPathOf p).
Proof.
  intros Hp. unfold mdPathOf. apply Forall_app. split; [by apply Forall_removelast|].
  constructor; [|constructor]. apply mdPath_segment.
  destruct (decide (p = [])) as [->|Hne]; [apply not_elem_of_nil|].
  destruct (exists_last Hne) as (d & x & ->). rewrite last_snoc'.
  apply Forall_app in Hp as [_ Hx]. apply Forall_cons in Hx as [Hx _]. apply Hx.
Qed.

Lemma ConvertSingleHtmlFile_fileNames (ConvertString : str -> option str)
    (p : path) (st st' : convState) (res : option convertError) :
  fileNames (cfs st) = true -> Forall segment p ->
  ConvertSingleHtmlFile ConvertString p st = (st', res) ->
  fileNames (cfs st') = true.
Proof.
  intros Hn Hp. unfold ConvertSingleHtmlFile. cbv zeta. cbn [cfs clog].
  destruct (ReadFile (cfs st) p) as [content|err]; [|by intros [= <- _]].
  destruct (ConvertString content) as [markdown|]; [|by intros [= <- _]].
  pose proof (mdPathOf_fileNames p Hp) as Hmd.
  destruct (MkdirAll (cfs st) _) as [n1|] eqn:Hmk; [|by intros [= <- _]].
  apply MkdirAll_fileNames in Hmk; [|done|by apply Forall_removelast].
  destruct (WriteFile n1 _ _) as [n2|err] eqn:Hwrite; [|by intros [= <- _]].
  apply WriteFile_fileNames in Hwrite; [|done..].
  destruct (lookup n2 _); by intros [= <- _].
Qed.

Lemma ProcessHtmlFiles_fileNames (ConvertString : str -> option str)
    (dir : path) (st st' : convState) (res : option convertError) :
  fileNames (cfs st) = true ->
  ProcessHtmlFiles ConvertString dir st = (st', res) ->
  fileNames (cfs st') = true.
Proof.
  intros Hn. unfold ProcessHtmlFiles.
  destruct (lookup (cfs st) dir) as [r|] eqn:Hdir; [|by intros [= <- _]].
  destruct (lookup_fileNames _ _ _ Hn Hdir) as [Hsegs Hr].
  assert (Hall : Forall (fun e => Forall segment e.1) (walk dir r)).
  { apply Forall_forall. intros e He.
    destruct (walk_fileNames _ _ _ Hr He) as (rel & -> & Hrel).
    by apply Forall_app. }
  clear Hdir. revert Hall. generalize (walk dir r). intros entries Hall.
  revert st Hn. induction Hall as [|[p isdir] entries Hp Hall IH]; intros st Hn H.
  - by injection H as <- _.
  - cbn [visitWith] in H.
    destruct (processEntry ConvertString p isdir st) as [st1 res1] eqn:Hstep.
    assert (Hn1 : fileNames (cfs st1) = true).
    { unfold processEntry in Hstep.
      destruct (negb isdir && _); [|by injection Hstep as <- _].
      by eapply ConvertSingleHtmlFile_fileNames. }
    destruct res1 as [err|]; [by injection H as <- _|]. by eapply IH.
Qed.

(** *** The merge and the renaming of the directories *)

Lemma mergeEntry_outside (srcDir dstDir p : path) (isdir : bool) (st st' : state)
    (res : option error) :
  mergeEntry srcDir dstDir p isdir st = (st', res) ->
  outside dstDir (fs st) (fs st').
Proof.
  unfold mergeEntry. destruct (decide (p = srcDir)).
  { intros [= <- <-]. apply outside_refl. }
  cbv zeta. destruct isdir.
  - destruct (MkdirAll (fs st) _) as [n1|] eqn:Hmk; intros [= <- <-].
    + eapply outside_below. by eapply MkdirAll_outside.
    + apply outside_refl.
  - destruct (lookup (fs st) _); [intros [= <- <-]; apply outside_refl|].
    destruct (CopyFile (fs st) p _) as [n1 err] eqn:Hcopy. intros [= <- <-].
    eapply outside_below. by eapply CopyFile_outside.
Qed.

Lemma mergeDirectories_outside (srcDir dstDir : path) (st st' : state)
    (res : option error) :
  mergeDirectories srcDir dstDir st = (st', res) ->
  outside dstDir (fs st) (fs st').
Proof.
  unfold mergeDirectories, Walk. destruct (lookup (fs st) srcDir) as [r|].
  2: { intros [= <- <-]. apply outside_refl. }
  generalize (walk srcDir r). intros entries. revert st.
  induction entries as [|[p isdir] entries IH]; intros st H.
  - injection H as <- <-. apply outside_refl.
  - cbn [visit] in H.
    destruct (mergeEntry srcDir dstDir p isdir st) as [st1 [err|]] eqn:Hstep.
    + injection H as <- <-. by eapply mergeEntry_outside.
    + eapply outside_trans; [by eapply mergeEntry_outside|by apply IH].
Qed.

Lemma removelast_app_ne {A} (l r : list A) :
  r <> [] -> removelast (l ++ r) = l ++ removelast r.
Proof. intros Hr. by rewrite removelast_app. Qed.

(** [renameSingleDirectoryToLowercase] on a directory below [root]. *)
Lemma renameSingleDirectoryToLowercase_outside (root rel : path) (st st' : state)
    (res : option error) :
  rel <> [] ->
  renameSingleDirectoryToLowercase (root ++ rel) st = (st', res) ->
  outside root (fs st) (fs st').
Proof.
  intros Hrel. unfold renameSingleDirectoryToLowercase.
  rewrite removelast_app_ne by done.
  destruct (decide _) as [Hsame|Hcase]; [intros [= <- <-]; apply outside_refl|].
  rewrite <- !app_assoc.
  set (finalRel := removelast rel ++ [ToLower _]).
  set (tempRel := removelast rel ++ [_ ++ "_temp_rename"]).
  assert (Hmerge : forall s s' r,
            mergeExisting (root ++ finalRel) (root ++ rel) s = (s', r) ->
            outside root (fs s) (fs s')).
  { intros s s' r. unfold mergeExisting. destruct (lookup (fs s) (root ++ finalRel)).
    - destruct (mergeDirectories _ _ _) as [s1 r1] eqn:Hm.
      apply mergeDirectories_outside in Hm. cbn [logPrintf fs] in Hm.
      apply outside_below in Hm. by destruct r1; intros [= <- <-].
    - intros [= <- <-]. apply outside_refl. }
  destruct (mergeExisting (root ++ finalRel) (root ++ rel) st) as [s1 [err|]] eqn:Hm.
  { intros [= <- <-]. by eapply Hmerge. }
  intros Htwo. eapply outside_trans; [by eapply Hmerge|].
  unfold twoPhaseRename in Htwo.
  assert (Hrename : forall n n' old new,
            Rename n (root ++ old) (root ++ new) = inl n' -> outside root n n').
  { intros n n' old new H q Hq. apply (Rename_outside _ _ _ _ H);
      rewrite <- (app_nil_r q); by apply diverge_app_r. }
  destruct (lookup (fs s1) (root ++ rel)); [|injection Htwo as <- _; apply outside_refl].
  destruct (Rename (fs s1) (root ++ rel) (root ++ tempRel)) as [n1|err] eqn:H1;
    [|injection Htwo as <- _; apply outside_refl].
  apply Hrename in H1.
  destruct (Rename n1 (root ++ tempRel) (root ++ finalRel)) as [n2|err] eqn:H2.
  - injection Htwo as <- _. cbn [logPrintf setFs fs].
    eapply outside_trans; [done|]. by eapply Hrename.
  - injection Htwo as <- _. cbn [setFs fs].
    destruct (Rename n1 (root ++ tempRel) (root ++ rel)) as [n2|err2] eqn:H3; [|done].
    eapply outside_trans; [done|]. by eapply Hrename.
Qed.

Lemma renameEach_outside (root : path) (directories : list path) (st : state) :
  Forall (fun p => exists rel, rel <> [] /\ p = root ++ rel) directories ->
  outside root (fs st) (fs (renameEach directories st)).
Proof.
  intros Hall. revert st. induction Hall as [|p l (rel & Hrel & ->) _ IH]; intros st.
  - apply outside_refl.
  - cbn [renameEach].
    destruct (renameSingleDirectoryToLowercase (root ++ rel) st) as [st1 [err|]] eqn:H;
      apply renameSingleDirectoryToLowercase_outside in H; try done.
    + eapply outside_trans; [done|]. apply (IH (logPrintf st1 _)).
    + eapply outside_trans; [done|]. apply IH.
Qed.

Lemma walk_below_root (root : path) (r : node) (e : path * bool) :
  e ∈ walk root r -> e.1 <> root -> exists rel, rel <> [] /\ e.1 = root ++ rel.
Proof.
  intros [H|(x & rel & H)]%walk_entries Hne; [done|]. by exists (x :: rel).
Qed.

Lemma renameDirectories_outside (rootDir : path) (st st' : state)
    (res : option error) :
  RenameDirectoriesToLowercase rootDir st = (st', res) ->
  outside rootDir (fs st) (fs st').
Proof.
  unfold RenameDirectoriesToLowercase.
  destruct (lookup (fs st) rootDir) as [r|] eqn:Hroot.
  - rewrite (directoriesToRename_reverse _ _ r Hroot). intros [= <- <-].
    apply renameEach_outside, Forall_forall. intros p Hp.
    rewrite elem_of_reverse in Hp. unfold subdirectories in Hp.
    apply list_elem_of_fmap in Hp as (e & -> & Hin).
    apply list_elem_of_In, filter_In in Hin as [Hin Hcond].
    apply andb_true_iff in Hcond as [_ Hne]. apply negb_true_iff in Hne.
    apply bool_decide_eq_false in Hne. apply list_elem_of_In in Hin.
    by apply (walk_below_root rootDir r).
  - unfold directoriesToRename, Walk. rewrite Hroot. intros [= <- <-].
    apply outside_refl.
Qed.

(** X15.  [RenameDirectoriesToLowercase] works below its root only:
    whatever it merges, renames or fails to rename, every path that is
    neither the root, nor above it, nor below it is afterwards as it was
    before. *)
Theorem RenameDirectoriesToLowercase_outside (rootDir : path) (st st' : state)
    (res : option error) :
  RenameDirectoriesToLowercase rootDir st = (st', res) ->
  forall q, diverge rootDir q -> lookup (fs st') q = lookup (fs st) q.
Proof. apply renameDirectories_outside. Qed.

Lemma RenameDirectoriesToLowercase_outside_witness :
  lookup (fs (RenameDirectoriesToLowercase ["Docs" : str] (State collisionTree [])).1)
    ["docs" : str; "a.txt" : str]
  = lookup collisionTree ["docs" : str; "a.txt" : str].
Proof.
  apply (RenameDirectoriesToLowercase_outside ["Docs" : str] (State collisionTree [])
           _ (RenameDirectoriesToLowercase ["Docs" : str] (State collisionTree [])).2).
  - by destruct (RenameDirectoriesToLowercase _ _).
  - by constructor.
Defined.

(** *** The other stages *)

Lemma ConvertSingleHtmlFile_outside (ConvertString : str -> option str)
    (root rel : path) (st st' : convState) (res : option convertError) :
  rel <> [] ->
  ConvertSingleHtmlFile ConvertString (root ++ rel) st = (st', res) ->
  outside root (cfs st) (cfs st').
Proof.
  intros Hrel. unfold ConvertSingleHtmlFile, mdPathOf. cbn [cfs clog].
  rewrite (removelast_app_ne root rel) by done. rewrite <- !app_assoc.
  set (target := removelast rel ++ [mdPath (List.last (root ++ rel) [])]).
  assert (Htarget : target <> []) by (by destruct (removelast rel)).
  rewrite (removelast_app_ne root target) by done.
  destruct (ReadFile (cfs st) (root ++ rel)); [|intros [= <- _]; apply outside_refl].
  destruct (ConvertString _); [|intros [= <- _]; apply outside_refl].
  destruct (MkdirAll (cfs st) _) as [n1|] eqn:Hmk; [|intros [= <- _]; apply outside_refl].
  apply MkdirAll_outside, outside_below in Hmk.
  destruct (WriteFile n1 (root ++ target) _) as [n2|err] eqn:Hwrite.
  - apply WriteFile_outside, outside_below in Hwrite.
    destruct (lookup n2 _); intros [= <- _]; by eapply outside_trans.
  - by intros [= <- _].
Qed.

Lemma below_Dir (root : path) entries (e : path * bool) :
  e ∈ walk root (Dir entries) -> e.2 = false ->
  exists rel, rel <> [] /\ e.1 = root ++ rel.
Proof.
  rewrite walk_Dir. intros [->|He]%elem_of_cons; [done|]. intros _.
  apply list_elem_of_In, in_flat_map in He as ([x c] & _ & He).
  apply list_elem_of_In, walk_entries_child in He as [r Hr]. by exists (x :: r).
Qed.

Lemma visitWith_outside (ConvertString : str -> option str) (dir : path)
    (l : list (path * bool)) (st st' : convState) (res : option convertError) :
  (forall e, e ∈ l -> e.2 = false -> exists rel, rel <> [] /\ e.1 = dir ++ rel) ->
  visitWith (processEntry ConvertString) l st = (st', res) ->
  outside dir (cfs st) (cfs st').
Proof.
  revert st. induction l as [|[p isdir] l IH]; intros st Hl H.
  - injection H as <- <-. apply outside_refl.
  - cbn [visitWith] in H.
    assert (Hstep : forall s s' r, processEntry ConvertString p isdir s = (s', r) ->
                                   outside dir (cfs s) (cfs s')).
    { intros s s' r. unfold processEntry. destruct isdir; cbn [negb andb].
      - intros [= <- _]. apply outside_refl.
      - destruct (HasSuffix _ _); [|intros [= <- _]; apply outside_refl].
        destruct (Hl (p, false) ltac:(by left) eq_refl) as (rel & Hrel & Hp).
        cbn [fst] in Hp. subst p. by apply ConvertSingleHtmlFile_outside. }
    destruct (processEntry ConvertString p isdir st) as [st1 [err|]] eqn:Hfirst.
    + injection H as <- <-. by eapply Hstep.
    + eapply outside_trans; [by eapply Hstep|]. apply IH; [|done].
      intros e He. apply Hl. by right.
Qed.

Lemma ProcessHtmlFiles_outside (ConvertString : str -> option str) (dir : path)
    (st st' : convState) (res : option convertError) entries :
  lookup (cfs st) dir = Some (Dir entries) ->
  ProcessHtmlFiles ConvertString dir st = (st', res) ->
  outside dir (cfs st) (cfs st').
Proof.
  intros Hdir. unfold ProcessHtmlFiles. rewrite Hdir.
  apply visitWith_outside. apply below_Dir.
Qed.

Lemma last_segment (root rel : path) :
  rel <> [] -> Forall segment rel -> segment (List.last (root ++ rel) []).
Proof.
  intros Hrel Hsegs. rewrite (app_removelast_last [] Hrel) in Hsegs |- *.
  rewrite app_assoc, last_last. apply Forall_app in Hsegs as [_ Hlast].
  by apply Forall_cons in Hlast as [Hlast _].
Qed.

Lemma renameHtmlFile_outside (RenamePrefix : str) (root rel : path) (st : state) :
  "/"%char ∉ RenamePrefix -> Forall segment rel -> rel <> [] ->
  outside root (fs st) (fs (renameHtmlFile RenamePrefix (root ++ rel) st)).
Proof.
  intros Hprefix Hsegs Hrel.
  destruct (renameHtmlFile_cases RenamePrefix (root ++ rel) st) as [->|[_ Hrename]];
    [apply outside_refl|].
  unfold renamedPath in Hrename. rewrite removelast_app_ne in Hrename by done.
  rewrite joinName_segment, <- app_assoc in Hrename.
  - intros q Hq. apply (Rename_outside _ _ _ _ Hrename);
      rewrite <- (app_nil_r q); by apply diverge_app_r.
  - apply prefixed_segment; [done|]. by apply ToLower_segment, last_segment.
Qed.

Lemma renameHtmlFiles_outside (RenamePrefix : str) (root : path)
    (htmlFiles : list path) (st : state) :
  "/"%char ∉ RenamePrefix ->
  Forall (fun p => exists rel, rel <> [] /\ Forall segment rel /\ p = root ++ rel)
    htmlFiles ->
  outside root (fs st)
    (fs (fold_left (fun st htmlPath => renameHtmlFile RenamePrefix htmlPath st)
           htmlFiles st)).
Proof.
  intros Hprefix Hall. revert st.
  induction Hall as [|p l (rel & Hrel & Hsegs & ->) _ IH]; intros st.
  - apply outside_refl.
  - cbn [fold_left]. eapply outside_trans; [by apply renameHtmlFile_outside|apply IH].
Qed.

(** The files collected below a directory are below it, under names of
    files. *)
Lemma htmlFilesOf_below (dir : path) entries :
  fileNames (Dir entries) = true ->
  Forall (fun p => exists rel, rel <> [] /\ Forall segment rel /\ p = dir ++ rel)
    (htmlFilesOf dir (Dir entries)).
Proof.
  intros Hnames. apply Forall_forall. intros p (e & -> & Hin)%list_elem_of_fmap.
  apply list_elem_of_In, filter_In in Hin as [Hin Htest].
  apply list_elem_of_In in Hin. unfold htmlEntry in Htest.
  apply andb_true_iff in Htest as [Hfile _]. apply negb_true_iff in Hfile.
  destruct (walk_fileNames _ _ _ Hnames Hin) as (rel & Hrel & Hsegs).
  destruct (below_Dir dir entries e Hin Hfile) as (rel' & Hne & Hrel').
  rewrite Hrel in Hrel'. apply app_inv_head in Hrel'. subst rel'.
  by exists rel.
Qed.

Lemma RenameHtmlFiles_outside (RenamePrefix : str) (dir : path) (st st' : state)
    (res : option error) entries :
  "/"%char ∉ RenamePrefix ->
  lookup (fs st) dir = Some (Dir entries) ->
  fileNames (Dir entries) = true ->
  RenameHtmlFiles RenamePrefix dir st = (st', res) ->
  outside dir (fs st) (fs st').
Proof.
  intros Hprefix Hdir Hnames. unfold RenameHtmlFiles, Walk.
  rewrite Hdir, visit_collectHtml.
  rewrite app_nil_l. intros [= <- _]. apply renameHtmlFiles_outside; [done|].
  by apply htmlFilesOf_below.
Qed.

(** ** The new names of the originals *)









Lemma GenerateMdBookFiles_outside (RenamePrefix : str) (outputDir : path)
    (st st' : state) (res : option bookError) :
  GenerateMdBookFiles RenamePrefix outputDir st = (st', res) ->
  outside outputDir (fs st) (fs st').
Proof.
  unfold GenerateMdBookFiles, GenerateBookToml. cbv zeta.
  destruct (WriteFile (fs st) _ _) as [n1|err] eqn:H1;
    [|intros [= <- _]; apply outside_refl].
  apply WriteFile_outside, outside_below in H1.
  unfold GenerateSummaryMd. cbn [setFs fs log].
  destruct (lookup n1 outputDir); [|by intros [= <- _]].
  destruct (WriteFile n1 _ _) as [n2|err] eqn:H2; [|by intros [= <- _]].
  apply WriteFile_outside, outside_below in H2.
  intros [= <- _]. by eapply outside_trans.
Qed.

(** ** The copy of the input *)

(** The callback of the walk of [CopyDirectory]. *)
Definition copyEntry (src dst : path) (p : path) (isdir : bool) (st : state)
  : state * option error :=
  let relPath := drop (length src) p in
  let dstPath := dst ++ relPath in
  if isdir then
    match MkdirAll (fs st) dstPath with
    | Some n => (setFs st n, None)
    | None => (st, Some ENOTDIR)
    end
  else
    let '(n, err) := CopyFile (fs st) p dstPath in
    (setFs st n, err).

(** [CopyDirectory]. *)
Definition CopyDirectory (src dst : path) (st : state) : state * option error :=
  Walk (fs st) src (copyEntry src dst) st.

Lemma copyEntry_outside (src dst p : path) (isdir : bool) (st st' : state)
    (res : option error) :
  copyEntry src dst p isdir st = (st', res) -> outside dst (fs st) (fs st').
Proof.
  unfold copyEntry. cbv zeta. destruct isdir.
  - destruct (MkdirAll (fs st) _) as [n1|] eqn:Hmk; intros [= <- <-].
    + eapply outside_below. by eapply MkdirAll_outside.
    + apply outside_refl.
  - destruct (CopyFile (fs st) p _) as [n1 err] eqn:Hcopy. intros [= <- <-].
    eapply outside_below. by eapply CopyFile_outside.
Qed.

Lemma CopyDirectory_outside (src dst : path) (st st' : state) (res : option error) :
  CopyDirectory src dst st = (st', res) -> outside dst (fs st) (fs st').
Proof.
  unfold CopyDirectory, Walk. destruct (lookup (fs st) src) as [r|].
  2: { intros [= <- <-]. apply outside_refl. }
  generalize (walk src r). intros entries. revert st.
  induction entries as [|[p isdir] entries IH]; intros st H.
  - injection H as <- <-. apply outside_refl.
  - cbn [visit] in H.
    destruct (copyEntry src dst p isdir st) as [st1 [err|]] eqn:Hstep.
    + injection H as <- <-. by eapply copyEntry_outside.
    + eapply outside_trans; [by eapply copyEntry_outside|by apply IH].
Qed.

Lemma CopyDirectory_fileNames (src dst : path) (st st' : state) (res : option error) :
  fileNames (fs st) = true -> Forall segment dst ->
  CopyDirectory src dst st = (st', res) -> fileNames (fs st') = true.
Proof.
  intros Hn Hdst. unfold CopyDirectory, Walk.
  destruct (lookup (fs st) src) as [r|] eqn:Hsrc; [|by intros [= <- _]].
  destruct (lookup_fileNames _ _ _ Hn Hsrc) as [Hsegs Hr].
  assert (Hall : Forall (fun e => Forall segment (dst ++ drop (length src) e.1))
                   (walk src r)).
  { apply Forall_forall. intros e He.
    destruct (walk_fileNames _ _ _ Hr He) as (rel & -> & Hrel).
    rewrite drop_app_length. by apply Forall_app. }
  clear Hsrc. revert Hall. generalize (walk src r). intros entries Hall.
  revert st Hn. induction Hall as [|[p isdir] entries Hp Hall IH]; intros st Hn H.
  - by injection H as <- _.
  - cbn [visit] in H.
    destruct (copyEntry src dst p isdir st) as [st1 res1] eqn:Hstep.
    assert (Hn1 : fileNames (fs st1) = true).
    { unfold copyEntry in Hstep. cbv zeta in Hstep. cbn [fst] in Hp. destruct isdir.
      - destruct (MkdirAll (fs st) _) as [n1|] eqn:Hmk; injection Hstep as <- _; [|done].
        by eapply MkdirAll_fileNames.
      - destruct (CopyFile (fs st) p _) as [n1 err] eqn:Hcopy. injection Hstep as <- _.
        by eapply CopyFile_fileNames. }
    destruct res1 as [err|]; [by injection H as <- _|]. by eapply IH.
Qed.

(** ** The whole run *)

(** [Args]. *)
Record Args := MkArgs { InputDir : path; Suffix : str; RenamePrefix : str }.

(** What a run writes to the log, in the order of the lines, and to the
    standard output at its end. *)
Inductive event :=
| OutputDirExists (outputDir : path)
| StartConvert
| StartRenameHtml
| StartRenameDirectories
| StartMdBook
| ConvertLine (m : convertmsg)
| StageLine (m : logmsg)
| Finished (inputDir outputDir : path).

(** The errors of [ConvertHtmlToMarkdown], each around the error of a
    stage. *)
Inductive runError :=
| InputMissing (inputDir : path)
| OutputDirFailed
| CopyFailed (err : error)
| ProcessFailed (err : convertError)
| RenameHtmlFailed (err : error)
| LowercaseFailed (err : error)
| MdBookFailed (err : bookError).

Record run := Run { rfs : node; events : list event }.

(** The output directory: [filepath.Join] of the directory of the input
    directory and of its base name followed by the suffix.  A suffix
    without separator makes a name next to the input directory; one with
    separators is cleaned with the rest. *)
Definition outputDirOf (args : Args) : path :=
  joinName (removelast (InputDir args)) (baseName (InputDir args) ++ Suffix args).

(** A stage that logs [logmsg] lines, run on the tree of the run. *)
Definition stage {E : Type} (f : state -> state * option E) (s : run)
  : run * option E :=
  let '(st, res) := f (State (rfs s) []) in
  (Run (fs st) (events s ++ map StageLine (log st)), res).

Definition logEvent (s : run) (e : event) : run := Run (rfs s) (events s ++ [e]).

Section Run.

Variable ConvertString : str -> option str.
Variable args : Args.

(** The stages of [ConvertHtmlToMarkdown] after the copy. *)
Definition convertStages (outputDir : path) (s : run) : run * option runError :=
  let s := logEvent s StartConvert in
  match ProcessHtmlFiles ConvertString outputDir (ConvState (rfs s) []) with
  | (c, Some err) =>
      (Run (cfs c) (events s ++ map ConvertLine (clog c)), Some (ProcessFailed err))
  | (c, None) =>
      let s := Run (cfs c) (events s ++ map ConvertLine (clog c)) in
      let s := logEvent s StartRenameHtml in
      match stage (RenameHtmlFiles (RenamePrefix args) outputDir) s with
      | (s, Some err) => (s, Some (RenameHtmlFailed err))
      | (s, None) =>
          let s := logEvent s StartRenameDirectories in
          match stage (RenameDirectoriesToLowercase outputDir) s with
          | (s, Some err) => (s, Some (LowercaseFailed err))
          | (s, None) =>
              let s := logEvent s StartMdBook in
              match stage (GenerateMdBookFiles (RenamePrefix args) outputDir) s with
              | (s, Some err) => (s, Some (MdBookFailed err))
              | (s, None) =>
                  (logEvent s (Finished (InputDir args) outputDir), None)
              end
          end
      end
  end.

(** [ConvertHtmlToMarkdown]. *)
Definition ConvertHtmlToMarkdown (s : run) : run * option runError :=
  match lookup (rfs s) (InputDir args) with
  | None => (s, Some (InputMissing (InputDir args)))
  | Some _ =>
      let outputDir := outputDirOf args in
      match lookup (rfs s) outputDir with
      | None =>
          match MkdirAll (rfs s) outputDir with
          | None => (s, Some OutputDirFailed)
          | Some n =>
              match stage (CopyDirectory (InputDir args) outputDir)
                      (Run n (events s)) with
              | (s, Some err) => (s, Some (CopyFailed err))
              | (s, None) => convertStages outputDir s
              end
          end
      | Some _ => convertStages outputDir (logEvent s (OutputDirExists outputDir))
      end
  end.

End Run.

(** *** Directories stay directories *)

Definition keepsDirs (n n' : node) : Prop :=
  forall m es, lookup n m = Some (Dir es) -> exists es', lookup n' m = Some (Dir es').

Lemma keepsDirs_refl (n : node) : keepsDirs n n.
Proof. intros m es H. eauto. Qed.

Lemma keepsDirs_trans (n1 n2 n3 : node) :
  keepsDirs n1 n2 -> keepsDirs n2 n3 -> keepsDirs n1 n3.
Proof. intros H12 H23 m es H. destruct (H12 m es H) as [es' H']. by eapply H23. Qed.

Lemma MkdirAll_keepsDirs (n n' : node) (p : path) :
  MkdirAll n p = Some n' -> keepsDirs n n'.
Proof.
  intros Hmk m es Hm. pose proof (MkdirAll_keeps _ _ _ Hmk m) as Hk.
  by rewrite Hm in Hk.
Qed.

Lemma CopyFile_keepsDirs (n n' : node) (src dst : path) (res : option error) :
  CopyFile n src dst = (n', res) -> keepsDirs n n'.
Proof.
  unfold CopyFile. destruct (lookup n src) as [s|]; [|intros [= <- _]; apply keepsDirs_refl].
  destruct (MkdirAll n (removelast dst)) as [n1|] eqn:Hmk;
    [|intros [= <- _]; apply keepsDirs_refl].
  apply MkdirAll_keepsDirs in Hmk.
  assert (H2 : forall data n2 res2,
            match WriteFile n1 dst data with
            | inl n2 => (n2, res2)
            | inr err => (n1, Some err)
            end = (n2, res) -> keepsDirs n n2).
  { intros data n2 res2. destruct (WriteFile n1 dst data) as [n3|err] eqn:Hw.
    - intros [= <- _]. eapply keepsDirs_trans; [done|].
      by apply WriteFile_keeps_files in Hw as (_ & _ & _ & Hw).
    - by intros [= <- _]. }
  destruct s as [data|es]; intros H; by eapply H2.
Qed.

Lemma CopyDirectory_keepsDirs (src dst : path) (st st' : state) (res : option error) :
  CopyDirectory src dst st = (st', res) -> keepsDirs (fs st) (fs st').
Proof.
  unfold CopyDirectory, Walk. destruct (lookup (fs st) src) as [r|].
  2: { intros [= <- <-]. apply keepsDirs_refl. }
  generalize (walk src r). intros entries. revert st.
  assert (Hstep : forall p isdir s s' r,
            copyEntry src dst p isdir s = (s', r) -> keepsDirs (fs s) (fs s')).
  { intros p isdir s s' r0. unfold copyEntry. cbv zeta. destruct isdir.
    - destruct (MkdirAll (fs s) _) as [n1|] eqn:Hmk; intros [= <- <-].
      + by eapply MkdirAll_keepsDirs.
      + apply keepsDirs_refl.
    - destruct (CopyFile (fs s) p _) as [n1 err] eqn:Hcopy. intros [= <- <-].
      by eapply CopyFile_keepsDirs. }
  induction entries as [|[p isdir] entries IH]; intros st H.
  - injection H as <- <-. apply keepsDirs_refl.
  - cbn [visit] in H.
    destruct (copyEntry src dst p isdir st) as [st1 [err|]] eqn:Hfirst.
    + injection H as <- <-. by eapply Hstep.
    + eapply keepsDirs_trans; [by eapply Hstep|by apply IH].
Qed.

(** *** Nothing outside the output directory *)

Lemma stage_fs {E : Type} (f : state -> state * option E) (s s' : run)
    (res : option E) :
  stage f s = (s', res) ->
  exists st, f (State (rfs s) []) = (st, res) /\ rfs s' = fs st.
Proof.
  unfold stage. destruct (f (State (rfs s) [])) as [st r]. intros [= <- <-].
  by exists st.
Qed.

Lemma convertStages_outside (ConvertString : str -> option str) (args : Args)
    (outputDir : path) (s s' : run) (res : option runError) entries :
  "/"%char ∉ RenamePrefix args ->
  fileNames (rfs s) = true ->
  lookup (rfs s) outputDir = Some (Dir entries) ->
  convertStages ConvertString args outputDir s = (s', res) ->
  outside outputDir (rfs s) (rfs s').
Proof.
  intros Hprefix Hnames Hdir. unfold convertStages. cbv zeta. cbn [logEvent rfs events].
  destruct (ProcessHtmlFiles ConvertString outputDir (ConvState (rfs s) []))
    as [c res1] eqn:Hprocess.
  pose proof (ProcessHtmlFiles_outside ConvertString outputDir
                (ConvState (rfs s) []) c res1 entries Hdir Hprocess) as H1.
  assert (Hdir1 : exists es, lookup (cfs c) outputDir = Some (Dir es)).
  { unfold ProcessHtmlFiles in Hprocess. cbn [cfs] in Hprocess.
    rewrite Hdir in Hprocess.
    apply visitWith_frame in Hprocess as [_ Hdirs]. by eapply Hdirs. }
  apply ProcessHtmlFiles_fileNames in Hprocess; [|done].
  cbn [cfs] in H1. destruct res1 as [err|]; [by intros [= <- _]|].
  destruct Hdir1 as [es1 Hdir1].
  destruct (lookup_fileNames _ _ _ Hprocess Hdir1) as [_ Hes1].
  destruct (stage (RenameHtmlFiles (RenamePrefix args) outputDir) _)
    as [s2 res2] eqn:Hhtml.
  apply stage_fs in Hhtml as (st2 & Hhtml & Hfs2). cbn [rfs] in Hhtml.
  apply (RenameHtmlFiles_outside _ _ (State (cfs c) []) _ _ es1 Hprefix Hdir1 Hes1)
    in Hhtml.
  cbn [fs] in Hhtml.
  rewrite <- Hfs2 in Hhtml.
  destruct res2 as [err|]; [intros [= <- _]; by eapply outside_trans|].
  destruct (stage (RenameDirectoriesToLowercase outputDir) _) as [s3 res3] eqn:Hlower.
  apply stage_fs in Hlower as (st3 & Hlower & Hfs3). cbn [rfs logEvent] in Hlower.
  apply renameDirectories_outside in Hlower. cbn [fs] in Hlower.
  rewrite <- Hfs3 in Hlower.
  assert (H3 : outside outputDir (rfs s) (rfs s3)).
  { eapply outside_trans; [|done]. by eapply outside_trans. }
  destruct res3 as [err|]; [by intros [= <- _]|].
  destruct (stage (GenerateMdBookFiles (RenamePrefix args) outputDir) _)
    as [s4 res4] eqn:Hbook.
  apply stage_fs in Hbook as (st4 & Hbook & Hfs4). cbn [rfs logEvent] in Hbook.
  apply GenerateMdBookFiles_outside in Hbook. cbn [fs] in Hbook.
  rewrite <- Hfs4 in Hbook.
  destruct res4 as [err|]; intros [= <- _]; by eapply outside_trans.
Qed.

Lemma suffixed_segment (name suffix : str) :
  segment name -> "/"%char ∉ suffix -> segment (name ++ suffix).
Proof.
  intros (Hne & Hsep & Hdot & Hdotdot) Hsuffix. repeat split.
  - by destruct name.
  - by rewrite not_elem_of_app.
  - intros H. apply app_eq_unit in H as [[H _]|[H _]]; done.
  - destruct name as [|c [|c' [|c'' name]]]; [done| | |done].
    + intros [= -> H]. by apply Hdot.
    + intros [= -> -> H]. by apply Hdotdot.
Qed.

(** With a suffix without separator the output directory is next to the
    input directory, under its name followed by the suffix. *)
Lemma outputDirOf_snoc (args : Args) (d : path) (x : str) :
  InputDir args = d ++ [x] -> segment x -> "/"%char ∉ Suffix args ->
  outputDirOf args = d ++ [x ++ Suffix args].
Proof.
  intros H Hx Hsuffix. unfold outputDirOf, baseName. rewrite H.
  destruct (d ++ [x]) as [|y l] eqn:E; [by destruct d|].
  rewrite <- E, removelast_snoc, last_snoc'.
  by apply joinName_segment, suffixed_segment.
Qed.

Lemma outputDirOf_fileNames (args : Args) :
  Forall segment (InputDir args) -> Forall segment (outputDirOf args).
Proof. intros H. by apply joinName_fileNames, Forall_removelast. Qed.

(** X16.  In a tree whose names are names of files, for an input
    directory given by the names that lead to it (none is [.] or [..])
    and a prefix of the renamed originals without separator, a run of
    [ConvertHtmlToMarkdown] whose output path is not a file works at the
    output directory only, whatever it returns: every path that is neither
    the output directory, nor above it, nor below it is afterwards as it
    was before.  The output directory is what [filepath.Join] makes of
    the directory of the input and of its name followed by the suffix.
    With a suffix that is not empty and has no separator the input
    directory and all that is below it are among the paths left alone:
    the input is never changed. *)
Theorem ConvertHtmlToMarkdown_outside (ConvertString : str -> option str)
    (args : Args) (s s' : run) (res : option runError) :
  fileNames (rfs s) = true ->
  Forall segment (InputDir args) ->
  "/"%char ∉ RenamePrefix args ->
  (forall d, lookup (rfs s) (outputDirOf args) <> Some (File d)) ->
  ConvertHtmlToMarkdown ConvertString args s = (s', res) ->
  (forall q, diverge (outputDirOf args) q -> lookup (rfs s') q = lookup (rfs s) q)
  /\ (InputDir args <> [] -> Suffix args <> [] -> "/"%char ∉ Suffix args ->
      forall r, lookup (rfs s') (InputDir args ++ r) = lookup (rfs s) (InputDir args ++ r)).
Proof.
  intros Hnames Hinput Hprefix Hfile Hrun.
  pose proof (outputDirOf_fileNames args Hinput) as Houtput.
  assert (Hout : outside (outputDirOf args) (rfs s) (rfs s')).
  { unfold ConvertHtmlToMarkdown in Hrun. cbv zeta in Hrun.
    destruct (lookup (rfs s) (InputDir args)) as [input|];
      [|injection Hrun as <- _; apply outside_refl].
    destruct (lookup (rfs s) (outputDirOf args)) as [[d|es]|] eqn:Hdir.
    - by destruct (Hfile d).
    - by apply (convertStages_outside _ _ _ _ _ _ es) in Hrun.
    - destruct (MkdirAll (rfs s) (outputDirOf args)) as [n|] eqn:Hmk;
        [|injection Hrun as <- _; apply outside_refl].
      destruct (MkdirAll_lookup _ _ _ Hmk) as [es Hes].
      pose proof (MkdirAll_fileNames _ _ _ Hnames Houtput Hmk) as Hn.
      apply MkdirAll_outside in Hmk.
      destruct (stage (CopyDirectory (InputDir args) (outputDirOf args)) _)
        as [s1 res1] eqn:Hcopy.
      apply stage_fs in Hcopy as (st1 & Hcopy & Hfs1). cbn [rfs] in Hcopy.
      pose proof (CopyDirectory_outside _ _ _ _ _ Hcopy) as H1.
      pose proof (CopyDirectory_fileNames _ _ (State n []) _ _ Hn Houtput Hcopy) as Hn1.
      apply CopyDirectory_keepsDirs in Hcopy. cbn [fs] in Hcopy, H1.
      rewrite <- Hfs1 in Hcopy, H1, Hn1. destruct (Hcopy _ _ Hes) as [es1 Hes1].
      destruct res1 as [err|].
      + injection Hrun as <- _. by eapply outside_trans.
      + apply (convertStages_outside _ _ _ _ _ _ es1 Hprefix Hn1 Hes1) in Hrun.
        eapply outside_trans; [|done]. by eapply outside_trans. }
  split; [done|]. intros Hne Hsuffix Hsep r. apply Hout.
  destruct (exists_last Hne) as (d & x & Hd).
  assert (Hx : segment x).
  { rewrite Hd in Hinput. apply Forall_app in Hinput as [_ Hx].
    by apply Forall_cons in Hx as [Hx _]. }
  rewrite (outputDirOf_snoc _ _ _ Hd Hx Hsep), Hd, <- app_assoc.
  apply diverge_siblings.
  intros H. apply (f_equal length) in H. rewrite length_app in H.
  destruct (Suffix args); [done|]. simpl in H. lia.
Qed.

Definition inputTree : node :=
  Dir [("doc" : str,
        Dir [("Sub" : str, Dir [("Child.html" : str, File "[up](../page.html)")]);
             ("page.html" : str, File "[c](Sub/Child.html#x)")])].

Lemma ConvertHtmlToMarkdown_outside_witness :
  let s' := (ConvertHtmlToMarkdown Some (MkArgs ["doc" : str] "_converted" "_")
               (Run inputTree [])).1 in
  (forall q, diverge ["doc_converted" : str] q -> lookup (rfs s') q = lookup inputTree q)
  /\ (["doc" : str] <> [] -> "_converted" <> [] :> str ->
      "/"%char ∉ ("_converted" : str) ->
      forall r, lookup (rfs s') (["doc" : str] ++ r) = lookup inputTree (["doc" : str] ++ r)).
Proof.
  intros s'.
  apply (ConvertHtmlToMarkdown_outside Some (MkArgs ["doc" : str] "_converted" "_")
           (Run inputTree []) s'
           (ConvertHtmlToMarkdown Some (MkArgs ["doc" : str] "_converted" "_")
              (Run inputTree [])).2).
  - reflexivity.
  - constructor; [|constructor]. by apply (bool_decide_unpack _).
  - by apply (bool_decide_unpack _).
  - intros d. vm_compute. discriminate.
  - reflexivity.
Defined.

(** ** What the copy of the input makes *)

(** Below [target] the tree [n] has what the tree [c] has: its files
    with their data, its directories, and nothing else. *)
Definition copyOf (c : node) (target : path) (n : node) : Prop :=
  forall q,
    match lookup c q with
    | Some (File d) => lookup n (target ++ q) = Some (File d)
    | Some (Dir _) => exists es, lookup n (target ++ q) = Some (Dir es)
    | None => lookup n (target ++ q) = None
    end.

Lemma MkdirAll_new (n : node) (parent : path) (x : str) entries :
  lookup n parent = Some (Dir entries) ->
  lookup n (parent ++ [x]) = None ->
  exists n', MkdirAll n (parent ++ [x]) = Some n'
             /\ lookup n' (parent ++ [x]) = Some (Dir []).
Proof.
  revert n. induction parent as [|y p IH]; intros n Hparent Hnew.
  - cbn in Hparent. injection Hparent as ->. cbn [app lookup] in Hnew.
    destruct (find x entries) eqn:Hfind; [done|].
    exists (Dir (put x (Dir []) entries)). cbn [app MkdirAll lookup].
    rewrite Hfind. cbn [default from_option id]. by rewrite find_put_eq.
  - destruct n as [data|es0]; [done|]. cbn [lookup app] in Hparent, Hnew.
    destruct (find y es0) as [c|] eqn:Hfind; [|done].
    destruct (IH c Hparent Hnew) as (c' & Hc' & Hlook).
    exists (Dir (put y c' es0)).
    change (MkdirAll (Dir es0) ((y :: p) ++ [x]))
      with (match MkdirAll (default (Dir []) (find y es0)) (p ++ [x]) with
            | Some c' => Some (Dir (put y c' es0))
            | None => None
            end).
    rewrite Hfind. cbn [default from_option id]. rewrite Hc'. cbn [app lookup].
    by rewrite find_put_eq.
Qed.

Lemma find_None_notin (x : str) (entries : list (str * node)) :
  find x entries = None -> x ∉ map fst entries.
Proof.
  induction entries as [|[y c] entries IH]; [intros _; apply not_elem_of_nil|].
  cbn [find map fst]. destruct (decide (y = x)); [done|].
  intros H. apply not_elem_of_cons. split; [done|by apply IH].
Qed.

Section Copy.

Variables (src dst : path).
Hypothesis src_dst : diverge src dst.

Lemma dst_src_diverge (a b : path) : diverge (dst ++ a) (src ++ b).
Proof. by apply diverge_app_r, diverge_sym. Qed.

(** What holds after the entries of the source tree [c] at [src ++ rel]
    have been visited. *)
Definition copied (c : node) (rel : path) (s : state) : Prop :=
  exists s',
    visit (copyEntry src dst) (walk (src ++ rel) c) s = (s', None)
    /\ log s' = log s
    /\ outside (dst ++ rel) (fs s) (fs s')
    /\ keepsDirs (fs s) (fs s')
    /\ copyOf c (dst ++ rel) (fs s').

Lemma copyEntry_file (rel : path) (data : str) (s : state) entries :
  dst ++ rel <> [] ->
  lookup (fs s) (src ++ rel) = Some (File data) ->
  lookup (fs s) (removelast (dst ++ rel)) = Some (Dir entries) ->
  lookup (fs s) (dst ++ rel) = None ->
  copied (File data) rel s.
Proof.
  intros Hne Hsrc Hparent Hfree. unfold copied. cbn [walk isDir visit].
  unfold copyEntry. rewrite drop_app_length. cbv zeta.
  destruct (MkdirAll_existing _ _ _ Hparent) as (n1 & Hmk & Hparent1 & Hother).
  assert (Hfree1 : forall es, lookup n1 (dst ++ rel) <> Some (Dir es)).
  { intros es. rewrite Hother; [by rewrite Hfree|].
    intros [r Hr]. apply (f_equal length) in Hr.
    rewrite (app_removelast_last [] Hne) in Hr at 2.
    rewrite !length_app in Hr. simpl in Hr. lia. }
  rewrite (app_removelast_last [] Hne) in Hfree1.
  destruct (WriteFile_new_file n1 _ _ data entries Hparent1 Hfree1)
    as (n2 & Hwrite & Hnew & _ & _).
  rewrite <- (app_removelast_last [] Hne) in Hwrite, Hnew.
  destruct (CopyFile (fs s) (src ++ rel) (dst ++ rel)) as [n' res] eqn:Hcopy.
  pose proof (CopyFile_outside _ _ _ _ _ Hcopy) as Hout.
  pose proof (CopyFile_keepsDirs _ _ _ _ _ Hcopy) as Hdirs.
  unfold CopyFile in Hcopy. rewrite Hsrc, Hmk in Hcopy.
  rewrite decide_False, Hwrite in Hcopy by (intros Heq; congruence).
  injection Hcopy as <- <-. exists (setFs s n2). repeat split; try done.
  intros q. destruct q as [|y q].
  - cbn [lookup]. by rewrite app_nil_r.
  - cbn [lookup setFs fs]. by rewrite lookup_app, Hnew.
Qed.

(** The entries of a directory, one after the other. *)
Lemma copy_children (rel : path) (entries : list (str * node)) :
  Forall (fun e => forall rel s es,
            wellFormed e.2 = true ->
            lookup (fs s) (src ++ rel) = Some e.2 ->
            dst ++ rel <> [] ->
            lookup (fs s) (removelast (dst ++ rel)) = Some (Dir es) ->
            lookup (fs s) (dst ++ rel) = None ->
            copied e.2 rel s) entries ->
  NoDup (map fst entries) ->
  Forall (fun e => wellFormed e.2 = true) entries ->
  forall s es,
    (forall x c, (x, c) ∈ entries -> lookup (fs s) (src ++ rel ++ [x]) = Some c) ->
    lookup (fs s) (dst ++ rel) = Some (Dir es) ->
    (forall x, x ∈ map fst entries -> lookup (fs s) (dst ++ rel ++ [x]) = None) ->
    exists s',
      visit (copyEntry src dst)
        (flat_map (fun e => walk ((src ++ rel) ++ [e.1]) e.2) entries) s = (s', None)
      /\ log s' = log s
      /\ (forall q, (forall x, x ∈ map fst entries -> diverge (dst ++ rel ++ [x]) q) ->
                    lookup (fs s') q = lookup (fs s) q)
      /\ keepsDirs (fs s) (fs s')
      /\ (forall x c, (x, c) ∈ entries -> copyOf c (dst ++ rel ++ [x]) (fs s')).
Proof.
  induction 1 as [|[x c] entries IHc _ IH]; intros Hnodup Hwf s es Hsrc Hdir Hfree.
  - exists s. repeat split; try done.
    + apply keepsDirs_refl.
    + by intros x c ?%elem_of_nil.
  - cbn [map fst snd] in *. apply NoDup_cons in Hnodup as [Hx Hnodup].
    apply Forall_cons in Hwf as [Hwfc Hwf]. cbn [fst snd] in *.
    destruct (IHc (rel ++ [x]) s es) as (s1 & Hvisit1 & Hlog1 & Hout1 & Hdirs1 & Hcopy1).
    + done.
    + apply Hsrc. by left.
    + intros H. apply (f_equal length) in H. rewrite !length_app in H.
      simpl in H. lia.
    + by rewrite app_assoc, removelast_snoc.
    + apply Hfree. by left.
    + destruct (Hdirs1 _ _ Hdir) as [es1 Hdir1].
      destruct (IH Hnodup Hwf s1 es1) as (s2 & Hvisit2 & Hlog2 & Hout2 & Hdirs2 & Hcopy2).
      * intros x' c' Hin. rewrite Hout1; [apply Hsrc; by right|].
        apply dst_src_diverge.
      * done.
      * intros x' Hin. rewrite Hout1; [apply Hfree; by right|].
        rewrite <- (app_nil_r (dst ++ rel ++ [x'])).
        apply sibling_paths_diverge. by intros ->.
      * exists s2. split; [|split; [|split; [|split]]].
        -- cbn [flat_map fst snd]. rewrite visit_app.
           rewrite <- (app_assoc src). by rewrite Hvisit1.
        -- congruence.
        -- intros q Hq. rewrite Hout2, Hout1; [done|..].
           ++ apply Hq. by left.
           ++ intros x' Hin. apply Hq. by right.
        -- by eapply keepsDirs_trans.
        -- intros x' c' [[= -> ->]|Hin]%elem_of_cons.
           ++ intros q. specialize (Hcopy1 q).
              rewrite Hout2; [done|]. intros x' Hin.
              apply sibling_paths_diverge. by intros ->.
           ++ by apply Hcopy2.
Qed.

Lemma copy_walk (c : node) :
  forall rel s es,
    wellFormed c = true ->
    lookup (fs s) (src ++ rel) = Some c ->
    dst ++ rel <> [] ->
    lookup (fs s) (removelast (dst ++ rel)) = Some (Dir es) ->
    lookup (fs s) (dst ++ rel) = None ->
    copied c rel s.
Proof.
  induction c as [data|entries IH] using node_ind';
    intros rel s es Hwf Hsrc Hne Hparent Hfree.
  - by eapply copyEntry_file.
  - apply wellFormed_Dir in Hwf as [Hnodup Hwf].
    rewrite (app_removelast_last [] Hne) in Hfree.
    destruct (MkdirAll_new _ _ _ _ Hparent Hfree) as (n1 & Hmk & Hnew).
    rewrite <- (app_removelast_last [] Hne) in Hmk, Hnew.
    pose proof (MkdirAll_outside _ _ _ Hmk) as Hout1.
    pose proof (MkdirAll_keepsDirs _ _ _ Hmk) as Hdirs1.
    destruct (copy_children rel entries IH Hnodup Hwf (setFs s n1) [])
      as (s2 & Hvisit & Hlog & Hout2 & Hdirs2 & Hcopy).
    + intros x c Hin. cbn [setFs fs]. rewrite Hout1 by apply dst_src_diverge.
      rewrite (app_assoc src), (lookup_snoc_dir _ _ _ _ Hsrc). by apply find_elem.
    + done.
    + intros x _. cbn [setFs fs]. by rewrite app_assoc, lookup_app, Hnew.
    + exists s2. split; [|split; [|split; [|split]]].
      * rewrite walk_Dir. cbn [visit]. unfold copyEntry at 1.
        rewrite drop_app_length. cbv zeta. by rewrite Hmk.
      * done.
      * intros q Hq. rewrite Hout2; [by apply Hout1|].
        intros x _. rewrite (app_assoc dst), <- (app_nil_r q). by apply diverge_app_r.
      * by eapply keepsDirs_trans.
      * intros [|x q].
        -- cbn [lookup]. rewrite app_nil_r. by eapply Hdirs2.
        -- cbn [lookup].
           replace ((dst ++ rel) ++ x :: q) with ((dst ++ rel ++ [x]) ++ q)
             by (by rewrite <- !app_assoc).
           destruct (find x entries) as [c|] eqn:Hfind.
           ++ apply find_Some_elem in Hfind. exact (Hcopy x c Hfind q).
           ++ apply find_None_notin in Hfind.
              rewrite Hout2.
              ** cbn [setFs fs]. rewrite <- !app_assoc, (app_assoc dst), lookup_app, Hnew.
                 done.
              ** intros x' Hin. apply sibling_paths_diverge. by intros ->.
Qed.

End Copy.

(** X17. [CopyDirectory] into an empty directory [dst] apart from the
    source directory [src] succeeds and logs nothing; afterwards [dst]
    holds the files of [src] with their data at the same relative paths,
    its directories, and nothing else, and no path apart from [dst] has
    changed. *)
Theorem CopyDirectory_copies (src dst : path) (st : state) entries :
  diverge src dst ->
  lookup (fs st) src = Some (Dir entries) ->
  wellFormed (Dir entries) = true ->
  lookup (fs st) dst = Some (Dir []) ->
  exists st',
    CopyDirectory src dst st = (st', None)
    /\ log st' = log st
    /\ copyOf (Dir entries) dst (fs st')
    /\ outside dst (fs st) (fs st').
Proof.
  intros Hdiv Hsrc Hwf Hdst. apply wellFormed_Dir in Hwf as [Hnodup Hwf].
  destruct (MkdirAll_existing _ _ _ Hdst) as (n1 & Hmk & Hnew & _).
  pose proof (MkdirAll_outside _ _ _ Hmk) as Hout1.
  pose proof (MkdirAll_keepsDirs _ _ _ Hmk) as Hdirs1.
  destruct (copy_children src dst Hdiv [] entries) with (s := setFs st n1) (es := @nil (str * node))
    as (s2 & Hvisit & Hlog & Hout2 & Hdirs2 & Hcopy).
  - apply Forall_forall. intros e _ rel s es. by apply copy_walk.
  - done.
  - done.
  - intros x c Hin. cbn [setFs fs app].
    rewrite Hout1 by (rewrite <- (app_nil_r dst); by apply diverge_app_r, diverge_sym).
    rewrite (lookup_snoc_dir _ _ _ _ Hsrc). by apply find_elem.
  - by rewrite app_nil_r.
  - intros x _. cbn [setFs fs app]. by rewrite lookup_app, Hnew.
  - rewrite !app_nil_r in *. cbn [app] in *.
    exists s2. split; [|split; [|split]].
    + unfold CopyDirectory, Walk. rewrite Hsrc, walk_Dir. cbn [visit].
      unfold copyEntry at 1. rewrite drop_all. cbv zeta. rewrite app_nil_r.
      by rewrite Hmk.
    + done.
    + intros [|x q].
      * cbn [lookup]. rewrite app_nil_r. by eapply Hdirs2.
      * cbn [lookup].
        replace (dst ++ x :: q) with ((dst ++ [x]) ++ q) by (by rewrite <- app_assoc).
        destruct (find x entries) as [c|] eqn:Hfind.
        -- apply find_Some_elem in Hfind. exact (Hcopy x c Hfind q).
        -- apply find_None_notin in Hfind. rewrite Hout2.
           ++ cbn [setFs fs]. by rewrite <- app_assoc, lookup_app, Hnew.
           ++ intros x' Hin. rewrite <- app_assoc. apply diverge_siblings.
              by intros ->.
    + intros q Hq. rewrite Hout2; [by apply Hout1|].
      intros x _. rewrite <- (app_nil_r q). by apply diverge_app_r.
Qed.

Definition copyTree : node :=
  Dir [("doc" : str,
        Dir [("Sub" : str, Dir [("Child.html" : str, File "child")]);
             ("page.html" : str, File "page")]);
       ("out" : str, Dir [])].

Lemma CopyDirectory_copies_witness :
  exists st',
    CopyDirectory ["doc" : str] ["out" : str] (State copyTree []) = (st', None)
    /\ log st' = []
    /\ copyOf (Dir [("Sub" : str, Dir [("Child.html" : str, File "child")]);
                    ("page.html" : str, File "page")]) ["out" : str] (fs st')
    /\ outside ["out" : str] copyTree (fs st').
Proof.
  apply (CopyDirectory_copies ["doc" : str] ["out" : str] (State copyTree [])).
  - by constructor.
  - reflexivity.
  - reflexivity.
  - reflexivity.
Defined.

(** ** What a run without error leaves *)







(** ** The case normalizer on a tree without collisions *)

(** The name an entry has when the normalizer is done: a directory has
    its name in lower case, a file keeps its name. *)
Definition finalName (e : str * node) : str :=
  if isDir e.2 then ToLower e.1 else e.1.

(** In no directory of the tree two entries come under one name, and the
    temporary name of a directory to rename is neither the name of an
    entry next to it nor the name one of them comes under. *)
Fixpoint collisionFree (n : node) : bool :=
  match n with
  | File _ => true
  | Dir entries =>
      bool_decide (NoDup (map finalName entries))
      && forallb (fun e : str * node =>
                    negb (isDir e.2) || bool_decide (e.1 = ToLower e.1)
                    || bool_decide (e.1 ++ "_temp_rename"
                                    ∉ map fst entries ++ map finalName entries))
           entries
      && (fix all (entries : list (str * node)) : bool :=
            match entries with
            | [] => true
            | (_, c) :: entries' => collisionFree c && all entries'
            end) entries
  end.

(** The tree [c'] is the tree [c] with the names of its directories in
    lower case. *)
Inductive lowered : node -> node -> Prop :=
| lowered_File (d : str) : lowered (File d) (File d)
| lowered_Dir (es es' : list (str * node)) :
    (forall x c, find x es = Some c -> is_Some (find (finalName (x, c)) es')) ->
    (forall x c c', find x es = Some c -> find (finalName (x, c)) es' = Some c' ->
       lowered c c') ->
    (forall y c', find y es' = Some c' ->
       exists x c, find x es = Some c /\ y = finalName (x, c)) ->
    lowered (Dir es) (Dir es').

(** The directories at and below [p]. *)
Definition dirsAt (p : path) (c : node) : list path :=
  if isDir c then p :: subdirectories p c else [].

Definition onlyRenames (l : list logmsg) : Prop :=
  Forall (fun m => exists p q, m = DirRenamed p q) l.

(** A directory whose name is not in lower case. *)
Definition notLower (p : path) : bool :=
  negb (bool_decide (List.last p [] = ToLower (List.last p []))).

(** The line of the log for a directory that has been renamed. *)
Definition renameLine (p : path) : logmsg :=
  DirRenamed p (removelast p ++ [ToLower (List.last p [])]).

(** The lines of a run in which every directory to rename is renamed from
    the path it was collected under. *)
Definition renameLines (directories : list path) : list logmsg :=
  map renameLine (List.filter notLower directories).

(** What holds when the directories below [p], where [c] is, have been
    renamed. *)
Definition lowersTo (p : path) (c : node) (s : state) : Prop :=
  let s' := renameEach (reverse (subdirectories p c)) s in
  exists c',
    lookup (fs s') p = Some c'
    /\ lowered c c'
    /\ outside p (fs s) (fs s')
    /\ log s' = log s ++ renameLines (reverse (subdirectories p c)).

Lemma renameLines_app (l1 l2 : list path) :
  renameLines (l1 ++ l2) = renameLines l1 ++ renameLines l2.
Proof. unfold renameLines. by rewrite List.filter_app, map_app. Qed.

Lemma renameLines_snoc (l : list path) (p : path) (x : str) :
  renameLines (l ++ [p ++ [x]])
  = renameLines l
    ++ (if decide (x = ToLower x) then []
        else [DirRenamed (p ++ [x]) (p ++ [ToLower x])]).
Proof.
  rewrite renameLines_app. f_equal. unfold renameLines, notLower, renameLine.
  cbn [List.filter]. rewrite last_snoc'.
  destruct (decide (x = ToLower x)) as [Hx|Hx].
  - by rewrite bool_decide_eq_true_2.
  - rewrite bool_decide_eq_false_2 by done. cbn [negb map].
    by rewrite removelast_snoc, last_snoc'.
Qed.

Lemma renameLines_onlyRenames (l : list path) : onlyRenames (renameLines l).
Proof.
  unfold onlyRenames, renameLines. apply Forall_fmap, Forall_forall.
  intros p _. unfold renameLine. cbn. eauto.
Qed.

Lemma collisionFree_Dir entries :
  collisionFree (Dir entries) = true <->
  NoDup (map finalName entries)
  /\ (forall e, e ∈ entries -> isDir e.2 = true -> e.1 <> ToLower e.1 ->
        e.1 ++ "_temp_rename" ∉ map fst entries ++ map finalName entries)
  /\ Forall (fun e => collisionFree e.2 = true) entries.
Proof.
  cbn [collisionFree]. rewrite !andb_true_iff, bool_decide_eq_true, forallb_forall.
  split.
  - intros [[Hnodup Htemp] Hall]. split; [done|]. split.
    + intros e He Hdir Hx. apply list_elem_of_In, Htemp in He.
      rewrite Hdir in He. cbn [negb orb] in He.
      rewrite bool_decide_eq_false_2 in He by done. by apply bool_decide_eq_true in He.
    + clear Htemp Hnodup. induction entries as [|[x c] entries IH]; [constructor|].
      apply andb_true_iff in Hall as [Hc Hall]. constructor; [done|by apply IH].
  - intros (Hnodup & Htemp & Hall). split; [split; [done|]|].
    + intros e He%list_elem_of_In. destruct (isDir e.2) eqn:Hdir; [|done].
      cbn [negb orb]. destruct (decide (e.1 = ToLower e.1)) as [Hx|Hx].
      * by rewrite bool_decide_eq_true_2.
      * rewrite bool_decide_eq_false_2 by done. apply bool_decide_eq_true.
        by apply Htemp.
    + clear Htemp Hnodup. induction Hall as [|[x c] entries Hc _ IH]; [done|].
      apply andb_true_iff. by split.
Qed.

Lemma renameEach_app (l1 l2 : list path) (st : state) :
  renameEach (l1 ++ l2) st = renameEach l2 (renameEach l1 st).
Proof.
  revert st. induction l1 as [|p l1 IH]; intros st; [done|].
  cbn [app renameEach]. by destruct (renameSingleDirectoryToLowercase p st) as [st1 [err|]].
Qed.

Lemma filter_directories (q : path) (l : list (path * bool)) :
  (forall e, e ∈ l -> e.1 <> q) ->
  List.filter (fun e : path * bool => e.2 && negb (bool_decide (e.1 = q))) l
  = List.filter (fun e : path * bool => e.2) l.
Proof.
  intros H. apply List.filter_ext_in. intros e He%list_elem_of_In.
  rewrite bool_decide_eq_false_2 by by apply H. by rewrite andb_true_r.
Qed.

Lemma below_ne (p : path) (x : str) (r : path) : p ++ x :: r <> p.
Proof.
  intros H. apply (f_equal length) in H. rewrite length_app in H. simpl in H. lia.
Qed.

Lemma filter_walk (p : path) (c : node) :
  map fst (List.filter (fun e : path * bool => e.2) (walk p c)) = dirsAt p c.
Proof.
  unfold dirsAt, subdirectories. destruct c as [d|es]; [done|].
  rewrite walk_Dir. cbn [List.filter fst snd isDir andb map].
  rewrite bool_decide_eq_true_2 by done. cbn [negb]. do 2 f_equal.
  symmetry. apply filter_directories. intros e He.
  apply list_elem_of_In, in_flat_map in He as ([x c] & _ & He).
  apply list_elem_of_In, walk_entries_child in He as [r ->]. apply below_ne.
Qed.

Lemma subdirectories_Dir (p : path) entries :
  subdirectories p (Dir entries)
  = flat_map (fun e => dirsAt (p ++ [e.1]) e.2) entries.
Proof.
  unfold subdirectories. rewrite walk_Dir. cbn [List.filter fst snd andb].
  rewrite bool_decide_eq_true_2 by done. cbn [negb].
  induction entries as [|[x c] entries IH]; [done|].
  cbn [flat_map fst snd]. rewrite List.filter_app, map_app, IH. f_equal.
  rewrite <- filter_walk. f_equal. apply filter_directories.
  intros e [r ->]%walk_entries_child. apply below_ne.
Qed.

Lemma NoDup_map_eq {A B} (f : A -> B) (l : list A) (a b : A) :
  NoDup (map f l) -> a ∈ l -> b ∈ l -> f a = f b -> a = b.
Proof.
  induction l as [|x l IH]; [by intros _ ?%elem_of_nil|].
  cbn [map]. intros [Hx Hl]%NoDup_cons [->|Ha]%elem_of_cons [->|Hb]%elem_of_cons Hab.
  - done.
  - exfalso. apply Hx. rewrite Hab. apply list_elem_of_fmap. by exists b.
  - exfalso. apply Hx. rewrite <- Hab. apply list_elem_of_fmap. by exists a.
  - by apply IH.
Qed.

Lemma find_not_name (y : str) (entries : list (str * node)) :
  y ∉ map fst entries -> find y entries = None.
Proof.
  intros H. destruct (find y entries) as [c|] eqn:Hfind; [|done].
  exfalso. apply H, list_elem_of_fmap. exists (y, c).
  split; [done|by apply find_Some_elem].
Qed.

(** One entry of a directory: what is below it, then the entry itself. *)
Lemma lower_entry (p : path) (x : str) (c : node) (s : state) :
  (forall p s, lookup (fs s) p = Some c -> wellFormed c = true ->
               collisionFree c = true -> lowersTo p c s) ->
  wellFormed c = true -> collisionFree c = true ->
  lookup (fs s) (p ++ [x]) = Some c ->
  (isDir c = true -> x <> ToLower x ->
   lookup (fs s) (p ++ [ToLower x]) = None
   /\ lookup (fs s) (p ++ [x ++ "_temp_rename"]) = None) ->
  let s2 := renameEach (reverse (dirsAt (p ++ [x]) c)) s in
  (exists c', lookup (fs s2) (p ++ [finalName (x, c)]) = Some c' /\ lowered c c')
  /\ (x <> finalName (x, c) -> lookup (fs s2) (p ++ [x]) = None)
  /\ (forall q, diverge (p ++ [x]) q -> diverge (p ++ [finalName (x, c)]) q ->
                lookup (fs s2) q = lookup (fs s) q)
  /\ log s2 = log s ++ renameLines (reverse (dirsAt (p ++ [x]) c)).
Proof.
  intros IH Hwf Hfree Hc Hnames. unfold dirsAt, finalName. cbn [fst snd].
  destruct (isDir c) eqn:Hdir.
  - rewrite reverse_cons, renameEach_app, renameLines_snoc.
    destruct (IH (p ++ [x]) s Hc Hwf Hfree) as (c' & Hc' & Hlow & Hout & Hlog).
    set (s1 := renameEach (reverse (subdirectories (p ++ [x]) c)) s) in *.
    cbn [renameEach]. destruct (decide (x = ToLower x)) as [Hx|Hx].
    + unfold renameSingleDirectoryToLowercase.
      rewrite last_snoc', decide_True by done. rewrite <- Hx.
      split; [by exists c'|]. split; [done|]. split; [|by rewrite app_nil_r].
      intros q Hq _. by apply Hout.
    + destruct (Hnames eq_refl Hx) as [Hfinal Htemp].
      destruct (renameSingle_moves p x s1 c' Hx Hc') as (n' & Hrun & Hnew & Hold & _ & Hframe).
      * rewrite Hout; [done|]. by apply siblings_diverge.
      * rewrite Hout; [done|]. apply siblings_diverge. intros H.
        by apply (temp_name_ne x).
      * rewrite Hrun. cbn [fs log]. split; [|split; [|split]].
        -- exists c'. split; [|done]. specialize (Hnew []).
           by rewrite app_nil_r in Hnew.
        -- done.
        -- intros q Hq1 Hq2. rewrite Hframe by done. by apply Hout.
        -- by rewrite Hlog, app_assoc.
  - cbn [reverse renameEach]. destruct c as [d|es]; [|done].
    split; [exists (File d); split; [done|constructor]|].
    split; [done|]. split; [done|]. by rewrite app_nil_r.
Qed.

(** The entries of a directory, the last one first. *)
Lemma lower_children (p : path) (todo : list (str * node)) :
  Forall (fun e => forall p s, lookup (fs s) p = Some e.2 -> wellFormed e.2 = true ->
                               collisionFree e.2 = true -> lowersTo p e.2 s) todo ->
  NoDup (map fst todo) ->
  NoDup (map finalName todo) ->
  (forall e e', e ∈ todo -> e' ∈ todo -> isDir e.2 = true -> e.1 <> ToLower e.1 ->
                e.1 ++ "_temp_rename" <> finalName e') ->
  Forall (fun e => wellFormed e.2 = true /\ collisionFree e.2 = true) todo ->
  forall s,
    (exists cur, lookup (fs s) p = Some (Dir cur)) ->
    (forall e, e ∈ todo -> lookup (fs s) (p ++ [e.1]) = Some e.2) ->
    (forall e, e ∈ todo -> isDir e.2 = true -> e.1 <> ToLower e.1 ->
       lookup (fs s) (p ++ [ToLower e.1]) = None
       /\ lookup (fs s) (p ++ [e.1 ++ "_temp_rename"]) = None) ->
    let s' := renameEach (reverse (flat_map (fun e => dirsAt (p ++ [e.1]) e.2) todo)) s in
    (exists cur', lookup (fs s') p = Some (Dir cur'))
    /\ (forall e, e ∈ todo ->
          exists c', lookup (fs s') (p ++ [finalName e]) = Some c' /\ lowered e.2 c')
    /\ (forall y, y ∈ map fst todo -> y ∉ map finalName todo ->
                  lookup (fs s') (p ++ [y]) = None)
    /\ (forall q, (forall e, e ∈ todo -> diverge (p ++ [e.1]) q
                                         /\ diverge (p ++ [finalName e]) q) ->
                  lookup (fs s') q = lookup (fs s) q)
    /\ log s' = log s
                ++ renameLines
                     (reverse (flat_map (fun e => dirsAt (p ++ [e.1]) e.2) todo)).
Proof.
  induction todo as [|[x c] todo IH] using rev_ind;
    intros HP Hnames Hfinals Htemps Hwf s Hdir Hhere Hfree.
  - cbn. split; [done|]. split; [by intros e ?%elem_of_nil|].
    split; [by intros y ?%elem_of_nil|]. split; [done|].
    by rewrite app_nil_r.
  - apply Forall_app in HP as [HP [HPc _]%Forall_cons].
    apply Forall_app in Hwf as [Hwf [[Hwfc Hfreec] _]%Forall_cons].
    rewrite map_app in Hnames, Hfinals. cbn [map fst] in Hnames, Hfinals.
    apply NoDup_app in Hnames as (Hnames & Hx & _).
    apply NoDup_app in Hfinals as (Hfinals & Hfx & _).
    cbn [fst snd] in *.
    assert (Hxc : lookup (fs s) (p ++ [x]) = Some c).
    { apply (Hhere (x, c)), elem_of_app. right. by apply list_elem_of_singleton. }
    assert (Hxfree : isDir c = true -> x <> ToLower x ->
              lookup (fs s) (p ++ [ToLower x]) = None
              /\ lookup (fs s) (p ++ [x ++ "_temp_rename"]) = None).
    { apply (Hfree (x, c)), elem_of_app. right. by apply list_elem_of_singleton. }
    rewrite flat_map_app, reverse_app, renameEach_app, renameLines_app.
    cbn [flat_map fst snd]. rewrite app_nil_r.
    destruct (lower_entry p x c s HPc Hwfc Hfreec Hxc Hxfree)
      as ((c' & Hc' & Hlow) & Hgone & Hframe & Hlog).
    set (s2 := renameEach (reverse (dirsAt (p ++ [x]) c)) s) in *.
    assert (Hother : forall e, e ∈ todo -> e.1 <> x /\ e.1 <> finalName (x, c)).
    { intros e He. assert (Hne : e.1 <> x).
      { intros Heq. apply (Hx x); [|by apply list_elem_of_singleton].
        rewrite <- Heq. apply list_elem_of_fmap. by exists e. }
      split; [done|]. unfold finalName. cbn [fst snd].
      destruct (isDir c) eqn:Hc; [|done].
      destruct (decide (x = ToLower x)) as [Hlx|Hlx]; [by rewrite <- Hlx|].
      intros Heq. destruct (Hxfree eq_refl Hlx) as [Hnone _].
      rewrite <- Heq, Hhere in Hnone; [done|]. apply elem_of_app. by left. }
    assert (Hfinal_ne : forall e, e ∈ todo -> finalName e <> finalName (x, c)).
    { intros e He Heq. apply (Hfx (finalName (x, c))).
      - rewrite <- Heq. apply list_elem_of_fmap. by exists e.
      - by apply list_elem_of_singleton. }
    assert (Hsame : forall e y, e ∈ todo -> lookup (fs s) (p ++ [y]) = None ->
              y <> finalName (x, c) ->
              lookup (fs s2) (p ++ [y]) = None).
    { intros e y He Hnone Hy. rewrite Hframe; [done|..].
      - apply siblings_diverge. intros ->. by rewrite Hxc in Hnone.
      - by apply siblings_diverge. }
    destruct (IH HP Hnames Hfinals) with (s := s2)
      as (Hdir' & Hdone & Hnone & Hframe' & Hlog').
    + intros e e' He He'. apply Htemps; apply elem_of_app; by left.
    + done.
    + apply (lookup_snoc_Some _ _ (finalName (x, c))). by rewrite Hc'.
    + intros e He. destruct (Hother e He) as [H1 H2].
      rewrite Hframe; [|by apply siblings_diverge..].
      apply Hhere, elem_of_app. by left.
    + intros e He Hedir Hex.
      destruct (Hfree e) as [Hfinal Htemp]; [apply elem_of_app; by left|done..|].
      split.
      * apply (Hsame e); [done..|]. specialize (Hfinal_ne e He).
        unfold finalName in Hfinal_ne at 1. by rewrite Hedir in Hfinal_ne.
      * apply (Hsame e); [done..|]. apply Htemps; [|  |done..].
        -- apply elem_of_app. by left.
        -- apply elem_of_app. right. by apply list_elem_of_singleton.
    + split; [done|]. split; [|split; [|split]].
      * intros e [He|He%list_elem_of_singleton]%elem_of_app; [by apply Hdone|].
        subst e. exists c'. split; [|done]. rewrite Hframe'; [done|].
        intros e He. destruct (Hother e He) as [_ H2]. split.
        -- by apply siblings_diverge.
        -- by apply siblings_diverge, Hfinal_ne.
      * intros y Hy Hnot. rewrite !map_app in *. cbn [map fst] in *.
        rewrite elem_of_app in Hy. rewrite not_elem_of_app in Hnot.
        destruct Hnot as [Hnot1 Hnot2]. rewrite list_elem_of_singleton in Hnot2.
        destruct Hy as [Hy|Hy%list_elem_of_singleton]; [by apply Hnone|].
        subst y. rewrite Hframe'; [by apply Hgone|].
        intros e He. destruct (Hother e He) as [H1 _]. split.
        -- by apply siblings_diverge.
        -- apply siblings_diverge. intros Heq. apply Hnot1.
           rewrite <- Heq. apply list_elem_of_fmap. by exists e.
      * intros q Hq. rewrite Hframe'.
        -- apply Hframe; apply (Hq (x, c)), elem_of_app; right;
             by apply list_elem_of_singleton.
        -- intros e He. apply Hq, elem_of_app. by left.
      * by rewrite Hlog', Hlog, app_assoc.
Qed.

Lemma lowersTo_all (c : node) :
  forall p s, lookup (fs s) p = Some c -> wellFormed c = true ->
              collisionFree c = true -> lowersTo p c s.
Proof.
  induction c as [d|es IH] using node_ind'; intros p s Hc Hwf Hfree.
  - unfold lowersTo, subdirectories. cbn. exists (File d).
    split; [done|]. split; [constructor|]. split; [apply outside_refl|].
    by rewrite app_nil_r.
  - apply wellFormed_Dir in Hwf as [Hnames Hwf].
    apply collisionFree_Dir in Hfree as (Hfinals & Htemps & Hfree).
    assert (Hhere : forall e, e ∈ es -> lookup (fs s) (p ++ [e.1]) = Some e.2).
    { intros [x c] He. rewrite (lookup_snoc_dir _ _ _ _ Hc). by apply find_elem. }
    unfold lowersTo. rewrite subdirectories_Dir.
    destruct (lower_children p es IH Hnames Hfinals) with (s := s)
      as ((cur' & Hdir') & Hdone & Hnone & Hframe & Hlog).
    + intros e e' He He' Hdir Hx Heq.
      apply (Htemps e He Hdir Hx), elem_of_app. right. rewrite Heq.
      apply list_elem_of_fmap. by exists e'.
    + apply Forall_forall. intros e He. rewrite Forall_forall in Hwf, Hfree.
      split; [by apply Hwf|by apply Hfree].
    + by exists es.
    + done.
    + intros [x c] He Hdir Hx. cbn [fst snd] in *.
      rewrite !(lookup_snoc_dir _ _ _ _ Hc). split.
      * destruct (find (ToLower x) es) as [c2|] eqn:Hfind; [|done]. exfalso.
        apply find_Some_elem in Hfind. apply Hx.
        assert (Heq : (x, c) = (ToLower x, c2)); [|by injection Heq].
        apply (NoDup_map_eq finalName es); [done..|].
        unfold finalName. cbn [fst snd]. rewrite Hdir.
        destruct (isDir c2); [by rewrite ToLower_idempotent|done].
      * apply find_not_name. intros Hin.
        apply (Htemps (x, c) He Hdir Hx), elem_of_app. by left.
    + exists (Dir cur'). split; [done|]. split; [|split; [|done]].
      * pose proof (fun y => lookup_snoc_dir _ _ y _ Hdir') as Hfind.
        constructor.
        -- intros x c Hx%find_Some_elem. destruct (Hdone _ Hx) as (c' & Hc' & _).
           rewrite <- Hfind, Hc'. by eexists.
        -- intros x c c' Hx%find_Some_elem Hc'.
           destruct (Hdone _ Hx) as (c2 & Hc2 & Hlow).
           rewrite <- Hfind, Hc2 in Hc'. by injection Hc' as <-.
        -- intros y c' Hy. rewrite <- Hfind in Hy.
           destruct (decide (y ∈ map finalName es)) as [Hin|Hnot].
           ++ apply list_elem_of_fmap in Hin as ([x c] & -> & Hin).
              exists x, c. split; [by apply find_elem|done].
           ++ exfalso. destruct (decide (y ∈ map fst es)) as [Hin|Hnot'].
              ** by rewrite Hnone in Hy.
              ** rewrite Hframe, (lookup_snoc_dir _ _ _ _ Hc) in Hy.
                 --- apply find_Some_elem in Hy. apply Hnot'.
                     apply list_elem_of_fmap. by exists (y, c').
                 --- intros e He. split; apply siblings_diverge; intros Heq.
                     +++ apply Hnot'. rewrite <- Heq. apply list_elem_of_fmap.
                         by exists e.
                     +++ apply Hnot. rewrite <- Heq. apply list_elem_of_fmap.
                         by exists e.
      * intros q Hq. apply Hframe. intros e _.
        split; rewrite <- (app_nil_r q); by apply diverge_app_r.
Qed.

Lemma lowered_File_l (d : str) (c' : node) : lowered (File d) c' -> c' = File d.
Proof. by inversion 1. Qed.

Lemma lowered_File_r (c : node) (d : str) : lowered c (File d) -> c = File d.
Proof. by inversion 1. Qed.

Lemma lowered_Dir_r (c : node) es' : lowered c (Dir es') -> exists es, c = Dir es.
Proof. inversion 1. by eexists. Qed.

Lemma lookup_file_below (d : str) (q : path) es :
  lookup (File d) q <> Some (Dir es).
Proof. by destruct q. Qed.

(** A directory of the tree is, under the path in lower case, a
    directory of the lowered tree. *)
Lemma lowered_forward (q : path) :
  forall c c' es,
    lowered c c' -> lookup c q = Some (Dir es) ->
    exists es', lookup c' (map ToLower q) = Some (Dir es')
                /\ lowered (Dir es) (Dir es').
Proof.
  induction q as [|x q IH]; intros c c' es Hlow Hq.
  - cbn in Hq. injection Hq as ->. inversion Hlow; subst. by eexists.
  - destruct c as [d|es0]; [done|]. cbn [lookup] in Hq.
    destruct (find x es0) as [c1|] eqn:Hfind; [|done].
    inversion Hlow as [|? es0' H1 H2 H3]; subst.
    destruct (H1 _ _ Hfind) as [c1' Hc1'].
    pose proof (H2 _ _ _ Hfind Hc1') as Hlow1.
    destruct c1 as [d|es1]; [by apply lookup_file_below in Hq|].
    unfold finalName in Hc1'. cbn [fst snd isDir] in Hc1'.
    cbn [map lookup]. rewrite Hc1'. by eapply IH.
Qed.

(** A directory of the lowered tree is a directory of the tree, under a
    path of which its path is the lower case. *)
Lemma lowered_back (q' : path) :
  forall c c' es',
    lowered c c' -> lookup c' q' = Some (Dir es') ->
    exists q es, q' = map ToLower q /\ lookup c q = Some (Dir es)
                 /\ lowered (Dir es) (Dir es').
Proof.
  induction q' as [|y q' IH]; intros c c' es' Hlow Hq.
  - cbn in Hq. injection Hq as ->. destruct (lowered_Dir_r _ _ Hlow) as [es ->].
    by exists [], es.
  - destruct c' as [d|es0']; [done|]. cbn [lookup] in Hq.
    destruct (find y es0') as [c1'|] eqn:Hfind; [|done].
    inversion Hlow as [|es0 ? H1 H2 H3]; subst.
    destruct (H3 _ _ Hfind) as (x & c1 & Hx & ->).
    pose proof (H2 _ _ _ Hx Hfind) as Hlow1.
    destruct c1' as [d|es1']; [by apply lookup_file_below in Hq|].
    destruct (lowered_Dir_r _ _ Hlow1) as [es1 ->].
    destruct (IH _ _ _ Hlow1 Hq) as (q & es & -> & Hq0 & Hlow0).
    exists (x :: q), es. cbn [map lookup]. by rewrite Hx.
Qed.

(** X19.  On a tree without collisions, in which the names of the
    directories are made of ASCII characters, [RenameDirectoriesToLowercase]
    does its work: it returns no error and logs only renames; every file
    is, with its content and under its name, where it was but for the
    names of the directories above it, which are in lower case; every
    directory is a directory under its path in lower case; afterwards every
    directory below the root has a name in lower case, and every file comes
    from a file of the tree as it was. *)
Theorem RenameDirectoriesToLowercase_lowers (rootDir : path) (st : state) (r : node) :
  lookup (fs st) rootDir = Some r ->
  wellFormed r = true ->
  asciiDirs r = true ->
  collisionFree r = true ->
  exists st' l,
    RenameDirectoriesToLowercase rootDir st = (st', None)
    /\ log st' = log st ++ l
    /\ onlyRenames l
    /\ (forall q x d, lookup r (q ++ [x]) = Some (File d) ->
          lookup (fs st') (rootDir ++ map ToLower q ++ [x]) = Some (File d))
    /\ (forall q es, lookup r q = Some (Dir es) ->
          exists es', lookup (fs st') (rootDir ++ map ToLower q) = Some (Dir es'))
    /\ (forall q x es, lookup (fs st') (rootDir ++ q ++ [x]) = Some (Dir es) ->
          x = ToLower x)
    /\ (forall q x d, lookup (fs st') (rootDir ++ q ++ [x]) = Some (File d) ->
          exists q0, q = map ToLower q0 /\ lookup r (q0 ++ [x]) = Some (File d)).
Proof.
  intros Hroot Hwf _ Hfree. unfold RenameDirectoriesToLowercase.
  rewrite (directoriesToRename_reverse _ _ r Hroot).
  destruct (lowersTo_all r rootDir st Hroot Hwf Hfree)
    as (r' & Hr' & Hlow & _ & Hlog).
  set (st' := renameEach (reverse (subdirectories rootDir r)) st) in *.
  exists st', (renameLines (reverse (subdirectories rootDir r))).
  split; [done|]. split; [done|]. split; [apply renameLines_onlyRenames|].
  split; [|split; [|split]].
  - intros q x d Hfile.
    destruct (lookup_above_Dir r q [x] _ ltac:(done) Hfile) as [es Hq].
    rewrite (lookup_snoc_dir _ _ _ _ Hq) in Hfile.
    destruct (lowered_forward q r r' es Hlow Hq) as (es' & Hq' & Hlow').
    inversion Hlow' as [|? ? H1 H2 H3]; subst.
    destruct (H1 _ _ Hfile) as [c' Hc'].
    pose proof (H2 _ _ _ Hfile Hc') as Heq%lowered_File_l. subst c'.
    rewrite lookup_app, Hr'. by rewrite (lookup_snoc_dir _ _ _ _ Hq').
  - intros q es Hq. destruct (lowered_forward q r r' es Hlow Hq) as (es' & Hq' & _).
    exists es'. by rewrite lookup_app, Hr'.
  - intros q x es Hdir. rewrite lookup_app, Hr' in Hdir.
    destruct (lowered_back _ _ _ _ Hlow Hdir) as (q0 & es0 & Hq0 & _).
    destruct q0 as [|x0 q0] using rev_ind; [by destruct q|].
    rewrite map_app in Hq0. apply app_inj_tail in Hq0 as [_ ->].
    by rewrite ToLower_idempotent.
  - intros q x d Hfile. rewrite lookup_app, Hr' in Hfile.
    destruct (lookup_above_Dir r' q [x] _ ltac:(done) Hfile) as [es' Hq'].
    rewrite (lookup_snoc_dir _ _ _ _ Hq') in Hfile.
    destruct (lowered_back _ _ _ _ Hlow Hq') as (q0 & es & -> & Hq & Hlow').
    exists q0. split; [done|].
    inversion Hlow' as [|? ? H1 H2 H3]; subst.
    destruct (H3 _ _ Hfile) as (x0 & c & Hx0 & ->).
    pose proof (H2 _ _ _ Hx0 Hfile) as Heq%lowered_File_r. subst c.
    by rewrite (lookup_snoc_dir _ _ _ _ Hq).
Qed.

Definition mixedCaseTree : node :=
  Dir [("Docs" : str,
        Dir [("API" : str, Dir [("Page.md" : str, File "page")]);
             ("ReadMe.md" : str, File "readme")]);
       ("notes" : str, Dir []);
       ("Top.md" : str, File "top")].

Lemma RenameDirectoriesToLowercase_lowers_witness :
  exists st' l,
    RenameDirectoriesToLowercase [] (State mixedCaseTree []) = (st', None)
    /\ log st' = [] ++ l
    /\ onlyRenames l
    /\ (forall q x d, lookup mixedCaseTree (q ++ [x]) = Some (File d) ->
          lookup (fs st') ([] ++ map ToLower q ++ [x]) = Some (File d))
    /\ (forall q es, lookup mixedCaseTree q = Some (Dir es) ->
          exists es', lookup (fs st') ([] ++ map ToLower q) = Some (Dir es'))
    /\ (forall q x es, lookup (fs st') ([] ++ q ++ [x]) = Some (Dir es) ->
          x = ToLower x)
    /\ (forall q x d, lookup (fs st') ([] ++ q ++ [x]) = Some (File d) ->
          exists q0, q = map ToLower q0
                     /\ lookup mixedCaseTree (q0 ++ [x]) = Some (File d)).
Proof.
  apply (RenameDirectoriesToLowercase_lowers [] (State mixedCaseTree []) mixedCaseTree).
  - reflexivity.
  - reflexivity.
  - reflexivity.
  - reflexivity.
Defined.

(** ** The loop of the case normalizer *)

(** *** The log only grows *)

Lemma visit_log (fn : path -> bool -> state -> state * option error) :
  (forall p isdir s s' res, fn p isdir s = (s', res) -> exists l, log s' = log s ++ l) ->
  forall entries s s' res,
    visit fn entries s = (s', res) -> exists l, log s' = log s ++ l.
Proof.
  intros Hfn entries. induction entries as [|[p isdir] entries IH]; intros s s' res H.
  - injection H as <- _. exists []. by rewrite app_nil_r.
  - cbn [visit] in H. destruct (fn p isdir s) as [s1 [err|]] eqn:Hstep.
    + injection H as <- _. by eapply Hfn.
    + destruct (Hfn _ _ _ _ _ Hstep) as [l1 Hl1]. destruct (IH _ _ _ H) as [l2 Hl2].
      exists (l1 ++ l2). by rewrite Hl2, Hl1, app_assoc.
Qed.

Lemma mergeEntry_log (srcDir dstDir p : path) (isdir : bool) (st st' : state)
    (res : option error) :
  mergeEntry srcDir dstDir p isdir st = (st', res) -> exists l, log st' = log st ++ l.
Proof.
  unfold mergeEntry. destruct (decide (p = srcDir)).
  { intros [= <- _]. exists []. by rewrite app_nil_r. }
  cbv zeta. destruct isdir.
  - destruct (MkdirAll (fs st) _); intros [= <- _]; exists []; by rewrite app_nil_r.
  - destruct (lookup (fs st) _).
    + intros [= <- _]. by eexists.
    + destruct (CopyFile (fs st) p _) as [n1 err]. intros [= <- _].
      exists []. by rewrite app_nil_r.
Qed.

Lemma mergeDirectories_log (srcDir dstDir : path) (st st' : state)
    (res : option error) :
  mergeDirectories srcDir dstDir st = (st', res) -> exists l, log st' = log st ++ l.
Proof.
  unfold mergeDirectories, Walk. destruct (lookup (fs st) srcDir) as [r|].
  - apply visit_log. intros p isdir s s' r0. apply mergeEntry_log.
  - intros [= <- _]. exists []. by rewrite app_nil_r.
Qed.

Lemma mergeExisting_log (finalPath dirPath : path) (st st' : state)
    (res : option error) :
  mergeExisting finalPath dirPath st = (st', res) -> exists l, log st' = log st ++ l.
Proof.
  unfold mergeExisting. destruct (lookup (fs st) finalPath).
  - destruct (mergeDirectories _ _ _) as [s1 r1] eqn:Hm.
    apply mergeDirectories_log in Hm as [l Hl]. cbn [logPrintf log] in Hl.
    destruct r1; intros [= <- _]; cbn [logPrintf log]; rewrite Hl, <- ?app_assoc;
      by eexists.
  - intros [= <- _]. exists []. by rewrite app_nil_r.
Qed.

Lemma twoPhaseRename_log (dirPath tempPath finalPath : path) (st st' : state)
    (res : option error) :
  twoPhaseRename dirPath tempPath finalPath st = (st', res) ->
  exists l, log st' = log st ++ l.
Proof.
  unfold twoPhaseRename. destruct (lookup (fs st) dirPath).
  - destruct (Rename (fs st) dirPath tempPath) as [n1|err].
    + destruct (Rename n1 tempPath finalPath) as [n2|err]; intros [= <- _];
        cbn [logPrintf setFs log].
      * by eexists.
      * exists []. by rewrite app_nil_r.
    + intros [= <- _]. exists []. by rewrite app_nil_r.
  - intros [= <- _]. by eexists.
Qed.

Lemma renameSingleDirectoryToLowercase_log (dirPath : path) (st st' : state)
    (res : option error) :
  renameSingleDirectoryToLowercase dirPath st = (st', res) ->
  exists l, log st' = log st ++ l.
Proof.
  unfold renameSingleDirectoryToLowercase. cbv zeta. destruct (decide _).
  { intros [= <- _]. exists []. by rewrite app_nil_r. }
  destruct (mergeExisting _ _ st) as [s1 [err|]] eqn:Hm;
    apply mergeExisting_log in Hm as [l1 Hl1].
  - intros [= <- _]. by exists l1.
  - intros [l2 Hl2]%twoPhaseRename_log. exists (l1 ++ l2).
    by rewrite Hl2, Hl1, app_assoc.
Qed.

Lemma renameEach_log (directories : list path) (st : state) :
  exists l, log (renameEach directories st) = log st ++ l.
Proof.
  revert st. induction directories as [|p ds IH]; intros st.
  - exists []. by rewrite app_nil_r.
  - cbn [renameEach].
    destruct (renameSingleDirectoryToLowercase p st) as [s1 [err|]] eqn:H;
      apply renameSingleDirectoryToLowercase_log in H as [l1 Hl1].
    + destruct (IH (logPrintf s1 (DirRenameError p err))) as [l2 Hl2].
      rewrite Hl2. cbn [logPrintf log]. rewrite Hl1, <- !app_assoc. by eexists.
    + destruct (IH s1) as [l2 Hl2]. rewrite Hl2, Hl1, <- app_assoc. by eexists.
Qed.

(** The error of a directory is logged by the loop, which goes on with
    the directories that remain. *)
Lemma renameEach_error (dirPath : path) (remaining : list path) (st st' : state)
    (err : error) :
  renameSingleDirectoryToLowercase dirPath st = (st', Some err) ->
  renameEach (dirPath :: remaining) st
  = renameEach remaining (logPrintf st' (DirRenameError dirPath err))
  /\ exists l, log (renameEach (dirPath :: remaining) st)
               = log st' ++ DirRenameError dirPath err :: l.
Proof.
  intros H. cbn [renameEach]. rewrite H. split; [done|].
  destruct (renameEach_log remaining (logPrintf st' (DirRenameError dirPath err)))
    as [l Hl].
  exists l. rewrite Hl. cbn [logPrintf log]. by rewrite <- app_assoc.
Qed.

(** *** The merge loses nothing *)

Lemma visit_keeps (fn : path -> bool -> state -> state * option error) :
  (forall p isdir s s' res, fn p isdir s = (s', res) -> keeps (fs s) (fs s')) ->
  forall entries s s' res,
    visit fn entries s = (s', res) -> keeps (fs s) (fs s').
Proof.
  intros Hfn entries. induction entries as [|[p isdir] entries IH]; intros s s' res H.
  - injection H as <- _. apply keeps_refl.
  - cbn [visit] in H. destruct (fn p isdir s) as [s1 [err|]] eqn:Hstep.
    + injection H as <- _. by eapply Hfn.
    + eapply keeps_trans; [by eapply Hfn|by eapply IH].
Qed.

Lemma CopyFile_new_keeps (n n' : node) (src dst : path) (res : option error) :
  lookup n dst = None -> CopyFile n src dst = (n', res) -> keeps n n'.
Proof.
  intros Hnew. unfold CopyFile.
  destruct (lookup n src) as [s|]; [|intros [= <- _]; apply keeps_refl].
  destruct (MkdirAll n (removelast dst)) as [n1|] eqn:Hmk;
    [|intros [= <- _]; apply keeps_refl].
  assert (Hdst : dst <> []) by (intros ->; by destruct n).
  assert (Hnew1 : lookup n1 dst = None).
  { rewrite (MkdirAll_lookup_other _ _ _ _ Hmk); [done|].
    intros [r Hr]. apply (f_equal length) in Hr. rewrite length_app in Hr.
    rewrite (app_removelast_last [] Hdst) in Hr at 2.
    rewrite length_app in Hr. simpl in Hr. lia. }
  pose proof (MkdirAll_keeps _ _ _ Hmk) as Hkeep.
  assert (H2 : forall data n2 res2,
            match WriteFile n1 dst data with
            | inl n2 => (n2, res2)
            | inr err => (n1, Some err)
            end = (n2, res) -> keeps n n2).
  { intros data n2 res2. unfold WriteFile. rewrite Hnew1.
    destruct (place n1 dst (File data)) as [n3|] eqn:Hpl; intros [= <- _]; [|done].
    eapply keeps_trans; [done|]. by eapply place_new_keeps. }
  destruct s as [data|es]; intros H; by eapply H2.
Qed.

Lemma mergeEntry_keeps (srcDir dstDir p : path) (isdir : bool) (st st' : state)
    (res : option error) :
  mergeEntry srcDir dstDir p isdir st = (st', res) -> keeps (fs st) (fs st').
Proof.
  unfold mergeEntry. destruct (decide (p = srcDir));
    [intros [= <- _]; apply keeps_refl|].
  cbv zeta. destruct isdir.
  - destruct (MkdirAll (fs st) _) as [n1|] eqn:Hmk; intros [= <- _];
      [by eapply MkdirAll_keeps|apply keeps_refl].
  - destruct (lookup (fs st) _) eqn:Hdst; [intros [= <- _]; apply keeps_refl|].
    destruct (CopyFile (fs st) p _) as [n1 err] eqn:Hcopy. intros [= <- _].
    by eapply CopyFile_new_keeps.
Qed.

Lemma mergeDirectories_keeps (srcDir dstDir : path) (st st' : state)
    (res : option error) :
  mergeDirectories srcDir dstDir st = (st', res) -> keeps (fs st) (fs st').
Proof.
  unfold mergeDirectories, Walk. destruct (lookup (fs st) srcDir) as [r|].
  - apply visit_keeps. intros p isdir s s' r0. apply mergeEntry_keeps.
  - intros [= <- _]. apply keeps_refl.
Qed.

Lemma mergeExisting_keeps (finalPath dirPath : path) (st st' : state)
    (res : option error) :
  mergeExisting finalPath dirPath st = (st', res) -> keeps (fs st) (fs st').
Proof.
  unfold mergeExisting.
  destruct (lookup (fs st) finalPath); [|intros [= <- _]; apply keeps_refl].
  destruct (mergeDirectories _ _ _) as [s1 r1] eqn:Hm.
  apply mergeDirectories_keeps in Hm. cbn [logPrintf fs] in Hm.
  by destruct r1; intros [= <- _].
Qed.

Lemma mergeExisting_outside (finalPath dirPath : path) (st st' : state)
    (res : option error) :
  mergeExisting finalPath dirPath st = (st', res) -> outside dirPath (fs st) (fs st').
Proof.
  unfold mergeExisting.
  destruct (lookup (fs st) finalPath); [|intros [= <- _]; apply outside_refl].
  destruct (mergeDirectories _ _ _) as [s1 r1] eqn:Hm.
  apply mergeDirectories_outside in Hm. cbn [logPrintf fs] in Hm.
  by destruct r1; intros [= <- _].
Qed.

(** *** The merge of a canonical directory *)

(** C4, as the code has it.  When the canonical name of a directory with
    a name of ASCII characters is taken, what is below the canonical name
    is merged into the directory that is being renamed: the canonical
    directory is left exactly as it is, nothing of the tree is lost or
    overwritten, and when the merge returns no error every entry of the
    canonical directory is below the renamed directory under the same
    name, a file either as it was there before, with the conflict logged,
    or as a copy.  An error of the merge is returned, around its cause, to
    the loop: the line of the error is in the log right after the lines
    of the merge, and the loop goes on with the remaining directories. *)
Theorem mergeExisting_into_renamed
    (dir : path) (currentName : str) (tree : node) (st st' : state)
    (res : option error) :
  let dirPath := dir ++ [currentName] in
  let finalPath := dir ++ [ToLower currentName] in
  isASCII currentName = true ->
  currentName <> ToLower currentName ->
  lookup (fs st) finalPath = Some tree ->
  wellFormed tree = true ->
  mergeExisting finalPath dirPath st = (st', res) ->
  lookup (fs st') finalPath = Some tree
  /\ keeps (fs st) (fs st')
  /\ (res = None ->
      forall x c, lookup tree [x] = Some c -> mergedTo c (dirPath ++ [x]) st st')
  /\ (forall err remaining,
        res = Some err ->
        (exists cause, err = MergeFailed finalPath dirPath cause)
        /\ renameEach (dirPath :: remaining) st
           = renameEach remaining (logPrintf st' (DirRenameError dirPath err))
        /\ exists l, log (renameEach (dirPath :: remaining) st)
                     = log st' ++ DirRenameError dirPath err :: l).
Proof.
  intros dirPath finalPath _ Hname Hfinal Hwf Hmerge.
  assert (Hcall : forall err, res = Some err ->
             renameSingleDirectoryToLowercase dirPath st = (st', Some err)).
  { intros err ->. unfold renameSingleDirectoryToLowercase, dirPath.
    rewrite removelast_snoc, last_snoc', decide_False by done.
    fold finalPath dirPath. by rewrite Hmerge. }
  unfold mergeExisting in Hmerge. rewrite Hfinal in Hmerge.
  destruct (mergeDirectories finalPath dirPath (logPrintf st (TargetDirExists finalPath)))
    as [st1 res1] eqn:Hdirs.
  apply (mergeDirectories_spec dir currentName (ToLower currentName) Hname tree)
    in Hdirs as (Hsrc & Hkeep & [l Hlog] & Hmerged); [|done..].
  assert (Hfs : fs st' = fs st1) by (by destruct res1; injection Hmerge as <- _).
  rewrite Hfs. split; [done|]. split; [done|]. split.
  - intros -> x c Hx. destruct res1; [done|]. injection Hmerge as <-.
    intros r m Hr. specialize (Hmerged eq_refl x c Hx r m Hr).
    destruct m as [data|entries]; [|done]. cbn [logPrintf fs log] in *.
    unfold dirPath.
    destruct (lookup (fs st) (((dir ++ [currentName]) ++ [x]) ++ r)); [|done].
    destruct Hmerged as [Hold Hskip]. split; [done|].
    apply elem_of_app. by left.
  - intros err remaining Hres. split.
    + destruct res1 as [cause|]; [|by rewrite Hres in Hmerge].
      exists cause. rewrite Hres in Hmerge. by injection Hmerge as _ ->.
    + by apply renameEach_error, Hcall.
Qed.

(** A canonical directory with a directory [x] next to a directory to
    rename with a file [x]: the merge cannot make the directory. *)
Definition clashTree : node :=
  Dir [("Docs" : str, Dir [("x" : str, File "file")]);
       ("docs" : str, Dir [("x" : str, Dir [("y.txt" : str, File "deep")])])].

Lemma mergeExisting_into_renamed_witness :
  let st := State collisionTree [] in
  let st' := (mergeExisting ["docs" : str] ["Docs" : str] st).1 in
  let ct := State clashTree [] in
  let ct' := (mergeExisting ["docs" : str] ["Docs" : str] ct).1 in
  (lookup (fs st') ["docs" : str]
   = Some (Dir [("a.txt" : str, File "lower"); ("b.txt" : str, File "only lower")])
   /\ keeps (fs st) (fs st')
   /\ mergedTo (File "lower") ["Docs" : str; "a.txt" : str] st st'
   /\ mergedTo (File "only lower") ["Docs" : str; "b.txt" : str] st st')
  /\ (lookup (fs ct') ["docs" : str] = lookup clashTree ["docs" : str]
      /\ keeps (fs ct) (fs ct')
      /\ renameEach [["Docs" : str]] ct
         = logPrintf ct'
             (DirRenameError ["Docs" : str]
                (MergeFailed ["docs" : str] ["Docs" : str] ENOTDIR))
      /\ exists l,
           log (renameEach [["Docs" : str]] ct)
           = log ct' ++ DirRenameError ["Docs" : str]
                          (MergeFailed ["docs" : str] ["Docs" : str] ENOTDIR) :: l).
Proof.
  intros st st' ct ct'. split.
  - destruct (mergeExisting_into_renamed [] "Docs"
                (Dir [("a.txt" : str, File "lower"); ("b.txt" : str, File "only lower")])
                st st' None)
      as (H1 & H2 & H3 & _); [reflexivity|by vm_compute|reflexivity..|].
    split; [exact H1|]. split; [exact H2|]. split.
    + by apply (H3 eq_refl "a.txt").
    + by apply (H3 eq_refl "b.txt").
  - destruct (mergeExisting_into_renamed [] "Docs"
                (Dir [("x" : str, Dir [("y.txt" : str, File "deep")])])
                ct ct' (Some (MergeFailed ["docs" : str] ["Docs" : str] ENOTDIR)))
      as (H1 & H2 & _ & H4); [reflexivity|by vm_compute|reflexivity..|].
    destruct (H4 _ [] eq_refl) as (_ & H5 & H6).
    split; [exact H1|]. split; [exact H2|]. split; [exact H5|exact H6].
Defined.

(** *** The rename back *)

(** The claim of the specification has the directory left with its
    contents unchanged.  The second rename fails because the canonical name
    is taken, and then the merge has run before the first rename: the
    directory is back under its name, with the file [b.txt] the merge has
    copied into it. *)
Lemma rollback_keeps_merged :
  let st := State collisionTree [] in
  let res := renameSingleDirectoryToLowercase ["Docs" : str] st in
  res.2 = Some (FinalRenameFailed ["Docs_temp_rename" : str] ["docs" : str] EEXIST)
  /\ lookup (fs st) ["Docs" : str; "b.txt" : str] = None
  /\ lookup (fs res.1) ["Docs" : str; "b.txt" : str] = Some (File "only lower")
  /\ lookup (fs res.1) ["Docs" : str] <> lookup (fs st) ["Docs" : str].
Proof. split; [reflexivity|]. split; [reflexivity|]. split; [reflexivity|by vm_compute]. Qed.

(** C5, as the code has it.  When the rename to the final name fails,
    the directory, whose name is made of ASCII characters, is renamed back:
    the call returns the error around its cause; the directory is under
    its original name with the content it had when the first rename began,
    so with all it held before the call, and with what a merge earlier in
    the call has copied into it; the temporary name is gone; nothing next
    to the directory or elsewhere has changed; the line of the error is in
    the log right after the lines of the call, and the loop goes on with
    the remaining directories. *)
Theorem renameSingleDirectoryToLowercase_rollback
    (dir : path) (currentName : str) (st stm : state) (v n1 : node)
    (err : error) (remaining : list path) :
  let dirPath := dir ++ [currentName] in
  let finalPath := dir ++ [ToLower currentName] in
  let tempPath := dir ++ [currentName ++ "_temp_rename"] in
  isASCII currentName = true ->
  currentName <> ToLower currentName ->
  mergeExisting finalPath dirPath st = (stm, None) ->
  lookup (fs stm) dirPath = Some v ->
  Rename (fs stm) dirPath tempPath = inl n1 ->
  Rename n1 tempPath finalPath = inr err ->
  exists st',
    renameSingleDirectoryToLowercase dirPath st
    = (st', Some (FinalRenameFailed tempPath finalPath err))
    /\ lookup (fs st') dirPath = Some v
    /\ (forall r,
          match lookup (fs st) (dirPath ++ r) with
          | Some (File d) => lookup (fs st') (dirPath ++ r) = Some (File d)
          | Some (Dir _) => exists es, lookup (fs st') (dirPath ++ r) = Some (Dir es)
          | None => True
          end)
    /\ lookup (fs st') tempPath = None
    /\ (forall q, diverge dirPath q -> diverge tempPath q ->
                  lookup (fs st') q = lookup (fs st) q)
    /\ log st' = log stm
    /\ renameEach (dirPath :: remaining) st
       = renameEach remaining
           (logPrintf st'
              (DirRenameError dirPath (FinalRenameFailed tempPath finalPath err)))
    /\ exists l,
         log (renameEach (dirPath :: remaining) st)
         = log st'
           ++ DirRenameError dirPath (FinalRenameFailed tempPath finalPath err) :: l.
Proof.
  intros dirPath finalPath tempPath _ Hlower Hmerge Hv Hone Htwo.
  assert (Htemp : currentName <> currentName ++ "_temp_rename").
  { intros H. symmetry in H. by apply temp_name_ne in H. }
  destruct (Rename_there_and_back (fs stm) n1 dir currentName
              (currentName ++ "_temp_rename") v Htemp Hv Hone)
    as (n2 & Hback & Hx & Hy & Hframe).
  exists (setFs stm n2).
  assert (Hcall : renameSingleDirectoryToLowercase dirPath st
                  = (setFs stm n2, Some (FinalRenameFailed tempPath finalPath err))).
  { unfold renameSingleDirectoryToLowercase, dirPath.
    rewrite removelast_snoc, last_snoc', decide_False by done.
    fold finalPath dirPath. rewrite Hmerge. fold tempPath.
    unfold twoPhaseRename. rewrite Hv, Hone, Htwo.
    unfold tempPath, dirPath. by rewrite Hback. }
  pose proof (mergeExisting_keeps _ _ _ _ _ Hmerge) as Hkeep.
  pose proof (mergeExisting_outside _ _ _ _ _ Hmerge) as Hout.
  destruct (renameEach_error dirPath remaining _ _ _ Hcall) as [Hloop Hlog].
  cbn [setFs fs log] in *.
  split; [done|]. split; [done|]. split.
  { intros r. specialize (Hkeep (dirPath ++ r)).
    assert (Heq : lookup n2 (dirPath ++ r) = lookup (fs stm) (dirPath ++ r)).
    { rewrite !lookup_app. fold dirPath in Hx. by rewrite Hx, Hv. }
    by rewrite Heq. }
  split; [done|]. split; [|done].
  intros q Hq1 Hq2. rewrite Hframe by done. by apply Hout.
Qed.

Lemma renameSingleDirectoryToLowercase_rollback_witness :
  exists st',
    renameSingleDirectoryToLowercase ["Docs" : str] (State collisionTree [])
    = (st', Some (FinalRenameFailed ["Docs_temp_rename" : str] ["docs" : str] EEXIST))
    /\ lookup (fs st') ["Docs" : str]
       = Some (Dir [("a.txt" : str, File "upper"); ("b.txt" : str, File "only lower");
                    ("c.txt" : str, File "only upper")])
    /\ lookup (fs st') ["Docs_temp_rename" : str] = None
    /\ lookup (fs st') ["docs" : str] = lookup collisionTree ["docs" : str]
    /\ exists l,
         log (renameEach [["Docs" : str]] (State collisionTree []))
         = log st'
           ++ DirRenameError ["Docs" : str]
                (FinalRenameFailed ["Docs_temp_rename" : str] ["docs" : str] EEXIST)
              :: l.
Proof.
  destruct (renameSingleDirectoryToLowercase_rollback
              [] "Docs" (State collisionTree [])
              (mergeExisting ["docs" : str] ["Docs" : str] (State collisionTree [])).1
              (Dir [("a.txt" : str, File "upper"); ("b.txt" : str, File "only lower");
                    ("c.txt" : str, File "only upper")])
              (Dir [("Docs_temp_rename" : str,
                     Dir [("a.txt" : str, File "upper"); ("b.txt" : str, File "only lower");
                          ("c.txt" : str, File "only upper")]);
                    ("docs" : str,
                     Dir [("a.txt" : str, File "lower"); ("b.txt" : str, File "only lower")])])
              EEXIST [])
    as (st' & H1 & H2 & _ & H4 & H5 & _ & _ & H8);
    [reflexivity|by vm_compute|reflexivity..|].
  exists st'. split; [exact H1|]. split; [exact H2|]. split; [exact H4|].
  split; [|exact H8].
  apply (H5 ["docs" : str]); by constructor.
Defined.

(** *** The order of the loop *)


